(** * The viewport transform engine of the poster-session map

    A shallow embedding of the pan / zoom / pinch / inertia / centering code
    of [assets/js/script.js] (class [PosterSessionMap]) and the properties
    the specification states about it.

    Numbers.  A JavaScript number is modelled by [num]: a real number, or one
    of the three non-finite values [NaN], [+Infinity], [-Infinity].
    Arithmetic on finite values is the exact arithmetic of the reals (no
    rounding, no overflow, no negative zero); the non-finite values follow
    the IEEE rules the language uses.  Equalities proved below are therefore
    the exact identities that the running code meets up to rounding.  Where
    rounding decides a statement, the source expression is also given on
    IEEE binary64 numbers ([getViewBox64], [zoomIn64]) and evaluated there.

    Time and frames.  [performance.now()] is an argument of every handler that
    reads it, read once per call of the handler.  [requestAnimationFrame] /
    [cancelAnimationFrame] act on an explicit queue of pending callbacks kept
    in the state; handles are the positive integers in turn; a [Frame] event
    runs the callbacks that are pending when the frame starts.

    DOM effects that nothing reads back ([preventDefault], the cursor style,
    the [viewBox] attribute written by [updateViewBox], the info panel) are
    left out; [updateViewBox] writes exactly [getViewBox], which is modelled.

    Beside the viewport.  The info panel ([selectArea], [showAreaInfo],
    [hideInfo]), full screen and the table-only toggle, and the table scroll
    fix each have a state of their own ([Panel], [Screen], [ScrollFix]),
    with the DOM classes and attributes they read back as fields, and the
    browser's pending timeouts in an explicit table like the frames. *)

From Stdlib Require Import PrimFloat.
From Stdlib Require Import String.
From Stdlib Require Import Reals Lra Lia List Bool PeanoNat.
Import ListNotations.

(** A decimal literal of a binary64 number stands for the nearest binary64
    number, as it does in the language. *)
#[local] Set Warnings "-inexact-float".

Open Scope R_scope.

(* ================================================================= *)
(** ** JavaScript numbers *)

Module Js.

Inductive num : Type :=
| NaN
| PInf
| NInf
| Fin (r : R).

Definition neg (a : num) : num :=
  match a with
  | NaN => NaN
  | PInf => NInf
  | NInf => PInf
  | Fin x => Fin (- x)
  end.

Definition add (a b : num) : num :=
  match a, b with
  | NaN, _ | _, NaN => NaN
  | PInf, NInf | NInf, PInf => NaN
  | PInf, _ | _, PInf => PInf
  | NInf, _ | _, NInf => NInf
  | Fin x, Fin y => Fin (x + y)
  end.

Definition sub (a b : num) : num := add a (neg b).

(** An infinity scaled by a finite factor: the sign follows the factor, and
    a zero factor gives [NaN]. *)
Definition scale_inf (inf : num) (r : R) : num :=
  if Rlt_dec 0 r then inf
  else if Rlt_dec r 0 then neg inf
  else NaN.

Definition mul (a b : num) : num :=
  match a, b with
  | NaN, _ | _, NaN => NaN
  | Fin x, Fin y => Fin (x * y)
  | PInf, PInf | NInf, NInf => PInf
  | PInf, NInf | NInf, PInf => NInf
  | Fin x, (PInf | NInf) => scale_inf b x
  | (PInf | NInf), Fin y => scale_inf a y
  end.

(** Division.  A finite number over zero is an infinity of the sign of the
    numerator ([0/0] is [NaN]); the sign of a zero divisor is not tracked. *)
Definition div (a b : num) : num :=
  match a, b with
  | NaN, _ | _, NaN => NaN
  | (PInf | NInf), (PInf | NInf) => NaN
  | Fin _, (PInf | NInf) => Fin 0
  | (PInf | NInf), Fin y => if Rlt_dec y 0 then neg a else a
  | Fin x, Fin y =>
      if Req_dec_T y 0 then scale_inf PInf x else Fin (x / y)
  end.

(** [a < b], [a <= b], [a === b]: every comparison with [NaN] is false. *)
Definition lt (a b : num) : bool :=
  match a, b with
  | NaN, _ | _, NaN => false
  | _, NInf => false
  | NInf, _ => true
  | PInf, _ => false
  | Fin _, PInf => true
  | Fin x, Fin y => if Rlt_dec x y then true else false
  end.

Definition strict_eq (a b : num) : bool :=
  match a, b with
  | PInf, PInf | NInf, NInf => true
  | Fin x, Fin y => if Req_dec_T x y then true else false
  | _, _ => false
  end.

Definition le (a b : num) : bool := lt a b || strict_eq a b.
Definition gt (a b : num) : bool := lt b a.

(** Truthiness of a number: everything but [0] and [NaN]. *)
Definition truthy (a : num) : bool :=
  match a with
  | NaN => false
  | Fin x => if Req_dec_T x 0 then false else true
  | _ => true
  end.

(** [a || b] on numbers. *)
Definition or_else (a b : num) : num := if truthy a then a else b.

Definition Number_isFinite (a : num) : bool :=
  match a with Fin _ => true | _ => false end.

Definition Math_max (a b : num) : num :=
  match a, b with
  | NaN, _ | _, NaN => NaN
  | _, _ => if lt a b then b else a
  end.

Definition Math_min (a b : num) : num :=
  match a, b with
  | NaN, _ | _, NaN => NaN
  | _, _ => if lt b a then b else a
  end.

Definition Math_abs (a : num) : num :=
  match a with
  | NaN => NaN
  | PInf | NInf => PInf
  | Fin x => Fin (Rabs x)
  end.

(** [Math.hypot] of two arguments: an infinite argument wins over [NaN]. *)
Definition Math_hypot (a b : num) : num :=
  match a, b with
  | (PInf | NInf), _ | _, (PInf | NInf) => PInf
  | NaN, _ | _, NaN => NaN
  | Fin x, Fin y => Fin (sqrt (x * x + y * y))
  end.

Definition Math_exp (a : num) : num :=
  match a with
  | NaN => NaN
  | PInf => PInf
  | NInf => Fin 0
  | Fin x => Fin (exp x)
  end.

(** [Math.pow(b, e)] for a finite base [0 < b < 1], the only kind of base the
    program passes (the inertia decay constant). *)
Definition Math_pow_decay (b : R) (e : num) : num :=
  match e with
  | NaN => NaN
  | PInf => Fin 0
  | NInf => PInf
  | Fin x => Fin (Rpower b x)
  end.

End Js.

Import Js.

Declare Scope js_scope.
Delimit Scope js_scope with js.
Bind Scope js_scope with num.
Infix "+" := add : js_scope.
Infix "-" := sub : js_scope.
Infix "*" := mul : js_scope.
Infix "/" := div : js_scope.
Notation "- x" := (neg x) : js_scope.
Notation "# r" := (Fin r%R) (at level 5, r at level 0, format "# r") : js_scope.

Local Open Scope js_scope.

(* ================================================================= *)
(** ** State *)

Inductive InputType : Type := mouse | touch.

(** The two closures handed to [requestAnimationFrame], with the variables
    they capture: [step] of [startPanInertia] (its mutable [lastTime]) and
    [step] of [animatePan]. *)
Inductive FrameCallback : Type :=
| InertiaStep (lastTime : num)
| PanAnimStep (startPanX startPanY targetPanX targetPanY
               startTime duration : num).

(** The fields of [PosterSessionMap] that the viewport code uses, the [let]
    variables of [initializeEventListeners] its handlers close over, and the
    browser's frame queue.  [startX], [startY], [initialPanX], [initialPanY]
    start out [undefined], which arithmetic reads as [NaN].  A completion
    callback is known by an identifier; [completed] logs the ones invoked. *)
Record State : Type := mkState {
  currentZoom : num;
  panX : num;
  panY : num;
  panVelocityX : num;
  panVelocityY : num;
  panInertiaFrame : option nat;
  panAnimationFrame : option nat;
  panAnimationComplete : option nat;
  isMultiTouchGesture : bool;
  isPanning : bool;
  startX : num;
  startY : num;
  initialPanX : num;
  initialPanY : num;
  lastPointerX : num;
  lastPointerY : num;
  lastPointerTime : num;
  pinchActive : bool;
  pinchStartDistance : num;
  pinchStartZoom : num;
  panInputType : InputType;
  currentPanMultiplier : num;
  frames : list (nat * FrameCallback);
  nextFrame : nat;
  completed : list nat
}.

(** Field updates. *)
Definition set_currentZoom (v : num) (st : State) : State :=
  {| currentZoom := v; panX := panX st; panY := panY st;
     panVelocityX := panVelocityX st; panVelocityY := panVelocityY st;
     panInertiaFrame := panInertiaFrame st;
     panAnimationFrame := panAnimationFrame st;
     panAnimationComplete := panAnimationComplete st;
     isMultiTouchGesture := isMultiTouchGesture st;
     isPanning := isPanning st; startX := startX st; startY := startY st;
     initialPanX := initialPanX st; initialPanY := initialPanY st;
     lastPointerX := lastPointerX st; lastPointerY := lastPointerY st;
     lastPointerTime := lastPointerTime st; pinchActive := pinchActive st;
     pinchStartDistance := pinchStartDistance st;
     pinchStartZoom := pinchStartZoom st; panInputType := panInputType st;
     currentPanMultiplier := currentPanMultiplier st; frames := frames st;
     nextFrame := nextFrame st; completed := completed st |}.

Definition set_panX (v : num) (st : State) : State :=
  {| currentZoom := currentZoom st; panX := v; panY := panY st;
     panVelocityX := panVelocityX st; panVelocityY := panVelocityY st;
     panInertiaFrame := panInertiaFrame st;
     panAnimationFrame := panAnimationFrame st;
     panAnimationComplete := panAnimationComplete st;
     isMultiTouchGesture := isMultiTouchGesture st;
     isPanning := isPanning st; startX := startX st; startY := startY st;
     initialPanX := initialPanX st; initialPanY := initialPanY st;
     lastPointerX := lastPointerX st; lastPointerY := lastPointerY st;
     lastPointerTime := lastPointerTime st; pinchActive := pinchActive st;
     pinchStartDistance := pinchStartDistance st;
     pinchStartZoom := pinchStartZoom st; panInputType := panInputType st;
     currentPanMultiplier := currentPanMultiplier st; frames := frames st;
     nextFrame := nextFrame st; completed := completed st |}.

Definition set_panY (v : num) (st : State) : State :=
  {| currentZoom := currentZoom st; panX := panX st; panY := v;
     panVelocityX := panVelocityX st; panVelocityY := panVelocityY st;
     panInertiaFrame := panInertiaFrame st;
     panAnimationFrame := panAnimationFrame st;
     panAnimationComplete := panAnimationComplete st;
     isMultiTouchGesture := isMultiTouchGesture st;
     isPanning := isPanning st; startX := startX st; startY := startY st;
     initialPanX := initialPanX st; initialPanY := initialPanY st;
     lastPointerX := lastPointerX st; lastPointerY := lastPointerY st;
     lastPointerTime := lastPointerTime st; pinchActive := pinchActive st;
     pinchStartDistance := pinchStartDistance st;
     pinchStartZoom := pinchStartZoom st; panInputType := panInputType st;
     currentPanMultiplier := currentPanMultiplier st; frames := frames st;
     nextFrame := nextFrame st; completed := completed st |}.

Definition set_panVelocityX (v : num) (st : State) : State :=
  {| currentZoom := currentZoom st; panX := panX st; panY := panY st;
     panVelocityX := v; panVelocityY := panVelocityY st;
     panInertiaFrame := panInertiaFrame st;
     panAnimationFrame := panAnimationFrame st;
     panAnimationComplete := panAnimationComplete st;
     isMultiTouchGesture := isMultiTouchGesture st;
     isPanning := isPanning st; startX := startX st; startY := startY st;
     initialPanX := initialPanX st; initialPanY := initialPanY st;
     lastPointerX := lastPointerX st; lastPointerY := lastPointerY st;
     lastPointerTime := lastPointerTime st; pinchActive := pinchActive st;
     pinchStartDistance := pinchStartDistance st;
     pinchStartZoom := pinchStartZoom st; panInputType := panInputType st;
     currentPanMultiplier := currentPanMultiplier st; frames := frames st;
     nextFrame := nextFrame st; completed := completed st |}.

Definition set_panVelocityY (v : num) (st : State) : State :=
  {| currentZoom := currentZoom st; panX := panX st; panY := panY st;
     panVelocityX := panVelocityX st; panVelocityY := v;
     panInertiaFrame := panInertiaFrame st;
     panAnimationFrame := panAnimationFrame st;
     panAnimationComplete := panAnimationComplete st;
     isMultiTouchGesture := isMultiTouchGesture st;
     isPanning := isPanning st; startX := startX st; startY := startY st;
     initialPanX := initialPanX st; initialPanY := initialPanY st;
     lastPointerX := lastPointerX st; lastPointerY := lastPointerY st;
     lastPointerTime := lastPointerTime st; pinchActive := pinchActive st;
     pinchStartDistance := pinchStartDistance st;
     pinchStartZoom := pinchStartZoom st; panInputType := panInputType st;
     currentPanMultiplier := currentPanMultiplier st; frames := frames st;
     nextFrame := nextFrame st; completed := completed st |}.

Definition set_panInertiaFrame (v : option nat) (st : State) : State :=
  {| currentZoom := currentZoom st; panX := panX st; panY := panY st;
     panVelocityX := panVelocityX st; panVelocityY := panVelocityY st;
     panInertiaFrame := v; panAnimationFrame := panAnimationFrame st;
     panAnimationComplete := panAnimationComplete st;
     isMultiTouchGesture := isMultiTouchGesture st;
     isPanning := isPanning st; startX := startX st; startY := startY st;
     initialPanX := initialPanX st; initialPanY := initialPanY st;
     lastPointerX := lastPointerX st; lastPointerY := lastPointerY st;
     lastPointerTime := lastPointerTime st; pinchActive := pinchActive st;
     pinchStartDistance := pinchStartDistance st;
     pinchStartZoom := pinchStartZoom st; panInputType := panInputType st;
     currentPanMultiplier := currentPanMultiplier st; frames := frames st;
     nextFrame := nextFrame st; completed := completed st |}.

Definition set_panAnimationFrame (v : option nat) (st : State) : State :=
  {| currentZoom := currentZoom st; panX := panX st; panY := panY st;
     panVelocityX := panVelocityX st; panVelocityY := panVelocityY st;
     panInertiaFrame := panInertiaFrame st; panAnimationFrame := v;
     panAnimationComplete := panAnimationComplete st;
     isMultiTouchGesture := isMultiTouchGesture st;
     isPanning := isPanning st; startX := startX st; startY := startY st;
     initialPanX := initialPanX st; initialPanY := initialPanY st;
     lastPointerX := lastPointerX st; lastPointerY := lastPointerY st;
     lastPointerTime := lastPointerTime st; pinchActive := pinchActive st;
     pinchStartDistance := pinchStartDistance st;
     pinchStartZoom := pinchStartZoom st; panInputType := panInputType st;
     currentPanMultiplier := currentPanMultiplier st; frames := frames st;
     nextFrame := nextFrame st; completed := completed st |}.

Definition set_panAnimationComplete (v : option nat) (st : State) : State :=
  {| currentZoom := currentZoom st; panX := panX st; panY := panY st;
     panVelocityX := panVelocityX st; panVelocityY := panVelocityY st;
     panInertiaFrame := panInertiaFrame st;
     panAnimationFrame := panAnimationFrame st; panAnimationComplete := v;
     isMultiTouchGesture := isMultiTouchGesture st;
     isPanning := isPanning st; startX := startX st; startY := startY st;
     initialPanX := initialPanX st; initialPanY := initialPanY st;
     lastPointerX := lastPointerX st; lastPointerY := lastPointerY st;
     lastPointerTime := lastPointerTime st; pinchActive := pinchActive st;
     pinchStartDistance := pinchStartDistance st;
     pinchStartZoom := pinchStartZoom st; panInputType := panInputType st;
     currentPanMultiplier := currentPanMultiplier st; frames := frames st;
     nextFrame := nextFrame st; completed := completed st |}.

Definition set_isMultiTouchGesture (v : bool) (st : State) : State :=
  {| currentZoom := currentZoom st; panX := panX st; panY := panY st;
     panVelocityX := panVelocityX st; panVelocityY := panVelocityY st;
     panInertiaFrame := panInertiaFrame st;
     panAnimationFrame := panAnimationFrame st;
     panAnimationComplete := panAnimationComplete st;
     isMultiTouchGesture := v; isPanning := isPanning st;
     startX := startX st; startY := startY st; initialPanX := initialPanX st;
     initialPanY := initialPanY st; lastPointerX := lastPointerX st;
     lastPointerY := lastPointerY st; lastPointerTime := lastPointerTime st;
     pinchActive := pinchActive st;
     pinchStartDistance := pinchStartDistance st;
     pinchStartZoom := pinchStartZoom st; panInputType := panInputType st;
     currentPanMultiplier := currentPanMultiplier st; frames := frames st;
     nextFrame := nextFrame st; completed := completed st |}.

Definition set_isPanning (v : bool) (st : State) : State :=
  {| currentZoom := currentZoom st; panX := panX st; panY := panY st;
     panVelocityX := panVelocityX st; panVelocityY := panVelocityY st;
     panInertiaFrame := panInertiaFrame st;
     panAnimationFrame := panAnimationFrame st;
     panAnimationComplete := panAnimationComplete st;
     isMultiTouchGesture := isMultiTouchGesture st; isPanning := v;
     startX := startX st; startY := startY st; initialPanX := initialPanX st;
     initialPanY := initialPanY st; lastPointerX := lastPointerX st;
     lastPointerY := lastPointerY st; lastPointerTime := lastPointerTime st;
     pinchActive := pinchActive st;
     pinchStartDistance := pinchStartDistance st;
     pinchStartZoom := pinchStartZoom st; panInputType := panInputType st;
     currentPanMultiplier := currentPanMultiplier st; frames := frames st;
     nextFrame := nextFrame st; completed := completed st |}.

Definition set_startX (v : num) (st : State) : State :=
  {| currentZoom := currentZoom st; panX := panX st; panY := panY st;
     panVelocityX := panVelocityX st; panVelocityY := panVelocityY st;
     panInertiaFrame := panInertiaFrame st;
     panAnimationFrame := panAnimationFrame st;
     panAnimationComplete := panAnimationComplete st;
     isMultiTouchGesture := isMultiTouchGesture st;
     isPanning := isPanning st; startX := v; startY := startY st;
     initialPanX := initialPanX st; initialPanY := initialPanY st;
     lastPointerX := lastPointerX st; lastPointerY := lastPointerY st;
     lastPointerTime := lastPointerTime st; pinchActive := pinchActive st;
     pinchStartDistance := pinchStartDistance st;
     pinchStartZoom := pinchStartZoom st; panInputType := panInputType st;
     currentPanMultiplier := currentPanMultiplier st; frames := frames st;
     nextFrame := nextFrame st; completed := completed st |}.

Definition set_startY (v : num) (st : State) : State :=
  {| currentZoom := currentZoom st; panX := panX st; panY := panY st;
     panVelocityX := panVelocityX st; panVelocityY := panVelocityY st;
     panInertiaFrame := panInertiaFrame st;
     panAnimationFrame := panAnimationFrame st;
     panAnimationComplete := panAnimationComplete st;
     isMultiTouchGesture := isMultiTouchGesture st;
     isPanning := isPanning st; startX := startX st; startY := v;
     initialPanX := initialPanX st; initialPanY := initialPanY st;
     lastPointerX := lastPointerX st; lastPointerY := lastPointerY st;
     lastPointerTime := lastPointerTime st; pinchActive := pinchActive st;
     pinchStartDistance := pinchStartDistance st;
     pinchStartZoom := pinchStartZoom st; panInputType := panInputType st;
     currentPanMultiplier := currentPanMultiplier st; frames := frames st;
     nextFrame := nextFrame st; completed := completed st |}.

Definition set_initialPanX (v : num) (st : State) : State :=
  {| currentZoom := currentZoom st; panX := panX st; panY := panY st;
     panVelocityX := panVelocityX st; panVelocityY := panVelocityY st;
     panInertiaFrame := panInertiaFrame st;
     panAnimationFrame := panAnimationFrame st;
     panAnimationComplete := panAnimationComplete st;
     isMultiTouchGesture := isMultiTouchGesture st;
     isPanning := isPanning st; startX := startX st; startY := startY st;
     initialPanX := v; initialPanY := initialPanY st;
     lastPointerX := lastPointerX st; lastPointerY := lastPointerY st;
     lastPointerTime := lastPointerTime st; pinchActive := pinchActive st;
     pinchStartDistance := pinchStartDistance st;
     pinchStartZoom := pinchStartZoom st; panInputType := panInputType st;
     currentPanMultiplier := currentPanMultiplier st; frames := frames st;
     nextFrame := nextFrame st; completed := completed st |}.

Definition set_initialPanY (v : num) (st : State) : State :=
  {| currentZoom := currentZoom st; panX := panX st; panY := panY st;
     panVelocityX := panVelocityX st; panVelocityY := panVelocityY st;
     panInertiaFrame := panInertiaFrame st;
     panAnimationFrame := panAnimationFrame st;
     panAnimationComplete := panAnimationComplete st;
     isMultiTouchGesture := isMultiTouchGesture st;
     isPanning := isPanning st; startX := startX st; startY := startY st;
     initialPanX := initialPanX st; initialPanY := v;
     lastPointerX := lastPointerX st; lastPointerY := lastPointerY st;
     lastPointerTime := lastPointerTime st; pinchActive := pinchActive st;
     pinchStartDistance := pinchStartDistance st;
     pinchStartZoom := pinchStartZoom st; panInputType := panInputType st;
     currentPanMultiplier := currentPanMultiplier st; frames := frames st;
     nextFrame := nextFrame st; completed := completed st |}.

Definition set_lastPointerX (v : num) (st : State) : State :=
  {| currentZoom := currentZoom st; panX := panX st; panY := panY st;
     panVelocityX := panVelocityX st; panVelocityY := panVelocityY st;
     panInertiaFrame := panInertiaFrame st;
     panAnimationFrame := panAnimationFrame st;
     panAnimationComplete := panAnimationComplete st;
     isMultiTouchGesture := isMultiTouchGesture st;
     isPanning := isPanning st; startX := startX st; startY := startY st;
     initialPanX := initialPanX st; initialPanY := initialPanY st;
     lastPointerX := v; lastPointerY := lastPointerY st;
     lastPointerTime := lastPointerTime st; pinchActive := pinchActive st;
     pinchStartDistance := pinchStartDistance st;
     pinchStartZoom := pinchStartZoom st; panInputType := panInputType st;
     currentPanMultiplier := currentPanMultiplier st; frames := frames st;
     nextFrame := nextFrame st; completed := completed st |}.

Definition set_lastPointerY (v : num) (st : State) : State :=
  {| currentZoom := currentZoom st; panX := panX st; panY := panY st;
     panVelocityX := panVelocityX st; panVelocityY := panVelocityY st;
     panInertiaFrame := panInertiaFrame st;
     panAnimationFrame := panAnimationFrame st;
     panAnimationComplete := panAnimationComplete st;
     isMultiTouchGesture := isMultiTouchGesture st;
     isPanning := isPanning st; startX := startX st; startY := startY st;
     initialPanX := initialPanX st; initialPanY := initialPanY st;
     lastPointerX := lastPointerX st; lastPointerY := v;
     lastPointerTime := lastPointerTime st; pinchActive := pinchActive st;
     pinchStartDistance := pinchStartDistance st;
     pinchStartZoom := pinchStartZoom st; panInputType := panInputType st;
     currentPanMultiplier := currentPanMultiplier st; frames := frames st;
     nextFrame := nextFrame st; completed := completed st |}.

Definition set_lastPointerTime (v : num) (st : State) : State :=
  {| currentZoom := currentZoom st; panX := panX st; panY := panY st;
     panVelocityX := panVelocityX st; panVelocityY := panVelocityY st;
     panInertiaFrame := panInertiaFrame st;
     panAnimationFrame := panAnimationFrame st;
     panAnimationComplete := panAnimationComplete st;
     isMultiTouchGesture := isMultiTouchGesture st;
     isPanning := isPanning st; startX := startX st; startY := startY st;
     initialPanX := initialPanX st; initialPanY := initialPanY st;
     lastPointerX := lastPointerX st; lastPointerY := lastPointerY st;
     lastPointerTime := v; pinchActive := pinchActive st;
     pinchStartDistance := pinchStartDistance st;
     pinchStartZoom := pinchStartZoom st; panInputType := panInputType st;
     currentPanMultiplier := currentPanMultiplier st; frames := frames st;
     nextFrame := nextFrame st; completed := completed st |}.

Definition set_pinchActive (v : bool) (st : State) : State :=
  {| currentZoom := currentZoom st; panX := panX st; panY := panY st;
     panVelocityX := panVelocityX st; panVelocityY := panVelocityY st;
     panInertiaFrame := panInertiaFrame st;
     panAnimationFrame := panAnimationFrame st;
     panAnimationComplete := panAnimationComplete st;
     isMultiTouchGesture := isMultiTouchGesture st;
     isPanning := isPanning st; startX := startX st; startY := startY st;
     initialPanX := initialPanX st; initialPanY := initialPanY st;
     lastPointerX := lastPointerX st; lastPointerY := lastPointerY st;
     lastPointerTime := lastPointerTime st; pinchActive := v;
     pinchStartDistance := pinchStartDistance st;
     pinchStartZoom := pinchStartZoom st; panInputType := panInputType st;
     currentPanMultiplier := currentPanMultiplier st; frames := frames st;
     nextFrame := nextFrame st; completed := completed st |}.

Definition set_pinchStartDistance (v : num) (st : State) : State :=
  {| currentZoom := currentZoom st; panX := panX st; panY := panY st;
     panVelocityX := panVelocityX st; panVelocityY := panVelocityY st;
     panInertiaFrame := panInertiaFrame st;
     panAnimationFrame := panAnimationFrame st;
     panAnimationComplete := panAnimationComplete st;
     isMultiTouchGesture := isMultiTouchGesture st;
     isPanning := isPanning st; startX := startX st; startY := startY st;
     initialPanX := initialPanX st; initialPanY := initialPanY st;
     lastPointerX := lastPointerX st; lastPointerY := lastPointerY st;
     lastPointerTime := lastPointerTime st; pinchActive := pinchActive st;
     pinchStartDistance := v; pinchStartZoom := pinchStartZoom st;
     panInputType := panInputType st;
     currentPanMultiplier := currentPanMultiplier st; frames := frames st;
     nextFrame := nextFrame st; completed := completed st |}.

Definition set_pinchStartZoom (v : num) (st : State) : State :=
  {| currentZoom := currentZoom st; panX := panX st; panY := panY st;
     panVelocityX := panVelocityX st; panVelocityY := panVelocityY st;
     panInertiaFrame := panInertiaFrame st;
     panAnimationFrame := panAnimationFrame st;
     panAnimationComplete := panAnimationComplete st;
     isMultiTouchGesture := isMultiTouchGesture st;
     isPanning := isPanning st; startX := startX st; startY := startY st;
     initialPanX := initialPanX st; initialPanY := initialPanY st;
     lastPointerX := lastPointerX st; lastPointerY := lastPointerY st;
     lastPointerTime := lastPointerTime st; pinchActive := pinchActive st;
     pinchStartDistance := pinchStartDistance st; pinchStartZoom := v;
     panInputType := panInputType st;
     currentPanMultiplier := currentPanMultiplier st; frames := frames st;
     nextFrame := nextFrame st; completed := completed st |}.

Definition set_panInputType (v : InputType) (st : State) : State :=
  {| currentZoom := currentZoom st; panX := panX st; panY := panY st;
     panVelocityX := panVelocityX st; panVelocityY := panVelocityY st;
     panInertiaFrame := panInertiaFrame st;
     panAnimationFrame := panAnimationFrame st;
     panAnimationComplete := panAnimationComplete st;
     isMultiTouchGesture := isMultiTouchGesture st;
     isPanning := isPanning st; startX := startX st; startY := startY st;
     initialPanX := initialPanX st; initialPanY := initialPanY st;
     lastPointerX := lastPointerX st; lastPointerY := lastPointerY st;
     lastPointerTime := lastPointerTime st; pinchActive := pinchActive st;
     pinchStartDistance := pinchStartDistance st;
     pinchStartZoom := pinchStartZoom st; panInputType := v;
     currentPanMultiplier := currentPanMultiplier st; frames := frames st;
     nextFrame := nextFrame st; completed := completed st |}.

Definition set_currentPanMultiplier (v : num) (st : State) : State :=
  {| currentZoom := currentZoom st; panX := panX st; panY := panY st;
     panVelocityX := panVelocityX st; panVelocityY := panVelocityY st;
     panInertiaFrame := panInertiaFrame st;
     panAnimationFrame := panAnimationFrame st;
     panAnimationComplete := panAnimationComplete st;
     isMultiTouchGesture := isMultiTouchGesture st;
     isPanning := isPanning st; startX := startX st; startY := startY st;
     initialPanX := initialPanX st; initialPanY := initialPanY st;
     lastPointerX := lastPointerX st; lastPointerY := lastPointerY st;
     lastPointerTime := lastPointerTime st; pinchActive := pinchActive st;
     pinchStartDistance := pinchStartDistance st;
     pinchStartZoom := pinchStartZoom st; panInputType := panInputType st;
     currentPanMultiplier := v; frames := frames st;
     nextFrame := nextFrame st; completed := completed st |}.

Definition set_frames (v : list (nat * FrameCallback)) (st : State) : State :=
  {| currentZoom := currentZoom st; panX := panX st; panY := panY st;
     panVelocityX := panVelocityX st; panVelocityY := panVelocityY st;
     panInertiaFrame := panInertiaFrame st;
     panAnimationFrame := panAnimationFrame st;
     panAnimationComplete := panAnimationComplete st;
     isMultiTouchGesture := isMultiTouchGesture st;
     isPanning := isPanning st; startX := startX st; startY := startY st;
     initialPanX := initialPanX st; initialPanY := initialPanY st;
     lastPointerX := lastPointerX st; lastPointerY := lastPointerY st;
     lastPointerTime := lastPointerTime st; pinchActive := pinchActive st;
     pinchStartDistance := pinchStartDistance st;
     pinchStartZoom := pinchStartZoom st; panInputType := panInputType st;
     currentPanMultiplier := currentPanMultiplier st; frames := v;
     nextFrame := nextFrame st; completed := completed st |}.

Definition set_nextFrame (v : nat) (st : State) : State :=
  {| currentZoom := currentZoom st; panX := panX st; panY := panY st;
     panVelocityX := panVelocityX st; panVelocityY := panVelocityY st;
     panInertiaFrame := panInertiaFrame st;
     panAnimationFrame := panAnimationFrame st;
     panAnimationComplete := panAnimationComplete st;
     isMultiTouchGesture := isMultiTouchGesture st;
     isPanning := isPanning st; startX := startX st; startY := startY st;
     initialPanX := initialPanX st; initialPanY := initialPanY st;
     lastPointerX := lastPointerX st; lastPointerY := lastPointerY st;
     lastPointerTime := lastPointerTime st; pinchActive := pinchActive st;
     pinchStartDistance := pinchStartDistance st;
     pinchStartZoom := pinchStartZoom st; panInputType := panInputType st;
     currentPanMultiplier := currentPanMultiplier st; frames := frames st;
     nextFrame := v; completed := completed st |}.

Definition set_completed (v : list nat) (st : State) : State :=
  {| currentZoom := currentZoom st; panX := panX st; panY := panY st;
     panVelocityX := panVelocityX st; panVelocityY := panVelocityY st;
     panInertiaFrame := panInertiaFrame st;
     panAnimationFrame := panAnimationFrame st;
     panAnimationComplete := panAnimationComplete st;
     isMultiTouchGesture := isMultiTouchGesture st;
     isPanning := isPanning st; startX := startX st; startY := startY st;
     initialPanX := initialPanX st; initialPanY := initialPanY st;
     lastPointerX := lastPointerX st; lastPointerY := lastPointerY st;
     lastPointerTime := lastPointerTime st; pinchActive := pinchActive st;
     pinchStartDistance := pinchStartDistance st;
     pinchStartZoom := pinchStartZoom st; panInputType := panInputType st;
     currentPanMultiplier := currentPanMultiplier st; frames := frames st;
     nextFrame := nextFrame st; completed := v |}.

(* ================================================================= *)
(** ** The constructor's constants and the initial state *)

Definition minZoom : num := #1.
Definition maxZoom : num := #8.
Definition defaultPanX : num := #(-60).
Definition defaultPanY : num := #0.
Definition baseWidth : num := #1150.
Definition baseHeight : num := #1360.

(** [velocityConfig], [TOUCH_PAN_MULTIPLIER] and the constants of
    [startPanInertia]. *)
Definition velocity_max : num := #0.75.
Definition velocity_smoothing : num := #0.22.
Definition flickMultiplier : num := #1.1.
Definition flickWindowMs : num := #35.
Definition flickMax : num := #0.9.
Definition TOUCH_PAN_MULTIPLIER : num := #1.4.
Definition minVelocity : num := #0.0012.
Definition decay : R := 0.93%R.

(** The state the constructor leaves: zoom 1, pan [(-60, 0)], no velocity,
    nothing scheduled.  Frame handles start at 1, so a handle is truthy. *)
Definition initialState : State :=
  {| currentZoom := #1; panX := defaultPanX; panY := defaultPanY;
     panVelocityX := #0; panVelocityY := #0;
     panInertiaFrame := None; panAnimationFrame := None;
     panAnimationComplete := None; isMultiTouchGesture := false;
     isPanning := false; startX := NaN; startY := NaN;
     initialPanX := NaN; initialPanY := NaN;
     lastPointerX := #0; lastPointerY := #0; lastPointerTime := #0;
     pinchActive := false; pinchStartDistance := #0; pinchStartZoom := #1;
     panInputType := mouse; currentPanMultiplier := #1;
     frames := []; nextFrame := 1%nat; completed := [] |}.

(* ================================================================= *)
(** ** The frame queue *)

(** [requestAnimationFrame(cb)]: queue [cb] under a fresh handle. *)
Definition requestAnimationFrame (cb : FrameCallback) (st : State)
  : nat * State :=
  let h := nextFrame st in
  (h, set_nextFrame (S h) (set_frames (frames st ++ [(h, cb)]) st)).

(** [cancelAnimationFrame(h)]: drop the callback queued under [h], if any. *)
Definition cancelAnimationFrame (h : nat) (st : State) : State :=
  set_frames (filter (fun e => negb (Nat.eqb (fst e) h)) (frames st)) st.

Definition pendingFrame (h : nat) (st : State) : bool :=
  existsb (fun e => Nat.eqb (fst e) h) (frames st).

(* ================================================================= *)
(** ** Viewport geometry *)

Record ViewBox : Type := mkViewBox {
  vb_x : num;
  vb_y : num;
  vb_width : num;
  vb_height : num
}.

(** [getViewBox()] *)
Definition getViewBox (st : State) : ViewBox :=
  let width := baseWidth / currentZoom st in
  let height := baseHeight / currentZoom st in
  let x := - panX st + (baseWidth - width) / #2 in
  let y := - panY st + (baseHeight - height) / #2 in
  {| vb_x := x; vb_y := y; vb_width := width; vb_height := height |}.

(** [getPanSpeedMultiplier()] *)
Definition getPanSpeedMultiplier (st : State) : num :=
  let zoomRange := Math_max (maxZoom - minZoom) #0.0001 in
  let normalized := (currentZoom st - minZoom) / zoomRange in
  let minMultiplier := #1 in
  let maxMultiplier := #3 in
  minMultiplier + normalized * (maxMultiplier - minMultiplier).

(** [clamp(value, min, max)] of [initializeEventListeners]. *)
Definition clamp (value lo hi : num) : num :=
  Math_min (Math_max value lo) hi.

(* ================================================================= *)
(** ** Stopping the two loops *)

(** [stopPanInertia(resetVelocity)] *)
Definition stopPanInertia (resetVelocity : bool) (st : State) : State :=
  let st :=
    match panInertiaFrame st with
    | Some h => set_panInertiaFrame None (cancelAnimationFrame h st)
    | None => st
    end in
  if resetVelocity
  then set_panVelocityY #0 (set_panVelocityX #0 st)
  else st.

(** [stopPanAnimation()] *)
Definition stopPanAnimation (st : State) : State :=
  let st :=
    match panAnimationFrame st with
    | Some h => set_panAnimationFrame None (cancelAnimationFrame h st)
    | None => st
    end in
  set_panAnimationComplete None st.

(* ================================================================= *)
(** ** Inertia *)

(** The body of [step] in [startPanInertia], run for a frame at [time]. *)
Definition inertiaStep (lastTime time : num) (st : State) : State :=
  let dt := time - lastTime in
  let st := set_panX (panX st + panVelocityX st * dt) st in
  let st := set_panY (panY st + panVelocityY st * dt) st in
  let decayFactor := Math_pow_decay decay (dt / #16) in
  let st := set_panVelocityX (panVelocityX st * decayFactor) st in
  let st := set_panVelocityY (panVelocityY st * decayFactor) st in
  if lt (Math_hypot (panVelocityX st) (panVelocityY st)) minVelocity
  then stopPanInertia true st
  else
    let '(h, st) := requestAnimationFrame (InertiaStep time) st in
    set_panInertiaFrame (Some h) st.

(** [startPanInertia()], with [now] the value of [performance.now()]. *)
Definition startPanInertia (now : num) (st : State) : State :=
  let currentVelocity := Math_hypot (panVelocityX st) (panVelocityY st) in
  if lt currentVelocity minVelocity
  then stopPanInertia true st
  else
    let st := stopPanInertia false st in
    let '(h, st) := requestAnimationFrame (InertiaStep now) st in
    set_panInertiaFrame (Some h) st.

(* ================================================================= *)
(** ** Programmatic centering *)

(** The [focus] option: each coordinate is a number or absent. *)
Record Focus : Type := mkFocus {
  focus_x : option num;
  focus_y : option num
}.

(** The options of [centerOnCoordinates] after destructuring; the defaults
    [animate = true], [duration = 300] are [defaultOptions]. *)
Record CenterOptions : Type := mkCenterOptions {
  opt_animate : bool;
  opt_duration : num;
  opt_onComplete : option nat;
  opt_minZoom : option num;
  opt_focus : Focus
}.

Definition defaultOptions : CenterOptions :=
  {| opt_animate := true; opt_duration := #300; opt_onComplete := None;
     opt_minZoom := None; opt_focus := mkFocus None None |}.

(** [clampFraction] of [calculatePanForCoordinates]. *)
Definition clampFraction (value : num) : num :=
  if negb (Number_isFinite value) then #0.5
  else Math_min (Math_max value #0) #1.

(** [calculatePanForCoordinates(x, y, focus)], returning [(panX, panY)]. *)
Definition calculatePanForCoordinates (x y : num) (focus : Focus)
    (st : State) : num * num :=
  let width := baseWidth / currentZoom st in
  let height := baseHeight / currentZoom st in
  let minX := #0 in
  let minY := #0 in
  let maxX := Math_max minX (baseWidth - width) in
  let maxY := Math_max minY (baseHeight - height) in
  let focusX :=
    clampFraction (match focus_x focus with Some v => v | None => #0.5 end) in
  let focusY :=
    clampFraction (match focus_y focus with Some v => v | None => #0.5 end) in
  let desiredX := x - width * focusX in
  let desiredY := y - height * focusY in
  let clampedX := Math_min (Math_max desiredX minX) maxX in
  let clampedY := Math_min (Math_max desiredY minY) maxY in
  ((baseWidth - width) / #2 - clampedX,
   (baseHeight - height) / #2 - clampedY).

(** The body of [step] in [animatePan], run for a frame at [now]. *)
Definition panAnimStep (startPanX startPanY targetPanX targetPanY
    startTime duration now : num) (st : State) : State :=
  let elapsed := now - startTime in
  let progress := Math_min (elapsed / duration) #1 in
  let eased :=
    if lt progress #0.5
    then #2 * progress * progress
    else - #1 + (#4 - #2 * progress) * progress in
  let st := set_panX (startPanX + (targetPanX - startPanX) * eased) st in
  let st := set_panY (startPanY + (targetPanY - startPanY) * eased) st in
  if lt progress #1
  then
    let '(h, st) :=
      requestAnimationFrame
        (PanAnimStep startPanX startPanY targetPanX targetPanY
                     startTime duration) st in
    set_panAnimationFrame (Some h) st
  else
    let st := set_panAnimationFrame None st in
    match panAnimationComplete st with
    | Some callback =>
        let st := set_panAnimationComplete None st in
        set_completed (completed st ++ [callback]) st
    | None => st
    end.

(** [animatePan(targetPanX, targetPanY, duration, onComplete)] *)
Definition animatePan (targetPanX targetPanY duration : num)
    (onComplete : option nat) (now : num) (st : State) : State :=
  let startPanX := panX st in
  let startPanY := panY st in
  let startTime := now in
  let st := set_panAnimationComplete onComplete st in
  let '(h, st) :=
    requestAnimationFrame
      (PanAnimStep startPanX startPanY targetPanX targetPanY
                   startTime duration) st in
  set_panAnimationFrame (Some h) st.

(** [centerOnCoordinates(x, y, options)]; [mobile] is the result of the
    media query [(max-width: 768px)]. *)
Definition centerOnCoordinates (x y : num) (options : CenterOptions)
    (mobile : bool) (now : num) (st : State) : State :=
  if negb (Number_isFinite x) || negb (Number_isFinite y) then st
  else
    let minZoom_opt :=
      match opt_minZoom options with Some mz => mz | None => NaN end in
    let st :=
      if match opt_minZoom options with Some _ => true | None => false end
         && Number_isFinite minZoom_opt
      then set_currentZoom
             (Math_min maxZoom (Math_max (currentZoom st) minZoom_opt)) st
      else if mobile then
        let defaultMobileFocusZoom := #2.1 in
        if lt (currentZoom st) defaultMobileFocusZoom
        then set_currentZoom (Math_min maxZoom defaultMobileFocusZoom) st
        else st
      else st in
    let st := stopPanInertia true st in
    let st := stopPanAnimation st in
    let '(targetPanX, targetPanY) :=
      calculatePanForCoordinates x y (opt_focus options) st in
    if opt_animate options && gt (opt_duration options) #0
    then animatePan targetPanX targetPanY (opt_duration options)
           (opt_onComplete options) now st
    else
      let st := set_panX targetPanX st in
      let st := set_panY targetPanY st in
      match opt_onComplete options with
      | Some callback => set_completed (completed st ++ [callback]) st
      | None => st
      end.

(* ================================================================= *)
(** ** Zoom buttons, reset, wheel *)

(** [zoomIn()] *)
Definition zoomIn (st : State) : State :=
  let st := stopPanInertia true st in
  let st := stopPanAnimation st in
  set_currentZoom (Math_min maxZoom (currentZoom st * #1.2)) st.

(** [zoomOut()] *)
Definition zoomOut (st : State) : State :=
  let st := stopPanInertia true st in
  let st := stopPanAnimation st in
  let nextZoom :=
    Math_max minZoom (Math_min maxZoom (currentZoom st / #1.2)) in
  set_currentZoom nextZoom st.

(** [resetView()] *)
Definition resetView (st : State) : State :=
  let st := stopPanInertia true st in
  let st := stopPanAnimation st in
  let st := set_currentZoom #1 st in
  let st := set_panX defaultPanX st in
  set_panY defaultPanY st.

(** The [wheel] listener; [deltaMode] is 0 (pixel), 1 (line) or 2 (page). *)
Definition wheel (deltaY : num) (deltaMode : nat) (ctrlKey : bool)
    (st : State) : State :=
  let st := stopPanInertia true st in
  let modeMultiplier :=
    match deltaMode with 1%nat => #20 | 2%nat => #60 | _ => #1 end in
  let normalizedDelta := deltaY * modeMultiplier in
  if negb (truthy normalizedDelta) then st
  else
    let WHEEL_INTENSITY := #0.0012 in
    let PINCH_BASE_INTENSITY := #0.0035 in
    let PINCH_GAIN := #2 in
    let intensity :=
      if ctrlKey then
        let absDelta := Math_min #240 (Math_abs normalizedDelta) in
        let deltaFactor := #1 + absDelta / #120 in
        let zoomRange := Math_max (maxZoom - minZoom) #0.0001 in
        let zoomNormalized := (currentZoom st - minZoom) / zoomRange in
        let zoomFactor := #0.9 + zoomNormalized * #1.2 in
        PINCH_BASE_INTENSITY * PINCH_GAIN * deltaFactor * zoomFactor
      else WHEEL_INTENSITY in
    let zoomFactor := Math_exp (- normalizedDelta * intensity) in
    let newZoom :=
      Math_min maxZoom (Math_max minZoom (currentZoom st * zoomFactor)) in
    if negb (strict_eq newZoom (currentZoom st))
    then set_currentZoom newZoom st
    else st.

(* ================================================================= *)
(** ** Pinch *)

Record Touch : Type := mkTouch {
  clientX : num;
  clientY : num
}.

(** The result of [svg.getBoundingClientRect()]. *)
Record Rect : Type := mkRect {
  rect_left : num;
  rect_top : num;
  rect_width : num;
  rect_height : num
}.

(** [getTouchDistance(touchA, touchB)] *)
Definition getTouchDistance (touchA touchB : Touch) : num :=
  let dx := clientX touchA - clientX touchB in
  let dy := clientY touchA - clientY touchB in
  Math_hypot dx dy.

(** [getTouchMidpoint(touchA, touchB)] *)
Definition getTouchMidpoint (touchA touchB : Touch) : num * num :=
  ((clientX touchA + clientX touchB) / #2,
   (clientY touchA + clientY touchB) / #2).

(** [updatePanForPinch(targetZoom, centerClientX, centerClientY)] *)
Definition updatePanForPinch (targetZoom centerClientX centerClientY : num)
    (rect : Rect) (st : State) : State :=
  if strict_eq (rect_width rect) #0 || strict_eq (rect_height rect) #0
  then set_currentZoom targetZoom st
  else
    let vb := getViewBox st in
    let viewX := vb_x vb in
    let viewY := vb_y vb in
    let viewWidth := vb_width vb in
    let viewHeight := vb_height vb in
    let fractionX :=
      clamp ((centerClientX - rect_left rect) / rect_width rect) #0 #1 in
    let fractionY :=
      clamp ((centerClientY - rect_top rect) / rect_height rect) #0 #1 in
    let mapCenterX := viewX + viewWidth * fractionX in
    let mapCenterY := viewY + viewHeight * fractionY in
    let nextViewWidth := baseWidth / targetZoom in
    let nextViewHeight := baseHeight / targetZoom in
    let minViewX := #0 in
    let minViewY := #0 in
    let maxViewX := Math_max minViewX (baseWidth - nextViewWidth) in
    let maxViewY := Math_max minViewY (baseHeight - nextViewHeight) in
    let desiredViewX := mapCenterX - fractionX * nextViewWidth in
    let desiredViewY := mapCenterY - fractionY * nextViewHeight in
    let clampedViewX := clamp desiredViewX minViewX maxViewX in
    let clampedViewY := clamp desiredViewY minViewY maxViewY in
    let st := set_currentZoom targetZoom st in
    let st := set_panX ((baseWidth - nextViewWidth) / #2 - clampedViewX) st in
    set_panY ((baseHeight - nextViewHeight) / #2 - clampedViewY) st.

(** [startPinch(touches)] *)
Definition startPinch (touches : list Touch) (st : State) : State :=
  match touches with
  | t0 :: t1 :: _ =>
      let st := stopPanInertia true st in
      let st := stopPanAnimation st in
      let st := set_isPanning false st in
      let st := set_pinchActive true st in
      let st :=
        set_pinchStartDistance (or_else (getTouchDistance t0 t1) #0.0001) st in
      let st := set_pinchStartZoom (currentZoom st) st in
      set_isMultiTouchGesture true st
  | _ => st
  end.

(** [resetPinchState()] *)
Definition resetPinchState (st : State) : State :=
  let st := set_pinchActive false st in
  let st := set_pinchStartDistance #0 st in
  let st := set_pinchStartZoom (currentZoom st) st in
  set_isMultiTouchGesture false st.

(** [handlePinchMove(touches)] *)
Definition handlePinchMove (touches : list Touch) (rect : Rect)
    (st : State) : State :=
  match touches with
  | t0 :: t1 :: _ =>
      if negb (pinchActive st) || strict_eq (pinchStartDistance st) #0
      then st
      else
        let distance := getTouchDistance t0 t1 in
        if negb (truthy distance) then st
        else
          let '(midpoint_x, midpoint_y) := getTouchMidpoint t0 t1 in
          let scale := distance / pinchStartDistance st in
          let adjustedScale := #1 + (scale - #1) * #2 in
          let targetZoom :=
            clamp (pinchStartZoom st * adjustedScale) minZoom maxZoom in
          updatePanForPinch targetZoom midpoint_x midpoint_y rect st
  | _ => st
  end.

(* ================================================================= *)
(** ** Drag panning *)

(** [recordVelocity(clientX, clientY)] *)
Definition recordVelocity (cx cy now : num) (st : State) : State :=
  let st :=
    if truthy (lastPointerTime st) then
      let deltaTime := now - lastPointerTime st in
      if gt deltaTime #0 then
        let appliedMultiplier :=
          getPanSpeedMultiplier st * currentPanMultiplier st in
        let deltaPanX :=
          ((cx - lastPointerX st) / currentZoom st) * appliedMultiplier in
        let deltaPanY :=
          ((cy - lastPointerY st) / currentZoom st) * appliedMultiplier in
        let vx := deltaPanX / deltaTime in
        let vy := deltaPanY / deltaTime in
        let max := velocity_max in
        let smoothing := velocity_smoothing in
        let st :=
          set_panVelocityX
            ((#1 - smoothing) * panVelocityX st
             + smoothing * Math_max (- max) (Math_min max vx)) st in
        set_panVelocityY
          ((#1 - smoothing) * panVelocityY st
           + smoothing * Math_max (- max) (Math_min max vy)) st
      else st
    else st in
  let st := set_lastPointerX cx st in
  let st := set_lastPointerY cy st in
  set_lastPointerTime now st.

(** [beginPan(clientX, clientY, inputType)] *)
Definition beginPan (cx cy : num) (inputType : InputType) (now : num)
    (st : State) : State :=
  let st := set_isPanning true st in
  let st := set_panInputType inputType st in
  let st :=
    set_currentPanMultiplier
      (match panInputType st with
       | touch => TOUCH_PAN_MULTIPLIER
       | mouse => #1
       end) st in
  let st := set_startX cx st in
  let st := set_startY cy st in
  let st := set_initialPanX (panX st) st in
  let st := set_initialPanY (panY st) st in
  let st := stopPanInertia true st in
  let st := stopPanAnimation st in
  let st := set_lastPointerTime #0 st in
  let st := set_lastPointerX cx st in
  let st := set_lastPointerY cy st in
  recordVelocity cx cy now st.

(** [updatePan(clientX, clientY)] *)
Definition updatePan (cx cy now : num) (st : State) : State :=
  let appliedMultiplier :=
    getPanSpeedMultiplier st * currentPanMultiplier st in
  let dx := ((cx - startX st) / currentZoom st) * appliedMultiplier in
  let dy := ((cy - startY st) / currentZoom st) * appliedMultiplier in
  let st := set_panX (initialPanX st + dx) st in
  let st := set_panY (initialPanY st + dy) st in
  recordVelocity cx cy now st.

(** [endPan(options)], with [skipInertia] the option's truthiness. *)
Definition endPan (skipInertia : bool) (now : num) (st : State) : State :=
  if negb (isPanning st) then st
  else
    let st := set_isPanning false st in
    let st := set_panInputType mouse st in
    let st := set_currentPanMultiplier #1 st in
    if negb skipInertia then
      let sinceLastSample :=
        if truthy (lastPointerTime st)
        then now - lastPointerTime st
        else PInf in
      let st :=
        if le sinceLastSample flickWindowMs then
          let boost := flickMultiplier in
          let maxBoosted := flickMax in
          let st :=
            set_panVelocityX
              (Math_max (- maxBoosted)
                 (Math_min maxBoosted (panVelocityX st * boost))) st in
          set_panVelocityY
            (Math_max (- maxBoosted)
               (Math_min maxBoosted (panVelocityY st * boost))) st
        else st in
      startPanInertia now st
    else st.

(* ================================================================= *)
(** ** Event listeners *)

(** What [document.elementFromPoint] (or [e.target]) finds under a pointer:
    the table panel, an interactive element (a marker), or the bare map. *)
Inductive Target : Type := OverTablePanel | OverInteractive | OverMap.

(** The [mousedown] listener of the svg; [interactive] is its
    [isInteractiveElement] test on [e.target]. *)
Definition mouseDownHandler (interactive : bool) (cx cy now : num)
    (st : State) : State :=
  if negb interactive then beginPan cx cy mouse now st else st.

(** The [mousemove] listener of the document. *)
Definition mouseMoveHandler (cx cy now : num) (st : State) : State :=
  if negb (isPanning st) then st else updatePan cx cy now st.

(** The [mouseup] listener of the document. *)
Definition mouseUpHandler (now : num) (st : State) : State :=
  endPan false now st.

(** [touchStartHandler(e)]; [target] is the element under [touches[0]]. *)
Definition touchStartHandler (touches : list Touch) (target : Target)
    (now : num) (st : State) : State :=
  let touchCount := length touches in
  if Nat.leb 2 touchCount then
    let st := set_isMultiTouchGesture true st in
    startPinch touches st
  else
    match touches with
    | [t] =>
        match target with
        | OverTablePanel =>
            let st := stopPanInertia true st in
            set_isPanning false st
        | OverInteractive => st
        | OverMap =>
            let st := resetPinchState st in
            beginPan (clientX t) (clientY t) touch now st
        end
    | _ => st
    end.

(** [touchMoveHandler(e)]; [rect] is what the svg's bounding rectangle is at
    that moment. *)
Definition touchMoveHandler (touches : list Touch) (target : Target)
    (rect : Rect) (now : num) (st : State) : State :=
  let touchCount := length touches in
  if Nat.leb 2 touchCount then
    let st := if negb (pinchActive st) then startPinch touches st else st in
    let st := set_isMultiTouchGesture true st in
    handlePinchMove touches rect st
  else
    let st := if pinchActive st then resetPinchState st else st in
    match touches with
    | [t] =>
        match target with
        | OverTablePanel =>
            if isPanning st then
              let st := stopPanInertia true st in
              let st := stopPanAnimation st in
              endPan true now st
            else st
        | _ =>
            if negb (isPanning st) then st
            else updatePan (clientX t) (clientY t) now st
        end
    | _ =>
        if isPanning st then
          let st := stopPanInertia true st in
          let st := stopPanAnimation st in
          endPan true now st
        else st
    end.

(** [handleTouchEnd(e)], the listener of [touchend] and [touchcancel];
    [touches] are the touch points that remain. *)
Definition handleTouchEnd (touches : list Touch) (target : Target)
    (now : num) (st : State) : State :=
  let touchCount := length touches in
  let endedAllTouches := Nat.eqb touchCount 0 in
  let finish (st : State) : State :=
    if endedAllTouches then
      let st := set_isMultiTouchGesture false st in
      endPan false now st
    else st in
  if pinchActive st && Nat.ltb touchCount 2 then
    let st := resetPinchState st in
    match touches with
    | [remainingTouch] =>
        match target with
        | OverTablePanel =>
            let st := stopPanInertia true st in
            set_isPanning false st
        | OverInteractive => finish st
        | OverMap =>
            finish
              (beginPan (clientX remainingTouch) (clientY remainingTouch)
                 touch now st)
        end
    | _ => finish st
    end
  else finish st.

(** The two stop calls of [applyTableOnlyState], in its order. *)
Definition stopInertiaAndAnimation (st : State) : State :=
  stopPanAnimation (stopPanInertia true st).

(** One callback of a frame. *)
Definition runCallback (cb : FrameCallback) (time : num) (st : State)
  : State :=
  match cb with
  | InertiaStep lastTime => inertiaStep lastTime time st
  | PanAnimStep sx sy tx ty t0 d => panAnimStep sx sy tx ty t0 d time st
  end.

(** A display frame at [time]: the callbacks queued when the frame starts run
    in order, each one unless it was cancelled meanwhile; what they queue
    waits for the next frame. *)
Fixpoint runCallbacks (time : num) (queued : list (nat * FrameCallback))
    (st : State) : State :=
  match queued with
  | [] => st
  | (h, cb) :: rest =>
      if pendingFrame h st
      then runCallbacks time rest
             (runCallback cb time (cancelAnimationFrame h st))
      else runCallbacks time rest st
  end.

Definition runFrame (time : num) (st : State) : State :=
  runCallbacks time (frames st) st.

(** Everything that can happen to the viewport. *)
Inductive Event : Type :=
| MouseDown (interactive : bool) (cx cy now : num)
| MouseMove (cx cy now : num)
| MouseUp (now : num)
| TouchStart (touches : list Touch) (target : Target) (now : num)
| TouchMove (touches : list Touch) (target : Target) (rect : Rect)
            (now : num)
| TouchEnd (touches : list Touch) (target : Target) (now : num)
| Wheel (deltaY : num) (deltaMode : nat) (ctrlKey : bool)
| ZoomInClick
| ZoomOutClick
| ResetViewClick
| CenterOn (x y : num) (options : CenterOptions) (mobile : bool)
           (now : num)
| TableOnlyToggle
| Frame (time : num).

Definition dispatch (e : Event) (st : State) : State :=
  match e with
  | MouseDown interactive cx cy now => mouseDownHandler interactive cx cy now st
  | MouseMove cx cy now => mouseMoveHandler cx cy now st
  | MouseUp now => mouseUpHandler now st
  | TouchStart touches target now => touchStartHandler touches target now st
  | TouchMove touches target rect now =>
      touchMoveHandler touches target rect now st
  | TouchEnd touches target now => handleTouchEnd touches target now st
  | Wheel deltaY deltaMode ctrlKey => wheel deltaY deltaMode ctrlKey st
  | ZoomInClick => zoomIn st
  | ZoomOutClick => zoomOut st
  | ResetViewClick => resetView st
  | CenterOn x y options mobile now =>
      centerOnCoordinates x y options mobile now st
  | TableOnlyToggle => stopInertiaAndAnimation st
  | Frame time => runFrame time st
  end.

(** The state after a sequence of events, oldest first. *)
Definition run (events : list Event) (st : State) : State :=
  fold_left (fun s e => dispatch e s) events st.

(* ================================================================= *)
(** ** Predicates used in the statements *)

(** [a] is a finite number. *)
Definition finite (a : num) : Prop := exists r, a = #r.

(** [a] is a finite number within [lo, hi]. *)
Definition within (lo hi : R) (a : num) : Prop :=
  exists r, a = #r /\ (lo <= r <= hi)%R.

(** The zoom bound [minZoom <= zoom <= maxZoom]. *)
Definition zoomInBounds (st : State) : Prop := within 1 8 (currentZoom st).

(** What the zoom computations read and write: the zoom, and the zoom and
    finger distance a pinch started with. *)
Definition zoomFields (st : State) : num * num * num :=
  (currentZoom st, pinchStartZoom st, pinchStartDistance st).

(** The zoom is within its bounds, and so is the start zoom of the pinch
    session; its start distance is finite. *)
Definition zoomInvariant (st : State) : Prop :=
  zoomInBounds st /\
  within 1 8 (pinchStartZoom st) /\
  finite (pinchStartDistance st).

(** Two coordinates whose difference is infinite: one of them is infinite
    and the other is finite or the opposite infinity. *)
Definition infinitelyApart (a b : num) : Prop :=
  match a, b with
  | PInf, (NInf | Fin _) | NInf, (PInf | Fin _) | Fin _, (PInf | NInf) => True
  | _, _ => False
  end.

(** Two coordinates whose difference is [NaN]: one of them is [NaN], or both
    are the same infinity. *)
Definition undefinedGap (a b : num) : Prop :=
  match a, b with
  | NaN, _ | _, NaN | PInf, PInf | NInf, NInf => True
  | _, _ => False
  end.

(** The client rectangle has a positive area. *)
Definition validRect (rect : Rect) : Prop :=
  exists l t w h,
    rect = mkRect #l #t #w #h /\ (0 < w)%R /\ (0 < h)%R.

Definition finiteTouch (t : Touch) : Prop :=
  finite (clientX t) /\ finite (clientY t).

(** The states of the specification's state machine, read off the program
    state: a pinch or a drag in progress, else a scheduled inertia frame,
    else a scheduled centering frame, else idle. *)
Inductive Mode : Type := Idle | Panning | Inertial | Pinching | Animating.

Definition mode (st : State) : Mode :=
  if pinchActive st then Pinching
  else if isPanning st then Panning
  else match panInertiaFrame st, panAnimationFrame st with
       | Some _, _ => Inertial
       | None, Some _ => Animating
       | None, None => Idle
       end.

(** The part of the state the two loops live in: the two handle fields, the
    frame queue and the next fresh handle. *)
Record Motion : Type := mkMotion {
  m_inertia : option nat;
  m_anim : option nat;
  m_frames : list (nat * FrameCallback);
  m_next : nat
}.

Definition motionOf (st : State) : Motion :=
  {| m_inertia := panInertiaFrame st; m_anim := panAnimationFrame st;
     m_frames := frames st; m_next := nextFrame st |}.

Definition isInertiaStep (cb : FrameCallback) : Prop :=
  match cb with InertiaStep _ => True | PanAnimStep _ _ _ _ _ _ => False end.

Definition isPanAnimStep (cb : FrameCallback) : Prop :=
  match cb with InertiaStep _ => False | PanAnimStep _ _ _ _ _ _ => True end.

(** Every queued callback is the one a handle field points at: an inertia
    step under [panInertiaFrame], a centering step under
    [panAnimationFrame]; handles are older than the next fresh one and name
    one callback each. *)
Definition tracked (m : Motion) : Prop :=
  (forall h cb, In (h, cb) (m_frames m) ->
     (h < m_next m)%nat /\
     ((m_inertia m = Some h /\ isInertiaStep cb) \/
      (m_anim m = Some h /\ isPanAnimStep cb))) /\
  (forall h cb cb', In (h, cb) (m_frames m) -> In (h, cb') (m_frames m) ->
     cb = cb').

Definition framesTracked (st : State) : Prop := tracked (motionOf st).

(** From [m] to [m']: handles only grow, and what is queued in [m'] was
    queued in [m] or is fresh. *)
Definition grows (m m' : Motion) : Prop :=
  (m_next m <= m_next m')%nat /\
  forall h cb, In (h, cb) (m_frames m') ->
    In (h, cb) (m_frames m) \/ (m_next m <= h)%nat.

(** Both velocity components are finite and at most [b] in magnitude. *)
Definition velocityWithin (b : R) (st : State) : Prop :=
  within (- b) b (panVelocityX st) /\ within (- b) b (panVelocityY st).

(** What velocity sampling relies on during a drag: a bounded velocity, a
    finite last pointer position and pan multiplier, a zoom within bounds. *)
Definition dragInvariant (st : State) : Prop :=
  velocityWithin 0.75 st /\
  finite (lastPointerX st) /\ finite (lastPointerY st) /\
  finite (currentPanMultiplier st) /\
  zoomInBounds st.

(** The pointer moves of a drag: finite client coordinates, and the time
    [performance.now()] returns at each; [updatePan] runs for each in turn. *)
Definition dragMoves (moves : list (R * R * num)) (st : State) : State :=
  fold_left (fun s m => updatePan #(fst (fst m)) #(snd (fst m)) (snd m) s)
            moves st.

(** The closed form of the inertia velocity: [v0] at time [t0], decayed by
    the factor [decay] per 16 ms until [t]. *)
Definition inertiaVelocity (v0 t0 t : R) : R :=
  (v0 * Rpower decay ((t - t0) / 16))%R.

(** An inertia session: [startPanInertia] at time [t0], then display frames
    at the given times. *)
Definition inertiaSession (t0 : R) (times : list R) (st : State) : State :=
  run (map (fun t => Frame #t) times) (startPanInertia #t0 st).

(** Nothing else is going on when the session starts: no frame queued, no
    drag, no pinch, no centering, a finite pan. *)
Definition inertiaReady (st : State) : Prop :=
  frames st = [] /\ isPanning st = false /\ pinchActive st = false /\
  panAnimationFrame st = None /\ finite (panX st) /\ finite (panY st).

(** The inertia loop is running: its step, which last ran at [t], is the one
    callback queued; the velocity is [(v, 0)]. *)
Definition inertiaRunning (t v : R) (st : State) : Prop :=
  (exists h, frames st = [(h, InertiaStep #t)] /\
             panInertiaFrame st = Some h) /\
  panVelocityX st = #v /\ panVelocityY st = #0 /\
  finite (panX st) /\ finite (panY st) /\
  isPanning st = false /\ pinchActive st = false /\
  panAnimationFrame st = None.

(** The inertia loop has stopped: nothing queued, no handle, no velocity. *)
Definition inertiaStopped (st : State) : Prop :=
  frames st = [] /\ panInertiaFrame st = None /\
  panVelocityX st = #0 /\ panVelocityY st = #0 /\
  isPanning st = false /\ pinchActive st = false /\
  panAnimationFrame st = None.

(** An event as the browser delivers it: touch coordinates are finite
    numbers. *)
Definition wellFormedEvent (e : Event) : Prop :=
  match e with
  | TouchStart touches _ _ => Forall finiteTouch touches
  | TouchMove touches _ _ _ => Forall finiteTouch touches
  | _ => True
  end.

(** The fraction of the client rectangle at which a screen coordinate lies,
    as [updatePanForPinch] computes [fractionX] and [fractionY]. *)
Definition screenFraction (c origin size : num) : num :=
  clamp ((c - origin) / size) #0 #1.

(** The map-space point shown under the screen point [(cx, cy)]: the svg
    shows the current viewBox stretched over its client rectangle, so this
    is the point of the viewBox at the fraction of the rectangle where the
    screen point lies.  The fraction is not clamped: a screen point outside
    the rectangle lies under a map point outside the viewBox. *)
Definition mapPointUnder (rect : Rect) (cx cy : num) (st : State)
  : num * num :=
  let vb := getViewBox st in
  (vb_x vb + vb_width vb * ((cx - rect_left rect) / rect_width rect),
   vb_y vb + vb_height vb * ((cy - rect_top rect) / rect_height rect)).

(** One axis of [updatePanForPinch] on real numbers: the fraction, the
    anchored map coordinate, the viewBox origin that would keep it in place,
    the clamped origin, and the pan that results.  [base] is [baseWidth] or
    [baseHeight], [z] the zoom before, [p] the pan before, [tz] the target
    zoom, [c] the midpoint coordinate, [o] and [s] the rectangle's origin
    and size on that axis. *)
Definition axisFraction (c o s : R) : R := Rmin (Rmax ((c - o) / s) 0) 1.

Definition axisMapCenter (base z p c o s : R) : R :=
  (- p + (base - base / z) / 2) + base / z * axisFraction c o s.

(** One axis of [mapPointUnder] on real numbers. *)
Definition axisMapPoint (base z p c o s : R) : R :=
  (- p + (base - base / z) / 2) + base / z * ((c - o) / s).

(** The screen coordinate [c] lies within the client rectangle, which
    starts at [o] and is [s] wide (or high). *)
Definition withinRect (c o s : R) : Prop := (o <= c <= o + s)%R.

Definition axisDesiredView (base z p c o s tz : R) : R :=
  axisMapCenter base z p c o s - axisFraction c o s * (base / tz).

Definition axisClampedView (base z p c o s tz : R) : R :=
  Rmin (Rmax (axisDesiredView base z p c o s tz) 0)
       (Rmax 0 (base - base / tz)).

Definition axisPinchPan (base z p c o s tz : R) : R :=
  (base - base / tz) / 2 - axisClampedView base z p c o s tz.

(** The target zoom of [handlePinchMove] on real numbers: [z0] the zoom at
    pinch start, [d0] the finger distance at pinch start, [d] the distance
    now. *)
Definition pinchTargetZoom (z0 d0 d : R) : R :=
  Rmin (Rmax (z0 * (1 + (d / d0 - 1) * 2)) 1) 8.

(** A pinch session is in progress: what [startPinch] leaves on finite
    touch points. *)
Definition pinchInProgress (st : State) : Prop :=
  pinchActive st = true /\
  finite (pinchStartZoom st) /\
  exists d0, pinchStartDistance st = #d0 /\ (0 < d0)%R.

(** The origin that keeps the anchor in place already lies in the range the
    viewBox origin is clamped to. *)
Definition anchorNeedsNoClamp (base z p c o s tz : R) : Prop :=
  (0 <= axisDesiredView base z p c o s tz <= base - base / tz)%R.

(** A viewBox that lies inside the canvas: its origin is in
    [[0, max(0, baseWidth - width)] x [0, max(0, baseHeight - height)]]. *)
Definition viewBoxInsideCanvas (vb : ViewBox) : Prop :=
  exists x y w h,
    vb = mkViewBox #x #y #w #h /\
    (0 <= x <= Rmax 0 (1150 - w))%R /\
    (0 <= y <= Rmax 0 (1360 - h))%R.

(* ================================================================= *)
(** ** Centering, easing and wheel on real numbers *)

(** The fraction [clampFraction] gives for one coordinate of the [focus]
    option: the number clamped to [[0, 1]], or one half when the coordinate
    is absent or not finite. *)
Definition focusFraction (o : option num) : R :=
  match o with
  | Some (Fin v) => Rmin (Rmax v 0) 1
  | _ => 0.5
  end.

(** One axis of [calculatePanForCoordinates] on real numbers: the clamped
    viewBox origin and the pan that gives it.  [base] is [baseWidth] or
    [baseHeight], [z] the zoom, [c] the target coordinate, [f] the focus
    fraction. *)
Definition centerViewOrigin (base z c f : R) : R :=
  Rmin (Rmax (c - base / z * f) 0) (Rmax 0 (base - base / z)).

Definition centerPan (base z c f : R) : R :=
  (base - base / z) / 2 - centerViewOrigin base z c f.

(** The zoom [centerOnCoordinates] goes on with: raised to a finite
    [minZoom] option, else raised to 2.1 on a mobile viewport, capped at
    [maxZoom]. *)
Definition centerZoom (options : CenterOptions) (mobile : bool) (z : num)
  : num :=
  match opt_minZoom options with
  | Some (Fin m) => Math_min maxZoom (Math_max z #m)
  | _ =>
      if mobile && lt z #2.1 then Math_min maxZoom #2.1 else z
  end.

(** The easing of [animatePan]: quadratic in and out. *)
Definition easing (p : R) : R :=
  if Rlt_dec p 0.5 then (2 * p * p)%R else (- 1 + (4 - 2 * p) * p)%R.

(** The progress of a centering animation started at [t0] with duration
    [d], at time [t]. *)
Definition animProgress (t0 d t : R) : R := Rmin ((t - t0) / d) 1.

(** A centering animation is running: its step is the one callback queued,
    from [(sx, sy)] to [(tx, ty)], started at [t0] for [d] ms, with [cb] to
    call at the end. *)
Definition animRunning (sx sy tx ty t0 d : R) (cb : option nat)
    (st : State) : Prop :=
  (exists h, frames st = [(h, PanAnimStep #sx #sy #tx #ty #t0 #d)] /\
             panAnimationFrame st = Some h) /\
  panAnimationComplete st = cb.

(** A centering session: the state after [centerOnCoordinates], then
    display frames at the given times. *)
Definition framesAt (times : list R) (st : State) : State :=
  run (map (fun t => Frame #t) times) st.

(** The target [(x, y)] of a centering, seen in a state at the zoom [z]:
    the viewBox has the size of that zoom, and on each axis where the
    viewBox placed with the target at the fraction [f] of its extent fits
    the canvas, the target is the point of the viewBox at that fraction. *)
Definition targetAtFocus (x y fx fy z : R) (st : State) : Prop :=
  let vb := getViewBox st in
  currentZoom st = #z /\
  vb_width vb = #(1150 / z) /\ vb_height vb = #(1360 / z) /\
  ((0 <= x - 1150 / z * fx <= 1150 - 1150 / z)%R ->
   vb_x vb + vb_width vb * #fx = #x) /\
  ((0 <= y - 1360 / z * fy <= 1360 - 1360 / z)%R ->
   vb_y vb + vb_height vb * #fy = #y).

(** The factor of the wheel listener for a [deltaMode]. *)
Definition wheelModeMultiplier (deltaMode : nat) : R :=
  match deltaMode with 1%nat => 20 | 2%nat => 60 | _ => 1 end.

(** What the wheel listener clamps: [Math.min(maxZoom, Math.max(minZoom, v))]
    on real numbers. *)
Definition clampZoom (v : R) : R := Rmin 8 (Rmax 1 v).

(** What a drag keeps from its start: where the pointer went down, the pan
    it found there, the zoom and the pan multiplier of the input type. *)
Definition dragOrigin (x0 y0 ox oy z k : R) (st : State) : Prop :=
  startX st = #x0 /\ startY st = #y0 /\
  initialPanX st = #ox /\ initialPanY st = #oy /\
  currentZoom st = #z /\ currentPanMultiplier st = #k /\
  isPanning st = true.

(** The moves of a pinch: the two touch points and the svg's client
    rectangle at each [touchmove]; [handlePinchMove] runs for each in turn. *)
Definition pinchMoves (moves : list (Touch * Touch * Rect)) (st : State)
  : State :=
  fold_left
    (fun s m => handlePinchMove [fst (fst m); snd (fst m)] (snd m) s)
    moves st.

(** The distance between two touch points on real numbers. *)
Definition touchDistance (xa ya xb yb : R) : R :=
  sqrt ((xa - xb) * (xa - xb) + (ya - yb) * (ya - yb)).

(** The events that cancel a centering animation: a mouse press on the bare
    map, the zoom and reset buttons, the table-only toggle, and a touch
    start with two fingers or more. *)
Definition interrupts (e : Event) : Prop :=
  match e with
  | MouseDown interactive _ _ _ => interactive = false
  | ZoomInClick | ZoomOutClick | ResetViewClick | TableOnlyToggle => True
  | TouchStart touches _ _ => (2 <= length touches)%nat
  | _ => False
  end.

(* ================================================================= *)
(** ** The info panel *)

(** The [interactionType] option of [selectArea]. *)
Inductive Interaction : Type := ByMouse | ByTouch | ByKeyboard.

(** What a pending timeout runs: the auto-hide callback of [showAreaInfo],
    or the callback of the marker script kept in [window.posterInfoTimer]. *)
Inductive TimeoutCallback : Type := AutoHide | PosterInfo.

(** What [selectArea], [showAreaInfo] and [hideInfo] read and write.  An
    area is known by its id: [posterAreas] lists the ids in order, and
    [renderPosterAreas] has made one element for each.  [panelActive] is the
    class [active] of the info panel, [panelShows] the area its title and
    description were written from, [selectedElements] the area elements with
    the class [selected], [timeouts] the browser's pending timeouts.
    Timeout handles start at 1, so a handle is truthy. *)
Record Panel : Type := mkPanel {
  posterAreas : list string;
  selectedArea : option string;
  panelActive : bool;
  panelShows : option string;
  selectedElements : list string;
  focusedElement : option string;
  infoAutoHideTimer : option nat;
  posterInfoTimer : option nat;
  timeouts : list (nat * TimeoutCallback);
  nextTimeout : nat;
  lastClosedAreaId : option string;
  lastClosedTime : num;
  lastClosedInteractionType : option Interaction
}.

(** Field updates. *)
Definition set_posterAreas (v : list string) (p : Panel) : Panel :=
  {| posterAreas := v; selectedArea := selectedArea p; panelActive :=
     panelActive p; panelShows := panelShows p; selectedElements :=
     selectedElements p; focusedElement := focusedElement p;
     infoAutoHideTimer := infoAutoHideTimer p; posterInfoTimer :=
     posterInfoTimer p; timeouts := timeouts p; nextTimeout := nextTimeout p;
     lastClosedAreaId := lastClosedAreaId p; lastClosedTime := lastClosedTime
     p; lastClosedInteractionType := lastClosedInteractionType p |}.

Definition set_selectedArea (v : option string) (p : Panel) : Panel :=
  {| posterAreas := posterAreas p; selectedArea := v; panelActive :=
     panelActive p; panelShows := panelShows p; selectedElements :=
     selectedElements p; focusedElement := focusedElement p;
     infoAutoHideTimer := infoAutoHideTimer p; posterInfoTimer :=
     posterInfoTimer p; timeouts := timeouts p; nextTimeout := nextTimeout p;
     lastClosedAreaId := lastClosedAreaId p; lastClosedTime := lastClosedTime
     p; lastClosedInteractionType := lastClosedInteractionType p |}.

Definition set_panelActive (v : bool) (p : Panel) : Panel :=
  {| posterAreas := posterAreas p; selectedArea := selectedArea p;
     panelActive := v; panelShows := panelShows p; selectedElements :=
     selectedElements p; focusedElement := focusedElement p;
     infoAutoHideTimer := infoAutoHideTimer p; posterInfoTimer :=
     posterInfoTimer p; timeouts := timeouts p; nextTimeout := nextTimeout p;
     lastClosedAreaId := lastClosedAreaId p; lastClosedTime := lastClosedTime
     p; lastClosedInteractionType := lastClosedInteractionType p |}.

Definition set_panelShows (v : option string) (p : Panel) : Panel :=
  {| posterAreas := posterAreas p; selectedArea := selectedArea p;
     panelActive := panelActive p; panelShows := v; selectedElements :=
     selectedElements p; focusedElement := focusedElement p;
     infoAutoHideTimer := infoAutoHideTimer p; posterInfoTimer :=
     posterInfoTimer p; timeouts := timeouts p; nextTimeout := nextTimeout p;
     lastClosedAreaId := lastClosedAreaId p; lastClosedTime := lastClosedTime
     p; lastClosedInteractionType := lastClosedInteractionType p |}.

Definition set_selectedElements (v : list string) (p : Panel) : Panel :=
  {| posterAreas := posterAreas p; selectedArea := selectedArea p;
     panelActive := panelActive p; panelShows := panelShows p;
     selectedElements := v; focusedElement := focusedElement p;
     infoAutoHideTimer := infoAutoHideTimer p; posterInfoTimer :=
     posterInfoTimer p; timeouts := timeouts p; nextTimeout := nextTimeout p;
     lastClosedAreaId := lastClosedAreaId p; lastClosedTime := lastClosedTime
     p; lastClosedInteractionType := lastClosedInteractionType p |}.

Definition set_focusedElement (v : option string) (p : Panel) : Panel :=
  {| posterAreas := posterAreas p; selectedArea := selectedArea p;
     panelActive := panelActive p; panelShows := panelShows p;
     selectedElements := selectedElements p; focusedElement := v;
     infoAutoHideTimer := infoAutoHideTimer p; posterInfoTimer :=
     posterInfoTimer p; timeouts := timeouts p; nextTimeout := nextTimeout p;
     lastClosedAreaId := lastClosedAreaId p; lastClosedTime := lastClosedTime
     p; lastClosedInteractionType := lastClosedInteractionType p |}.

Definition set_infoAutoHideTimer (v : option nat) (p : Panel) : Panel :=
  {| posterAreas := posterAreas p; selectedArea := selectedArea p;
     panelActive := panelActive p; panelShows := panelShows p;
     selectedElements := selectedElements p; focusedElement := focusedElement
     p; infoAutoHideTimer := v; posterInfoTimer := posterInfoTimer p;
     timeouts := timeouts p; nextTimeout := nextTimeout p; lastClosedAreaId
     := lastClosedAreaId p; lastClosedTime := lastClosedTime p;
     lastClosedInteractionType := lastClosedInteractionType p |}.

Definition set_posterInfoTimer (v : option nat) (p : Panel) : Panel :=
  {| posterAreas := posterAreas p; selectedArea := selectedArea p;
     panelActive := panelActive p; panelShows := panelShows p;
     selectedElements := selectedElements p; focusedElement := focusedElement
     p; infoAutoHideTimer := infoAutoHideTimer p; posterInfoTimer := v;
     timeouts := timeouts p; nextTimeout := nextTimeout p; lastClosedAreaId
     := lastClosedAreaId p; lastClosedTime := lastClosedTime p;
     lastClosedInteractionType := lastClosedInteractionType p |}.

Definition set_timeouts (v : list (nat * TimeoutCallback)) (p : Panel) : Panel :=
  {| posterAreas := posterAreas p; selectedArea := selectedArea p;
     panelActive := panelActive p; panelShows := panelShows p;
     selectedElements := selectedElements p; focusedElement := focusedElement
     p; infoAutoHideTimer := infoAutoHideTimer p; posterInfoTimer :=
     posterInfoTimer p; timeouts := v; nextTimeout := nextTimeout p;
     lastClosedAreaId := lastClosedAreaId p; lastClosedTime := lastClosedTime
     p; lastClosedInteractionType := lastClosedInteractionType p |}.

Definition set_nextTimeout (v : nat) (p : Panel) : Panel :=
  {| posterAreas := posterAreas p; selectedArea := selectedArea p;
     panelActive := panelActive p; panelShows := panelShows p;
     selectedElements := selectedElements p; focusedElement := focusedElement
     p; infoAutoHideTimer := infoAutoHideTimer p; posterInfoTimer :=
     posterInfoTimer p; timeouts := timeouts p; nextTimeout := v;
     lastClosedAreaId := lastClosedAreaId p; lastClosedTime := lastClosedTime
     p; lastClosedInteractionType := lastClosedInteractionType p |}.

Definition set_lastClosedAreaId (v : option string) (p : Panel) : Panel :=
  {| posterAreas := posterAreas p; selectedArea := selectedArea p;
     panelActive := panelActive p; panelShows := panelShows p;
     selectedElements := selectedElements p; focusedElement := focusedElement
     p; infoAutoHideTimer := infoAutoHideTimer p; posterInfoTimer :=
     posterInfoTimer p; timeouts := timeouts p; nextTimeout := nextTimeout p;
     lastClosedAreaId := v; lastClosedTime := lastClosedTime p;
     lastClosedInteractionType := lastClosedInteractionType p |}.

Definition set_lastClosedTime (v : num) (p : Panel) : Panel :=
  {| posterAreas := posterAreas p; selectedArea := selectedArea p;
     panelActive := panelActive p; panelShows := panelShows p;
     selectedElements := selectedElements p; focusedElement := focusedElement
     p; infoAutoHideTimer := infoAutoHideTimer p; posterInfoTimer :=
     posterInfoTimer p; timeouts := timeouts p; nextTimeout := nextTimeout p;
     lastClosedAreaId := lastClosedAreaId p; lastClosedTime := v;
     lastClosedInteractionType := lastClosedInteractionType p |}.

Definition set_lastClosedInteractionType (v : option Interaction) (p : Panel) : Panel :=
  {| posterAreas := posterAreas p; selectedArea := selectedArea p;
     panelActive := panelActive p; panelShows := panelShows p;
     selectedElements := selectedElements p; focusedElement := focusedElement
     p; infoAutoHideTimer := infoAutoHideTimer p; posterInfoTimer :=
     posterInfoTimer p; timeouts := timeouts p; nextTimeout := nextTimeout p;
     lastClosedAreaId := lastClosedAreaId p; lastClosedTime := lastClosedTime
     p; lastClosedInteractionType := v |}.

(** The state the constructor leaves for a page whose panel starts closed. *)
Definition initialPanel (areas : list string) : Panel :=
  {| posterAreas := areas; selectedArea := None; panelActive := false;
     panelShows := None; selectedElements := []; focusedElement := None;
     infoAutoHideTimer := None; posterInfoTimer := None; timeouts := [];
     nextTimeout := 1%nat; lastClosedAreaId := None; lastClosedTime := #0;
     lastClosedInteractionType := None |}.

(** [setTimeout(cb, delay)]: queue [cb] under a fresh handle.  When it fires
    is up to the events. *)
Definition setTimeout (cb : TimeoutCallback) (p : Panel) : nat * Panel :=
  let h := nextTimeout p in
  (h, set_nextTimeout (S h) (set_timeouts (timeouts p ++ [(h, cb)]) p)).

(** [clearTimeout(h)] *)
Definition clearTimeout (h : nat) (p : Panel) : Panel :=
  set_timeouts (filter (fun e => negb (Nat.eqb (fst e) h)) (timeouts p)) p.

(** [this.selectedArea.id === areaId] and [this.lastClosedAreaId === areaId]. *)
Definition same_id (o : option string) (areaId : string) : bool :=
  match o with Some a => String.eqb a areaId | None => false end.

(** [hideInfo()] *)
Definition hideInfo (p : Panel) : Panel :=
  let p :=
    match infoAutoHideTimer p with
    | Some h => set_infoAutoHideTimer None (clearTimeout h p)
    | None => p
    end in
  let p :=
    match posterInfoTimer p with
    | Some h => set_posterInfoTimer None (clearTimeout h p)
    | None => p
    end in
  let p := set_panelActive false p in
  match selectedArea p with
  | Some _ => set_selectedArea None (set_selectedElements [] p)
  | None => p
  end.

(** [showAreaInfo(area, interactionType)] *)
Definition showAreaInfo (area : string) (interactionType : Interaction)
    (p : Panel) : Panel :=
  let p :=
    match infoAutoHideTimer p with
    | Some h => set_infoAutoHideTimer None (clearTimeout h p)
    | None => p
    end in
  let p := set_panelShows (Some area) p in
  let p := set_panelActive true p in
  match interactionType with
  | ByTouch => p
  | _ =>
      let '(h, p) := setTimeout AutoHide p in
      set_infoAutoHideTimer (Some h) p
  end.

(** [selectArea(areaId, options)], with [now] the value of
    [performance.now()]. *)
Definition selectArea (areaId : string) (interactionType : Interaction)
    (now : num) (p : Panel) : Panel :=
  let closedByTouch :=
    match lastClosedInteractionType p with
    | Some ByTouch => true
    | _ => false
    end in
  if same_id (lastClosedAreaId p) areaId
     && (closedByTouch && lt (now - lastClosedTime p) #350)
  then p
  else
    let p :=
      if same_id (lastClosedAreaId p) areaId
      then set_lastClosedInteractionType None (set_lastClosedAreaId None p)
      else p in
    if same_id (selectedArea p) areaId && panelActive p
    then
      let p := hideInfo p in
      let p := set_lastClosedAreaId (Some areaId) p in
      let p := set_lastClosedTime now p in
      set_lastClosedInteractionType (Some interactionType) p
    else
      let p := set_selectedElements [] p in
      if existsb (String.eqb areaId) (posterAreas p)
      then
        let p := set_selectedElements (areaId :: selectedElements p) p in
        let p := set_focusedElement (Some areaId) p in
        let p := set_selectedArea (Some areaId) p in
        showAreaInfo areaId interactionType p
      else p.

(** The auto-hide timeout [h] fires: it leaves the table of pending
    timeouts and its callback hides the panel if it is active. *)
Definition autoHideFires (h : nat) (p : Panel) : Panel :=
  if existsb (fun e => Nat.eqb (fst e) h
                       && match snd e with
                          | AutoHide => true
                          | PosterInfo => false
                          end)
       (timeouts p)
  then
    let p := clearTimeout h p in
    if panelActive p then hideInfo p else p
  else p.

(** What can happen to the panel through this class. *)
Inductive PanelEvent : Type :=
| SelectArea (areaId : string) (interactionType : Interaction) (now : num)
| HideInfo
| AutoHideFires (h : nat).

Definition panelDispatch (e : PanelEvent) (p : Panel) : Panel :=
  match e with
  | SelectArea areaId interactionType now =>
      selectArea areaId interactionType now p
  | HideInfo => hideInfo p
  | AutoHideFires h => autoHideFires h p
  end.

Definition panelRun (events : list PanelEvent) (p : Panel) : Panel :=
  fold_left (fun s e => panelDispatch e s) events p.

(** The auto-hide timeouts are under control: a pending one is the one
    [infoAutoHideTimer] holds, it is pending once, it is older than the next
    fresh handle, and it is pending only while the panel is open. *)
Definition autoHidePending (h : nat) (p : Panel) : Prop :=
  In (h, AutoHide) (timeouts p).

Definition isAutoHide (e : nat * TimeoutCallback) : bool :=
  match snd e with AutoHide => true | PosterInfo => false end.

Definition timeoutsTracked (p : Panel) : Prop :=
  (forall h, autoHidePending h p ->
     infoAutoHideTimer p = Some h /\ (h < nextTimeout p)%nat /\
     panelActive p = true) /\
  (length (filter isAutoHide (timeouts p)) <= 1)%nat.

(** The table of pending timeouts after [clearTimeout] on what a timer
    field holds. *)
Definition cleared (o : option nat) (l : list (nat * TimeoutCallback))
  : list (nat * TimeoutCallback) :=
  match o with
  | Some h => filter (fun e => negb (Nat.eqb (fst e) h)) l
  | None => l
  end.

(** The selection is coherent: an element with the class [selected] is the
    element of the selected area, and there is at most one. *)
Definition selectionCoherent (p : Panel) : Prop :=
  (forall a, In a (selectedElements p) -> selectedArea p = Some a) /\
  (length (selectedElements p) <= 1)%nat.

(* ================================================================= *)
(** ** Full screen and the table-only toggle *)

(** The full-screen button: its attributes, and the [aria-hidden] attribute
    of each of its two icons where the icon exists. *)
Record FullscreenButton : Type := mkFullscreenButton {
  fb_aria_pressed : option string;
  fb_aria_label : option string;
  fb_title : option string;
  fb_data_state : option string;
  fb_enterIcon : option (option string);
  fb_exitIcon : option (option string)
}.

(** The table-only button, which the page has: without it
    [initializeTableOnlyToggle] returns at once. *)
Record ToggleButton : Type := mkToggleButton {
  tb_aria_pressed : option string;
  tb_aria_label : option string;
  tb_textContent : string;
  tb_title : string
}.

(** [isFullScreen], the two classes of [document.body], the two buttons,
    and the [let] variables of [initializeTableOnlyToggle]. *)
Record Screen : Type := mkScreen {
  isFullScreen : bool;
  bodyMapFullscreen : bool;
  bodyTableOnly : bool;
  fullscreenBtn : option FullscreenButton;
  toggleBtn : ToggleButton;
  lastTouchToggle : num;
  activeTouchPointerId : option nat
}.

(** Field updates. *)
Definition set_isFullScreen (v : bool) (s : Screen) : Screen :=
  {| isFullScreen := v; bodyMapFullscreen := bodyMapFullscreen s;
     bodyTableOnly := bodyTableOnly s; fullscreenBtn := fullscreenBtn s;
     toggleBtn := toggleBtn s; lastTouchToggle := lastTouchToggle s;
     activeTouchPointerId := activeTouchPointerId s |}.

Definition set_bodyMapFullscreen (v : bool) (s : Screen) : Screen :=
  {| isFullScreen := isFullScreen s; bodyMapFullscreen := v; bodyTableOnly
     := bodyTableOnly s; fullscreenBtn := fullscreenBtn s; toggleBtn :=
     toggleBtn s; lastTouchToggle := lastTouchToggle s; activeTouchPointerId
     := activeTouchPointerId s |}.

Definition set_bodyTableOnly (v : bool) (s : Screen) : Screen :=
  {| isFullScreen := isFullScreen s; bodyMapFullscreen :=
     bodyMapFullscreen s; bodyTableOnly := v; fullscreenBtn := fullscreenBtn
     s; toggleBtn := toggleBtn s; lastTouchToggle := lastTouchToggle s;
     activeTouchPointerId := activeTouchPointerId s |}.

Definition set_fullscreenBtn (v : option FullscreenButton) (s : Screen) : Screen :=
  {| isFullScreen := isFullScreen s; bodyMapFullscreen :=
     bodyMapFullscreen s; bodyTableOnly := bodyTableOnly s; fullscreenBtn :=
     v; toggleBtn := toggleBtn s; lastTouchToggle := lastTouchToggle s;
     activeTouchPointerId := activeTouchPointerId s |}.

Definition set_toggleBtn (v : ToggleButton) (s : Screen) : Screen :=
  {| isFullScreen := isFullScreen s; bodyMapFullscreen :=
     bodyMapFullscreen s; bodyTableOnly := bodyTableOnly s; fullscreenBtn :=
     fullscreenBtn s; toggleBtn := v; lastTouchToggle := lastTouchToggle s;
     activeTouchPointerId := activeTouchPointerId s |}.

Definition set_lastTouchToggle (v : num) (s : Screen) : Screen :=
  {| isFullScreen := isFullScreen s; bodyMapFullscreen :=
     bodyMapFullscreen s; bodyTableOnly := bodyTableOnly s; fullscreenBtn :=
     fullscreenBtn s; toggleBtn := toggleBtn s; lastTouchToggle := v;
     activeTouchPointerId := activeTouchPointerId s |}.

Definition set_activeTouchPointerId (v : option nat) (s : Screen) : Screen :=
  {| isFullScreen := isFullScreen s; bodyMapFullscreen :=
     bodyMapFullscreen s; bodyTableOnly := bodyTableOnly s; fullscreenBtn :=
     fullscreenBtn s; toggleBtn := toggleBtn s; lastTouchToggle :=
     lastTouchToggle s; activeTouchPointerId := v |}.

(** [updateFullScreenUI()] *)
Definition updateFullScreenUI (s : Screen) : Screen :=
  match fullscreenBtn s with
  | None => s
  | Some btn =>
      let pressed := if isFullScreen s then "true"%string else "false"%string in
      set_fullscreenBtn
        (Some
           {| fb_aria_pressed := Some pressed;
              fb_aria_label :=
                Some (if isFullScreen s
                      then "Exit full screen view"%string
                      else "View map full screen"%string);
              fb_title :=
                Some (if isFullScreen s
                      then "Exit Full Screen"%string
                      else "View map full screen"%string);
              fb_data_state :=
                Some (if isFullScreen s then "exit"%string else "enter"%string);
              fb_enterIcon :=
                match fb_enterIcon btn with
                | Some _ =>
                    Some (Some (if isFullScreen s
                                then "true"%string else "false"%string))
                | None => None
                end;
              fb_exitIcon :=
                match fb_exitIcon btn with
                | Some _ =>
                    Some (Some (if isFullScreen s
                                then "false"%string else "true"%string))
                | None => None
                end |}) s
  end.

(** [toggleFullScreen(forceState)]; [forceState] is [Some b] for a boolean
    argument and [None] for anything else. *)
Definition toggleFullScreen (forceState : option bool) (s : Screen)
  : Screen :=
  let shouldEnable :=
    match forceState with
    | Some b => b
    | None => negb (isFullScreen s)
    end in
  if Bool.eqb shouldEnable (isFullScreen s) then s
  else
    let s := set_isFullScreen shouldEnable s in
    let s := set_bodyMapFullscreen (isFullScreen s) s in
    updateFullScreenUI s.

(** What the constructor does to the screen: [isFullScreen] is read off the
    body class, then [updateFullScreenUI()] runs. *)
Definition constructScreen (s : Screen) : Screen :=
  let s := set_isFullScreen (bodyMapFullscreen s) s in
  updateFullScreenUI s.

(** [handleGlobalKeydown(event)]; [escape] is [event.key === 'Escape']. *)
Definition handleGlobalKeydown (escape : bool) (s : Screen) : Screen :=
  if negb escape then s
  else if isFullScreen s then toggleFullScreen (Some false) s else s.

(** [updateToggleState()] of [initializeTableOnlyToggle]. *)
Definition updateToggleState (s : Screen) : Screen :=
  let tableOnlyActive := bodyTableOnly s in
  set_toggleBtn
    {| tb_aria_pressed :=
         Some (if tableOnlyActive then "true"%string else "false"%string);
       tb_aria_label :=
         Some (if tableOnlyActive
               then "Show map with table"%string
               else "View table only"%string);
       tb_textContent :=
         if tableOnlyActive
         then "Show Map & Table"%string else "Table Only"%string;
       tb_title :=
         if tableOnlyActive
         then "Show map with table"%string
         else "View table only"%string |} s.

(** [applyTableOnlyState(nextState)], on the screen and the map.  The
    resize event it schedules reaches only the table scroll fix. *)
Definition applyTableOnlyState (nextState : bool) (page : Screen * State)
  : Screen * State :=
  let '(s, st) := page in
  let s :=
    if nextState && isFullScreen s
    then toggleFullScreen (Some false) s
    else s in
  let s := set_bodyTableOnly nextState s in
  let st := stopPanInertia true st in
  let st := stopPanAnimation st in
  let s := updateToggleState s in
  (s, st).

(** [handleToggle()] *)
Definition handleToggle (page : Screen * State) : Screen * State :=
  let nextState := negb (bodyTableOnly (fst page)) in
  applyTableOnlyState nextState page.

(** [handleDirectToggle(event)], with [now] the value of [Date.now()]. *)
Definition handleDirectToggle (now : num) (page : Screen * State)
  : Screen * State :=
  let '(s, st) := page in
  let s := set_lastTouchToggle now s in
  handleToggle (s, st).

(** The [click] listener of the table-only button. *)
Definition toggleClick (now : num) (page : Screen * State)
  : Screen * State :=
  if lt (now - lastTouchToggle (fst page)) #350 then page
  else handleToggle page.

Inductive PointerType : Type := PointerMouse | PointerTouch | PointerPen.

Definition isTouchLike (pointerType : PointerType) : bool :=
  match pointerType with
  | PointerTouch | PointerPen => true
  | PointerMouse => false
  end.

(** The [pointerdown] listener of the table-only button. *)
Definition togglePointerDown (pointerType : PointerType) (pointerId : nat)
    (s : Screen) : Screen :=
  if negb (isTouchLike pointerType) then s
  else set_activeTouchPointerId (Some pointerId) s.

(** The [pointerup] listener of the table-only button. *)
Definition togglePointerUp (pointerType : PointerType) (pointerId : nat)
    (now : num) (page : Screen * State) : Screen * State :=
  let '(s, st) := page in
  if negb (isTouchLike pointerType)
     || match activeTouchPointerId s with
        | Some active => negb (Nat.eqb pointerId active)
        | None => false
        end
  then page
  else
    let s := set_activeTouchPointerId None s in
    handleDirectToggle now (s, st).

(** The [pointercancel] listener of the table-only button. *)
Definition togglePointerCancel (pointerId : nat) (s : Screen) : Screen :=
  match activeTouchPointerId s with
  | Some active =>
      if Nat.eqb pointerId active then set_activeTouchPointerId None s else s
  | None => s
  end.

(** What can happen to the screen. *)
Inductive ScreenEvent : Type :=
| FullscreenClick
| Keydown (escape : bool)
| ToggleClick (now : num)
| TogglePointerDown (pointerType : PointerType) (pointerId : nat)
| TogglePointerUp (pointerType : PointerType) (pointerId : nat) (now : num)
| TogglePointerCancel (pointerId : nat).

Definition screenDispatch (e : ScreenEvent) (page : Screen * State)
  : Screen * State :=
  match e with
  | FullscreenClick => (toggleFullScreen None (fst page), snd page)
  | Keydown escape => (handleGlobalKeydown escape (fst page), snd page)
  | ToggleClick now => toggleClick now page
  | TogglePointerDown pointerType pointerId =>
      (togglePointerDown pointerType pointerId (fst page), snd page)
  | TogglePointerUp pointerType pointerId now =>
      togglePointerUp pointerType pointerId now page
  | TogglePointerCancel pointerId =>
      (togglePointerCancel pointerId (fst page), snd page)
  end.

Definition screenRun (events : list ScreenEvent) (page : Screen * State)
  : Screen * State :=
  fold_left (fun s e => screenDispatch e s) events page.

(** The full-screen button and the body class say what [isFullScreen]
    says. *)
Definition fullscreenShown (s : Screen) : Prop :=
  bodyMapFullscreen s = isFullScreen s /\
  forall btn, fullscreenBtn s = Some btn ->
    fb_aria_pressed btn
    = Some (if isFullScreen s then "true"%string else "false"%string) /\
    fb_data_state btn
    = Some (if isFullScreen s then "exit"%string else "enter"%string) /\
    fb_aria_label btn
    = Some (if isFullScreen s
            then "Exit full screen view"%string
            else "View map full screen"%string) /\
    fb_title btn
    = Some (if isFullScreen s
            then "Exit Full Screen"%string
            else "View map full screen"%string) /\
    (forall a, fb_enterIcon btn = Some a ->
       a = Some (if isFullScreen s then "true"%string else "false"%string)) /\
    (forall a, fb_exitIcon btn = Some a ->
       a = Some (if isFullScreen s then "false"%string else "true"%string)).

(** The table-only button says what the body class says. *)
Definition tableOnlyShown (s : Screen) : Prop :=
  tb_aria_pressed (toggleBtn s)
  = Some (if bodyTableOnly s then "true"%string else "false"%string) /\
  tb_textContent (toggleBtn s)
  = (if bodyTableOnly s
     then "Show Map & Table"%string else "Table Only"%string).

(* ================================================================= *)
(** ** The table scroll fix *)

(** [Math.floor] *)
Definition Math_floor (a : num) : num :=
  match a with
  | Fin x => Fin (IZR (Int_part x))
  | _ => a
  end.

(** The two callbacks [scheduleUpdate] puts in the frame queue: the outer
    one requests the inner one, the inner one does the work. *)
Inductive FixCallback : Type := OuterFrame | InnerFrame.

(** The [let] variables of [initializeMobileTableScrollFix], what it writes
    on the table wrapper, and its callbacks in the frame queue.  The custom
    property [--table-scroll-max-height] is kept as its number of pixels.
    [computed] counts the calls of [computeHeight]. *)
Record ScrollFix : Type := mkScrollFix {
  scheduled : bool;
  lastHeight : option num;
  tableScrollMaxHeight : option num;
  styleHeight : option string;
  styleMaxHeight : option string;
  momentumScrollEnabled : bool;
  overflowScrolling : option string;
  overscrollBehaviorY : option string;
  fixFrames : list FixCallback;
  computed : nat
}.

(** Field updates. *)
Definition set_scheduled (v : bool) (f : ScrollFix) : ScrollFix :=
  {| scheduled := v; lastHeight := lastHeight f; tableScrollMaxHeight :=
     tableScrollMaxHeight f; styleHeight := styleHeight f; styleMaxHeight :=
     styleMaxHeight f; momentumScrollEnabled := momentumScrollEnabled f;
     overflowScrolling := overflowScrolling f; overscrollBehaviorY :=
     overscrollBehaviorY f; fixFrames := fixFrames f; computed := computed f
     |}.

Definition set_lastHeight (v : option num) (f : ScrollFix) : ScrollFix :=
  {| scheduled := scheduled f; lastHeight := v; tableScrollMaxHeight :=
     tableScrollMaxHeight f; styleHeight := styleHeight f; styleMaxHeight :=
     styleMaxHeight f; momentumScrollEnabled := momentumScrollEnabled f;
     overflowScrolling := overflowScrolling f; overscrollBehaviorY :=
     overscrollBehaviorY f; fixFrames := fixFrames f; computed := computed f
     |}.

Definition set_tableScrollMaxHeight (v : option num) (f : ScrollFix) : ScrollFix :=
  {| scheduled := scheduled f; lastHeight := lastHeight f;
     tableScrollMaxHeight := v; styleHeight := styleHeight f; styleMaxHeight
     := styleMaxHeight f; momentumScrollEnabled := momentumScrollEnabled f;
     overflowScrolling := overflowScrolling f; overscrollBehaviorY :=
     overscrollBehaviorY f; fixFrames := fixFrames f; computed := computed f
     |}.

Definition set_styleHeight (v : option string) (f : ScrollFix) : ScrollFix :=
  {| scheduled := scheduled f; lastHeight := lastHeight f;
     tableScrollMaxHeight := tableScrollMaxHeight f; styleHeight := v;
     styleMaxHeight := styleMaxHeight f; momentumScrollEnabled :=
     momentumScrollEnabled f; overflowScrolling := overflowScrolling f;
     overscrollBehaviorY := overscrollBehaviorY f; fixFrames := fixFrames f;
     computed := computed f |}.

Definition set_styleMaxHeight (v : option string) (f : ScrollFix) : ScrollFix :=
  {| scheduled := scheduled f; lastHeight := lastHeight f;
     tableScrollMaxHeight := tableScrollMaxHeight f; styleHeight :=
     styleHeight f; styleMaxHeight := v; momentumScrollEnabled :=
     momentumScrollEnabled f; overflowScrolling := overflowScrolling f;
     overscrollBehaviorY := overscrollBehaviorY f; fixFrames := fixFrames f;
     computed := computed f |}.

Definition set_momentumScrollEnabled (v : bool) (f : ScrollFix) : ScrollFix :=
  {| scheduled := scheduled f; lastHeight := lastHeight f;
     tableScrollMaxHeight := tableScrollMaxHeight f; styleHeight :=
     styleHeight f; styleMaxHeight := styleMaxHeight f; momentumScrollEnabled
     := v; overflowScrolling := overflowScrolling f; overscrollBehaviorY :=
     overscrollBehaviorY f; fixFrames := fixFrames f; computed := computed f
     |}.

Definition set_overflowScrolling (v : option string) (f : ScrollFix) : ScrollFix :=
  {| scheduled := scheduled f; lastHeight := lastHeight f;
     tableScrollMaxHeight := tableScrollMaxHeight f; styleHeight :=
     styleHeight f; styleMaxHeight := styleMaxHeight f; momentumScrollEnabled
     := momentumScrollEnabled f; overflowScrolling := v; overscrollBehaviorY
     := overscrollBehaviorY f; fixFrames := fixFrames f; computed := computed
     f |}.

Definition set_overscrollBehaviorY (v : option string) (f : ScrollFix) : ScrollFix :=
  {| scheduled := scheduled f; lastHeight := lastHeight f;
     tableScrollMaxHeight := tableScrollMaxHeight f; styleHeight :=
     styleHeight f; styleMaxHeight := styleMaxHeight f; momentumScrollEnabled
     := momentumScrollEnabled f; overflowScrolling := overflowScrolling f;
     overscrollBehaviorY := v; fixFrames := fixFrames f; computed := computed
     f |}.

Definition set_fixFrames (v : list FixCallback) (f : ScrollFix) : ScrollFix :=
  {| scheduled := scheduled f; lastHeight := lastHeight f;
     tableScrollMaxHeight := tableScrollMaxHeight f; styleHeight :=
     styleHeight f; styleMaxHeight := styleMaxHeight f; momentumScrollEnabled
     := momentumScrollEnabled f; overflowScrolling := overflowScrolling f;
     overscrollBehaviorY := overscrollBehaviorY f; fixFrames := v; computed
     := computed f |}.

Definition set_computed (v : nat) (f : ScrollFix) : ScrollFix :=
  {| scheduled := scheduled f; lastHeight := lastHeight f;
     tableScrollMaxHeight := tableScrollMaxHeight f; styleHeight :=
     styleHeight f; styleMaxHeight := styleMaxHeight f; momentumScrollEnabled
     := momentumScrollEnabled f; overflowScrolling := overflowScrolling f;
     overscrollBehaviorY := overscrollBehaviorY f; fixFrames := fixFrames f;
     computed := v |}.

(** What [computeHeight] and [ensureMomentumScroll] read from the page:
    whether the mobile media query matches, whether the body has the class
    [map-fullscreen], the height of the viewport and the top of the table
    wrapper's rectangle. *)
Record FixEnv : Type := mkFixEnv {
  mobileMatches : bool;
  envFullscreen : bool;
  viewportHeight : num;
  tableTop : num
}.

(** The state [initializeMobileTableScrollFix] starts from, before its
    first [ensureMomentumScroll] and [scheduleUpdate]. *)
Definition initialScrollFix : ScrollFix :=
  {| scheduled := false; lastHeight := None; tableScrollMaxHeight := None;
     styleHeight := None; styleMaxHeight := None;
     momentumScrollEnabled := false; overflowScrolling := None;
     overscrollBehaviorY := None; fixFrames := []; computed := 0%nat |}.

(** [ensureMomentumScroll()] *)
Definition ensureMomentumScroll (env : FixEnv) (f : ScrollFix) : ScrollFix :=
  if negb (mobileMatches env) then f
  else if momentumScrollEnabled f then f
  else
    let f := set_momentumScrollEnabled true f in
    let f := set_overflowScrolling (Some "touch"%string) f in
    set_overscrollBehaviorY (Some "contain"%string) f.

(** [computeHeight()] *)
Definition computeHeight (env : FixEnv) (f : ScrollFix) : ScrollFix :=
  let f := set_computed (S (computed f)) f in
  if negb (mobileMatches env) then
    let f := set_lastHeight None f in
    let f := set_tableScrollMaxHeight None f in
    let f := set_styleHeight None f in
    set_styleMaxHeight None f
  else if envFullscreen env then
    match lastHeight f with
    | Some h => set_tableScrollMaxHeight (Some h) f
    | None => f
    end
  else
    let marginBottom := #12 in
    let minHeight := #180 in
    let available := viewportHeight env - tableTop env - marginBottom in
    if negb (Number_isFinite available) then f
    else
      let nextHeight := Math_max minHeight (Math_floor available) in
      if match lastHeight f with
         | Some h => strict_eq nextHeight h
         | None => false
         end
      then f
      else
        let f := set_lastHeight (Some nextHeight) f in
        set_tableScrollMaxHeight (Some nextHeight) f.

(** [scheduleUpdate()] *)
Definition scheduleUpdate (f : ScrollFix) : ScrollFix :=
  if scheduled f then f
  else
    let f := set_scheduled true f in
    set_fixFrames (fixFrames f ++ [OuterFrame]) f.

(** One callback of the fix in a display frame. *)
Definition runFixCallback (env : FixEnv) (cb : FixCallback) (f : ScrollFix)
  : ScrollFix :=
  match cb with
  | OuterFrame => set_fixFrames (fixFrames f ++ [InnerFrame]) f
  | InnerFrame =>
      let f := set_scheduled false f in
      let f := computeHeight env f in
      ensureMomentumScroll env f
  end.

(** A display frame: the callbacks queued when it starts run in order; what
    they queue waits for the next frame. *)
Definition fixFrame (env : FixEnv) (f : ScrollFix) : ScrollFix :=
  fold_left (fun s cb => runFixCallback env cb s) (fixFrames f)
    (set_fixFrames [] f).

(** A trigger of [scheduleUpdate] (a resize, an orientation change, a
    mutation of the body class, ...) or a display frame. *)
Inductive FixEvent : Type :=
| FixTrigger
| FixFrame (env : FixEnv).

Definition fixDispatch (e : FixEvent) (f : ScrollFix) : ScrollFix :=
  match e with
  | FixTrigger => scheduleUpdate f
  | FixFrame env => fixFrame env f
  end.

Definition fixRun (events : list FixEvent) (f : ScrollFix) : ScrollFix :=
  fold_left (fun s e => fixDispatch e s) events f.

(** A remembered height is a whole number of pixels, at least 180, and the
    custom property holds it. *)
Definition heightShown (f : ScrollFix) : Prop :=
  forall h, lastHeight f = Some h ->
    tableScrollMaxHeight f = Some h /\
    exists n : Z, h = #(IZR n) /\ (180 <= n)%Z.

(** At most one callback of the fix is queued, and exactly when an update
    is scheduled. *)
Definition fixQueueTracked (f : ScrollFix) : Prop :=
  (scheduled f = false /\ fixFrames f = []) \/
  (scheduled f = true /\ exists cb, fixFrames f = [cb]).

(* ================================================================= *)
(** ** The derived viewBox in double precision *)

(** The program runs on IEEE binary64 numbers.  [getViewBox] and the step of
    the zoom-in button are given here on these numbers as well, operation by
    operation as the source has them, to see what rounding does to the
    identities proved on the reals. *)
Record ViewBox64 : Type := mkViewBox64 {
  vb64_x : float;
  vb64_y : float;
  vb64_width : float;
  vb64_height : float
}.

Definition maxZoom64 : float := 8%float.
Definition defaultPanX64 : float := (-60)%float.
Definition defaultPanY64 : float := 0%float.
Definition baseWidth64 : float := 1150%float.
Definition baseHeight64 : float := 1360%float.

(** [Math.min] of two binary64 numbers ([NaN] if either is; the sign of a
    zero is not looked at). *)
Definition Math_min64 (a b : float) : float :=
  if (PrimFloat.is_nan a || PrimFloat.is_nan b)%bool then PrimFloat.nan
  else if PrimFloat.ltb b a then b else a.

(** [getViewBox()] on the fields [currentZoom], [panX], [panY]. *)
Definition getViewBox64 (currentZoom panX panY : float) : ViewBox64 :=
  let width := (baseWidth64 / currentZoom)%float in
  let height := (baseHeight64 / currentZoom)%float in
  let x := (- panX + (baseWidth64 - width) / 2)%float in
  let y := (- panY + (baseHeight64 - height) / 2)%float in
  {| vb64_x := x; vb64_y := y; vb64_width := width; vb64_height := height |}.

(** The zoom written by [zoomIn()]. *)
Definition zoomIn64 (currentZoom : float) : float :=
  Math_min64 maxZoom64 (currentZoom * 1.2)%float.

(* ================================================================= *)
(** ** Arithmetic on finite numbers *)

Section FiniteArithmetic.
Variables x y : R.

Lemma add_fin : #x + #y = #(x + y).
Proof. reflexivity. Qed.

Lemma sub_fin : #x - #y = #(x - y).
Proof. reflexivity. Qed.

Lemma mul_fin : #x * #y = #(x * y).
Proof. reflexivity. Qed.

Lemma neg_fin : - #x = #(- x).
Proof. reflexivity. Qed.

Lemma div_fin : y <> 0%R -> #x / #y = #(x / y).
Proof.
  intros Hy. unfold div.
  destruct (Req_dec_T y 0); [contradiction | reflexivity].
Qed.

Lemma Math_max_fin : Math_max #x #y = #(Rmax x y).
Proof.
  unfold Math_max, lt, Rmax.
  destruct (Rlt_dec x y), (Rle_dec x y); try reflexivity; f_equal; lra.
Qed.

Lemma Math_min_fin : Math_min #x #y = #(Rmin x y).
Proof.
  unfold Math_min, lt, Rmin.
  destruct (Rlt_dec y x), (Rle_dec x y); try reflexivity; f_equal; lra.
Qed.

Lemma Math_abs_fin : Math_abs #x = #(Rabs x).
Proof. reflexivity. Qed.

Lemma Math_hypot_fin : Math_hypot #x #y = #(sqrt (x * x + y * y)).
Proof. reflexivity. Qed.

Lemma Math_exp_fin : Math_exp #x = #(exp x).
Proof. reflexivity. Qed.

Lemma Math_pow_decay_fin : Math_pow_decay x #y = #(Rpower x y).
Proof. reflexivity. Qed.

Lemma lt_fin : lt #x #y = if Rlt_dec x y then true else false.
Proof. reflexivity. Qed.

Lemma strict_eq_fin : strict_eq #x #y = if Req_dec_T x y then true else false.
Proof. reflexivity. Qed.

Lemma truthy_fin : truthy #x = if Req_dec_T x 0 then false else true.
Proof. reflexivity. Qed.

End FiniteArithmetic.

(** [NaN] goes through the arithmetic. *)
Lemma sub_nan_l (b : num) : NaN - b = NaN.
Proof. destruct b; reflexivity. Qed.

Lemma div_nan_l (b : num) : NaN / b = NaN.
Proof. destruct b; reflexivity. Qed.

Lemma mul_nan_l (b : num) : NaN * b = NaN.
Proof. destruct b; reflexivity. Qed.

Lemma add_nan_r (a : num) : a + NaN = NaN.
Proof. destruct a; reflexivity. Qed.

Lemma truthy_nan : truthy NaN = false.
Proof. reflexivity. Qed.

(** The infinities. *)
Lemma mul_pinf_pos_r (m : R) : (0 < m)%R -> PInf * #m = PInf.
Proof. intros H. cbn. unfold scale_inf. destruct (Rlt_dec 0 m); [easy | lra]. Qed.

Lemma mul_ninf_pos_r (m : R) : (0 < m)%R -> NInf * #m = NInf.
Proof. intros H. cbn. unfold scale_inf. destruct (Rlt_dec 0 m); [easy | lra]. Qed.

Lemma mul_pos_pinf_l (z : R) : (0 < z)%R -> #z * PInf = PInf.
Proof. intros H. cbn. unfold scale_inf. destruct (Rlt_dec 0 z); [easy | lra]. Qed.

Lemma div_fin_pinf (x : R) : #x / PInf = #0.
Proof. reflexivity. Qed.

Lemma neg_pinf : - PInf = NInf.
Proof. reflexivity. Qed.

Lemma neg_ninf : - NInf = PInf.
Proof. reflexivity. Qed.

Lemma Math_abs_pinf : Math_abs PInf = PInf.
Proof. reflexivity. Qed.

Lemma Math_abs_ninf : Math_abs NInf = PInf.
Proof. reflexivity. Qed.

Lemma Math_min_fin_pinf (x : R) : Math_min #x PInf = #x.
Proof. reflexivity. Qed.

Lemma Math_max_fin_pinf (x : R) : Math_max #x PInf = PInf.
Proof. reflexivity. Qed.

Lemma Math_min_pinf_fin (x : R) : Math_min PInf #x = #x.
Proof. reflexivity. Qed.

Lemma Math_max_ninf_fin (x : R) : Math_max NInf #x = #x.
Proof. reflexivity. Qed.

Lemma Math_min_fin_ninf (x : R) : Math_min #x NInf = NInf.
Proof. reflexivity. Qed.

Lemma Math_max_fin_ninf (x : R) : Math_max #x NInf = #x.
Proof. reflexivity. Qed.

Lemma Math_exp_pinf : Math_exp PInf = PInf.
Proof. reflexivity. Qed.

Lemma Math_exp_ninf : Math_exp NInf = #0.
Proof. reflexivity. Qed.

Lemma gt_positive (a : num) :
  gt a #0 = true -> a = PInf \/ exists x, a = #x /\ (0 < x)%R.
Proof.
  destruct a as [| | | x]; cbn; try discriminate; [now left |].
  destruct (Rlt_dec 0 x); [| discriminate]. right; eauto.
Qed.

Lemma add_nan_l (b : num) : NaN + b = NaN.
Proof. destruct b; reflexivity. Qed.

Lemma sub_nan_r (a : num) : a - NaN = NaN.
Proof. destruct a; reflexivity. Qed.

Lemma mul_nan_r (a : num) : a * NaN = NaN.
Proof. destruct a; reflexivity. Qed.

Lemma Math_max_nan_l (b : num) : Math_max NaN b = NaN.
Proof. reflexivity. Qed.

Lemma Math_min_nan_l (b : num) : Math_min NaN b = NaN.
Proof. reflexivity. Qed.

Lemma add_pinf_ninf : PInf + NInf = NaN.
Proof. reflexivity. Qed.

Lemma add_pinf_fin (x : R) : PInf + #x = PInf.
Proof. reflexivity. Qed.

Lemma add_fin_pinf (x : R) : #x + PInf = PInf.
Proof. reflexivity. Qed.

Lemma sub_pinf_fin (x : R) : PInf - #x = PInf.
Proof. reflexivity. Qed.

Lemma div_pinf_pos (y : R) : (0 < y)%R -> PInf / #y = PInf.
Proof. intros H. cbn. destruct (Rlt_dec y 0); [lra | reflexivity]. Qed.

Lemma Math_max_pinf_fin (x : R) : Math_max PInf #x = PInf.
Proof. reflexivity. Qed.

(** The difference of two coordinates, by the kind of the pair. *)
Lemma sub_infinitelyApart (a b : num) :
  infinitelyApart a b -> a - b = PInf \/ a - b = NInf.
Proof. destruct a, b; cbn; intros []; auto. Qed.

Lemma sub_undefinedGap (a b : num) : undefinedGap a b -> a - b = NaN.
Proof. destruct a, b; cbn; intros []; reflexivity. Qed.

Lemma sub_not_infinitelyApart (a b : num) :
  ~ infinitelyApart a b -> a - b <> PInf /\ a - b <> NInf.
Proof.
  destruct a, b; cbn; intros H; try (exfalso; apply H; exact I);
    split; discriminate.
Qed.

Lemma Math_hypot_infinite (a b : num) :
  (a = PInf \/ a = NInf) \/ (b = PInf \/ b = NInf) -> Math_hypot a b = PInf.
Proof.
  intros H. destruct a, b; try reflexivity;
    destruct H as [[H | H] | [H | H]]; discriminate H.
Qed.

Lemma Math_hypot_nan (a b : num) :
  a = NaN \/ b = NaN -> a <> PInf -> a <> NInf -> b <> PInf -> b <> NInf ->
  Math_hypot a b = NaN.
Proof.
  intros H H1 H2 H3 H4. destruct a, b; try reflexivity; try congruence;
    destruct H as [H | H]; discriminate H.
Qed.

#[global] Opaque add sub mul div neg lt le gt strict_eq truthy
  Math_max Math_min Math_abs Math_hypot Math_exp Math_pow_decay.

Create Rewrite HintDb js.
#[global] Hint Rewrite add_fin sub_fin mul_fin neg_fin Math_max_fin
  Math_min_fin Math_abs_fin Math_hypot_fin Math_exp_fin Math_pow_decay_fin
  : js.
#[global] Hint Rewrite div_fin using lra : js.
#[global] Hint Rewrite neg_pinf neg_ninf Math_abs_pinf Math_abs_ninf
  Math_min_fin_pinf Math_max_fin_pinf Math_min_pinf_fin Math_max_ninf_fin
  Math_exp_pinf Math_exp_ninf div_fin_pinf Math_min_fin_ninf
  Math_max_fin_ninf : js.
#[global] Hint Rewrite mul_pinf_pos_r mul_ninf_pos_r mul_pos_pinf_l
  using lra : js.

(** Normalise arithmetic on finite numbers. *)
Ltac js_norm := autorewrite with js.

(** Split the real-number [min] / [max] / comparisons left in a goal. *)
Ltac R_cases :=
  unfold Rmin, Rmax in *;
  repeat match goal with
         | |- context [Rle_dec ?a ?b] => destruct (Rle_dec a b)
         | |- context [Rlt_dec ?a ?b] => destruct (Rlt_dec a b)
         | |- context [Req_dec_T ?a ?b] => destruct (Req_dec_T a b)
         | H : context [Rle_dec ?a ?b] |- _ => destruct (Rle_dec a b)
         | H : context [Rlt_dec ?a ?b] |- _ => destruct (Rlt_dec a b)
         | H : context [Req_dec_T ?a ?b] |- _ => destruct (Req_dec_T a b)
         end.

(* ================================================================= *)
(** ** The derived viewBox *)

(** C5, as stated, fails in the double-precision arithmetic the program
    runs on.  Nine clicks on the zoom-in button from the initial view leave
    the zoom [5.159780351999999] and the pan [(-60, 0)]; the viewBox derived
    there has [x + width/2 = 634.9999999999999], while
    [baseWidth/2 - panX = 635]. *)
Lemma getViewBox_center_rounds_in_binary64 :
  let zoom := Nat.iter 9 zoomIn64 1%float in
  let vb := getViewBox64 zoom defaultPanX64 defaultPanY64 in
  zoom = 5.159780351999999%float /\
  PrimFloat.ltb 0%float zoom = true /\
  vb64_width vb = (baseWidth64 / zoom)%float /\
  (vb64_x vb + vb64_width vb / 2)%float = 634.9999999999999%float /\
  (baseWidth64 / 2 - defaultPanX64)%float = 635%float /\
  PrimFloat.eqb (vb64_x vb + vb64_width vb / 2)%float
                (baseWidth64 / 2 - defaultPanX64)%float = false.
Proof. repeat split. Qed.

(** C5 (amended).  In exact real arithmetic, for a finite pan and a zoom
    [z > 0] the derived viewBox has width [baseWidth / z] and height
    [baseHeight / z], and its centre [(x + width/2, y + height/2)] is
    [(baseWidth/2 - panX, baseHeight/2 - panY)]. *)
Theorem getViewBox_size_and_center (st : State) (z px py : R) :
  currentZoom st = #z -> panX st = #px -> panY st = #py -> (0 < z)%R ->
  let vb := getViewBox st in
  vb_width vb = #(1150 / z) /\
  vb_height vb = #(1360 / z) /\
  vb_x vb + vb_width vb / #2 = baseWidth / #2 - panX st /\
  vb_y vb + vb_height vb / #2 = baseHeight / #2 - panY st.
Proof.
  intros Hz Hx Hy Hpos. unfold getViewBox. cbn.
  rewrite Hz, Hx, Hy. unfold baseWidth, baseHeight.
  js_norm.
  repeat split; f_equal; field; lra.
Qed.

(** The view the constructor leaves: the canvas shifted by 60. *)
Example getViewBox_initialState :
  getViewBox initialState = mkViewBox #60 #0 #1150 #1360.
Proof.
  unfold getViewBox. cbn. unfold baseWidth, baseHeight, defaultPanX,
    defaultPanY.
  js_norm. f_equal; f_equal; lra.
Qed.

(** One click on the zoom-in button from the initial view. *)
Example zoomIn_initialState : currentZoom (zoomIn initialState) = #1.2.
Proof.
  unfold zoomIn, stopPanAnimation, stopPanInertia. cbn. unfold maxZoom.
  js_norm. f_equal. rewrite Rmin_right; lra.
Qed.

(** At zoom 1 the whole canvas is visible and every centering target,
    the canvas centre and the origin among them, asks for the pan
    [(0, 0)]. *)
Example calculatePanForCoordinates_at_zoom_1 :
  calculatePanForCoordinates #575 #680 (mkFocus None None) initialState
  = (#0, #0) /\
  calculatePanForCoordinates #0 #0 (mkFocus None None) initialState
  = (#0, #0).
Proof.
  unfold calculatePanForCoordinates, clampFraction. cbn.
  unfold baseWidth, baseHeight. js_norm.
  split; f_equal; f_equal; R_cases; lra.
Qed.

(* ================================================================= *)
(** ** Pinch: the anchored zoom *)

Lemma clamp_fin (v lo hi : R) : clamp #v #lo #hi = #(Rmin (Rmax v lo) hi).
Proof. unfold clamp. now js_norm. Qed.

Lemma screenFraction_fin (c o s : R) :
  s <> 0%R -> screenFraction #c #o #s = #(axisFraction c o s).
Proof.
  intros Hs. unfold screenFraction, axisFraction.
  js_norm. now rewrite clamp_fin.
Qed.

(** What [updatePanForPinch] computes on finite data. *)
Lemma updatePanForPinch_fin (st : State) (z px py tz cx cy l t w h : R) :
  currentZoom st = #z -> panX st = #px -> panY st = #py ->
  z <> 0%R -> tz <> 0%R -> w <> 0%R -> h <> 0%R ->
  updatePanForPinch #tz #cx #cy (mkRect #l #t #w #h) st
  = set_panY #(axisPinchPan 1360 z py cy t h tz)
      (set_panX #(axisPinchPan 1150 z px cx l w tz)
         (set_currentZoom #tz st)).
Proof.
  intros Hz Hx Hy Hnz Htz Hw Hh.
  unfold updatePanForPinch, getViewBox. cbn.
  rewrite !strict_eq_fin.
  destruct (Req_dec_T w 0); [contradiction|].
  destruct (Req_dec_T h 0); [contradiction|]. cbn.
  rewrite Hz, Hx, Hy. unfold baseWidth, baseHeight.
  js_norm. rewrite !clamp_fin. js_norm. rewrite !clamp_fin.
  unfold axisPinchPan, axisClampedView, axisDesiredView, axisMapCenter,
    axisFraction.
  reflexivity.
Qed.

Lemma axisClampedView_range (base z p c o s tz : R) :
  (0 <= axisClampedView base z p c o s tz <= Rmax 0 (base - base / tz))%R.
Proof.
  unfold axisClampedView.
  generalize (axisDesiredView base z p c o s tz) (base - base / tz)%R.
  intros d m. R_cases; lra.
Qed.

Lemma axisClampedView_no_clamp (base z p c o s tz : R) :
  anchorNeedsNoClamp base z p c o s tz ->
  axisClampedView base z p c o s tz = axisDesiredView base z p c o s tz.
Proof.
  unfold anchorNeedsNoClamp, axisClampedView.
  generalize (axisDesiredView base z p c o s tz) (base - base / tz)%R.
  intros d m H. R_cases; lra.
Qed.

(** The viewBox after [updatePanForPinch] starts at the clamped origin. *)
Lemma updatePanForPinch_viewBox (st : State)
    (z px py tz cx cy l t w h : R) :
  currentZoom st = #z -> panX st = #px -> panY st = #py ->
  z <> 0%R -> tz <> 0%R -> w <> 0%R -> h <> 0%R ->
  getViewBox (updatePanForPinch #tz #cx #cy (mkRect #l #t #w #h) st)
  = mkViewBox #(axisClampedView 1150 z px cx l w tz)
              #(axisClampedView 1360 z py cy t h tz)
              #(1150 / tz) #(1360 / tz).
Proof.
  intros Hz Hx Hy Hnz Htz Hw Hh.
  rewrite (updatePanForPinch_fin st z px py) by assumption.
  unfold getViewBox. cbn. unfold baseWidth, baseHeight, axisPinchPan.
  js_norm. f_equal; f_equal; lra.
Qed.

(** After [updatePanForPinch] on a rectangle of positive area the viewBox
    lies inside the canvas. *)
Lemma updatePanForPinch_inside_canvas (st : State) (rect : Rect)
    (tz cx cy : R) :
  zoomInBounds st -> finite (panX st) -> finite (panY st) ->
  validRect rect -> (1 <= tz <= 8)%R ->
  viewBoxInsideCanvas (getViewBox (updatePanForPinch #tz #cx #cy rect st)).
Proof.
  intros (z & Hz & Hzr) (px & Hx) (py & Hy) (l & t & w & h & -> & Hw & Hh) Htz.
  rewrite (updatePanForPinch_viewBox st z px py) by (assumption || lra).
  do 4 eexists. split; [reflexivity|].
  split; apply axisClampedView_range.
Qed.

Lemma pinchTargetZoom_range (z0 d0 d : R) :
  (1 <= pinchTargetZoom z0 d0 d <= 8)%R.
Proof.
  unfold pinchTargetZoom.
  generalize (z0 * (1 + (d / d0 - 1) * 2))%R. intros v. R_cases; lra.
Qed.

Lemma getTouchDistance_fin (x0 y0 x1 y1 : R) :
  getTouchDistance (mkTouch #x0 #y0) (mkTouch #x1 #y1)
  = #(sqrt ((x0 - x1) * (x0 - x1) + (y0 - y1) * (y0 - y1))).
Proof. unfold getTouchDistance. cbn. now js_norm. Qed.

Lemma truthy_fin_true (x : R) : truthy #x = true -> x <> 0%R.
Proof. rewrite truthy_fin. destruct (Req_dec_T x 0); [discriminate | auto]. Qed.

Lemma getTouchMidpoint_fin (x0 y0 x1 y1 : R) :
  getTouchMidpoint (mkTouch #x0 #y0) (mkTouch #x1 #y1)
  = (#((x0 + x1) / 2), #((y0 + y1) / 2)).
Proof. unfold getTouchMidpoint. cbn. now js_norm. Qed.

(** What [handlePinchMove] does during a pinch when the two touch points
    are at a finite, non-zero distance [d] with midpoint [(mx, my)]. *)
Lemma handlePinchMove_fin (st : State) (rect : Rect) (t0 t1 : Touch)
    (rest : list Touch) (z0 d0 d : R) (mx my : num) :
  pinchActive st = true ->
  pinchStartZoom st = #z0 -> pinchStartDistance st = #d0 -> d0 <> 0%R ->
  getTouchDistance t0 t1 = #d -> d <> 0%R ->
  getTouchMidpoint t0 t1 = (mx, my) ->
  handlePinchMove (t0 :: t1 :: rest) rect st
  = updatePanForPinch #(pinchTargetZoom z0 d0 d) mx my rect st.
Proof.
  intros Ha Hz0 Hd0 Hnz Hdist Hd Hmid.
  unfold handlePinchMove. rewrite Ha, Hd0, Hz0, Hdist, Hmid.
  rewrite strict_eq_fin, truthy_fin.
  destruct (Req_dec_T d0 0); [contradiction|].
  destruct (Req_dec_T d 0); [contradiction|]. cbn.
  unfold minZoom, maxZoom.
  js_norm. rewrite clamp_fin. reflexivity.
Qed.

(** C9.  After a pinch update on a client rectangle of positive area the
    derived viewBox lies inside the canvas: [x] is in
    [[0, max(0, baseWidth - width)]] and [y] in
    [[0, max(0, baseHeight - height)]].  This holds for [updatePanForPinch]
    at every target zoom within the bounds, and for [handlePinchMove] on
    every pair of finite touch points at a non-zero distance. *)
Theorem pinch_update_viewBox_inside_canvas (st : State) (rect : Rect) :
  zoomInBounds st -> finite (panX st) -> finite (panY st) ->
  validRect rect ->
  (forall tz cx cy : R,
      (1 <= tz <= 8)%R ->
      viewBoxInsideCanvas
        (getViewBox (updatePanForPinch #tz #cx #cy rect st))) /\
  (forall (t0 t1 : Touch) (rest : list Touch),
      pinchInProgress st -> finiteTouch t0 -> finiteTouch t1 ->
      truthy (getTouchDistance t0 t1) = true ->
      viewBoxInsideCanvas
        (getViewBox (handlePinchMove (t0 :: t1 :: rest) rect st))).
Proof.
  intros Hzoom Hpx Hpy Hrect. split.
  - intros tz cx cy Htz.
    now apply updatePanForPinch_inside_canvas.
  - intros [x0' y0'] [x1' y1'] rest (Ha & (z0 & Hz0) & d0 & Hd0 & Hpos)
      [(x0 & Hx0) (y0 & Hy0)] [(x1 & Hx1) (y1 & Hy1)] Hd.
    cbn in Hx0, Hy0, Hx1, Hy1. subst.
    rewrite getTouchDistance_fin in Hd. apply truthy_fin_true in Hd.
    rewrite (handlePinchMove_fin st rect _ _ rest z0 d0 _ _ _ Ha Hz0 Hd0
               ltac:(lra) (getTouchDistance_fin _ _ _ _) Hd
               (getTouchMidpoint_fin _ _ _ _)).
    apply updatePanForPinch_inside_canvas; try assumption.
    apply pinchTargetZoom_range.
Qed.

Lemma sqrt_of_square (x d : R) : (0 <= d)%R -> x = (d * d)%R -> sqrt x = d.
Proof. intros Hd ->. now apply sqrt_square. Qed.

(** The map point under a screen point, on finite data. *)
Lemma mapPointUnder_fin (st : State) (z px py cx cy l t w h : R) :
  currentZoom st = #z -> panX st = #px -> panY st = #py ->
  z <> 0%R -> w <> 0%R -> h <> 0%R ->
  mapPointUnder (mkRect #l #t #w #h) #cx #cy st
  = (#(axisMapPoint 1150 z px cx l w), #(axisMapPoint 1360 z py cy t h)).
Proof.
  intros Hz Hx Hy Hnz Hw Hh.
  unfold mapPointUnder, getViewBox. cbn. rewrite Hz, Hx, Hy.
  unfold baseWidth, baseHeight. js_norm. reflexivity.
Qed.

(** Within the client rectangle the fraction [updatePanForPinch] works with
    is the fraction where the screen point lies, and the map point it
    anchors is the one under the screen point. *)
Lemma axisFraction_within (c o s : R) :
  (0 < s)%R -> withinRect c o s -> axisFraction c o s = ((c - o) / s)%R.
Proof.
  intros Hs [H1 H2]. unfold axisFraction.
  assert (H0 : (0 <= (c - o) / s)%R).
  { unfold Rdiv. apply Rmult_le_pos; [lra |].
    left. now apply Rinv_0_lt_compat. }
  assert (H3 : ((c - o) / s <= 1)%R).
  { apply (Rmult_le_reg_r s); [assumption |].
    unfold Rdiv. rewrite Rmult_assoc, Rinv_l by lra. lra. }
  R_cases; lra.
Qed.

Lemma axisMapCenter_within (base z p c o s : R) :
  (0 < s)%R -> withinRect c o s ->
  axisMapCenter base z p c o s = axisMapPoint base z p c o s.
Proof.
  intros Hs Hin. unfold axisMapCenter, axisMapPoint.
  now rewrite axisFraction_within.
Qed.

(** The pinch of the counterexample: two fingers at [(500, 680)] and
    [(650, 680)], 150 apart, midpoint [(575, 680)]. *)
Lemma clamped_pinch_distance :
  getTouchDistance (mkTouch #500 #680) (mkTouch #650 #680) = #150.
Proof. rewrite getTouchDistance_fin. f_equal. apply sqrt_of_square; lra. Qed.

Lemma clamped_pinch_midpoint :
  getTouchMidpoint (mkTouch #500 #680) (mkTouch #650 #680) = (#575, #680).
Proof. rewrite getTouchMidpoint_fin. f_equal; f_equal; lra. Qed.

Lemma clamped_pinch_start :
  let st := dispatch (TouchStart [mkTouch #500 #680; mkTouch #650 #680]
                        OverMap #0) initialState in
  currentZoom st = #1 /\ panX st = #(-60) /\ panY st = #0 /\
  pinchActive st = true /\ pinchStartZoom st = #1 /\
  pinchStartDistance st = #150.
Proof.
  repeat split; try reflexivity.
  cbn. rewrite clamped_pinch_distance. unfold or_else. rewrite truthy_fin.
  destruct (Req_dec_T 150 0); [lra | reflexivity].
Qed.

Lemma clamped_pinch_move (st : State) :
  currentZoom st = #1 -> panX st = #(-60) -> panY st = #0 ->
  pinchActive st = true -> pinchStartZoom st = #1 ->
  pinchStartDistance st = #150 ->
  dispatch (TouchMove [mkTouch #500 #680; mkTouch #650 #680]
              OverMap (mkRect #0 #0 #1150 #1360) #16) st
  = set_panY #0 (set_panX #0 (set_currentZoom #1
      (set_isMultiTouchGesture true st))).
Proof.
  intros Hz Hx Hy Ha Hz0 Hd0.
  assert (Htz : pinchTargetZoom 1 150 150 = 1%R)
    by (unfold pinchTargetZoom; R_cases; lra).
  unfold dispatch, touchMoveHandler. cbn [length Nat.leb]. rewrite Ha.
  cbn [negb].
  rewrite (handlePinchMove_fin _ _ _ _ [] 1 150 150 #575 #680);
    [ | exact Ha | exact Hz0 | exact Hd0 | lra | exact clamped_pinch_distance
      | lra | exact clamped_pinch_midpoint ].
  rewrite Htz.
  rewrite (updatePanForPinch_fin _ 1 (-60) 0);
    [ | exact Hz | exact Hx | exact Hy | lra | lra | lra | lra ].
  assert (Hpx : axisPinchPan 1150 1 (-60) 575 0 1150 1 = 0%R).
  { unfold axisPinchPan, axisClampedView, axisDesiredView, axisMapCenter,
      axisFraction. R_cases; lra. }
  assert (Hpy : axisPinchPan 1360 1 0 680 0 1360 1 = 0%R).
  { unfold axisPinchPan, axisClampedView, axisDesiredView, axisMapCenter,
      axisFraction. R_cases; lra. }
  rewrite Hpx, Hpy. reflexivity.
Qed.


Lemma axisFraction_range (c o s : R) : (0 <= axisFraction c o s <= 1)%R.
Proof.
  unfold axisFraction. generalize ((c - o) / s)%R. intros v. R_cases; lra.
Qed.

(** Zooming in from a viewBox that lies inside the canvas never needs the
    clamp. *)
Lemma anchorNeedsNoClamp_zoom_in (base z p c o s tz : R) :
  (0 <= base)%R -> (0 < z <= tz)%R ->
  (0 <= - p + (base - base / z) / 2 <= base - base / z)%R ->
  anchorNeedsNoClamp base z p c o s tz.
Proof.
  intros Hb Hz Hin.
  unfold anchorNeedsNoClamp, axisDesiredView, axisMapCenter.
  pose proof (axisFraction_range c o s) as HF.
  set (F := axisFraction c o s) in *.
  assert (Hinv : (0 <= base / z - base / tz)%R).
  { unfold Rdiv. rewrite <- Rmult_minus_distr_l.
    apply Rmult_le_pos; [assumption|].
    assert (/ tz <= / z)%R by (apply Rinv_le_contravar; lra). lra. }
  set (a := (base / z)%R) in *. set (b := (base / tz)%R) in *.
  split; nra.
Qed.

Lemma div_by_zoom_range (b z : R) :
  (0 < b)%R -> (1 <= z)%R -> (0 < b / z <= b)%R.
Proof.
  intros Hb Hz. split; [apply Rdiv_lt_0_compat; lra |].
  assert (/ z <= / 1)%R by (apply Rinv_le_contravar; lra).
  unfold Rdiv. rewrite Rinv_1 in H. nra.
Qed.

(** Without clamping, of the midpoint's fraction or of the viewBox origin,
    the anchor stays. *)
Lemma updatePanForPinch_anchor (st : State)
    (z px py tz cx cy l t w h : R) :
  currentZoom st = #z -> z <> 0%R ->
  panX st = #px -> panY st = #py ->
  (0 < w)%R -> (0 < h)%R -> tz <> 0%R ->
  withinRect cx l w -> withinRect cy t h ->
  anchorNeedsNoClamp 1150 z px cx l w tz ->
  anchorNeedsNoClamp 1360 z py cy t h tz ->
  mapPointUnder (mkRect #l #t #w #h) #cx #cy
    (updatePanForPinch #tz #cx #cy (mkRect #l #t #w #h) st)
  = mapPointUnder (mkRect #l #t #w #h) #cx #cy st.
Proof.
  intros Hz Hzr Hx Hy Hw Hh Htz HinX HinY HcX HcY.
  assert (Hw0 : w <> 0%R) by lra. assert (Hh0 : h <> 0%R) by lra.
  rewrite (updatePanForPinch_fin st z px py) by assumption.
  rewrite (mapPointUnder_fin st z px py) by assumption.
  rewrite (mapPointUnder_fin _ tz (axisPinchPan 1150 z px cx l w tz)
             (axisPinchPan 1360 z py cy t h tz))
    by (reflexivity || assumption).
  unfold axisPinchPan.
  rewrite (axisClampedView_no_clamp _ _ _ _ _ _ _ HcX).
  rewrite (axisClampedView_no_clamp _ _ _ _ _ _ _ HcY).
  unfold axisDesiredView.
  rewrite (axisMapCenter_within 1150 z px cx l w Hw HinX).
  rewrite (axisMapCenter_within 1360 z py cy t h Hh HinY).
  rewrite (axisFraction_within cx l w Hw HinX).
  rewrite (axisFraction_within cy t h Hh HinY).
  unfold axisMapPoint.
  f_equal; f_equal; field; repeat split; assumption.
Qed.

(** The midpoint has to lie within the client rectangle: [touchmove] is
    heard on the document, so the fingers may be off the svg.  At zoom 2
    and pan [(0, 0)], a pinch to the target zoom 4 whose midpoint
    [(-115, 680)] lies a tenth of the width left of the rectangle needs no
    clamping of the viewBox origin, yet the map point under the midpoint
    goes from [(230, 680)] to [(258.75, 680)]: [updatePanForPinch] anchors
    the point under the nearest edge. *)
Lemma pinch_anchor_moves_outside_rect :
  let rect := mkRect #0 #0 #1150 #1360 in
  let st := set_panX #0 (set_currentZoom #2 initialState) in
  let st' := updatePanForPinch #4 #(-115) #680 rect st in
  anchorNeedsNoClamp 1150 2 0 (-115) 0 1150 4 /\
  anchorNeedsNoClamp 1360 2 0 680 0 1360 4 /\
  ~ withinRect (-115) 0 1150 /\
  mapPointUnder rect #(-115) #680 st = (#230, #680) /\
  mapPointUnder rect #(-115) #680 st' = (#258.75, #680).
Proof.
  intros rect st st'.
  assert (Hf : axisFraction (-115) 0 1150 = 0%R)
    by (unfold axisFraction; R_cases; lra).
  assert (Hg : axisFraction 680 0 1360 = 0.5%R)
    by (unfold axisFraction; R_cases; lra).
  assert (Hst' : st' = set_panY #(axisPinchPan 1360 2 0 680 0 1360 4)
                         (set_panX #(axisPinchPan 1150 2 0 (-115) 0 1150 4)
                            (set_currentZoom #4 st))).
  { subst st' rect.
    apply (updatePanForPinch_fin st 2 0 0); try reflexivity; lra. }
  assert (Hpx : axisPinchPan 1150 2 0 (-115) 0 1150 4 = 143.75%R).
  { unfold axisPinchPan, axisClampedView, axisDesiredView, axisMapCenter.
    rewrite Hf. R_cases; lra. }
  assert (Hpy : axisPinchPan 1360 2 0 680 0 1360 4 = 0%R).
  { unfold axisPinchPan, axisClampedView, axisDesiredView, axisMapCenter.
    rewrite Hg. R_cases; lra. }
  rewrite Hpx, Hpy in Hst'.
  split.
  { unfold anchorNeedsNoClamp, axisDesiredView, axisMapCenter.
    rewrite Hf. lra. }
  split.
  { unfold anchorNeedsNoClamp, axisDesiredView, axisMapCenter.
    rewrite Hg. lra. }
  split; [unfold withinRect; lra |].
  split.
  - subst rect.
    rewrite (mapPointUnder_fin st 2 0 0); try reflexivity; try lra.
    unfold axisMapPoint. f_equal; f_equal; lra.
  - subst rect. rewrite Hst'.
    rewrite (mapPointUnder_fin _ 4 143.75 0); try reflexivity; try lra.
    unfold axisMapPoint. f_equal; f_equal; lra.
Qed.


(* ================================================================= *)
(** ** Stopping the loops *)

(** Case analysis on the control flow left in a goal about a state that has
    been taken apart into its fields. *)
Lemma truthy_zero : truthy #0 = false.
Proof. rewrite truthy_fin. destruct (Req_dec_T 0 0); [reflexivity | lra]. Qed.

Ltac no_flow t :=
  lazymatch t with
  | context [if _ then _ else _] => fail
  | context [match _ with Some _ => _ | None => _ end] => fail
  | _ => idtac
  end.

(** Read a field (or a bundle of fields) through one field update: the
    update is dropped or, on its own field, read. *)
Ltac peel_setters :=
  repeat match goal with
         | |- context [?proj (?setter ?v ?s)] =>
             lazymatch type of s with State => idtac end;
             lazymatch type of (setter v s) with State => idtac end;
             first
               [ let H := fresh in
                 assert (H : forall v' s', proj (setter v' s') = proj s')
                   by reflexivity;
                 rewrite !H; clear H
               | let H := fresh in
                 assert (H : forall v' s', proj (setter v' s') = v')
                   by reflexivity;
                 rewrite !H; clear H ]
         end.

Ltac flow_cases :=
  repeat (cbn in *; rewrite ?truthy_zero;
          match goal with
          | |- context [match ?o with Some _ => _ | None => _ end] =>
              is_var o; destruct o
          | |- context [if ?c then _ else _] => is_var c; destruct c
          | |- context [if ?c then _ else _] =>
              match c with
              | context [?v] =>
                  is_var v; match type of v with bool => destruct v end
              end
          | |- context [if ?c then _ else _] => no_flow c; destruct c
          end);
  cbn in *; rewrite ?truthy_zero; cbn in *.

(** Split a conjunction into its parts. *)
Ltac conj_split := repeat match goal with |- _ /\ _ => split end.

(** Take the state apart and follow every branch of the handlers named. *)
Tactic Notation "by_flow" constr(st) :=
  destruct st; flow_cases; try reflexivity.

Lemma stopPanInertia_idempotent (r : bool) (st : State) :
  stopPanInertia r (stopPanInertia r st) = stopPanInertia r st.
Proof.
  destruct st; unfold stopPanInertia; destruct r; flow_cases; reflexivity.
Qed.

Lemma stopPanAnimation_idempotent (st : State) :
  stopPanAnimation (stopPanAnimation st) = stopPanAnimation st.
Proof. destruct st; unfold stopPanAnimation; flow_cases; reflexivity. Qed.


Lemma stopInertiaAndAnimation_idempotent (st : State) :
  stopInertiaAndAnimation (stopInertiaAndAnimation st)
  = stopInertiaAndAnimation st.
Proof.
  unfold stopInertiaAndAnimation, stopPanAnimation, stopPanInertia.
  by_flow st.
Qed.

(** What the two stop calls leave: nothing scheduled under either handle, no
    completion callback, no velocity; pan, zoom and the gesture flags as they
    were. *)
Lemma stopInertiaAndAnimation_fields (st : State) :
  let st' := stopInertiaAndAnimation st in
  panInertiaFrame st' = None /\ panAnimationFrame st' = None /\
  panAnimationComplete st' = None /\
  panVelocityX st' = #0 /\ panVelocityY st' = #0 /\
  panX st' = panX st /\ panY st' = panY st /\
  currentZoom st' = currentZoom st /\
  isPanning st' = isPanning st /\ pinchActive st' = pinchActive st.
Proof.
  unfold stopInertiaAndAnimation, stopPanAnimation, stopPanInertia.
  by_flow st; repeat split.
Qed.

(* ================================================================= *)
(** ** Drag panning *)

(** What [beginPan] records. *)
Lemma beginPan_fields (cx cy now : num) (inputType : InputType)
    (st : State) :
  let st' := beginPan cx cy inputType now st in
  isPanning st' = true /\
  startX st' = cx /\ startY st' = cy /\
  initialPanX st' = panX st /\ initialPanY st' = panY st /\
  panX st' = panX st /\ panY st' = panY st /\
  currentZoom st' = currentZoom st /\
  currentPanMultiplier st'
  = match inputType with touch => TOUCH_PAN_MULTIPLIER | mouse => #1 end /\
  panVelocityX st' = #0 /\ panVelocityY st' = #0 /\
  lastPointerX st' = cx /\ lastPointerY st' = cy /\
  panInertiaFrame st' = None /\ panAnimationFrame st' = None.
Proof.
  unfold beginPan, recordVelocity, stopPanAnimation, stopPanInertia.
  destruct inputType; by_flow st; repeat split.
Qed.

(** The pan that [updatePan] sets. *)
Lemma updatePan_pan (cx cy now : num) (st : State) :
  let st' := updatePan cx cy now st in
  let appliedMultiplier :=
    getPanSpeedMultiplier st * currentPanMultiplier st in
  panX st' = initialPanX st
             + ((cx - startX st) / currentZoom st) * appliedMultiplier /\
  panY st' = initialPanY st
             + ((cy - startY st) / currentZoom st) * appliedMultiplier /\
  currentZoom st' = currentZoom st /\ isPanning st' = isPanning st.
Proof.
  unfold updatePan, recordVelocity, getPanSpeedMultiplier.
  by_flow st; repeat split.
Qed.

(** [endPan] leaves pan and zoom alone. *)
Lemma endPan_pan (skipInertia : bool) (now : num) (st : State) :
  let st' := endPan skipInertia now st in
  panX st' = panX st /\ panY st' = panY st /\
  currentZoom st' = currentZoom st /\ isPanning st' = false.
Proof.
  unfold endPan, startPanInertia, stopPanInertia, requestAnimationFrame.
  by_flow st; repeat split.
Qed.

(** An inertia frame adds the velocity times the elapsed time to the pan. *)
Lemma inertiaStep_pan (lastTime time : num) (st : State) :
  let st' := inertiaStep lastTime time st in
  panX st' = panX st + panVelocityX st * (time - lastTime) /\
  panY st' = panY st + panVelocityY st * (time - lastTime) /\
  currentZoom st' = currentZoom st.
Proof.
  unfold inertiaStep, stopPanInertia, requestAnimationFrame.
  by_flow st; repeat split.
Qed.

Lemma getPanSpeedMultiplier_at_minZoom (st : State) :
  currentZoom st = #1 -> getPanSpeedMultiplier st = #1.
Proof.
  intros Hz. unfold getPanSpeedMultiplier, maxZoom, minZoom. rewrite Hz.
  js_norm. rewrite Rmax_left by lra. js_norm. f_equal. lra.
Qed.

(** C7.  At zoom 1, [beginPan(100,100)], [updatePan(150,130)], [endPan()]
    leave the pan at the origin pan plus [(50, 30)], at whatever times the
    three calls happen; [endPan] itself moves nothing, and each inertia frame
    that follows adds its velocity times the elapsed time to the pan. *)
Theorem drag_round_trip (st : State) (ox oy : R) (t0 t1 t2 : num) :
  currentZoom st = #1 -> panX st = #ox -> panY st = #oy ->
  let st1 := beginPan #100 #100 mouse t0 st in
  let st2 := updatePan #150 #130 t1 st1 in
  let st3 := endPan false t2 st2 in
  panX st2 = #(ox + 50) /\ panY st2 = #(oy + 30) /\
  panX st3 = #(ox + 50) /\ panY st3 = #(oy + 30) /\
  currentZoom st3 = #1 /\
  forall (lastTime time : num) (s : State),
    panX (inertiaStep lastTime time s)
    = panX s + panVelocityX s * (time - lastTime) /\
    panY (inertiaStep lastTime time s)
    = panY s + panVelocityY s * (time - lastTime).
Proof.
  intros Hz Hx Hy st1 st2 st3.
  destruct (beginPan_fields #100 #100 t0 mouse st)
    as (_ & Hsx & Hsy & Hix & Hiy & _ & _ & Hz1 & Hm & _).
  fold st1 in Hsx, Hsy, Hix, Hiy, Hz1, Hm.
  destruct (updatePan_pan #150 #130 t1 st1) as (Hpx & Hpy & Hz2 & _).
  fold st2 in Hpx, Hpy, Hz2.
  destruct (endPan_pan false t2 st2) as (Hex & Hey & Hz3 & _).
  fold st3 in Hex, Hey, Hz3.
  rewrite Hz in Hz1.
  rewrite (getPanSpeedMultiplier_at_minZoom st1 Hz1) in Hpx, Hpy.
  rewrite Hsx, Hix, Hz1, Hm, Hx in Hpx.
  rewrite Hsy, Hiy, Hz1, Hm, Hy in Hpy.
  autorewrite with js in Hpx, Hpy.
  assert (Hpx' : panX st2 = #(ox + 50)) by (rewrite Hpx; f_equal; lra).
  assert (Hpy' : panY st2 = #(oy + 30)) by (rewrite Hpy; f_equal; lra).
  repeat split; try congruence.
  - apply inertiaStep_pan.
  - apply inertiaStep_pan.
Qed.

(* ================================================================= *)
(** ** A second finger during a drag *)

(** What [startPinch] leaves when there are two touch points. *)
Lemma startPinch_fields (t0 t1 : Touch) (rest : list Touch) (st : State) :
  let st' := startPinch (t0 :: t1 :: rest) st in
  isPanning st' = false /\ pinchActive st' = true /\
  pinchStartZoom st' = currentZoom st /\
  pinchStartDistance st' = or_else (getTouchDistance t0 t1) #0.0001 /\
  currentZoom st' = currentZoom st /\
  panX st' = panX st /\ panY st' = panY st /\
  panInertiaFrame st' = None /\ panAnimationFrame st' = None /\
  panVelocityX st' = #0 /\ panVelocityY st' = #0.
Proof.
  unfold startPinch, stopPanAnimation, stopPanInertia.
  generalize (or_else (getTouchDistance t0 t1) #0.0001). intros d.
  by_flow st; repeat split.
Qed.

(** [endPan] does nothing when no drag is in progress. *)
Lemma endPan_not_panning (skipInertia : bool) (now : num) (st : State) :
  isPanning st = false -> endPan skipInertia now st = st.
Proof. intros H. unfold endPan. now rewrite H. Qed.

(* ================================================================= *)
(** ** The frame queue holds what the handles point at *)

Lemma in_cancel (h h' : nat) (cb : FrameCallback)
    (fr : list (nat * FrameCallback)) :
  In (h', cb) (filter (fun e => negb (Nat.eqb (fst e) h)) fr) <->
  In (h', cb) fr /\ h' <> h.
Proof.
  rewrite filter_In. cbn. rewrite negb_true_iff, Nat.eqb_neq. reflexivity.
Qed.

Lemma tracked_cancel_inertia (h : nat) (a : option nat)
    (fr : list (nat * FrameCallback)) (n : nat) :
  tracked (mkMotion (Some h) a fr n) ->
  tracked (mkMotion None a
             (filter (fun e => negb (Nat.eqb (fst e) h)) fr) n).
Proof.
  intros [Hk Hu]. split; cbn in *.
  - intros h' cb [Hin Hne]%in_cancel.
    destruct (Hk h' cb Hin) as [Hlt [[Heq _] | Han]];
      [congruence | auto].
  - intros h' cb cb' [Hin _]%in_cancel [Hin' _]%in_cancel. eauto.
Qed.

Lemma tracked_cancel_anim (h : nat) (i : option nat)
    (fr : list (nat * FrameCallback)) (n : nat) :
  tracked (mkMotion i (Some h) fr n) ->
  tracked (mkMotion i None
             (filter (fun e => negb (Nat.eqb (fst e) h)) fr) n).
Proof.
  intros [Hk Hu]. split; cbn in *.
  - intros h' cb [Hin Hne]%in_cancel.
    destruct (Hk h' cb Hin) as [Hlt [Hin' | [Heq _]]];
      [auto | congruence].
  - intros h' cb cb' [Hin _]%in_cancel [Hin' _]%in_cancel. eauto.
Qed.

Lemma tracked_sched_inertia (i a : option nat)
    (fr : list (nat * FrameCallback)) (n : nat) (t : num) :
  tracked (mkMotion i a fr n) ->
  (forall h cb, In (h, cb) fr -> ~ isInertiaStep cb) ->
  tracked (mkMotion (Some n) a (fr ++ [(n, InertiaStep t)]) (S n)).
Proof.
  intros [Hk Hu] Hno. split; cbn in *.
  - intros h cb [Hin | [[= <- <-] | []]]%in_app_iff.
    + destruct (Hk h cb Hin) as [Hlt [[_ Hi] | Han]].
      * now apply Hno in Hin.
      * split; [lia | now right].
    + split; [lia | left; split; [reflexivity | exact I]].
  - intros h cb cb' [Hin | [E | []]]%in_app_iff
      [Hin' | [E' | []]]%in_app_iff.
    + eauto.
    + injection E' as -> _. apply Hk in Hin. lia.
    + injection E as -> _. apply Hk in Hin'. lia.
    + congruence.
Qed.

Lemma tracked_sched_anim (i a : option nat)
    (fr : list (nat * FrameCallback)) (n : nat)
    (sx sy tx ty t0 d : num) :
  tracked (mkMotion i a fr n) ->
  (forall h cb, In (h, cb) fr -> ~ isPanAnimStep cb) ->
  tracked (mkMotion i (Some n)
             (fr ++ [(n, PanAnimStep sx sy tx ty t0 d)]) (S n)).
Proof.
  intros [Hk Hu] Hno. split; cbn in *.
  - intros h cb [Hin | [[= <- <-] | []]]%in_app_iff.
    + destruct (Hk h cb Hin) as [Hlt [Hin' | [_ Ha]]].
      * split; [lia | now left].
      * now apply Hno in Hin.
    + split; [lia | right; split; [reflexivity | exact I]].
  - intros h cb cb' [Hin | [E | []]]%in_app_iff
      [Hin' | [E' | []]]%in_app_iff.
    + eauto.
    + injection E' as -> _. apply Hk in Hin. lia.
    + injection E as -> _. apply Hk in Hin'. lia.
    + congruence.
Qed.

Lemma tracked_no_inertia_pending (a : option nat)
    (fr : list (nat * FrameCallback)) (n : nat) :
  tracked (mkMotion None a fr n) ->
  forall h cb, In (h, cb) fr -> ~ isInertiaStep cb.
Proof.
  intros [Hk _] h cb Hin. cbn in *.
  destruct (Hk h cb Hin) as [_ [[Heq _] | [_ Ha]]]; [discriminate |].
  destruct cb; cbn in *; tauto.
Qed.

Lemma tracked_no_anim_pending (i : option nat)
    (fr : list (nat * FrameCallback)) (n : nat) :
  tracked (mkMotion i None fr n) ->
  forall h cb, In (h, cb) fr -> ~ isPanAnimStep cb.
Proof.
  intros [Hk _] h cb Hin. cbn in *.
  destruct (Hk h cb Hin) as [_ [[_ Hi] | [Heq _]]]; [| discriminate].
  destruct cb; cbn in *; tauto.
Qed.

Lemma tracked_start_inertia (a : option nat)
    (fr : list (nat * FrameCallback)) (n : nat) (t : num) :
  tracked (mkMotion None a fr n) ->
  tracked (mkMotion (Some n) a (fr ++ [(n, InertiaStep t)]) (S n)).
Proof.
  intros H. apply (tracked_sched_inertia None); [exact H |].
  exact (tracked_no_inertia_pending _ _ _ H).
Qed.

Lemma tracked_start_anim (i : option nat)
    (fr : list (nat * FrameCallback)) (n : nat)
    (sx sy tx ty t0 d : num) :
  tracked (mkMotion i None fr n) ->
  tracked (mkMotion i (Some n)
             (fr ++ [(n, PanAnimStep sx sy tx ty t0 d)]) (S n)).
Proof.
  intros H. apply (tracked_sched_anim i None); [exact H |].
  exact (tracked_no_anim_pending _ _ _ H).
Qed.

Lemma tracked_clear_anim (i a : option nat)
    (fr : list (nat * FrameCallback)) (n : nat) :
  tracked (mkMotion i a fr n) ->
  (forall h cb, In (h, cb) fr -> ~ isPanAnimStep cb) ->
  tracked (mkMotion i None fr n).
Proof.
  intros [Hk Hu] Hno. split; cbn in *; [| exact Hu].
  intros h cb Hin. destruct (Hk h cb Hin) as [Hlt [Hi | [_ Ha]]].
  - auto.
  - now apply Hno in Hin.
Qed.

(** Close a goal [framesTracked] of a state taken apart, from the same fact
    about the state before. *)
Ltac tracked_solve :=
  unfold framesTracked, motionOf in *; cbn in *;
  solve [ eauto 8 using tracked_cancel_inertia, tracked_cancel_anim,
            tracked_start_inertia, tracked_start_anim ].

Create HintDb tracked.

Lemma framesTracked_same (st st' : State) :
  motionOf st' = motionOf st -> framesTracked st -> framesTracked st'.
Proof. unfold framesTracked. now intros ->. Qed.

Lemma stopPanInertia_tracked (r : bool) (st : State) :
  framesTracked st -> framesTracked (stopPanInertia r st).
Proof.
  unfold stopPanInertia. destruct r; destruct st; flow_cases; intros H;
    tracked_solve.
Qed.

Lemma stopPanAnimation_tracked (st : State) :
  framesTracked st -> framesTracked (stopPanAnimation st).
Proof.
  unfold stopPanAnimation. destruct st; flow_cases; intros H; tracked_solve.
Qed.

Lemma startPanInertia_tracked (now : num) (st : State) :
  framesTracked st -> framesTracked (startPanInertia now st).
Proof.
  unfold startPanInertia, stopPanInertia, requestAnimationFrame.
  destruct st; flow_cases; intros H; tracked_solve.
Qed.

Lemma recordVelocity_motion (cx cy now : num) (st : State) :
  motionOf (recordVelocity cx cy now st) = motionOf st.
Proof. unfold recordVelocity. by_flow st. Qed.

Lemma beginPan_tracked (cx cy now : num) (inputType : InputType)
    (st : State) :
  framesTracked st -> framesTracked (beginPan cx cy inputType now st).
Proof.
  intros H. unfold beginPan.
  apply (framesTracked_same _ _ (recordVelocity_motion _ _ _ _)).
  apply (framesTracked_same
           (stopPanAnimation (stopPanInertia true
              (set_isPanning true st)))).
  - unfold stopPanAnimation, stopPanInertia. destruct inputType; by_flow st.
  - apply stopPanAnimation_tracked, stopPanInertia_tracked.
    now apply (framesTracked_same st).
Qed.

Lemma updatePan_motion (cx cy now : num) (st : State) :
  motionOf (updatePan cx cy now st) = motionOf st.
Proof. unfold updatePan. rewrite recordVelocity_motion. by_flow st. Qed.

Lemma endPan_tracked (skipInertia : bool) (now : num) (st : State) :
  framesTracked st -> framesTracked (endPan skipInertia now st).
Proof.
  unfold endPan, startPanInertia, stopPanInertia, requestAnimationFrame.
  destruct st; flow_cases; intros H; tracked_solve.
Qed.

Lemma resetPinchState_motion (st : State) :
  motionOf (resetPinchState st) = motionOf st.
Proof. unfold resetPinchState. by_flow st. Qed.

Lemma updatePanForPinch_motion (tz cx cy : num) (rect : Rect) (st : State) :
  motionOf (updatePanForPinch tz cx cy rect st) = motionOf st.
Proof. unfold updatePanForPinch. by_flow st. Qed.

Lemma handlePinchMove_motion (touches : list Touch) (rect : Rect)
    (st : State) :
  motionOf (handlePinchMove touches rect st) = motionOf st.
Proof.
  unfold handlePinchMove. destruct touches as [| t0 [| t1 rest]];
    try reflexivity.
  destruct (getTouchMidpoint t0 t1) as [mx my].
  repeat match goal with
         | |- context [if ?c then _ else _] => destruct c
         end; try reflexivity.
  apply updatePanForPinch_motion.
Qed.

Lemma startPinch_tracked (touches : list Touch) (st : State) :
  framesTracked st -> framesTracked (startPinch touches st).
Proof.
  intros H. unfold startPinch.
  destruct touches as [| t0 [| t1 rest]]; try assumption.
  generalize (or_else (getTouchDistance t0 t1) #0.0001). intros d.
  cbv zeta.
  apply (framesTracked_same (stopPanAnimation (stopPanInertia true st))).
  - now peel_setters.
  - now apply stopPanAnimation_tracked, stopPanInertia_tracked.
Qed.

Lemma set_currentZoom_motion (z : num) (st : State) :
  motionOf (set_currentZoom z st) = motionOf st.
Proof. reflexivity. Qed.

Lemma zoomIn_tracked (st : State) :
  framesTracked st -> framesTracked (zoomIn st).
Proof.
  intros H. unfold zoomIn.
  apply (framesTracked_same _ _ (set_currentZoom_motion _ _)).
  now apply stopPanAnimation_tracked, stopPanInertia_tracked.
Qed.

Lemma zoomOut_tracked (st : State) :
  framesTracked st -> framesTracked (zoomOut st).
Proof.
  intros H. unfold zoomOut.
  apply (framesTracked_same _ _ (set_currentZoom_motion _ _)).
  now apply stopPanAnimation_tracked, stopPanInertia_tracked.
Qed.

Lemma resetView_tracked (st : State) :
  framesTracked st -> framesTracked (resetView st).
Proof.
  intros H. unfold resetView.
  apply (framesTracked_same (stopPanAnimation (stopPanInertia true st)));
    [reflexivity |].
  now apply stopPanAnimation_tracked, stopPanInertia_tracked.
Qed.

Lemma wheel_tracked (deltaY : num) (deltaMode : nat) (ctrlKey : bool)
    (st : State) :
  framesTracked st -> framesTracked (wheel deltaY deltaMode ctrlKey st).
Proof.
  intros H. unfold wheel.
  repeat match goal with
         | |- context [if ?c then _ else _] => destruct c
         end;
    try apply (framesTracked_same _ _ (set_currentZoom_motion _ _));
    now apply stopPanInertia_tracked.
Qed.

Lemma stopInertiaAndAnimation_tracked (st : State) :
  framesTracked st -> framesTracked (stopInertiaAndAnimation st).
Proof.
  intros H. now apply stopPanAnimation_tracked, stopPanInertia_tracked.
Qed.

Lemma animatePan_tracked (tx ty d : num) (onComplete : option nat)
    (now : num) (st : State) :
  framesTracked st -> panAnimationFrame st = None ->
  framesTracked (animatePan tx ty d onComplete now st).
Proof.
  unfold animatePan, requestAnimationFrame.
  destruct st; cbn. intros H ->. tracked_solve.
Qed.

Lemma stopPanAnimation_handle (st : State) :
  panAnimationFrame (stopPanAnimation st) = None.
Proof. unfold stopPanAnimation. by_flow st. Qed.

Lemma centerOnCoordinates_tracked (x y : num) (options : CenterOptions)
    (mobile : bool) (now : num) (st : State) :
  framesTracked st ->
  framesTracked (centerOnCoordinates x y options mobile now st).
Proof.
  intros H. unfold centerOnCoordinates.
  destruct (negb (Number_isFinite x) || negb (Number_isFinite y));
    [assumption |].
  match goal with
  | |- context [stopPanAnimation (stopPanInertia true ?s)] =>
      set (st0 := s);
      assert (H0 : framesTracked st0)
  end.
  { subst st0.
    repeat match goal with
           | |- context [if ?c then _ else _] => destruct c
           end;
      try apply (framesTracked_same _ _ (set_currentZoom_motion _ _));
      assumption. }
  clearbody st0.
  set (st1 := stopPanAnimation (stopPanInertia true st0)).
  assert (H1 : framesTracked st1)
    by now apply stopPanAnimation_tracked, stopPanInertia_tracked.
  assert (Hh : panAnimationFrame st1 = None)
    by apply stopPanAnimation_handle.
  clearbody st1.
  destruct (calculatePanForCoordinates x y (opt_focus options) st1)
    as [tx ty].
  destruct (opt_animate options && gt (opt_duration options) #0).
  - now apply animatePan_tracked.
  - destruct (opt_onComplete options);
      apply (framesTracked_same st1); try reflexivity; assumption.
Qed.

Lemma mouseDownHandler_tracked (interactive : bool) (cx cy now : num)
    (st : State) :
  framesTracked st ->
  framesTracked (mouseDownHandler interactive cx cy now st).
Proof.
  intros H. unfold mouseDownHandler.
  destruct interactive; cbn; [assumption | now apply beginPan_tracked].
Qed.

Lemma mouseMoveHandler_tracked (cx cy now : num) (st : State) :
  framesTracked st -> framesTracked (mouseMoveHandler cx cy now st).
Proof.
  intros H. unfold mouseMoveHandler.
  destruct (negb (isPanning st)); [assumption |].
  now apply (framesTracked_same _ _ (updatePan_motion _ _ _ _)).
Qed.

Lemma set_isMultiTouchGesture_motion (b : bool) (st : State) :
  motionOf (set_isMultiTouchGesture b st) = motionOf st.
Proof. reflexivity. Qed.

Lemma set_isPanning_motion (b : bool) (st : State) :
  motionOf (set_isPanning b st) = motionOf st.
Proof. reflexivity. Qed.

#[local] Hint Resolve stopPanInertia_tracked stopPanAnimation_tracked
  startPanInertia_tracked beginPan_tracked endPan_tracked
  startPinch_tracked : tracked.

Lemma touchStartHandler_tracked (touches : list Touch) (target : Target)
    (now : num) (st : State) :
  framesTracked st ->
  framesTracked (touchStartHandler touches target now st).
Proof.
  intros H. unfold touchStartHandler.
  destruct (Nat.leb 2 (length touches)).
  - apply startPinch_tracked.
    now apply (framesTracked_same _ _ (set_isMultiTouchGesture_motion _ _)).
  - destruct touches as [| t [| ? ?]]; try assumption.
    destruct target; try assumption.
    + apply (framesTracked_same _ _ (set_isPanning_motion _ _)).
      now apply stopPanInertia_tracked.
    + apply beginPan_tracked.
      now apply (framesTracked_same _ _ (resetPinchState_motion _)).
Qed.

Lemma touchMoveHandler_tracked (touches : list Touch) (target : Target)
    (rect : Rect) (now : num) (st : State) :
  framesTracked st ->
  framesTracked (touchMoveHandler touches target rect now st).
Proof.
  intros H. unfold touchMoveHandler.
  destruct (Nat.leb 2 (length touches)).
  - apply (framesTracked_same _ _ (handlePinchMove_motion _ _ _)).
    apply (framesTracked_same _ _ (set_isMultiTouchGesture_motion _ _)).
    destruct (negb (pinchActive st)); auto with tracked.
  - set (st0 := if pinchActive st then resetPinchState st else st).
    assert (H0 : framesTracked st0).
    { subst st0. destruct (pinchActive st); [| assumption].
      now apply (framesTracked_same _ _ (resetPinchState_motion _)). }
    clearbody st0.
    destruct touches as [| t [| ? ?]]; [| destruct target |];
      repeat match goal with
             | |- context [if ?c then _ else _] => destruct c
             end;
      try assumption; auto with tracked;
      now apply (framesTracked_same _ _ (updatePan_motion _ _ _ _)).
Qed.

Lemma handleTouchEnd_tracked (touches : list Touch) (target : Target)
    (now : num) (st : State) :
  framesTracked st ->
  framesTracked (handleTouchEnd touches target now st).
Proof.
  intros H. unfold handleTouchEnd.
  assert (Hfin : forall s, framesTracked s ->
            framesTracked
              (if Nat.eqb (length touches) 0
               then endPan false now (set_isMultiTouchGesture false s)
               else s)).
  { intros s Hs. destruct (Nat.eqb (length touches) 0); [| assumption].
    apply endPan_tracked.
    now apply (framesTracked_same _ _ (set_isMultiTouchGesture_motion _ _)). }
  destruct (pinchActive st && Nat.ltb (length touches) 2); [| now apply Hfin].
  assert (H0 : framesTracked (resetPinchState st))
    by now apply (framesTracked_same _ _ (resetPinchState_motion _)).
  destruct touches as [| t [| ? ?]]; [| destruct target |];
    try (apply Hfin); auto with tracked.
  apply (framesTracked_same _ _ (set_isPanning_motion _ _)).
  now apply stopPanInertia_tracked.
Qed.

(** *** Frames *)

Lemma grows_refl (m : Motion) : grows m m.
Proof. split; [lia | auto]. Qed.

Lemma grows_trans (m1 m2 m3 : Motion) :
  grows m1 m2 -> grows m2 m3 -> grows m1 m3.
Proof.
  intros [Hn1 Hf1] [Hn2 Hf2]. split; [lia |].
  intros h cb Hin. destruct (Hf2 h cb Hin) as [Hin2 | Hge]; [| right; lia].
  destruct (Hf1 h cb Hin2); auto.
Qed.

Lemma grows_cancel (h : nat) (i a : option nat)
    (fr : list (nat * FrameCallback)) (n : nat) (i' a' : option nat) :
  grows (mkMotion i a fr n)
        (mkMotion i' a' (filter (fun e => negb (Nat.eqb (fst e) h)) fr) n).
Proof.
  split; cbn; [lia |]. intros h' cb [Hin _]%in_cancel. now left.
Qed.

Lemma grows_sched (i a i' a' : option nat)
    (fr : list (nat * FrameCallback)) (n : nat) (cb : FrameCallback) :
  grows (mkMotion i a fr n) (mkMotion i' a' (fr ++ [(n, cb)]) (S n)).
Proof.
  split; cbn; [lia |].
  intros h' cb' [Hin | [E | []]]%in_app_iff; [now left |].
  injection E as <- _. right. lia.
Qed.

Lemma grows_handles (i a i' a' : option nat)
    (fr : list (nat * FrameCallback)) (n : nat) :
  grows (mkMotion i a fr n) (mkMotion i' a' fr n).
Proof. split; cbn; [lia | auto]. Qed.

(** An inertia frame that finds no other inertia step queued keeps the
    queue tracked. *)
Lemma inertiaStep_tracked (lastTime time : num) (st : State) :
  framesTracked st ->
  (forall h cb, In (h, cb) (frames st) -> ~ isInertiaStep cb) ->
  framesTracked (inertiaStep lastTime time st) /\
  grows (motionOf st) (motionOf (inertiaStep lastTime time st)).
Proof.
  unfold inertiaStep, stopPanInertia, requestAnimationFrame.
  destruct st; flow_cases; intros H Hno;
    unfold framesTracked, motionOf in *; cbn in *; split;
    eauto using tracked_cancel_inertia, tracked_sched_inertia,
      grows_cancel, grows_sched, grows_refl.
Qed.

(** A centering frame that finds no other centering step queued keeps the
    queue tracked. *)
Lemma panAnimStep_tracked (sx sy tx ty t0 d time : num) (st : State) :
  framesTracked st ->
  (forall h cb, In (h, cb) (frames st) -> ~ isPanAnimStep cb) ->
  framesTracked (panAnimStep sx sy tx ty t0 d time st) /\
  grows (motionOf st) (motionOf (panAnimStep sx sy tx ty t0 d time st)).
Proof.
  unfold panAnimStep, requestAnimationFrame.
  destruct st; flow_cases; intros H Hno;
    unfold framesTracked, motionOf in *; cbn in *; split;
    eauto using tracked_clear_anim, tracked_sched_anim,
      grows_handles, grows_sched, grows_refl.
Qed.

Lemma pendingFrame_true (h : nat) (st : State) :
  pendingFrame h st = true -> exists cb, In (h, cb) (frames st).
Proof.
  unfold pendingFrame. rewrite existsb_exists.
  intros ([h' cb] & Hin & Heq). cbn in Heq. apply Nat.eqb_eq in Heq.
  subst. eauto.
Qed.

Lemma cancelAnimationFrame_motion (h : nat) (st : State) :
  motionOf (cancelAnimationFrame h st)
  = mkMotion (panInertiaFrame st) (panAnimationFrame st)
      (filter (fun e => negb (Nat.eqb (fst e) h)) (frames st))
      (nextFrame st).
Proof. reflexivity. Qed.

(** Running one queued callback: its entry is taken off the queue first. *)
Lemma runCallback_tracked (h : nat) (cb : FrameCallback) (time : num)
    (st : State) :
  framesTracked st -> In (h, cb) (frames st) ->
  let st' := runCallback cb time (cancelAnimationFrame h st) in
  framesTracked st' /\ grows (motionOf st) (motionOf st').
Proof.
  intros H Hin st'.
  assert (Hc : framesTracked (cancelAnimationFrame h st)).
  { destruct H as [Hk Hu]. split.
    - intros h' cb' Hin'. rewrite cancelAnimationFrame_motion in *.
      cbn in *. apply in_cancel in Hin' as [Hin' _]. auto.
    - intros h' c1 c2 H1 H2. rewrite cancelAnimationFrame_motion in *.
      cbn in *. apply in_cancel in H1 as [H1 _].
      apply in_cancel in H2 as [H2 _]. eauto. }
  assert (Hg : grows (motionOf st) (motionOf (cancelAnimationFrame h st))).
  { rewrite cancelAnimationFrame_motion. apply grows_cancel. }
  destruct H as [Hk Hu].
  destruct (Hk h cb Hin) as [_ Hkind].
  assert (Hrest : forall h' cb', In (h', cb')
                    (frames (cancelAnimationFrame h st)) ->
                  In (h', cb') (frames st) /\ h' <> h).
  { intros h' cb' Hin'. now apply in_cancel. }
  subst st'. destruct cb as [lt0 | sx sy tx ty t0 d]; cbn [runCallback].
  - destruct Hkind as [[Hi _] | [_ []]].
    destruct (inertiaStep_tracked lt0 time (cancelAnimationFrame h st) Hc)
      as [Ht Hg'].
    + intros h' cb' [Hin' Hne]%Hrest Hinertia.
      destruct (Hk h' cb' Hin') as [_ [[Hi' _] | [_ Ha]]].
      * cbn in *. congruence.
      * destruct cb'; cbn in *; tauto.
    + split; [exact Ht | eapply grows_trans; eassumption].
  - destruct Hkind as [[_ []] | [Ha _]].
    destruct (panAnimStep_tracked sx sy tx ty t0 d time
                (cancelAnimationFrame h st) Hc) as [Ht Hg'].
    + intros h' cb' [Hin' Hne]%Hrest Hanim.
      destruct (Hk h' cb' Hin') as [_ [[_ Hi] | [Ha' _]]].
      * destruct cb'; cbn in *; tauto.
      * cbn in *. congruence.
    + split; [exact Ht | eapply grows_trans; eassumption].
Qed.

Lemma runCallbacks_tracked (time : num)
    (queued : list (nat * FrameCallback)) :
  forall st : State,
    framesTracked st ->
    (forall h cb, In (h, cb) queued ->
       (h < nextFrame st)%nat /\
       forall cb', In (h, cb') (frames st) -> cb' = cb) ->
    framesTracked (runCallbacks time queued st).
Proof.
  induction queued as [| [h cb] rest IH]; intros st H Hq; cbn;
    [assumption |].
  destruct (pendingFrame h st) eqn:Hp.
  - apply pendingFrame_true in Hp as [cb' Hin].
    destruct (Hq h cb (or_introl eq_refl)) as [Hlt Hsame].
    rewrite (Hsame cb' Hin) in Hin.
    destruct (runCallback_tracked h cb time st H Hin) as [Ht [Hn Hf]].
    apply IH; [exact Ht |].
    intros h2 cb2 Hin2.
    destruct (Hq h2 cb2 (or_intror Hin2)) as [Hlt2 Hsame2].
    cbn in Hn, Hf. split; [lia |].
    intros cb3 Hin3. destruct (Hf h2 cb3 Hin3) as [Hold | Hge].
    + now apply Hsame2.
    + lia.
  - apply IH; [assumption |].
    intros h2 cb2 Hin2. apply Hq. now right.
Qed.

Lemma runFrame_tracked (time : num) (st : State) :
  framesTracked st -> framesTracked (runFrame time st).
Proof.
  intros H. unfold runFrame. apply runCallbacks_tracked; [assumption |].
  intros h cb Hin. destruct H as [Hk Hu]. split.
  - now apply (Hk h cb).
  - intros cb' Hin'. now apply (Hu h cb' cb).
Qed.

(** Every event keeps the queue tracked. *)
Lemma dispatch_tracked (e : Event) (st : State) :
  framesTracked st -> framesTracked (dispatch e st).
Proof.
  intros H. destruct e; cbn [dispatch].
  - now apply mouseDownHandler_tracked.
  - now apply mouseMoveHandler_tracked.
  - now apply endPan_tracked.
  - now apply touchStartHandler_tracked.
  - now apply touchMoveHandler_tracked.
  - now apply handleTouchEnd_tracked.
  - now apply wheel_tracked.
  - now apply zoomIn_tracked.
  - now apply zoomOut_tracked.
  - now apply resetView_tracked.
  - now apply centerOnCoordinates_tracked.
  - now apply stopInertiaAndAnimation_tracked.
  - now apply runFrame_tracked.
Qed.

Lemma initialState_tracked : framesTracked initialState.
Proof. split; cbn; intros; contradiction. Qed.

Lemma run_tracked (events : list Event) :
  forall st, framesTracked st -> framesTracked (run events st).
Proof.
  unfold run. induction events as [| e rest IH]; intros st H; cbn;
    [assumption |].
  apply IH. now apply dispatch_tracked.
Qed.

(** With a tracked queue, the two stop calls leave nothing queued. *)
Lemma stopInertiaAndAnimation_empties_queue (st : State) :
  framesTracked st -> frames (stopInertiaAndAnimation st) = [].
Proof.
  intros H.
  pose proof (stopInertiaAndAnimation_tracked st H) as [Hk _].
  destruct (stopInertiaAndAnimation_fields st) as (Hi & Ha & _).
  destruct (frames (stopInertiaAndAnimation st)) as [| [h cb] rest] eqn:E;
    [reflexivity |].
  exfalso. unfold motionOf in Hk.
  cbn [m_frames m_inertia m_anim m_next] in Hk. rewrite E in Hk.
  destruct (Hk h cb (or_introl eq_refl)) as [_ [[Hi' _] | [Ha' _]]];
    cbv zeta in *; congruence.
Qed.

Lemma runFrame_empty_queue (time : num) (st : State) :
  frames st = [] -> runFrame time st = st.
Proof. intros H. unfold runFrame. now rewrite H. Qed.

Lemma mode_after_stop (st : State) :
  mode (stopInertiaAndAnimation st)
  = if pinchActive st then Pinching
    else if isPanning st then Panning else Idle.
Proof.
  destruct (stopInertiaAndAnimation_fields st)
    as (Hi & Ha & _ & _ & _ & _ & _ & _ & Hp & Hq).
  unfold mode. cbv zeta in *. now rewrite Hi, Ha, Hp, Hq.
Qed.

(** C8, as stated, fails in its last part: the stop operations called (once
    or twice) while a drag is in progress, as [beginPan] itself calls them,
    leave the drag in progress; the state is not the idle one. *)
Lemma stop_motion_during_drag_not_idle :
  let st := dispatch (MouseDown false #100 #100 #0) initialState in
  let st' := stopInertiaAndAnimation (stopInertiaAndAnimation st) in
  isPanning st = true /\ isPanning st' = true /\
  mode st' = Panning /\ mode st' <> Idle.
Proof.
  intros st st'.
  assert (Hp : isPanning st = true)
    by apply (beginPan_fields #100 #100 #0 mouse initialState).
  assert (Hq : pinchActive st = false).
  { subst st. unfold dispatch, mouseDownHandler. cbn [negb].
    unfold beginPan, recordVelocity, stopPanAnimation, stopPanInertia.
    cbn. rewrite truthy_zero. reflexivity. }
  assert (Hm : mode st' = Panning).
  { subst st'. rewrite stopInertiaAndAnimation_idempotent, mode_after_stop.
    now rewrite Hp, Hq. }
  repeat split; try assumption.
  - subst st'. rewrite stopInertiaAndAnimation_idempotent.
    destruct (stopInertiaAndAnimation_fields st)
      as (_ & _ & _ & _ & _ & _ & _ & _ & H & _).
    cbv zeta in H. now rewrite H.
  - rewrite Hm. discriminate.
Qed.

(** C8 (amended).  Stopping is idempotent from any state: the two stop
    operations called twice, together or one by one, give exactly the state
    one call gives.  Afterwards neither loop has a handle or a completion
    callback, the velocity is zero, pan and zoom are as before, and the
    state machine is idle unless a pinch or a drag is in progress, which
    stopping leaves alone.  In every state the program can reach the frame
    queue is then empty, so a later frame changes nothing. *)
Theorem stop_motion_idempotent :
  (forall st, stopInertiaAndAnimation (stopInertiaAndAnimation st)
              = stopInertiaAndAnimation st) /\
  (forall r st, stopPanInertia r (stopPanInertia r st)
                = stopPanInertia r st) /\
  (forall st, stopPanAnimation (stopPanAnimation st)
              = stopPanAnimation st) /\
  (forall st,
      let st' := stopInertiaAndAnimation st in
      panInertiaFrame st' = None /\ panAnimationFrame st' = None /\
      panAnimationComplete st' = None /\
      panVelocityX st' = #0 /\ panVelocityY st' = #0 /\
      panX st' = panX st /\ panY st' = panY st /\
      currentZoom st' = currentZoom st /\
      mode st' = (if pinchActive st then Pinching
                  else if isPanning st then Panning else Idle)) /\
  (forall events,
      let st' := stopInertiaAndAnimation (run events initialState) in
      frames st' = [] /\ forall time, runFrame time st' = st').
Proof.
  split; [exact stopInertiaAndAnimation_idempotent |].
  split; [exact stopPanInertia_idempotent |].
  split; [exact stopPanAnimation_idempotent |].
  split.
  - intros st st'.
    destruct (stopInertiaAndAnimation_fields st)
      as (H1 & H2 & H3 & H4 & H5 & H6 & H7 & H8 & _).
    repeat split; try assumption. apply mode_after_stop.
  - intros events st'.
    assert (Hq : frames st' = []).
    { apply stopInertiaAndAnimation_empties_queue, run_tracked,
        initialState_tracked. }
    split; [exact Hq |]. intros time. now apply runFrame_empty_queue.
Qed.

(* ================================================================= *)
(** ** A second finger during a drag (continued) *)

Lemma motionOf_fields (st st' : State) :
  motionOf st' = motionOf st ->
  frames st' = frames st /\ panInertiaFrame st' = panInertiaFrame st /\
  panAnimationFrame st' = panAnimationFrame st.
Proof. intros H. injection H as H1 H2 H3 H4. auto. Qed.

Lemma set_isMultiTouchGesture_fields (b : bool) (st : State) :
  let st' := set_isMultiTouchGesture b st in
  frames st' = frames st /\ panInertiaFrame st' = panInertiaFrame st /\
  isPanning st' = isPanning st /\ pinchActive st' = pinchActive st /\
  pinchStartZoom st' = pinchStartZoom st /\
  panVelocityX st' = panVelocityX st /\ panVelocityY st' = panVelocityY st /\
  currentZoom st' = currentZoom st.
Proof. cbn. conj_split; reflexivity. Qed.

Lemma startPinch_frames (t0 t1 : Touch) (rest : list Touch) (st : State) :
  frames (startPinch (t0 :: t1 :: rest) st)
  = frames (stopInertiaAndAnimation st).
Proof.
  unfold startPinch, stopInertiaAndAnimation, stopPanAnimation,
    stopPanInertia.
  generalize (or_else (getTouchDistance t0 t1) #0.0001). intros d.
  by_flow st.
Qed.

Lemma handlePinchMove_session (touches : list Touch) (rect : Rect)
    (st : State) :
  let st' := handlePinchMove touches rect st in
  isPanning st' = isPanning st /\ pinchActive st' = pinchActive st /\
  pinchStartZoom st' = pinchStartZoom st /\
  panVelocityX st' = panVelocityX st /\ panVelocityY st' = panVelocityY st.
Proof.
  unfold handlePinchMove. destruct touches as [| t0 [| t1 rest]];
    try (repeat split; reflexivity).
  destruct (getTouchMidpoint t0 t1) as [mx my].
  repeat match goal with
         | |- context [if ?c then _ else _] => destruct c
         end; try (repeat split; reflexivity).
  unfold updatePanForPinch. by_flow st; repeat split.
Qed.

(** C4.  When a second touch point appears during a drag, whether the
    [touchstart] listener or (the finger having landed outside the map) the
    [touchmove] listener sees it, the drag ends with no inertia: no inertia
    handle, no velocity, nothing at all left in the frame queue, and a later
    [endPan] does nothing.  The pinch is active with its start zoom equal to
    the zoom at that moment. *)
Theorem second_touch_aborts_pan (events : list Event) (t0 t1 : Touch)
    (rest : list Touch) (target : Target) (rect : Rect) (now : num) :
  let st := run events initialState in
  isPanning st = true ->
  (let st' := touchStartHandler (t0 :: t1 :: rest) target now st in
   isPanning st' = false /\ pinchActive st' = true /\
   pinchStartZoom st' = currentZoom st /\
   currentZoom st' = currentZoom st /\
   panInertiaFrame st' = None /\
   panVelocityX st' = #0 /\ panVelocityY st' = #0 /\
   frames st' = [] /\ mode st' = Pinching /\
   forall skipInertia now', endPan skipInertia now' st' = st') /\
  (pinchActive st = false ->
   let st' := touchMoveHandler (t0 :: t1 :: rest) target rect now st in
   isPanning st' = false /\ pinchActive st' = true /\
   pinchStartZoom st' = currentZoom st /\
   panInertiaFrame st' = None /\
   panVelocityX st' = #0 /\ panVelocityY st' = #0 /\
   frames st' = [] /\ mode st' = Pinching /\
   forall skipInertia now', endPan skipInertia now' st' = st').
Proof.
  intros st Hpan.
  assert (Ht : framesTracked st) by apply run_tracked, initialState_tracked.
  clearbody st. split.
  - intros st'. subst st'. unfold touchStartHandler. cbn [length Nat.leb].
    destruct (set_isMultiTouchGesture_fields true st)
      as (F1 & F2 & _ & _ & _ & _ & _ & F8).
    set (s0 := set_isMultiTouchGesture true st) in *. cbv zeta in *.
    assert (Ht0 : framesTracked s0) by now apply (framesTracked_same st).
    clearbody s0.
    destruct (startPinch_fields t0 t1 rest s0)
      as (H1 & H2 & H3 & _ & H5 & _ & _ & H8 & _ & H10 & H11).
    pose proof (startPinch_frames t0 t1 rest s0) as Hf.
    rewrite (stopInertiaAndAnimation_empties_queue s0 Ht0) in Hf.
    set (s' := startPinch (t0 :: t1 :: rest) s0) in *. cbv zeta in *.
    clearbody s'.
    conj_split; try assumption; try congruence.
    + unfold mode. now rewrite H2.
    + intros. now apply endPan_not_panning.
  - intros Hq st'. subst st'. unfold touchMoveHandler.
    cbn [length Nat.leb]. rewrite Hq. cbn [negb].
    destruct (startPinch_fields t0 t1 rest st)
      as (H1 & H2 & H3 & _ & H5 & _ & _ & H8 & _ & H10 & H11).
    pose proof (startPinch_frames t0 t1 rest st) as Hf.
    rewrite (stopInertiaAndAnimation_empties_queue st Ht) in Hf.
    set (s0 := startPinch (t0 :: t1 :: rest) st) in *. cbv zeta in *.
    clearbody s0.
    destruct (set_isMultiTouchGesture_fields true s0)
      as (F1 & F2 & F3 & F4 & F5 & F6 & F7 & _).
    set (s1 := set_isMultiTouchGesture true s0) in *. cbv zeta in *.
    clearbody s1.
    destruct (handlePinchMove_session (t0 :: t1 :: rest) rect s1)
      as (G1 & G2 & G3 & G4 & G5).
    destruct (motionOf_fields _ _
                (handlePinchMove_motion (t0 :: t1 :: rest) rect s1))
      as (M1 & M2 & _).
    set (s' := handlePinchMove (t0 :: t1 :: rest) rect s1) in *.
    cbv zeta in *. clearbody s'.
    assert (Ha : pinchActive s' = true) by congruence.
    assert (Hp : isPanning s' = false) by congruence.
    conj_split; try congruence.
    + unfold mode. now rewrite Ha.
    + intros. now apply endPan_not_panning.
Qed.

(* ================================================================= *)
(** ** Non-finite input *)

(** The distance of two touch points, by the kind of their coordinates. *)
Lemma getTouchDistance_undefined (t0 t1 : Touch) :
  undefinedGap (clientX t0) (clientX t1)
  \/ undefinedGap (clientY t0) (clientY t1) ->
  ~ infinitelyApart (clientX t0) (clientX t1) ->
  ~ infinitelyApart (clientY t0) (clientY t1) ->
  getTouchDistance t0 t1 = NaN.
Proof.
  intros Hu Hx Hy. unfold getTouchDistance. cbv zeta.
  destruct (sub_not_infinitelyApart _ _ Hx) as [Hx1 Hx2].
  destruct (sub_not_infinitelyApart _ _ Hy) as [Hy1 Hy2].
  apply Math_hypot_nan; try assumption.
  destruct Hu as [Hu | Hu]; [left | right]; now apply sub_undefinedGap.
Qed.

Lemma getTouchDistance_infinite (t0 t1 : Touch) :
  infinitelyApart (clientX t0) (clientX t1)
  \/ infinitelyApart (clientY t0) (clientY t1) ->
  getTouchDistance t0 t1 = PInf.
Proof.
  intros H. unfold getTouchDistance. cbv zeta. apply Math_hypot_infinite.
  destruct H as [H | H]; [left | right]; now apply sub_infinitelyApart.
Qed.

Lemma getTouchDistance_coincident (x y : R) :
  getTouchDistance (mkTouch #x #y) (mkTouch #x #y) = #0.
Proof.
  rewrite getTouchDistance_fin. f_equal.
  replace ((x - x) * (x - x) + (y - y) * (y - y))%R with 0%R by ring.
  apply sqrt_0.
Qed.

Lemma clamp_nan (lo hi : num) : clamp NaN lo hi = NaN.
Proof. unfold clamp. now rewrite Math_max_nan_l, Math_min_nan_l. Qed.

(** An infinite finger distance asks for the largest zoom. *)
Lemma pinch_target_zoom_at_infinite_distance (z0 d0 : R) :
  (0 < z0)%R -> (0 < d0)%R ->
  clamp (#z0 * (#1 + (PInf / #d0 - #1) * #2)) minZoom maxZoom = maxZoom.
Proof.
  intros Hz Hd. unfold clamp, minZoom, maxZoom.
  rewrite (div_pinf_pos d0 Hd), sub_pinf_fin.
  rewrite (mul_pinf_pos_r 2) by lra.
  rewrite add_fin_pinf, (mul_pos_pinf_l z0 Hz), Math_max_pinf_fin.
  apply Math_min_pinf_fin.
Qed.

Lemma updatePanForPinch_currentZoom (tz cx cy : num) (rect : Rect)
    (st : State) :
  currentZoom (updatePanForPinch tz cx cy rect st) = tz.
Proof.
  unfold updatePanForPinch. by_flow st.
Qed.

(** With a midpoint whose [x] is [NaN], [updatePanForPinch] writes [NaN]
    into [panX]. *)
Lemma updatePanForPinch_nan_midpoint (tz cy l t : num) (w h : R)
    (st : State) :
  w <> 0%R -> h <> 0%R ->
  panX (updatePanForPinch tz NaN cy (mkRect l t #w #h) st) = NaN.
Proof.
  intros Hw Hh. unfold updatePanForPinch. cbn.
  rewrite !strict_eq_fin.
  destruct (Req_dec_T w 0); [contradiction |].
  destruct (Req_dec_T h 0); [contradiction |]. cbn.
  rewrite sub_nan_l, div_nan_l, clamp_nan, mul_nan_r, add_nan_r.
  rewrite mul_nan_l, sub_nan_l, clamp_nan. apply sub_nan_r.
Qed.

(** A drag begun at [(100, 100)] that receives a move whose [clientX] is
    [NaN] ends with [panX = NaN]; [updatePan] checks nothing. *)
Lemma updatePan_nan_corrupts_pan :
  let st := dispatch (MouseDown false #100 #100 #0) initialState in
  let st' := dispatch (MouseMove NaN #130 #16) st in
  panX st = #(-60) /\ panX st' = NaN /\ st' <> st.
Proof.
  intros st st'.
  destruct (beginPan_fields #100 #100 #0 mouse initialState)
    as (Hp & _ & _ & _ & _ & Hx & _).
  change (beginPan #100 #100 mouse #0 initialState) with st in Hp, Hx.
  cbv zeta in *. clearbody st.
  assert (Hx' : panX st' = NaN).
  { subst st'. unfold dispatch, mouseMoveHandler. rewrite Hp. cbn [negb].
    destruct (updatePan_pan NaN #130 #16 st) as (H & _).
    cbv zeta in H. rewrite H.
    now rewrite sub_nan_l, div_nan_l, mul_nan_l, add_nan_r. }
  conj_split; [exact Hx | exact Hx' |].
  intros E. rewrite E in Hx'. rewrite Hx in Hx'. discriminate.
Qed.

(** During a pinch begun at a positive finite distance and a positive
    zoom, a move whose fingers are infinitely apart on an axis passes the
    distance test and asks [updatePanForPinch] for [maxZoom]. *)
Lemma handlePinchMove_infinite_distance (t0 t1 : Touch) (rest : list Touch)
    (rect : Rect) (st : State) (z0 d0 : R) :
  infinitelyApart (clientX t0) (clientX t1)
  \/ infinitelyApart (clientY t0) (clientY t1) ->
  pinchActive st = true ->
  pinchStartZoom st = #z0 -> (0 < z0)%R ->
  pinchStartDistance st = #d0 -> (0 < d0)%R ->
  handlePinchMove (t0 :: t1 :: rest) rect st
  = updatePanForPinch maxZoom (fst (getTouchMidpoint t0 t1))
      (snd (getTouchMidpoint t0 t1)) rect st.
Proof.
  intros Hinf Ha Hz0 Hz Hd0 Hd.
  unfold handlePinchMove. rewrite Ha, Hd0, Hz0.
  rewrite (getTouchDistance_infinite t0 t1 Hinf).
  rewrite strict_eq_fin.
  destruct (Req_dec_T d0 0); [lra |]. cbn [negb orb].
  change (truthy PInf) with true. cbn [negb].
  destruct (getTouchMidpoint t0 t1) as [mx my].
  now rewrite (pinch_target_zoom_at_infinite_distance z0 d0 Hz Hd).
Qed.

(** During the pinch begun by two fingers at [(500, 680)] and [(650, 680)]
    on the initial view, a move that reports the fingers at
    [(+Infinity, 680)] and [(-Infinity, 680)] has the distance [+Infinity]
    and the midpoint [(NaN, 680)]: it passes the distance test, sets the zoom
    to [maxZoom] and writes [NaN] into [panX]. *)
Lemma pinch_infinite_distance_corrupts_pan :
  let rect := mkRect #0 #0 #1150 #1360 in
  let st := dispatch (TouchStart [mkTouch #500 #680; mkTouch #650 #680]
                        OverMap #0) initialState in
  let st' := dispatch (TouchMove [mkTouch PInf #680; mkTouch NInf #680]
                         OverMap rect #16) st in
  getTouchDistance (mkTouch PInf #680) (mkTouch NInf #680) = PInf /\
  currentZoom st = #1 /\ panX st = #(-60) /\
  currentZoom st' = #8 /\ panX st' = NaN.
Proof.
  intros rect st st'.
  destruct clamped_pinch_start as (Hz & Hx & _ & Ha & Hz0 & Hd0).
  change (dispatch (TouchStart [mkTouch #500 #680; mkTouch #650 #680]
                      OverMap #0) initialState) with st in Hz, Hx, Ha, Hz0, Hd0.
  cbv zeta in *. clearbody st.
  assert (Hinf : infinitelyApart PInf NInf \/ infinitelyApart #680 #680)
    by (left; exact I).
  assert (Hmove :
    st' = updatePanForPinch maxZoom NaN ((#680 + #680) / #2) rect
            (set_isMultiTouchGesture true st)).
  { subst st'. unfold dispatch, touchMoveHandler. cbn [length Nat.leb].
    rewrite Ha. cbn [negb].
    rewrite (handlePinchMove_infinite_distance
               (mkTouch PInf #680) (mkTouch NInf #680) [] rect
               (set_isMultiTouchGesture true st) 1 150 Hinf);
      [ | exact Ha | exact Hz0 | lra | exact Hd0 | lra ].
    unfold getTouchMidpoint. cbn [clientX clientY fst snd].
    now rewrite add_pinf_ninf, div_nan_l. }
  conj_split.
  - now apply getTouchDistance_infinite.
  - exact Hz.
  - exact Hx.
  - rewrite Hmove. apply updatePanForPinch_currentZoom.
  - rewrite Hmove. subst rect.
    apply updatePanForPinch_nan_midpoint; lra.
Qed.

(** C3, as stated, fails for the pan update and for a pinch update with
    infinite coordinates: the first writes [NaN] into [panX] when a pointer
    coordinate is [NaN]; the second, with the fingers reported at opposite
    infinities, sets the zoom to [maxZoom] and [panX] to [NaN]. *)
Lemma non_finite_input_corrupts_state :
  (let st := dispatch (MouseDown false #100 #100 #0) initialState in
   let st' := dispatch (MouseMove NaN #130 #16) st in
   panX st = #(-60) /\ panX st' = NaN /\ st' <> st) /\
  (let rect := mkRect #0 #0 #1150 #1360 in
   let st := dispatch (TouchStart [mkTouch #500 #680; mkTouch #650 #680]
                         OverMap #0) initialState in
   let st' := dispatch (TouchMove [mkTouch PInf #680; mkTouch NInf #680]
                          OverMap rect #16) st in
   getTouchDistance (mkTouch PInf #680) (mkTouch NInf #680) = PInf /\
   currentZoom st = #1 /\ panX st = #(-60) /\
   currentZoom st' = #8 /\ panX st' = NaN).
Proof.
  split;
    [exact updatePan_nan_corrupts_pan
    | exact pinch_infinite_distance_corrupts_pan].
Qed.

(** C3 (amended).  Centering on a target with a non-finite coordinate is
    ignored: the state, zoom and pan included, is left exactly as it was.  A
    pinch update is ignored when the distance of the two fingers is [NaN]
    (a coordinate is [NaN], or both fingers are at the same infinity on an
    axis, and they are not infinitely apart on either axis) or zero (the
    two fingers at the same finite point).  A pinch update whose fingers
    are infinitely apart on an axis is not ignored: during a pinch begun at
    a positive finite distance and a positive zoom it sets the zoom to
    [maxZoom]. *)
Theorem non_finite_input_ignored :
  (forall (x y : num) (options : CenterOptions) (mobile : bool) (now : num)
          (st : State),
      ~ finite x \/ ~ finite y ->
      centerOnCoordinates x y options mobile now st = st) /\
  (forall (t0 t1 : Touch) (rest : list Touch) (rect : Rect) (st : State),
      undefinedGap (clientX t0) (clientX t1)
      \/ undefinedGap (clientY t0) (clientY t1) ->
      ~ infinitelyApart (clientX t0) (clientX t1) ->
      ~ infinitelyApart (clientY t0) (clientY t1) ->
      handlePinchMove (t0 :: t1 :: rest) rect st = st) /\
  (forall (x y : R) (rest : list Touch) (rect : Rect) (st : State),
      handlePinchMove (mkTouch #x #y :: mkTouch #x #y :: rest) rect st
      = st) /\
  (forall (t0 t1 : Touch) (rest : list Touch) (rect : Rect) (st : State)
          (z0 d0 : R),
      infinitelyApart (clientX t0) (clientX t1)
      \/ infinitelyApart (clientY t0) (clientY t1) ->
      pinchActive st = true ->
      pinchStartZoom st = #z0 -> (0 < z0)%R ->
      pinchStartDistance st = #d0 -> (0 < d0)%R ->
      currentZoom (handlePinchMove (t0 :: t1 :: rest) rect st) = maxZoom).
Proof.
  assert (Hfalsy : forall t0 t1 rest rect st,
             truthy (getTouchDistance t0 t1) = false ->
             handlePinchMove (t0 :: t1 :: rest) rect st = st).
  { intros t0 t1 rest rect st H. unfold handlePinchMove. rewrite H.
    cbn [negb]. now destruct (negb (pinchActive st) || _). }
  conj_split.
  - intros x y options mobile now st H.
    assert (H' : Number_isFinite x = false \/ Number_isFinite y = false).
    { destruct H as [H | H]; [left | right].
      - destruct x; try reflexivity. exfalso. apply H. now eexists.
      - destruct y; try reflexivity. exfalso. apply H. now eexists. }
    destruct H' as [E | E]; unfold centerOnCoordinates;
      rewrite E; cbn [negb orb]; [reflexivity |].
    now rewrite orb_true_r.
  - intros t0 t1 rest rect st Hu Hx Hy. apply Hfalsy.
    rewrite (getTouchDistance_undefined t0 t1 Hu Hx Hy). apply truthy_nan.
  - intros x y rest rect st. apply Hfalsy.
    rewrite getTouchDistance_coincident, truthy_fin.
    destruct (Req_dec_T 0 0); [reflexivity | contradiction].
  - intros t0 t1 rest rect st z0 d0 Hinf Ha Hz0 Hz Hd0 Hd.
    rewrite (handlePinchMove_infinite_distance t0 t1 rest rect st z0 d0)
      by assumption.
    apply updatePanForPinch_currentZoom.
Qed.

(* ================================================================= *)
(** ** The zoom stays within its bounds *)

Lemma zoomInvariant_same (st st' : State) :
  zoomFields st' = zoomFields st -> zoomInvariant st -> zoomInvariant st'.
Proof.
  unfold zoomInvariant, zoomInBounds, zoomFields.
  intros [= -> -> ->]. auto.
Qed.

Lemma clamp_zoom_range (v : num) :
  v <> NaN -> within 1 8 (Math_min maxZoom (Math_max minZoom v)).
Proof.
  unfold maxZoom, minZoom. intros Hv. destruct v as [| | | x].
  - contradiction.
  - js_norm. exists 8%R. split; [reflexivity | lra].
  - js_norm. exists (Rmin 8 1). split; [reflexivity | R_cases; lra].
  - js_norm. exists (Rmin 8 (Rmax 1 x)). split; [reflexivity |].
    R_cases; lra.
Qed.

Lemma stopPanInertia_zoomFields (r : bool) (st : State) :
  zoomFields (stopPanInertia r st) = zoomFields st.
Proof. unfold stopPanInertia. destruct r; by_flow st. Qed.

Lemma stopPanAnimation_zoomFields (st : State) :
  zoomFields (stopPanAnimation st) = zoomFields st.
Proof. unfold stopPanAnimation. by_flow st. Qed.

Lemma zoomRange_value : Math_max (maxZoom - minZoom) #0.0001 = #7.
Proof.
  unfold maxZoom, minZoom. js_norm. f_equal. rewrite Rmax_left; lra.
Qed.

(** The gain of the wheel listener is a positive finite number. *)
Lemma wheel_intensity_positive (ctrlKey : bool) (nd : num) (z : R) :
  nd <> NaN -> (1 <= z <= 8)%R ->
  exists i,
    (0 < i)%R /\
    (if ctrlKey then
       #0.0035 * #2
       * (#1 + Math_min #240 (Math_abs nd) / #120)
       * (#0.9 + (#z - minZoom) / Math_max (maxZoom - minZoom) #0.0001
                 * #1.2)
     else #0.0012) = #i.
Proof.
  intros Hnd Hz. destruct ctrlKey; [| exists 0.0012%R; split; [lra | easy]].
  rewrite zoomRange_value. unfold minZoom.
  assert (Ha : exists a, Math_min #240 (Math_abs nd) = #a /\ (0 <= a)%R).
  { destruct nd as [| | | x]; [contradiction | | |]; js_norm.
    - exists 240%R. split; [reflexivity | lra].
    - exists 240%R. split; [reflexivity | lra].
    - exists (Rmin 240 (Rabs x)). split; [reflexivity |].
      pose proof (Rabs_pos x). R_cases; lra. }
  destruct Ha as (a & -> & Ha). js_norm.
  eexists. split; [| reflexivity].
  apply Rmult_lt_0_compat; [apply Rmult_lt_0_compat |]; lra.
Qed.

(** The zoom the wheel listener computes is never [NaN]. *)
Lemma wheel_product_not_nan (nd : num) (z i : R) :
  nd <> NaN -> (0 < z)%R -> (0 < i)%R ->
  #z * Math_exp (- nd * #i) <> NaN.
Proof.
  intros Hnd Hz Hi. destruct nd as [| | | x]; [contradiction | | |];
    js_norm; discriminate.
Qed.

Lemma truthy_not_nan (a : num) : truthy a = true -> a <> NaN.
Proof. intros H ->. rewrite truthy_nan in H. discriminate. Qed.

Lemma wheel_zoomInvariant (deltaY : num) (deltaMode : nat) (ctrlKey : bool)
    (st : State) :
  zoomInvariant st -> zoomInvariant (wheel deltaY deltaMode ctrlKey st).
Proof.
  intros Hinv. unfold wheel.
  pose proof (stopPanInertia_zoomFields true st) as Hzf.
  assert (Hinv1 : zoomInvariant (stopPanInertia true st))
    by now apply (zoomInvariant_same st).
  clear Hzf Hinv. set (st1 := stopPanInertia true st) in *. clearbody st1.
  set (nd := deltaY * _).
  destruct (truthy nd) eqn:Hnd; cbn [negb]; [| assumption].
  apply truthy_not_nan in Hnd.
  destruct Hinv1 as ((z & Hz & Hzr) & Hpz & Hpd).
  rewrite Hz.
  destruct (wheel_intensity_positive ctrlKey nd z Hnd Hzr) as (i & Hi & ->).
  pose proof (wheel_product_not_nan nd z i Hnd ltac:(lra) Hi) as Hprod.
  destruct (clamp_zoom_range _ Hprod) as (nz & Hnz & Hnzr).
  rewrite Hnz.
  destruct (negb (strict_eq #nz #z)).
  - split; [| split; assumption]. exists nz. split; [reflexivity | lra].
  - split; [| split; assumption]. exists z. split; [assumption | lra].
Qed.

Lemma zoomIn_zoomInvariant (st : State) :
  zoomInvariant st -> zoomInvariant (zoomIn st).
Proof.
  intros Hinv. unfold zoomIn.
  set (st1 := stopPanAnimation (stopPanInertia true st)).
  assert (H1 : zoomInvariant st1).
  { apply (zoomInvariant_same st); [| assumption]. subst st1.
    now rewrite stopPanAnimation_zoomFields, stopPanInertia_zoomFields. }
  clearbody st1. destruct H1 as ((z & Hz & Hzr) & Hpz & Hpd).
  split; [| split; assumption].
  unfold zoomInBounds. cbn. rewrite Hz. unfold maxZoom. js_norm.
  eexists. split; [reflexivity |]. R_cases; lra.
Qed.

Lemma zoomOut_zoomInvariant (st : State) :
  zoomInvariant st -> zoomInvariant (zoomOut st).
Proof.
  intros Hinv. unfold zoomOut.
  set (st1 := stopPanAnimation (stopPanInertia true st)).
  assert (H1 : zoomInvariant st1).
  { apply (zoomInvariant_same st); [| assumption]. subst st1.
    now rewrite stopPanAnimation_zoomFields, stopPanInertia_zoomFields. }
  clearbody st1. destruct H1 as ((z & Hz & Hzr) & Hpz & Hpd).
  split; [| split; assumption].
  unfold zoomInBounds. cbn. rewrite Hz. unfold maxZoom, minZoom. js_norm.
  eexists. split; [reflexivity |]. R_cases; lra.
Qed.

Lemma resetView_zoomInvariant (st : State) :
  zoomInvariant st -> zoomInvariant (resetView st).
Proof.
  intros Hinv. unfold resetView.
  set (st1 := stopPanAnimation (stopPanInertia true st)).
  assert (H1 : zoomInvariant st1).
  { apply (zoomInvariant_same st); [| assumption]. subst st1.
    now rewrite stopPanAnimation_zoomFields, stopPanInertia_zoomFields. }
  clearbody st1. destruct H1 as (_ & Hpz & Hpd).
  split; [| split; assumption].
  exists 1%R. split; [reflexivity | lra].
Qed.

Lemma animatePan_zoomFields (tx ty d : num) (onComplete : option nat)
    (now : num) (st : State) :
  zoomFields (animatePan tx ty d onComplete now st) = zoomFields st.
Proof. unfold animatePan, requestAnimationFrame. by_flow st. Qed.

Lemma centerOnCoordinates_zoomInvariant (x y : num)
    (options : CenterOptions) (mobile : bool) (now : num) (st : State) :
  zoomInvariant st ->
  zoomInvariant (centerOnCoordinates x y options mobile now st).
Proof.
  intros Hinv. unfold centerOnCoordinates.
  destruct (negb (Number_isFinite x) || negb (Number_isFinite y));
    [assumption |].
  match goal with
  | |- context [stopPanAnimation (stopPanInertia true ?s)] =>
      set (st0 := s);
      assert (H0 : zoomInvariant st0)
  end.
  { subst st0. pose proof Hinv as ((z & Hz & Hzr) & Hpz & Hpd).
    assert (Hmobile :
              zoomInvariant
                (if mobile
                 then if lt (currentZoom st) #2.1
                      then set_currentZoom (Math_min maxZoom #2.1) st
                      else st
                 else st)).
    { destruct mobile; [| assumption].
      destruct (lt (currentZoom st) #2.1); [| assumption].
      split; [| split; assumption].
      unfold zoomInBounds, maxZoom. cbn. js_norm.
      eexists. split; [reflexivity | R_cases; lra]. }
    destruct (opt_minZoom options) as [mz |]; cbn [andb];
      [| exact Hmobile].
    destruct mz as [| | | m]; cbn [Number_isFinite]; try exact Hmobile.
    split; [| split; assumption].
    unfold zoomInBounds, maxZoom. cbn. rewrite Hz. js_norm.
    eexists. split; [reflexivity | R_cases; lra]. }
  clearbody st0.
  set (st1 := stopPanAnimation (stopPanInertia true st0)).
  assert (H1 : zoomInvariant st1).
  { apply (zoomInvariant_same st0); [| assumption]. subst st1.
    now rewrite stopPanAnimation_zoomFields, stopPanInertia_zoomFields. }
  clearbody st1.
  destruct (calculatePanForCoordinates x y (opt_focus options) st1)
    as [tx ty].
  destruct (opt_animate options && gt (opt_duration options) #0).
  - apply (zoomInvariant_same st1); [| assumption].
    apply animatePan_zoomFields.
  - destruct (opt_onComplete options);
      apply (zoomInvariant_same st1); try reflexivity; assumption.
Qed.

Lemma updatePanForPinch_zoomFields (tz cx cy : num) (rect : Rect)
    (st : State) :
  zoomFields (updatePanForPinch tz cx cy rect st)
  = (tz, pinchStartZoom st, pinchStartDistance st).
Proof. unfold updatePanForPinch. by_flow st. Qed.

Lemma finiteTouch_distance (t0 t1 : Touch) :
  finiteTouch t0 -> finiteTouch t1 ->
  exists d, getTouchDistance t0 t1 = #d /\ (0 <= d)%R.
Proof.
  destruct t0 as [x0' y0'], t1 as [x1' y1'].
  intros [(x0 & Hx0) (y0 & Hy0)] [(x1 & Hx1) (y1 & Hy1)].
  cbn in *. subst. rewrite getTouchDistance_fin.
  eexists. split; [reflexivity | apply sqrt_pos].
Qed.

Lemma handlePinchMove_zoomInvariant (touches : list Touch) (rect : Rect)
    (st : State) :
  Forall finiteTouch touches ->
  zoomInvariant st -> zoomInvariant (handlePinchMove touches rect st).
Proof.
  intros Hfin Hinv. unfold handlePinchMove.
  destruct touches as [| t0 [| t1 rest]]; try assumption.
  apply Forall_cons_iff in Hfin as [Hf0 Hfin].
  apply Forall_cons_iff in Hfin as [Hf1 _].
  destruct (negb (pinchActive st) || strict_eq (pinchStartDistance st) #0)
    eqn:Hguard; [assumption |].
  destruct (truthy (getTouchDistance t0 t1)) eqn:Hd; cbn [negb];
    [| assumption].
  destruct (getTouchMidpoint t0 t1) as [mx my].
  destruct Hinv as (Hz & Hpz & Hpd).
  pose proof Hpz as (z0 & Hz0 & Hz0r). pose proof Hpd as (d0 & Hd0).
  destruct (finiteTouch_distance t0 t1 Hf0 Hf1) as (d & Hdist & _).
  apply orb_false_iff in Hguard as [_ Hg].
  rewrite Hd0, strict_eq_fin in Hg.
  destruct (Req_dec_T d0 0); [discriminate |].
  unfold zoomInvariant, zoomInBounds.
  pose proof (updatePanForPinch_zoomFields
                (clamp (pinchStartZoom st
                        * (#1 + (getTouchDistance t0 t1
                                 / pinchStartDistance st - #1) * #2))
                   minZoom maxZoom) mx my rect st) as Hzf.
  unfold zoomFields in Hzf. injection Hzf as -> -> ->.
  split; [| split; assumption].
  rewrite Hz0, Hd0, Hdist. unfold minZoom, maxZoom. js_norm.
  rewrite clamp_fin. eexists. split; [reflexivity |]. R_cases; lra.
Qed.

Lemma startPinch_zoomInvariant (touches : list Touch) (st : State) :
  Forall finiteTouch touches ->
  zoomInvariant st -> zoomInvariant (startPinch touches st).
Proof.
  intros Hfin Hinv.
  destruct touches as [| t0 [| t1 rest]]; try assumption.
  apply Forall_cons_iff in Hfin as [Hf0 Hfin].
  apply Forall_cons_iff in Hfin as [Hf1 _].
  destruct (startPinch_fields t0 t1 rest st)
    as (_ & _ & Hsz & Hsd & Hz & _).
  cbv zeta in *. destruct Hinv as (Hzb & _ & _).
  unfold zoomInvariant, zoomInBounds. rewrite Hsz, Hsd, Hz.
  conj_split; try assumption.
  destruct (finiteTouch_distance t0 t1 Hf0 Hf1) as (d & -> & _).
  unfold or_else. destruct (truthy #d); eexists; reflexivity.
Qed.

Lemma resetPinchState_zoomInvariant (st : State) :
  zoomInvariant st -> zoomInvariant (resetPinchState st).
Proof.
  intros (Hz & _ & _). unfold zoomInvariant, zoomInBounds, resetPinchState.
  cbn. conj_split; try assumption. now exists 0%R.
Qed.

Lemma recordVelocity_zoomFields (cx cy now : num) (st : State) :
  zoomFields (recordVelocity cx cy now st) = zoomFields st.
Proof. unfold recordVelocity. by_flow st. Qed.

Lemma beginPan_zoomFields (cx cy now : num) (inputType : InputType)
    (st : State) :
  zoomFields (beginPan cx cy inputType now st) = zoomFields st.
Proof.
  unfold beginPan. rewrite recordVelocity_zoomFields.
  unfold stopPanAnimation, stopPanInertia. destruct inputType; by_flow st.
Qed.

Lemma updatePan_zoomFields (cx cy now : num) (st : State) :
  zoomFields (updatePan cx cy now st) = zoomFields st.
Proof. unfold updatePan. now rewrite recordVelocity_zoomFields. Qed.

Lemma endPan_zoomFields (skipInertia : bool) (now : num) (st : State) :
  zoomFields (endPan skipInertia now st) = zoomFields st.
Proof.
  unfold endPan, startPanInertia, stopPanInertia, requestAnimationFrame.
  by_flow st.
Qed.

Lemma inertiaStep_zoomFields (lastTime time : num) (st : State) :
  zoomFields (inertiaStep lastTime time st) = zoomFields st.
Proof.
  unfold inertiaStep, stopPanInertia, requestAnimationFrame. by_flow st.
Qed.

Lemma panAnimStep_zoomFields (sx sy tx ty t0 d time : num) (st : State) :
  zoomFields (panAnimStep sx sy tx ty t0 d time st) = zoomFields st.
Proof. unfold panAnimStep, requestAnimationFrame. by_flow st. Qed.

Lemma runCallbacks_zoomFields (time : num)
    (queued : list (nat * FrameCallback)) :
  forall st, zoomFields (runCallbacks time queued st) = zoomFields st.
Proof.
  induction queued as [| [h cb] rest IH]; intros st; cbn; [reflexivity |].
  destruct (pendingFrame h st); rewrite IH; [| reflexivity].
  destruct cb; cbn [runCallback].
  - now rewrite inertiaStep_zoomFields.
  - now rewrite panAnimStep_zoomFields.
Qed.

Ltac zoom_same st :=
  apply (zoomInvariant_same st); [| assumption].

Lemma dispatch_zoomInvariant (e : Event) (st : State) :
  wellFormedEvent e -> zoomInvariant st -> zoomInvariant (dispatch e st).
Proof.
  intros Hwf Hinv. destruct e; cbn [dispatch wellFormedEvent] in *.
  - unfold mouseDownHandler. destruct interactive; cbn [negb];
      [assumption |]. zoom_same st. apply beginPan_zoomFields.
  - unfold mouseMoveHandler. destruct (negb (isPanning st));
      [assumption |]. zoom_same st. apply updatePan_zoomFields.
  - unfold mouseUpHandler. zoom_same st. apply endPan_zoomFields.
  - unfold touchStartHandler. destruct (Nat.leb 2 (length touches)).
    + apply startPinch_zoomInvariant; [assumption |]. now zoom_same st.
    + destruct touches as [| t [| ? ?]]; try assumption.
      destruct target; try assumption.
      * zoom_same st. cbv zeta. peel_setters.
        apply stopPanInertia_zoomFields.
      * apply resetPinchState_zoomInvariant in Hinv.
        zoom_same (resetPinchState st). apply beginPan_zoomFields.
  - unfold touchMoveHandler. destruct (Nat.leb 2 (length touches)).
    + apply handlePinchMove_zoomInvariant; [assumption |].
      assert (H1 : zoomInvariant
                     (if negb (pinchActive st)
                      then startPinch touches st else st)).
      { destruct (negb (pinchActive st)); [| assumption].
        now apply startPinch_zoomInvariant. }
      now zoom_same (if negb (pinchActive st)
                     then startPinch touches st else st).
    + set (st0 := if pinchActive st then resetPinchState st else st).
      assert (H0 : zoomInvariant st0).
      { subst st0. destruct (pinchActive st); [| assumption].
        now apply resetPinchState_zoomInvariant. }
      clearbody st0.
      assert (Hend : zoomInvariant
                (endPan true now
                   (stopPanAnimation (stopPanInertia true st0)))).
      { zoom_same st0.
        now rewrite endPan_zoomFields, stopPanAnimation_zoomFields,
          stopPanInertia_zoomFields. }
      destruct touches as [| t [| ? ?]]; [| destruct target |];
        repeat match goal with
               | |- context [if ?c then _ else _] => destruct c
               end;
        try assumption; zoom_same st0; apply updatePan_zoomFields.
  - unfold handleTouchEnd.
    assert (Hfin : forall s, zoomInvariant s ->
              zoomInvariant
                (if Nat.eqb (length touches) 0
                 then endPan false now (set_isMultiTouchGesture false s)
                 else s)).
    { intros s Hs. destruct (Nat.eqb (length touches) 0); [| assumption].
      zoom_same s. now rewrite endPan_zoomFields. }
    destruct (pinchActive st && Nat.ltb (length touches) 2);
      [| now apply Hfin].
    apply resetPinchState_zoomInvariant in Hinv.
    destruct touches as [| t [| ? ?]]; [| destruct target |];
      try (now apply Hfin).
    + zoom_same (resetPinchState st). cbv zeta. peel_setters.
      apply stopPanInertia_zoomFields.
    + apply Hfin. zoom_same (resetPinchState st). apply beginPan_zoomFields.
  - now apply wheel_zoomInvariant.
  - now apply zoomIn_zoomInvariant.
  - now apply zoomOut_zoomInvariant.
  - now apply resetView_zoomInvariant.
  - now apply centerOnCoordinates_zoomInvariant.
  - zoom_same st. unfold stopInertiaAndAnimation.
    now rewrite stopPanAnimation_zoomFields, stopPanInertia_zoomFields.
  - zoom_same st. apply runCallbacks_zoomFields.
Qed.

Lemma initialState_zoomInvariant : zoomInvariant initialState.
Proof.
  unfold zoomInvariant, zoomInBounds. cbn. conj_split.
  - exists 1%R. split; [reflexivity | lra].
  - exists 1%R. split; [reflexivity | lra].
  - now exists 0%R.
Qed.

Lemma run_zoomInvariant (events : list Event) :
  forall st, Forall wellFormedEvent events ->
             zoomInvariant st -> zoomInvariant (run events st).
Proof.
  unfold run. induction events as [| e rest IH]; intros st Hwf H; cbn;
    [assumption |].
  apply Forall_cons_iff in Hwf as [He Hrest].
  apply IH; [assumption |]. now apply dispatch_zoomInvariant.
Qed.

(** C6.  From the initial state, whatever events arrive (touch coordinates
    being finite numbers, as the browser delivers them), the zoom is a finite
    number within [[minZoom, maxZoom]] after every one of them; and from
    every such state each zoom-changing call leaves it within the bounds:
    the wheel listener at any delta (finite or not), delta mode and
    modifier, a pinch move on any finite touch points, the two zoom buttons,
    and centering with any [minZoom] option. *)
Theorem zoom_always_within_bounds (events : list Event) :
  Forall wellFormedEvent events ->
  let st := run events initialState in
  zoomInBounds st /\
  (forall deltaY deltaMode ctrlKey,
      zoomInBounds (wheel deltaY deltaMode ctrlKey st)) /\
  (forall touches rect,
      Forall finiteTouch touches ->
      zoomInBounds (handlePinchMove touches rect st)) /\
  zoomInBounds (zoomIn st) /\
  zoomInBounds (zoomOut st) /\
  (forall x y options mobile now,
      zoomInBounds (centerOnCoordinates x y options mobile now st)).
Proof.
  intros Hwf st.
  assert (H : zoomInvariant st)
    by (apply run_zoomInvariant; [assumption | apply initialState_zoomInvariant]).
  conj_split.
  - apply H.
  - intros. now apply wheel_zoomInvariant.
  - intros. now apply handlePinchMove_zoomInvariant.
  - now apply zoomIn_zoomInvariant.
  - now apply zoomOut_zoomInvariant.
  - intros. now apply centerOnCoordinates_zoomInvariant.
Qed.

(* ================================================================= *)
(** ** The sampled velocity is bounded *)

Lemma getPanSpeedMultiplier_fin (st : State) (z : R) :
  currentZoom st = #z ->
  getPanSpeedMultiplier st = #(1 + (z - 1) / 7 * (3 - 1)).
Proof.
  intros Hz. unfold getPanSpeedMultiplier. rewrite zoomRange_value, Hz.
  unfold minZoom. now js_norm.
Qed.

(** One smoothing step of [recordVelocity] on a bounded velocity [v] and a
    sample [sample] that is not [NaN]. *)
Lemma smoothed_velocity_bounded (v : R) (sample : num) :
  (- (0.75) <= v <= 0.75)%R -> sample <> NaN ->
  within (- (0.75)) 0.75
    ((#1 - velocity_smoothing) * #v
     + velocity_smoothing
       * Math_max (- velocity_max) (Math_min velocity_max sample)).
Proof.
  intros Hv Hs. unfold velocity_smoothing, velocity_max.
  assert (Hc : exists c, Math_max (- #0.75) (Math_min #0.75 sample) = #c
                         /\ (- (0.75) <= c <= 0.75)%R).
  { destruct sample as [| | | x]; [contradiction | | |]; js_norm.
    - eexists. split; [reflexivity | R_cases; lra].
    - eexists. split; [reflexivity | lra].
    - eexists. split; [reflexivity | R_cases; lra]. }
  destruct Hc as (c & -> & Hc). js_norm.
  eexists. split; [reflexivity | lra].
Qed.

(** A velocity sample: a finite pan step over a positive or infinite time
    step is not [NaN]. *)
Lemma velocity_sample_not_nan (step : R) (deltaTime : num) :
  gt deltaTime #0 = true -> #step / deltaTime <> NaN.
Proof.
  intros [-> | (dt & -> & Hdt)]%gt_positive; js_norm; discriminate.
Qed.

Lemma recordVelocity_dragInvariant (cx cy : R) (now : num) (st : State) :
  dragInvariant st -> dragInvariant (recordVelocity #cx #cy now st).
Proof.
  intros Hinv.
  destruct Hinv as ((Hvx & Hvy) & Hlx & Hly & Hm & Hz).
  pose proof Hvx as (vx & Hvx' & Hvxr). pose proof Hvy as (vy & Hvy' & Hvyr).
  pose proof Hlx as (lx & Hlx'). pose proof Hly as (ly & Hly').
  pose proof Hm as (m & Hm'). pose proof Hz as (z & Hz' & Hzr).
  assert (Hrest : forall s,
             velocityWithin 0.75 s ->
             currentPanMultiplier s = currentPanMultiplier st ->
             currentZoom s = currentZoom st ->
             dragInvariant
               (set_lastPointerTime now
                  (set_lastPointerY #cy (set_lastPointerX #cx s)))).
  { intros s Hv Hms Hzs.
    unfold dragInvariant, velocityWithin, zoomInBounds in *.
    peel_setters. rewrite Hms, Hzs.
    conj_split; try tauto; eexists; reflexivity. }
  unfold recordVelocity. cbv zeta.
  destruct (truthy (lastPointerTime st));
    [| apply Hrest; [split; assumption | reflexivity | reflexivity]].
  destruct (gt (now - lastPointerTime st) #0) eqn:Hdt;
    [| apply Hrest; [split; assumption | reflexivity | reflexivity]].
  apply Hrest; [| now peel_setters | now peel_setters].
  unfold velocityWithin. peel_setters.
  rewrite (getPanSpeedMultiplier_fin st z Hz'), Hm', Hz', Hlx', Hly',
    Hvx', Hvy'.
  js_norm.
  split; apply smoothed_velocity_bounded; try assumption;
    now apply velocity_sample_not_nan.
Qed.

Lemma updatePan_dragInvariant (cx cy : R) (now : num) (st : State) :
  dragInvariant st -> dragInvariant (updatePan #cx #cy now st).
Proof.
  intros Hinv. unfold updatePan. cbv zeta.
  apply recordVelocity_dragInvariant.
  unfold dragInvariant, velocityWithin, zoomInBounds in *.
  now peel_setters.
Qed.

Lemma dragMoves_dragInvariant (moves : list (R * R * num)) :
  forall st, dragInvariant st -> dragInvariant (dragMoves moves st).
Proof.
  unfold dragMoves.
  induction moves as [| [[x y] t] rest IH]; intros st H; cbn;
    [assumption |].
  apply IH. now apply updatePan_dragInvariant.
Qed.

Lemma beginPan_dragInvariant (cx cy : R) (inputType : InputType)
    (now : num) (st : State) :
  zoomInBounds st -> dragInvariant (beginPan #cx #cy inputType now st).
Proof.
  intros Hz.
  destruct (beginPan_fields #cx #cy now inputType st)
    as (_ & _ & _ & _ & _ & _ & _ & Hzoom & Hm & Hvx & Hvy & Hlx & Hly & _).
  cbv zeta in *.
  unfold dragInvariant, velocityWithin, zoomInBounds.
  rewrite Hzoom, Hm, Hvx, Hvy, Hlx, Hly.
  conj_split; try assumption.
  - exists 0%R. split; [reflexivity | lra].
  - exists 0%R. split; [reflexivity | lra].
  - now exists cx.
  - now exists cy.
  - destruct inputType; eexists; reflexivity.
Qed.

(** The velocity [endPan] hands over: the sampled one, the boosted and
    clamped one, or zero. *)
Lemma endPan_velocity (skipInertia : bool) (now : num) (st : State) :
  let st' := endPan skipInertia now st in
  let boosted v :=
    Math_max (- flickMax) (Math_min flickMax (v * flickMultiplier)) in
  (panVelocityX st' = panVelocityX st \/ panVelocityX st' = #0 \/
   panVelocityX st' = boosted (panVelocityX st)) /\
  (panVelocityY st' = panVelocityY st \/ panVelocityY st' = #0 \/
   panVelocityY st' = boosted (panVelocityY st)).
Proof.
  unfold endPan, startPanInertia, stopPanInertia, requestAnimationFrame.
  destruct st; flow_cases; auto.
Qed.

Lemma boosted_velocity_bounded (v : R) :
  (- (0.75) <= v <= 0.75)%R ->
  within (- (0.9)) 0.9
    (Math_max (- flickMax) (Math_min flickMax (#v * flickMultiplier))).
Proof.
  intros Hv. unfold flickMax, flickMultiplier. js_norm.
  eexists. split; [reflexivity | R_cases; lra].
Qed.

Lemma endPan_velocity_bounded (skipInertia : bool) (now : num)
    (st : State) :
  velocityWithin 0.75 st ->
  velocityWithin 0.9 (endPan skipInertia now st).
Proof.
  intros [(vx & Hvx & Hvxr) (vy & Hvy & Hvyr)].
  destruct (endPan_velocity skipInertia now st) as [Hx Hy].
  cbv zeta in *. unfold velocityWithin. rewrite Hvx in Hx. rewrite Hvy in Hy.
  split.
  - destruct Hx as [-> | [-> | ->]].
    + exists vx. split; [reflexivity | lra].
    + exists 0%R. split; [reflexivity | lra].
    + now apply boosted_velocity_bounded.
  - destruct Hy as [-> | [-> | ->]].
    + exists vy. split; [reflexivity | lra].
    + exists 0%R. split; [reflexivity | lra].
    + now apply boosted_velocity_bounded.
Qed.

(** C10.  A drag that begins at a finite pointer position, on a state whose
    zoom is within bounds, starts with velocity zero; after any number of
    pointer moves at finite positions (whatever the clock reads) both
    smoothed velocity components are finite and at most 0.75 in magnitude;
    and the velocity [endPan] leaves, the one inertia starts from, has both
    components at most 0.9 in magnitude, flick boost included. *)
Theorem drag_velocity_bounded (st : State) (cx cy : R)
    (inputType : InputType) (now endNow : num)
    (moves : list (R * R * num)) :
  zoomInBounds st ->
  let st1 := beginPan #cx #cy inputType now st in
  let st2 := dragMoves moves st1 in
  let st3 := endPan false endNow st2 in
  panVelocityX st1 = #0 /\ panVelocityY st1 = #0 /\
  velocityWithin 0.75 st2 /\
  velocityWithin 0.9 st3.
Proof.
  intros Hz st1 st2 st3.
  assert (H1 : dragInvariant st1) by now apply beginPan_dragInvariant.
  assert (H2 : dragInvariant st2) by now apply dragMoves_dragInvariant.
  destruct (beginPan_fields #cx #cy now inputType st)
    as (_ & _ & _ & _ & _ & _ & _ & _ & _ & Hvx & Hvy & _).
  conj_split.
  - exact Hvx.
  - exact Hvy.
  - apply H2.
  - apply endPan_velocity_bounded, H2.
Qed.

(* ================================================================= *)
(** ** Inertia *)

(** What one inertia frame leaves, on either side of its velocity test. *)
Lemma inertiaStep_result (lastTime time : num) (st : State) :
  let dt := time - lastTime in
  let decayFactor := Math_pow_decay decay (dt / #16) in
  let vx := panVelocityX st * decayFactor in
  let vy := panVelocityY st * decayFactor in
  let st' := inertiaStep lastTime time st in
  panX st' = panX st + panVelocityX st * dt /\
  panY st' = panY st + panVelocityY st * dt /\
  isPanning st' = isPanning st /\ pinchActive st' = pinchActive st /\
  panAnimationFrame st' = panAnimationFrame st /\
  if lt (Math_hypot vx vy) minVelocity
  then panVelocityX st' = #0 /\ panVelocityY st' = #0 /\
       panInertiaFrame st' = None /\
       frames st'
       = match panInertiaFrame st with
         | Some h => filter (fun e => negb (Nat.eqb (fst e) h)) (frames st)
         | None => frames st
         end
  else panVelocityX st' = vx /\ panVelocityY st' = vy /\
       panInertiaFrame st' = Some (nextFrame st) /\
       frames st' = frames st ++ [(nextFrame st, InertiaStep time)].
Proof.
  unfold inertiaStep, stopPanInertia, requestAnimationFrame,
    cancelAnimationFrame.
  destruct st; flow_cases; conj_split; reflexivity.
Qed.

(** What [startPanInertia] leaves, on either side of its velocity test. *)
Lemma startPanInertia_result (now : num) (st : State) :
  let st' := startPanInertia now st in
  panX st' = panX st /\ panY st' = panY st /\
  isPanning st' = isPanning st /\ pinchActive st' = pinchActive st /\
  panAnimationFrame st' = panAnimationFrame st /\
  if lt (Math_hypot (panVelocityX st) (panVelocityY st)) minVelocity
  then panVelocityX st' = #0 /\ panVelocityY st' = #0 /\
       panInertiaFrame st' = None
  else panVelocityX st' = panVelocityX st /\
       panVelocityY st' = panVelocityY st /\
       panInertiaFrame st' = Some (nextFrame st) /\
       frames st'
       = match panInertiaFrame st with
         | Some h => filter (fun e => negb (Nat.eqb (fst e) h)) (frames st)
         | None => frames st
         end ++ [(nextFrame st, InertiaStep now)].
Proof.
  unfold startPanInertia, stopPanInertia, requestAnimationFrame,
    cancelAnimationFrame.
  destruct st; flow_cases; conj_split; reflexivity.
Qed.

Lemma decay_factor_positive (x : R) : (0 < Rpower decay x)%R.
Proof. unfold Rpower. apply exp_pos. Qed.

(** One frame of a running inertia loop: the velocity is multiplied by the
    decay over the elapsed time, and the loop goes on or stops according to
    the result. *)
Lemma inertia_frame_step (t v t' : R) (st : State) :
  inertiaRunning t v st -> (0 < v)%R ->
  let v' := (v * Rpower decay ((t' - t) / 16))%R in
  ((0.0012 <= v')%R -> inertiaRunning t' v' (runFrame #t' st)) /\
  ((v' < 0.0012)%R -> inertiaStopped (runFrame #t' st)).
Proof.
  intros ((h & Hf & Hh) & Hvx & Hvy & Hpx & Hpy & Hp & Hq & Ha) Hv v'.
  assert (Hv' : (0 < v')%R).
  { apply Rmult_lt_0_compat; [assumption | apply decay_factor_positive]. }
  assert (Hpend : pendingFrame h st = true).
  { unfold pendingFrame. rewrite Hf. cbn. now rewrite Nat.eqb_refl. }
  unfold runFrame. rewrite Hf. cbn [runCallbacks]. rewrite Hpend.
  cbn [runCallback].
  set (s1 := cancelAnimationFrame h st).
  assert (Hf1 : frames s1 = []).
  { subst s1. unfold cancelAnimationFrame. peel_setters. rewrite Hf.
    cbn. now rewrite Nat.eqb_refl. }
  assert (Hrest : panVelocityX s1 = #v /\ panVelocityY s1 = #0 /\
                  panX s1 = panX st /\ panY s1 = panY st /\
                  isPanning s1 = false /\ pinchActive s1 = false /\
                  panAnimationFrame s1 = None /\
                  panInertiaFrame s1 = Some h).
  { subst s1. unfold cancelAnimationFrame. peel_setters. tauto. }
  destruct Hrest as (Hvx1 & Hvy1 & Hpx1 & Hpy1 & Hp1 & Hq1 & Ha1 & Hh1).
  clearbody s1.
  pose proof (inertiaStep_result #t #t' s1) as Hres. cbv zeta in Hres.
  rewrite Hvx1, Hvy1, Hpx1, Hpy1, Hp1, Hq1, Ha1, Hh1, Hf1 in Hres.
  destruct Hpx as (px & Hpx). destruct Hpy as (py & Hpy).
  rewrite Hpx, Hpy in Hres. unfold minVelocity in Hres.
  autorewrite with js in Hres. fold v' in Hres.
  replace (sqrt (v' * v'
                 + 0 * Rpower decay ((t' - t) / 16)
                   * (0 * Rpower decay ((t' - t) / 16))))
    with v' in Hres by (symmetry; apply sqrt_of_square; lra).
  rewrite lt_fin in Hres.
  destruct Hres as (Rx & Ry & Rp & Rq & Ra & Hres).
  split; intros Hcmp; (destruct (Rlt_dec v' 0.0012); [try lra | try lra]).
  - destruct Hres as (R1 & R2 & R3 & R4).
    unfold inertiaRunning. conj_split; try assumption.
    + eexists. split; [exact R4 | exact R3].
    + rewrite R2. f_equal. lra.
    + rewrite Rx. eexists. reflexivity.
    + rewrite Ry. eexists. reflexivity.
  - destruct Hres as (R1 & R2 & R3 & R4).
    unfold inertiaStopped. conj_split; assumption.
Qed.

Lemma startPanInertia_running (t0 v0 : R) (st : State) :
  inertiaReady st -> panVelocityX st = #v0 -> panVelocityY st = #0 ->
  (0.0012 <= v0)%R ->
  inertiaRunning t0 v0 (startPanInertia #t0 st).
Proof.
  intros (Hf & Hp & Hq & Ha & Hpx & Hpy) Hvx Hvy Hv0.
  pose proof (startPanInertia_result #t0 st) as Hres. cbv zeta in Hres.
  rewrite Hvx, Hvy, Hp, Hq, Ha, Hf in Hres. unfold minVelocity in Hres.
  autorewrite with js in Hres.
  replace (sqrt (v0 * v0 + 0 * 0)) with v0 in Hres
    by (symmetry; apply sqrt_of_square; lra).
  rewrite lt_fin in Hres. destruct (Rlt_dec v0 0.0012); [lra |].
  destruct Hres as (Rx & Ry & Rp & Rq & Ra & R1 & R2 & R3 & R4).
  unfold inertiaRunning. conj_split; try congruence.
  eexists. split; [| exact R3].
  rewrite R4. now destruct (panInertiaFrame st).
Qed.

Lemma last_cons (t1 : R) (rest : list R) (t : R) :
  last (t1 :: rest) t = last rest t1.
Proof.
  revert t1 t. induction rest as [| t2 rest IH]; intros t1 t;
    [reflexivity |].
  change (last (t1 :: t2 :: rest) t) with (last (t2 :: rest) t).
  rewrite (IH t2 t). symmetry. apply IH.
Qed.

Lemma decay_positive : (0 < decay)%R.
Proof. unfold decay. lra. Qed.

Lemma decay_telescopes (v t t1 t2 : R) :
  (v * Rpower decay ((t1 - t) / 16) * Rpower decay ((t2 - t1) / 16)
   = v * Rpower decay ((t2 - t) / 16))%R.
Proof.
  rewrite Rmult_assoc, <- Rpower_plus. do 2 f_equal. lra.
Qed.

(** While every frame finds the velocity at or above [minVelocity], the loop
    runs on, and the velocity is the start velocity decayed over the whole
    elapsed time. *)
Lemma inertia_frames_running (ts : list R) :
  forall (t v : R) (st : State),
    inertiaRunning t v st -> (0 < v)%R ->
    (forall t', In t' ts ->
       (0.0012 <= v * Rpower decay ((t' - t) / 16))%R) ->
    inertiaRunning (last ts t) (v * Rpower decay ((last ts t - t) / 16))
      (run (map (fun t' => Frame #t') ts) st).
Proof.
  induction ts as [| t1 rest IH]; intros t v st Hrun Hv Hall.
  - cbn. replace (v * Rpower decay ((t - t) / 16))%R with v; [assumption |].
    replace ((t - t) / 16)%R with 0%R by lra.
    rewrite (Rpower_O _ decay_positive). lra.
  - rewrite last_cons.
    change (run (map (fun t' => Frame #t') (t1 :: rest)) st)
      with (run (map (fun t' => Frame #t') rest) (runFrame #t1 st)).
    destruct (inertia_frame_step t v t1 st Hrun Hv) as [Hgo _].
    specialize (Hgo (Hall t1 (or_introl eq_refl))).
    rewrite <- (decay_telescopes v t t1 (last rest t1)).
    apply IH.
    + exact Hgo.
    + apply Rmult_lt_0_compat; [assumption | apply decay_factor_positive].
    + intros t' Hin. rewrite decay_telescopes. apply Hall. now right.
Qed.

(** Once stopped, frames change nothing. *)
Lemma inertia_stopped_stays (ts : list R) (st : State) :
  inertiaStopped st -> run (map (fun t' => Frame #t') ts) st = st.
Proof.
  intros (Hf & _). induction ts as [| t rest IH]; [reflexivity |].
  change (run (map (fun t' => Frame #t') (t :: rest)) st)
    with (run (map (fun t' => Frame #t') rest) (runFrame #t st)).
  now rewrite (runFrame_empty_queue _ _ Hf).
Qed.

Lemma run_app (l1 l2 : list Event) (st : State) :
  run (l1 ++ l2) st = run l2 (run l1 st).
Proof. unfold run. apply fold_left_app. Qed.

(** An inertia session from the velocity [(v0, 0)]: the closed form while it
    runs, and the stop at the first frame that finds the velocity below
    [minVelocity]. *)
Lemma inertia_session (v0 t0 : R) (st : State) :
  inertiaReady st -> panVelocityX st = #v0 -> panVelocityY st = #0 ->
  (0.0012 <= v0)%R ->
  (forall ts,
      (forall t, In t ts -> (0.0012 <= inertiaVelocity v0 t0 t)%R) ->
      inertiaRunning (last ts t0) (inertiaVelocity v0 t0 (last ts t0))
        (inertiaSession t0 ts st)) /\
  (forall pre t post,
      (forall t', In t' pre -> (0.0012 <= inertiaVelocity v0 t0 t')%R) ->
      (inertiaVelocity v0 t0 t < 0.0012)%R ->
      inertiaStopped (inertiaSession t0 (pre ++ t :: post) st) /\
      inertiaSession t0 (pre ++ t :: post) st
      = inertiaSession t0 (pre ++ [t]) st).
Proof.
  intros Hready Hvx Hvy Hv0.
  pose proof (startPanInertia_running t0 v0 st Hready Hvx Hvy Hv0) as Hstart.
  assert (Hrunning : forall ts,
             (forall t, In t ts -> (0.0012 <= inertiaVelocity v0 t0 t)%R) ->
             inertiaRunning (last ts t0) (inertiaVelocity v0 t0 (last ts t0))
               (inertiaSession t0 ts st)).
  { intros ts Hall. unfold inertiaSession, inertiaVelocity.
    apply inertia_frames_running; [assumption | lra | exact Hall]. }
  split; [exact Hrunning |].
  intros pre t post Hall Hlow.
  assert (Hstop : inertiaStopped (inertiaSession t0 (pre ++ [t]) st)).
  { unfold inertiaSession. rewrite map_app, run_app.
    specialize (Hrunning pre Hall). unfold inertiaSession in Hrunning.
    set (s := run (map (fun t' => Frame #t') pre) (startPanInertia #t0 st))
      in *.
    assert (Hpos : (0 < inertiaVelocity v0 t0 (last pre t0))%R).
    { apply Rmult_lt_0_compat; [lra | apply decay_factor_positive]. }
    destruct (inertia_frame_step _ _ t s Hrunning Hpos) as [_ Hhalt].
    apply Hhalt. unfold inertiaVelocity in *.
    now rewrite decay_telescopes. }
  assert (Heq : inertiaSession t0 (pre ++ t :: post) st
                = inertiaSession t0 (pre ++ [t]) st).
  { change (pre ++ t :: post) with (pre ++ [t] ++ post).
    rewrite app_assoc. unfold inertiaSession in *.
    rewrite (map_app _ (pre ++ [t]) post), run_app.
    now apply inertia_stopped_stays. }
  split; [now rewrite Heq | exact Heq].
Qed.

Lemma mode_inertiaRunning (t v : R) (st : State) :
  inertiaRunning t v st -> mode st = Inertial.
Proof.
  intros ((h & _ & Hh) & _ & _ & _ & _ & Hp & Hq & _).
  unfold mode. now rewrite Hq, Hp, Hh.
Qed.

Lemma mode_inertiaStopped (st : State) :
  inertiaStopped st -> mode st = Idle.
Proof.
  intros (_ & Hh & _ & _ & Hp & Hq & Ha).
  unfold mode. now rewrite Hq, Hp, Hh, Ha.
Qed.

Lemma velocity_start_ready :
  inertiaReady (set_panVelocityX #0.5 initialState).
Proof.
  unfold inertiaReady. cbn. conj_split; try reflexivity.
  - now exists (-60)%R.
  - now exists 0%R.
Qed.



(* ================================================================= *)
(** ** The theorems at concrete inputs *)

Lemma initialState_zoomInBounds : zoomInBounds initialState.
Proof. exists 1%R. split; [reflexivity | lra]. Defined.

Lemma full_rect_valid : validRect (mkRect #0 #0 #1150 #1360).
Proof.
  exists 0%R, 0%R, 1150%R, 1360%R. split; [reflexivity | split; lra].
Defined.

Lemma center_anchor_needs_no_clamp :
  anchorNeedsNoClamp 1150 1 (-60) 575 0 1150 2 /\
  anchorNeedsNoClamp 1360 1 0 680 0 1360 2.
Proof.
  unfold anchorNeedsNoClamp, axisDesiredView, axisMapCenter, axisFraction.
  split; R_cases; lra.
Defined.

Lemma zoomed_view_inside_canvas :
  viewBoxInsideCanvas
    (getViewBox (set_panX #0 (set_currentZoom #2 initialState))).
Proof.
  unfold getViewBox. cbn. unfold baseWidth, baseHeight, defaultPanY.
  js_norm. do 4 eexists. split; [reflexivity |]. split; R_cases; lra.
Qed.


(** The decay over one, two and a hundred periods of 16 ms. *)
Lemma decay_one_period : Rpower 0.93 ((16 - 0) / 16) = 0.93%R.
Proof.
  replace ((16 - 0) / 16)%R with 1%R by lra. apply Rpower_1. lra.
Qed.

Lemma decay_two_periods : Rpower 0.93 ((32 - 0) / 16) = (0.93 * 0.93)%R.
Proof.
  replace ((32 - 0) / 16)%R with (1 + 1)%R by lra.
  rewrite Rpower_plus, Rpower_1 by lra. reflexivity.
Qed.

Lemma decay_hundred_periods : (Rpower 0.93 ((1600 - 0) / 16) < 0.0024)%R.
Proof.
  replace ((1600 - 0) / 16)%R with (INR 100)
    by (rewrite INR_IZR_INZ; cbn; lra).
  rewrite Rpower_pow by lra.
  change 100%nat with (10 * 10)%nat. rewrite pow_mult.
  assert (H10 : (0 <= 0.93 ^ 10 <= 0.49)%R) by (cbn [pow]; lra).
  assert (H : ((0.93 ^ 10) ^ 10 <= 0.49 ^ 10)%R)
    by (apply pow_incr; exact H10).
  assert (H49 : (0.49 ^ 10 < 0.0024)%R) by (cbn [pow]; lra).
  lra.
Qed.


(** C3 on the initial view and on the pinch begun there by two fingers at
    [(500, 680)] and [(650, 680)]: centering on [(NaN, 0)] changes nothing;
    a pinch move with a [NaN] coordinate, or with both fingers at
    [(500, 680)], changes nothing; a pinch move with the fingers at opposite
    infinities sets the zoom to [maxZoom]. *)
Lemma non_finite_input_ignored_witness :
  let rect := mkRect #0 #0 #1150 #1360 in
  let st := dispatch (TouchStart [mkTouch #500 #680; mkTouch #650 #680]
                        OverMap #0) initialState in
  centerOnCoordinates NaN #0 defaultOptions false #0 initialState
  = initialState /\
  pinchActive st = true /\
  handlePinchMove [mkTouch NaN #680; mkTouch #650 #680] rect st = st /\
  handlePinchMove [mkTouch #500 #680; mkTouch #500 #680] rect st = st /\
  currentZoom (handlePinchMove [mkTouch PInf #680; mkTouch NInf #680]
                 rect st) = maxZoom.
Proof.
  intros rect st.
  destruct non_finite_input_ignored as (Hcenter & Hnan & Hzero & Hinf).
  destruct clamped_pinch_start as (_ & _ & _ & Ha & Hz0 & Hd0).
  conj_split.
  - apply Hcenter. left. intros [r Hr]. discriminate Hr.
  - exact Ha.
  - apply Hnan; [left; exact I | intros [] | intros []].
  - apply Hzero.
  - apply (Hinf _ _ _ _ _ 1 150);
      [left; exact I | exact Ha | exact Hz0 | lra | exact Hd0 | lra].
Defined.

(** C4 for a mouse drag interrupted by two touch points. *)
Lemma second_touch_aborts_pan_witness :
  let st := run [MouseDown false #100 #100 #0] initialState in
  let st' := touchStartHandler [mkTouch #100 #100; mkTouch #200 #100]
               OverMap #16 st in
  isPanning st = true /\
  isPanning st' = false /\ pinchActive st' = true /\
  pinchStartZoom st' = currentZoom st /\ frames st' = [].
Proof.
  intros st st'.
  assert (Hp : isPanning st = true)
    by exact (proj1 (beginPan_fields #100 #100 #0 mouse initialState)).
  split; [exact Hp |].
  destruct (proj1 (second_touch_aborts_pan
                     [MouseDown false #100 #100 #0]
                     (mkTouch #100 #100) (mkTouch #200 #100) [] OverMap
                     (mkRect #0 #0 #1150 #1360) #16 Hp))
    as (H1 & H2 & H3 & _ & _ & _ & _ & H8 & _).
  auto.
Defined.

(** C5 at the initial view. *)
Lemma getViewBox_size_and_center_witness :
  let vb := getViewBox initialState in
  vb_width vb = #(1150 / 1) /\ vb_height vb = #(1360 / 1) /\
  vb_x vb + vb_width vb / #2 = baseWidth / #2 - panX initialState /\
  vb_y vb + vb_height vb / #2 = baseHeight / #2 - panY initialState.
Proof.
  destruct (getViewBox_size_and_center initialState 1 (-60) 0
              eq_refl eq_refl eq_refl ltac:(lra))
    as (H1 & H2 & H3 & H4).
  auto.
Defined.

(** C6 after a wheel step and a click on the zoom-in button. *)
Lemma zoom_always_within_bounds_witness :
  Forall wellFormedEvent [Wheel #(-100) 0 false; ZoomInClick] /\
  zoomInBounds (run [Wheel #(-100) 0 false; ZoomInClick] initialState).
Proof.
  assert (H : Forall wellFormedEvent [Wheel #(-100) 0 false; ZoomInClick])
    by (repeat constructor).
  split; [exact H |].
  apply (zoom_always_within_bounds _ H).
Defined.

(** C7 from the initial view. *)
Lemma drag_round_trip_witness :
  let st1 := beginPan #100 #100 mouse #0 initialState in
  let st2 := updatePan #150 #130 #16 st1 in
  let st3 := endPan false #32 st2 in
  panX st2 = #(-60 + 50) /\ panY st2 = #(0 + 30) /\
  panX st3 = #(-60 + 50) /\ panY st3 = #(0 + 30).
Proof.
  destruct (drag_round_trip initialState (-60) 0 #0 #16 #32
              eq_refl eq_refl eq_refl)
    as (H1 & H2 & H3 & H4 & _).
  auto.
Defined.

(** C9 at the initial view. *)
Lemma pinch_update_viewBox_inside_canvas_witness :
  zoomInBounds initialState /\ validRect (mkRect #0 #0 #1150 #1360) /\
  viewBoxInsideCanvas
    (getViewBox
       (updatePanForPinch #2 #575 #680 (mkRect #0 #0 #1150 #1360)
          initialState)).
Proof.
  split; [exact initialState_zoomInBounds |].
  split; [exact full_rect_valid |].
  apply (proj1 (pinch_update_viewBox_inside_canvas initialState
                  (mkRect #0 #0 #1150 #1360) initialState_zoomInBounds
                  (ex_intro _ (-60)%R eq_refl) (ex_intro _ 0%R eq_refl)
                  full_rect_valid)).
  lra.
Defined.

(** C10 for a mouse drag of one move from the initial view. *)
Lemma drag_velocity_bounded_witness :
  let st1 := beginPan #100 #100 mouse #0 initialState in
  let st2 := dragMoves [(150%R, 130%R, #16)] st1 in
  zoomInBounds initialState /\
  velocityWithin 0.75 st2 /\ velocityWithin 0.9 (endPan false #40 st2).
Proof.
  split; [exact initialState_zoomInBounds |].
  destruct (drag_velocity_bounded initialState 100 100 mouse #0 #40
              [(150%R, 130%R, #16)] initialState_zoomInBounds)
    as (_ & _ & H3 & H4).
  auto.
Defined.

(* ================================================================= *)
(** * Further properties of the viewport code *)

(* ================================================================= *)
(** ** Centering *)

Lemma clampFraction_focus (o : option num) :
  clampFraction (match o with Some v => v | None => #0.5 end)
  = #(focusFraction o).
Proof.
  unfold clampFraction, focusFraction.
  destruct o as [[| | | v] |]; cbn; try reflexivity.
  - now js_norm.
  - js_norm. f_equal. R_cases; lra.
Qed.

Lemma focusFraction_range (o : option num) :
  (0 <= focusFraction o <= 1)%R.
Proof.
  unfold focusFraction. destruct o as [[| | | v] |]; try lra.
  R_cases; lra.
Qed.

(** What [calculatePanForCoordinates] computes on finite data. *)
Lemma calculatePanForCoordinates_fin (st : State) (z x y : R)
    (focus : Focus) :
  currentZoom st = #z -> z <> 0%R ->
  calculatePanForCoordinates #x #y focus st
  = (#(centerPan 1150 z x (focusFraction (focus_x focus))),
     #(centerPan 1360 z y (focusFraction (focus_y focus)))).
Proof.
  intros Hz Hnz. unfold calculatePanForCoordinates. cbv zeta.
  rewrite !clampFraction_focus, Hz. unfold baseWidth, baseHeight.
  js_norm. reflexivity.
Qed.

(** [calculatePanForCoordinates] reads nothing but the zoom. *)
Lemma calculatePanForCoordinates_zoom_only (x y : num) (focus : Focus)
    (st st' : State) :
  currentZoom st' = currentZoom st ->
  calculatePanForCoordinates x y focus st'
  = calculatePanForCoordinates x y focus st.
Proof. intros H. unfold calculatePanForCoordinates. now rewrite H. Qed.

Lemma centerViewOrigin_range (base z c f : R) :
  (0 <= centerViewOrigin base z c f <= Rmax 0 (base - base / z))%R.
Proof.
  unfold centerViewOrigin.
  generalize (c - base / z * f)%R (base - base / z)%R. intros d m.
  R_cases; lra.
Qed.

(* ================================================================= *)
(** ** Zoom buttons, reset and wheel *)

Lemma stopPanInertia_fields (st : State) :
  let st' := stopPanInertia true st in
  panInertiaFrame st' = None /\
  panVelocityX st' = #0 /\ panVelocityY st' = #0 /\
  panAnimationFrame st' = panAnimationFrame st /\
  panAnimationComplete st' = panAnimationComplete st /\
  panX st' = panX st /\ panY st' = panY st /\
  currentZoom st' = currentZoom st /\
  isPanning st' = isPanning st /\ pinchActive st' = pinchActive st /\
  completed st' = completed st.
Proof. unfold stopPanInertia. by_flow st; repeat split. Qed.

Lemma zoomIn_fields (st : State) :
  let st' := zoomIn st in
  currentZoom st' = Math_min maxZoom (currentZoom st * #1.2) /\
  panX st' = panX st /\ panY st' = panY st /\
  panVelocityX st' = #0 /\ panVelocityY st' = #0 /\
  panInertiaFrame st' = None /\ panAnimationFrame st' = None /\
  panAnimationComplete st' = None /\
  isPanning st' = isPanning st /\ pinchActive st' = pinchActive st /\
  completed st' = completed st.
Proof.
  unfold zoomIn, stopPanAnimation, stopPanInertia. by_flow st; repeat split.
Qed.

Lemma zoomOut_fields (st : State) :
  let st' := zoomOut st in
  currentZoom st'
  = Math_max minZoom (Math_min maxZoom (currentZoom st / #1.2)) /\
  panX st' = panX st /\ panY st' = panY st /\
  panVelocityX st' = #0 /\ panVelocityY st' = #0 /\
  panInertiaFrame st' = None /\ panAnimationFrame st' = None /\
  panAnimationComplete st' = None /\
  isPanning st' = isPanning st /\ pinchActive st' = pinchActive st /\
  completed st' = completed st.
Proof.
  unfold zoomOut, stopPanAnimation, stopPanInertia. by_flow st; repeat split.
Qed.

Lemma resetView_fields (st : State) :
  let st' := resetView st in
  currentZoom st' = #1 /\ panX st' = defaultPanX /\ panY st' = defaultPanY /\
  panVelocityX st' = #0 /\ panVelocityY st' = #0 /\
  panInertiaFrame st' = None /\ panAnimationFrame st' = None /\
  panAnimationComplete st' = None /\
  isPanning st' = isPanning st /\ pinchActive st' = pinchActive st /\
  completed st' = completed st /\
  frames st' = frames (stopInertiaAndAnimation st).
Proof.
  unfold resetView, stopInertiaAndAnimation, stopPanAnimation,
    stopPanInertia.
  by_flow st; repeat split.
Qed.

Lemma stop_after_view_change (z x y : num) (st : State) :
  stopInertiaAndAnimation (set_panY y (set_panX x (set_currentZoom z st)))
  = set_panY y (set_panX x (set_currentZoom z (stopInertiaAndAnimation st))).
Proof.
  unfold stopInertiaAndAnimation, stopPanAnimation, stopPanInertia,
    cancelAnimationFrame.
  by_flow st.
Qed.

Lemma view_change_twice (z x y : num) (st : State) :
  set_panY y (set_panX x (set_currentZoom z
    (set_panY y (set_panX x (set_currentZoom z st)))))
  = set_panY y (set_panX x (set_currentZoom z st)).
Proof. now destruct st. Qed.

Lemma resetView_idempotent (st : State) :
  resetView (resetView st) = resetView st.
Proof.
  change (resetView (resetView st))
    with (set_panY defaultPanY (set_panX defaultPanX (set_currentZoom #1
            (stopInertiaAndAnimation
               (set_panY defaultPanY (set_panX defaultPanX
                  (set_currentZoom #1 (stopInertiaAndAnimation st)))))))).
  change (resetView st)
    with (set_panY defaultPanY (set_panX defaultPanX (set_currentZoom #1
            (stopInertiaAndAnimation st)))).
  rewrite stop_after_view_change, stopInertiaAndAnimation_idempotent.
  apply view_change_twice.
Qed.

(** X1.  The pan speed multiplier grows with the zoom, from 1 at [minZoom]
    to 3 at [maxZoom]: for two zooms [z <= z'] within the bounds the
    multipliers [m], [m'] are finite with [1 <= m <= m' <= 3], and it is
    the affine function [1 + (z - 1) / 7 * 2] of the zoom. *)
Theorem getPanSpeedMultiplier_range_monotone (st st' : State) (z z' : R) :
  currentZoom st = #z -> currentZoom st' = #z' ->
  (1 <= z)%R -> (z <= z')%R -> (z' <= 8)%R ->
  exists m m',
    getPanSpeedMultiplier st = #m /\ getPanSpeedMultiplier st' = #m' /\
    (1 <= m)%R /\ (m <= m')%R /\ (m' <= 3)%R /\
    m = (1 + (z - 1) / 7 * 2)%R /\
    (z = 1%R -> m = 1%R) /\ (z' = 8%R -> m' = 3%R).
Proof.
  intros Hz Hz' H1 H2 H3.
  exists (1 + (z - 1) / 7 * (3 - 1))%R, (1 + (z' - 1) / 7 * (3 - 1))%R.
  rewrite (getPanSpeedMultiplier_fin st z Hz),
    (getPanSpeedMultiplier_fin st' z' Hz').
  conj_split; try reflexivity; lra.
Qed.

Lemma getPanSpeedMultiplier_range_monotone_witness :
  exists m m',
    getPanSpeedMultiplier initialState = #m /\
    getPanSpeedMultiplier (set_currentZoom #8 initialState) = #m' /\
    (1 <= m)%R /\ (m <= m')%R /\ (m' <= 3)%R /\
    m = (1 + (1 - 1) / 7 * 2)%R /\
    (1%R = 1%R -> m = 1%R) /\ (8%R = 8%R -> m' = 3%R).
Proof.
  apply (getPanSpeedMultiplier_range_monotone
           initialState (set_currentZoom #8 initialState) 1 8);
    try reflexivity; lra.
Defined.

(** X2.  The zoom buttons multiply and divide the zoom by 1.2 and saturate
    at the bounds: from a zoom [z] within the bounds, zoom-in followed by
    zoom-out gives [z] back when [z * 1.2] does not exceed [maxZoom], and
    zoom-out followed by zoom-in gives [z] back when [z / 1.2] is not below
    [minZoom]; zoom-in gives [maxZoom] when [z * 1.2] reaches it, zoom-out
    gives [minZoom] when [z / 1.2] falls to it.  Neither button moves the
    pan, and both leave the velocity at zero and no loop handle. *)
Theorem zoom_buttons_round_trip (st : State) (z : R) :
  currentZoom st = #z -> (1 <= z <= 8)%R ->
  ((z * 1.2 <= 8)%R -> currentZoom (zoomOut (zoomIn st)) = #z) /\
  ((1 <= z / 1.2)%R -> currentZoom (zoomIn (zoomOut st)) = #z) /\
  ((8 <= z * 1.2)%R -> currentZoom (zoomIn st) = #8) /\
  ((z / 1.2 <= 1)%R -> currentZoom (zoomOut st) = #1) /\
  panX (zoomOut (zoomIn st)) = panX st /\
  panY (zoomOut (zoomIn st)) = panY st /\
  panX (zoomIn (zoomOut st)) = panX st /\
  panY (zoomIn (zoomOut st)) = panY st /\
  panVelocityX (zoomIn st) = #0 /\ panVelocityY (zoomIn st) = #0 /\
  panVelocityX (zoomOut st) = #0 /\ panVelocityY (zoomOut st) = #0 /\
  panInertiaFrame (zoomIn st) = None /\ panAnimationFrame (zoomIn st) = None /\
  panInertiaFrame (zoomOut st) = None /\ panAnimationFrame (zoomOut st) = None.
Proof.
  intros Hz Hr.
  destruct (zoomIn_fields st)
    as (Iz & Ix & Iy & Ivx & Ivy & Ii & Ia & _).
  destruct (zoomOut_fields st)
    as (Oz & Ox & Oy & Ovx & Ovy & Oi & Oa & _).
  destruct (zoomOut_fields (zoomIn st)) as (OIz & OIx & OIy & _).
  destruct (zoomIn_fields (zoomOut st)) as (IOz & IOx & IOy & _).
  cbv zeta in *.
  rewrite Hz in Iz, Oz. unfold maxZoom, minZoom in *.
  autorewrite with js in Iz, Oz.
  rewrite Iz in OIz. rewrite Oz in IOz.
  assert (Hin : (Rmin 8 (z * 1.2) <> 0)%R) by (R_cases; lra).
  autorewrite with js in OIz, IOz.
  conj_split; try congruence.
  - intros H. rewrite OIz. f_equal. R_cases; lra.
  - intros H. rewrite IOz. f_equal. R_cases; lra.
  - intros H. rewrite Iz. f_equal. R_cases; lra.
  - intros H. rewrite Oz. f_equal. R_cases; lra.
Qed.

Lemma zoom_buttons_round_trip_witness :
  currentZoom (zoomOut (zoomIn initialState)) = #1.
Proof.
  apply (zoom_buttons_round_trip initialState 1); [reflexivity | lra | lra].
Defined.

(** X3.  Reset works from any state, whatever the pan and zoom were (not
    finite included): it leaves zoom 1, the default pan [(-60, 0)], so the
    view of the constructor, no velocity, no loop handle and no completion
    callback, and calls no completion callback.  It is idempotent, it leaves
    a drag or a pinch in progress as it is, and in every state the program
    can reach the frame queue is empty afterwards.  (Its [hideInfo] call
    acts on the panel, which the viewport state does not hold.) *)
Theorem resetView_restores_initial_view :
  (forall st,
      let st' := resetView st in
      currentZoom st' = #1 /\ panX st' = #(-60) /\ panY st' = #0 /\
      getViewBox st' = getViewBox initialState /\
      getViewBox st' = mkViewBox #60 #0 #1150 #1360 /\
      panVelocityX st' = #0 /\ panVelocityY st' = #0 /\
      panInertiaFrame st' = None /\ panAnimationFrame st' = None /\
      panAnimationComplete st' = None /\
      completed st' = completed st /\
      isPanning st' = isPanning st /\ pinchActive st' = pinchActive st /\
      resetView st' = st') /\
  (forall events,
      let st' := resetView (run events initialState) in
      frames st' = [] /\ forall time, runFrame time st' = st').
Proof.
  split.
  - intros st st'.
    destruct (resetView_fields st)
      as (Hz & Hx & Hy & Hvx & Hvy & Hi & Ha & Hc & Hp & Hq & Hd & _).
    fold st' in Hz, Hx, Hy, Hvx, Hvy, Hi, Ha, Hc, Hp, Hq, Hd.
    assert (Hvb : getViewBox st' = mkViewBox #60 #0 #1150 #1360).
    { unfold getViewBox. rewrite Hz, Hx, Hy.
      unfold baseWidth, baseHeight, defaultPanX, defaultPanY.
      js_norm. f_equal; f_equal; lra. }
    conj_split; try assumption.
    + now rewrite Hvb, getViewBox_initialState.
    + apply resetView_idempotent.
  - intros events st'.
    assert (Hf : frames st' = []).
    { destruct (resetView_fields (run events initialState))
        as (_ & _ & _ & _ & _ & _ & _ & _ & _ & _ & _ & Hf).
      subst st'. rewrite Hf.
      apply stopInertiaAndAnimation_empties_queue, run_tracked,
        initialState_tracked. }
    split; [exact Hf |]. intros time. now apply runFrame_empty_queue.
Qed.

Lemma wheel_fields (deltaY : num) (deltaMode : nat) (ctrlKey : bool)
    (st : State) :
  let st' := wheel deltaY deltaMode ctrlKey st in
  panX st' = panX st /\ panY st' = panY st /\
  panInertiaFrame st' = None /\
  panVelocityX st' = #0 /\ panVelocityY st' = #0 /\
  panAnimationFrame st' = panAnimationFrame st /\
  panAnimationComplete st' = panAnimationComplete st /\
  isPanning st' = isPanning st /\ pinchActive st' = pinchActive st /\
  completed st' = completed st.
Proof.
  destruct (stopPanInertia_fields st)
    as (Hi & Hvx & Hvy & Ha & Hc & Hx & Hy & _ & Hp & Hq & Hd).
  unfold wheel. cbv zeta in *.
  set (st1 := stopPanInertia true st) in *. clearbody st1.
  destruct (negb (truthy _)); [tauto |].
  destruct (negb (strict_eq _ _)); [| tauto].
  peel_setters. tauto.
Qed.

Lemma wheel_frames (deltaY : num) (deltaMode : nat) (ctrlKey : bool)
    (st : State) :
  frames (wheel deltaY deltaMode ctrlKey st)
  = frames (stopPanInertia true st).
Proof.
  unfold wheel. cbv zeta.
  set (st1 := stopPanInertia true st). clearbody st1.
  destruct (negb (truthy _)); [reflexivity |].
  destruct (negb (strict_eq _ _)); reflexivity.
Qed.

(** The centre of the derived viewBox, for a finite pan and a zoom that is
    not zero. *)
Lemma getViewBox_center (st : State) (z px py : R) :
  currentZoom st = #z -> panX st = #px -> panY st = #py -> z <> 0%R ->
  vb_x (getViewBox st) + vb_width (getViewBox st) / #2 = #(575 - px) /\
  vb_y (getViewBox st) + vb_height (getViewBox st) / #2 = #(680 - py).
Proof.
  intros Hz Hx Hy Hnz. unfold getViewBox. cbn. rewrite Hz, Hx, Hy.
  unfold baseWidth, baseHeight. js_norm. split; f_equal; field; assumption.
Qed.

Lemma wheel_modeMultiplier (deltaMode : nat) :
  match deltaMode with 1%nat => #20 | 2%nat => #60 | _ => #1 end
  = #(wheelModeMultiplier deltaMode).
Proof. now destruct deltaMode as [| [| [| n]]]. Qed.

Lemma wheelModeMultiplier_positive (deltaMode : nat) :
  (0 < wheelModeMultiplier deltaMode)%R.
Proof. destruct deltaMode as [| [| [| n]]]; cbn; lra. Qed.

(** The zoom after a wheel event with a finite delta: the zoom times
    [exp (- delta * gain)] for a positive [gain], clamped to the bounds. *)
Lemma wheel_zoom_fin (d : R) (deltaMode : nat) (ctrlKey : bool)
    (st : State) (z : R) :
  currentZoom st = #z -> (1 <= z <= 8)%R ->
  exists i,
    (0 < i)%R /\
    (ctrlKey = false -> i = 0.0012%R) /\
    currentZoom (wheel #d deltaMode ctrlKey st)
    = #(clampZoom (z * exp (- (d * wheelModeMultiplier deltaMode) * i))).
Proof.
  intros Hz Hr.
  destruct (stopPanInertia_fields st) as (_ & _ & _ & _ & _ & _ & _ & Hz1 & _).
  cbv zeta in Hz1. rewrite Hz in Hz1.
  unfold wheel. cbv zeta.
  set (st1 := stopPanInertia true st) in *. clearbody st1.
  rewrite wheel_modeMultiplier, Hz1, mul_fin.
  set (nd := (d * wheelModeMultiplier deltaMode)%R).
  assert (Hnd : #nd <> NaN) by discriminate.
  destruct (wheel_intensity_positive ctrlKey #nd z Hnd Hr) as (i & Hi & Hint).
  exists i. split; [assumption |].
  split.
  { intros ->. cbn in Hint. now injection Hint. }
  rewrite Hint. unfold maxZoom, minZoom. js_norm.
  rewrite truthy_fin, strict_eq_fin. unfold clampZoom.
  destruct (Req_dec_T nd 0) as [E | E]; cbn [negb].
  - rewrite Hz1, E. f_equal.
    replace (- 0 * i)%R with 0%R by lra. rewrite exp_0. R_cases; lra.
  - destruct (Req_dec_T _ z) as [E' | E']; cbn [negb].
    + rewrite Hz1. f_equal. now symmetry.
    + reflexivity.
Qed.

(** Whatever the delta, the wheel listener leaves a zoom within the
    bounds. *)
Lemma wheel_zoom_within (deltaY : num) (deltaMode : nat) (ctrlKey : bool)
    (st : State) (z : R) :
  currentZoom st = #z -> (1 <= z <= 8)%R ->
  within 1 8 (currentZoom (wheel deltaY deltaMode ctrlKey st)).
Proof.
  intros Hz Hr.
  destruct (stopPanInertia_fields st) as (_ & _ & _ & _ & _ & _ & _ & Hz1 & _).
  cbv zeta in Hz1. rewrite Hz in Hz1.
  unfold wheel. cbv zeta.
  set (st1 := stopPanInertia true st) in *. clearbody st1.
  set (nd := deltaY * _).
  destruct (truthy nd) eqn:Hnd; cbn [negb];
    [| exists z; split; [assumption | lra]].
  apply truthy_not_nan in Hnd. rewrite Hz1.
  destruct (wheel_intensity_positive ctrlKey nd z Hnd Hr) as (i & Hi & ->).
  pose proof (wheel_product_not_nan nd z i Hnd ltac:(lra) Hi) as Hprod.
  destruct (clamp_zoom_range _ Hprod) as (nz & Hnz & Hnzr).
  rewrite Hnz.
  destruct (negb (strict_eq #nz #z)).
  - exists nz. split; [reflexivity | lra].
  - exists z. split; [assumption | lra].
Qed.

(** X4.  The wheel listener zooms about the centre of the view: it never
    moves the pan, so for a finite pan and a zoom within the bounds the
    centre of the viewBox after the event is the centre before it.  It
    cancels inertia (no handle, no velocity) but not a centering animation,
    whose handle and completion callback it leaves in place; it leaves a
    drag or a pinch as it is.  This for every delta, [NaN] and the
    infinities included.
    In exact real arithmetic. *)
Theorem wheel_zooms_about_view_center (deltaY : num) (deltaMode : nat)
    (ctrlKey : bool) (st : State) (z px py : R) :
  currentZoom st = #z -> (1 <= z <= 8)%R -> panX st = #px -> panY st = #py ->
  let st' := wheel deltaY deltaMode ctrlKey st in
  let vb := getViewBox st in
  let vb' := getViewBox st' in
  panX st' = panX st /\ panY st' = panY st /\
  vb_x vb' + vb_width vb' / #2 = vb_x vb + vb_width vb / #2 /\
  vb_y vb' + vb_height vb' / #2 = vb_y vb + vb_height vb / #2 /\
  panInertiaFrame st' = None /\
  panVelocityX st' = #0 /\ panVelocityY st' = #0 /\
  panAnimationFrame st' = panAnimationFrame st /\
  panAnimationComplete st' = panAnimationComplete st /\
  isPanning st' = isPanning st /\ pinchActive st' = pinchActive st /\
  completed st' = completed st.
Proof.
  intros Hz Hr Hx Hy st' vb vb'.
  destruct (wheel_fields deltaY deltaMode ctrlKey st)
    as (Wx & Wy & Wi & Wvx & Wvy & Wa & Wc & Wp & Wq & Wd).
  fold st' in Wx, Wy, Wi, Wvx, Wvy, Wa, Wc, Wp, Wq, Wd.
  destruct (wheel_zoom_within deltaY deltaMode ctrlKey st z Hz Hr)
    as (z' & Hz' & Hr').
  fold st' in Hz'.
  destruct (getViewBox_center st z px py Hz Hx Hy ltac:(lra)) as (C1 & C2).
  destruct (getViewBox_center st' z' px py Hz' ltac:(congruence)
              ltac:(congruence) ltac:(lra)) as (C1' & C2').
  subst vb vb'. rewrite C1, C2, C1', C2'.
  conj_split; try assumption; reflexivity.
Qed.

Lemma wheel_zooms_about_view_center_witness :
  let st' := wheel #(-100) 0 false initialState in
  panX st' = panX initialState /\
  panAnimationFrame st' = panAnimationFrame initialState.
Proof.
  destruct (wheel_zooms_about_view_center #(-100) 0 false initialState
              1 (-60) 0 eq_refl ltac:(lra) eq_refl eq_refl)
    as (H1 & _ & _ & _ & _ & _ & _ & H8 & _).
  auto.
Defined.

Lemma clampZoom_in_bounds (v : R) : (1 <= v <= 8)%R -> clampZoom v = v.
Proof. intros H. unfold clampZoom. R_cases; lra. Qed.

Lemma clampZoom_range (v : R) : (1 <= clampZoom v <= 8)%R.
Proof. unfold clampZoom. R_cases; lra. Qed.

Lemma exp_gt_1 (x : R) : (0 < x)%R -> (1 < exp x)%R.
Proof. intros H. rewrite <- exp_0. now apply exp_increasing. Qed.

Lemma exp_lt_1 (x : R) : (x < 0)%R -> (exp x < 1)%R.
Proof. intros H. rewrite <- exp_0. now apply exp_increasing. Qed.

(** X5.  Scrolling up zooms in, scrolling down zooms out: for a finite
    delta, any [deltaMode], with or without the control key, from a zoom
    within the bounds, the zoom after the wheel event is within the bounds,
    not smaller than before when the delta is negative, not larger when it
    is positive, and the same when it is zero. *)
Theorem wheel_zoom_direction (d : R) (deltaMode : nat) (ctrlKey : bool)
    (st : State) (z : R) :
  currentZoom st = #z -> (1 <= z <= 8)%R ->
  exists z',
    currentZoom (wheel #d deltaMode ctrlKey st) = #z' /\
    (1 <= z' <= 8)%R /\
    ((d < 0)%R -> (z <= z')%R) /\
    ((0 < d)%R -> (z' <= z)%R) /\
    (d = 0%R -> z' = z).
Proof.
  intros Hz Hr.
  destruct (wheel_zoom_fin d deltaMode ctrlKey st z Hz Hr)
    as (i & Hi & _ & Hw).
  pose proof (wheelModeMultiplier_positive deltaMode) as Hm.
  set (m := wheelModeMultiplier deltaMode) in *. clearbody m.
  eexists. split; [exact Hw |].
  split; [apply clampZoom_range |].
  conj_split.
  - intros Hd.
    assert (Hdm : (0 < - (d * m))%R) by nra.
    assert (He : (1 < exp (- (d * m) * i))%R)
      by (apply exp_gt_1; now apply Rmult_lt_0_compat).
    unfold clampZoom. R_cases; nra.
  - intros Hd.
    assert (Hdm : (0 < d * m)%R) by now apply Rmult_lt_0_compat.
    assert (He : (exp (- (d * m) * i) < 1)%R).
    { apply exp_lt_1. replace (- (d * m) * i)%R with (- (d * m * i))%R by lra.
      apply Ropp_lt_gt_0_contravar. now apply Rmult_lt_0_compat. }
    pose proof (exp_pos (- (d * m) * i)) as Hp.
    unfold clampZoom. R_cases; nra.
  - intros ->.
    replace (- (0 * m) * i)%R with 0%R by lra. rewrite exp_0.
    rewrite Rmult_1_r. now apply clampZoom_in_bounds.
Qed.

Lemma wheel_zoom_direction_witness :
  exists z',
    currentZoom (wheel #(-100) 1 true initialState) = #z' /\
    (1 <= z' <= 8)%R /\ (1 <= z')%R.
Proof.
  destruct (wheel_zoom_direction (-100) 1 true initialState 1
              eq_refl ltac:(lra))
    as (z' & H1 & H2 & H3 & _).
  exists z'. split; [exact H1 |]. split; [exact H2 |]. apply H3. lra.
Defined.

(** X6.  Without the control key, a wheel step and the opposite step
    cancel: when the zoom the first step asks for, [z * exp (- delta *
    multiplier * 0.0012)], lies within the bounds, the wheel events with
    deltas [d] and [- d] in turn leave the zoom [z] they started from. *)
Theorem wheel_opposite_steps_cancel (d : R) (deltaMode : nat) (st : State)
    (z : R) :
  currentZoom st = #z -> (1 <= z <= 8)%R ->
  (1 <= z * exp (- (d * wheelModeMultiplier deltaMode) * 0.0012) <= 8)%R ->
  currentZoom (wheel #(- d) deltaMode false (wheel #d deltaMode false st))
  = #z.
Proof.
  intros Hz Hr Hin.
  destruct (wheel_zoom_fin d deltaMode false st z Hz Hr)
    as (i & _ & Hi & Hw).
  rewrite (Hi eq_refl) in Hw. rewrite (clampZoom_in_bounds _ Hin) in Hw.
  destruct (wheel_zoom_fin (- d) deltaMode false _ _ Hw Hin)
    as (i' & _ & Hi' & Hw').
  rewrite (Hi' eq_refl) in Hw'. rewrite Hw'. f_equal.
  rewrite Rmult_assoc, <- exp_plus.
  match goal with
  | |- context [exp ?a] => replace a with 0%R by lra
  end.
  rewrite exp_0, Rmult_1_r. now apply clampZoom_in_bounds.
Qed.

Lemma wheel_opposite_steps_cancel_witness :
  currentZoom (wheel #(- (-100)) 0 false (wheel #(-100) 0 false initialState))
  = #1.
Proof.
  apply (wheel_opposite_steps_cancel (-100) 0 initialState 1 eq_refl);
    [lra |].
  cbn [wheelModeMultiplier].
  assert (H1 : (1 < exp (- (-100 * 1) * 0.0012))%R) by (apply exp_gt_1; lra).
  assert (H2 : (exp (- (-100 * 1) * 0.0012) < exp 1)%R)
    by (apply exp_increasing; lra).
  pose proof exp_le_3 as H3. lra.
Defined.

(* ================================================================= *)
(** ** Dragging *)

Lemma updatePan_origin (cx cy now : num) (st : State) :
  let st' := updatePan cx cy now st in
  startX st' = startX st /\ startY st' = startY st /\
  initialPanX st' = initialPanX st /\ initialPanY st' = initialPanY st /\
  currentPanMultiplier st' = currentPanMultiplier st /\
  panInputType st' = panInputType st /\
  pinchActive st' = pinchActive st.
Proof.
  unfold updatePan, recordVelocity, getPanSpeedMultiplier.
  by_flow st; repeat split.
Qed.

Lemma beginPan_dragOrigin (st : State) (z ox oy x0 y0 : R)
    (inputType : InputType) (now : num) :
  currentZoom st = #z -> panX st = #ox -> panY st = #oy ->
  dragOrigin x0 y0 ox oy z
    (match inputType with touch => 1.4 | mouse => 1 end)
    (beginPan #x0 #y0 inputType now st).
Proof.
  intros Hz Hx Hy.
  destruct (beginPan_fields #x0 #y0 now inputType st)
    as (Hp & Hsx & Hsy & Hix & Hiy & _ & _ & Hcz & Hm & _).
  cbv zeta in *. unfold dragOrigin.
  conj_split; try congruence.
  rewrite Hm. now destruct inputType.
Qed.

Lemma updatePan_dragOrigin (x0 y0 ox oy z k : R) (cx cy now : num)
    (st : State) :
  dragOrigin x0 y0 ox oy z k st ->
  dragOrigin x0 y0 ox oy z k (updatePan cx cy now st).
Proof.
  intros (Hsx & Hsy & Hix & Hiy & Hz & Hk & Hp).
  destruct (updatePan_origin cx cy now st) as (O1 & O2 & O3 & O4 & O5 & _).
  destruct (updatePan_pan cx cy now st) as (_ & _ & P3 & P4).
  cbv zeta in *. unfold dragOrigin. conj_split; congruence.
Qed.

Lemma dragMoves_dragOrigin (x0 y0 ox oy z k : R)
    (moves : list (R * R * num)) :
  forall st,
    dragOrigin x0 y0 ox oy z k st ->
    dragOrigin x0 y0 ox oy z k (dragMoves moves st).
Proof.
  induction moves as [| m rest IH]; intros st H; [exact H |].
  apply IH. now apply updatePan_dragOrigin.
Qed.

Lemma updatePan_from_origin (x0 y0 ox oy z k x y : R) (now : num)
    (st : State) :
  dragOrigin x0 y0 ox oy z k st -> (1 <= z <= 8)%R ->
  let m := (1 + (z - 1) / 7 * 2)%R in
  panX (updatePan #x #y now st) = #(ox + (x - x0) / z * (m * k)) /\
  panY (updatePan #x #y now st) = #(oy + (y - y0) / z * (m * k)).
Proof.
  intros (Hsx & Hsy & Hix & Hiy & Hz & Hk & Hp) Hr m.
  destruct (updatePan_pan #x #y now st) as (Px & Py & _).
  cbv zeta in Px, Py.
  rewrite Px, Py, Hsx, Hsy, Hix, Hiy, Hz, Hk,
    (getPanSpeedMultiplier_fin st z Hz).
  js_norm. subst m. split; f_equal; lra.
Qed.

(** X7.  During a drag the pan depends only on where the pointer is, not on
    the path it took: after [beginPan] at [(x0, y0)] on a state with pan
    [(ox, oy)] and zoom [z] within the bounds, and any pointer moves ending
    at [(x, y)], the pan is
    [(ox + (x - x0) / z * m * k, oy + (y - y0) / z * m * k)] with
    [m = 1 + (z - 1) / 7 * 2] the pan speed multiplier and [k] the pan
    multiplier of the input type, 1.4 for touch and 1 for the mouse.  So
    bringing the pointer back to where it went down brings the pan back. *)
Theorem drag_pan_follows_pointer (st : State) (z ox oy x0 y0 : R)
    (inputType : InputType) (t0 : num) (moves : list (R * R * num))
    (x y : R) (t : num) :
  currentZoom st = #z -> (1 <= z <= 8)%R ->
  panX st = #ox -> panY st = #oy ->
  let k := match inputType with touch => 1.4%R | mouse => 1%R end in
  let m := (1 + (z - 1) / 7 * 2)%R in
  let st' := dragMoves (moves ++ [(x, y, t)])
               (beginPan #x0 #y0 inputType t0 st) in
  panX st' = #(ox + (x - x0) / z * (m * k)) /\
  panY st' = #(oy + (y - y0) / z * (m * k)) /\
  (x = x0 -> panX st' = panX st) /\
  (y = y0 -> panY st' = panY st) /\
  currentZoom st' = #z /\ isPanning st' = true.
Proof.
  intros Hz Hr Hx Hy k m st'.
  pose proof (beginPan_dragOrigin st z ox oy x0 y0 inputType t0 Hz Hx Hy)
    as H0.
  fold k in H0.
  pose proof (dragMoves_dragOrigin _ _ _ _ _ _ moves _ H0) as H1.
  assert (Hst' : st' = updatePan #x #y t
                         (dragMoves moves (beginPan #x0 #y0 inputType t0 st))).
  { subst st'. unfold dragMoves. now rewrite fold_left_app. }
  destruct (updatePan_from_origin x0 y0 ox oy z k x y t _ H1 Hr) as (Px & Py).
  pose proof (updatePan_dragOrigin _ _ _ _ _ _ #x #y t _ H1)
    as (_ & _ & _ & _ & Hz' & _ & Hp').
  rewrite <- Hst' in Px, Py, Hz', Hp'.
  conj_split; try assumption.
  - intros ->. rewrite Px, Hx. f_equal. unfold Rdiv. lra.
  - intros ->. rewrite Py, Hy. f_equal. unfold Rdiv. lra.
Qed.

Lemma drag_pan_follows_pointer_witness :
  let st' := dragMoves ([(120, 90, #8)] ++ [(150, 130, #16)])
               (beginPan #100 #100 touch #0 initialState) in
  panX st' = #(-60 + (150 - 100) / 1 * ((1 + (1 - 1) / 7 * 2) * 1.4)).
Proof.
  destruct (drag_pan_follows_pointer initialState 1 (-60) 0 100 100 touch #0
              [(120, 90, #8)] 150 130 #16
              eq_refl ltac:(lra) eq_refl eq_refl)
    as (H & _).
  exact H.
Defined.

Lemma boosted_zero :
  Math_max (- flickMax) (Math_min flickMax (#0 * flickMultiplier)) = #0.
Proof.
  unfold flickMax, flickMultiplier. js_norm. f_equal. R_cases; lra.
Qed.

Lemma rest_below_minVelocity : lt (Math_hypot #0 #0) minVelocity = true.
Proof.
  unfold minVelocity. js_norm.
  replace (0 * 0 + 0 * 0)%R with 0%R by lra. rewrite sqrt_0, lt_fin.
  destruct (Rlt_dec 0 0.0012); [reflexivity | lra].
Qed.

(** [endPan] on a pointer that did not move: no inertia starts. *)
Lemma endPan_at_rest (now : num) (st : State) :
  panVelocityX st = #0 -> panVelocityY st = #0 ->
  panInertiaFrame st = None ->
  let st' := endPan false now st in
  panVelocityX st' = #0 /\ panVelocityY st' = #0 /\
  panInertiaFrame st' = None /\ frames st' = frames st /\
  panAnimationFrame st' = panAnimationFrame st /\
  pinchActive st' = pinchActive st.
Proof.
  intros Hvx Hvy Hi. destruct st. cbn in Hvx, Hvy, Hi. subst.
  unfold endPan, startPanInertia, stopPanInertia, requestAnimationFrame.
  cbn.
  match goal with |- context [negb ?b] => destruct b end; cbn;
    [| repeat split].
  rewrite !boosted_zero.
  match goal with |- context [le ?a ?b] => destruct (le a b) end; cbn;
    rewrite rest_below_minVelocity; cbn; repeat split.
Qed.

(** X8.  A click that does not move the pointer leaves the view alone: from
    any state the program can reach, mouse down on the bare map followed by
    mouse up, at whatever position and times, leaves pan and zoom as they
    were, a zero velocity, no drag in progress, no inertia and an empty
    frame queue. *)
Theorem click_without_move_leaves_view (events : list Event)
    (x y t0 t1 : num) :
  let st := run events initialState in
  let st' := run [MouseDown false x y t0; MouseUp t1] st in
  panX st' = panX st /\ panY st' = panY st /\
  currentZoom st' = currentZoom st /\
  panVelocityX st' = #0 /\ panVelocityY st' = #0 /\
  isPanning st' = false /\
  panInertiaFrame st' = None /\ panAnimationFrame st' = None /\
  frames st' = [].
Proof.
  intros st st'.
  assert (Ht : framesTracked st) by apply run_tracked, initialState_tracked.
  clearbody st. subst st'.
  change (run [MouseDown false x y t0; MouseUp t1] st)
    with (endPan false t1 (beginPan x y mouse t0 st)).
  pose proof (beginPan_tracked x y t0 mouse st Ht) as Ht1.
  destruct (beginPan_fields x y t0 mouse st)
    as (Bp & _ & _ & _ & _ & Bx & By & Bz & _ & Bvx & Bvy & _ & _ & Bi & Ba).
  cbv zeta in *.
  set (s1 := beginPan x y mouse t0 st) in *. clearbody s1.
  destruct (endPan_at_rest t1 s1 Bvx Bvy Bi) as (Evx & Evy & Ei & Ef & Ea & _).
  destruct (endPan_pan false t1 s1) as (Ex & Ey & Ez & Ep).
  cbv zeta in *.
  assert (Hf1 : frames s1 = []).
  { destruct (frames s1) as [| [h cb] rest] eqn:E; [reflexivity |].
    exfalso. destruct Ht1 as [Hk _]. unfold motionOf in Hk.
    cbn [m_frames m_inertia m_anim m_next] in Hk. rewrite E in Hk.
    destruct (Hk h cb (or_introl eq_refl)) as [_ [[Hi' _] | [Ha' _]]];
      congruence. }
  conj_split; congruence.
Qed.

(* ================================================================= *)
(** ** Pinch sessions *)

Lemma updatePanForPinch_session (tz cx cy : num) (rect : Rect)
    (st : State) :
  let st' := updatePanForPinch tz cx cy rect st in
  currentZoom st' = tz /\ pinchActive st' = pinchActive st /\
  pinchStartZoom st' = pinchStartZoom st /\
  pinchStartDistance st' = pinchStartDistance st /\
  isPanning st' = isPanning st.
Proof.
  unfold updatePanForPinch.
  destruct (_ || _); cbv zeta; peel_setters; repeat split.
Qed.

Lemma handlePinchMove_start (touches : list Touch) (rect : Rect)
    (st : State) :
  let st' := handlePinchMove touches rect st in
  pinchActive st' = pinchActive st /\
  pinchStartZoom st' = pinchStartZoom st /\
  pinchStartDistance st' = pinchStartDistance st /\
  isPanning st' = isPanning st.
Proof.
  unfold handlePinchMove. destruct touches as [| t0 [| t1 rest]];
    try (repeat split; reflexivity).
  destruct (getTouchMidpoint t0 t1) as [mx my].
  destruct (_ || _); [repeat split; reflexivity |].
  destruct (negb _); [repeat split; reflexivity |].
  match goal with
  | |- context [updatePanForPinch ?tz ?cx ?cy ?r ?s] =>
      destruct (updatePanForPinch_session tz cx cy r s) as (_ & H)
  end.
  exact H.
Qed.

Lemma pinchMoves_start (moves : list (Touch * Touch * Rect)) :
  forall st,
    pinchActive (pinchMoves moves st) = pinchActive st /\
    pinchStartZoom (pinchMoves moves st) = pinchStartZoom st /\
    pinchStartDistance (pinchMoves moves st) = pinchStartDistance st /\
    isPanning (pinchMoves moves st) = isPanning st.
Proof.
  induction moves as [| m rest IH]; intros st; [repeat split |].
  change (pinchMoves (m :: rest) st)
    with (pinchMoves rest
            (handlePinchMove [fst (fst m); snd (fst m)] (snd m) st)).
  destruct (IH (handlePinchMove [fst (fst m); snd (fst m)] (snd m) st))
    as (H1 & H2 & H3 & H4).
  destruct (handlePinchMove_start [fst (fst m); snd (fst m)] (snd m) st)
    as (G1 & G2 & G3 & G4).
  cbv zeta in *. conj_split; congruence.
Qed.

Lemma pinchTargetZoom_monotone (z0 d0 d d' : R) :
  (0 < z0)%R -> (0 < d0)%R -> (d <= d')%R ->
  (pinchTargetZoom z0 d0 d <= pinchTargetZoom z0 d0 d')%R.
Proof.
  intros Hz Hd0 Hd. unfold pinchTargetZoom.
  assert (H : (z0 * (1 + (d / d0 - 1) * 2)
               <= z0 * (1 + (d' / d0 - 1) * 2))%R).
  { apply Rmult_le_compat_l; [lra |].
    assert (d / d0 <= d' / d0)%R; [| lra].
    unfold Rdiv. apply Rmult_le_compat_r; [| assumption].
    left. now apply Rinv_0_lt_compat. }
  revert H.
  generalize (z0 * (1 + (d / d0 - 1) * 2))%R
             (z0 * (1 + (d' / d0 - 1) * 2))%R.
  intros u v H. R_cases; lra.
Qed.

Lemma pinchTargetZoom_same_distance (z0 d0 : R) :
  d0 <> 0%R -> (1 <= z0 <= 8)%R -> pinchTargetZoom z0 d0 d0 = z0.
Proof.
  intros Hd Hz. unfold pinchTargetZoom.
  replace (z0 * (1 + (d0 / d0 - 1) * 2))%R with z0 by (field; assumption).
  R_cases; lra.
Qed.

(** X9.  During a pinch the zoom depends only on how far apart the fingers
    are, not on how they got there: in a pinch session started at zoom [z0]
    with finger distance [d0], after any pinch moves ending with the fingers
    at a non-zero distance [d], the zoom is
    [z0 * (1 + (d / d0 - 1) * 2)] clamped to the bounds, whatever the client
    rectangle.  It is within the bounds, it grows with the distance, and
    fingers back at their start distance give the start zoom back.  The
    session itself (start zoom, start distance, no drag) is untouched. *)
Theorem pinch_zoom_follows_finger_distance (st : State) (z0 d0 : R)
    (moves : list (Touch * Touch * Rect)) (xa ya xb yb : R) (rect : Rect) :
  pinchActive st = true ->
  pinchStartZoom st = #z0 -> pinchStartDistance st = #d0 -> (0 < d0)%R ->
  touchDistance xa ya xb yb <> 0%R ->
  let d := touchDistance xa ya xb yb in
  let st' :=
    pinchMoves (moves ++ [(mkTouch #xa #ya, mkTouch #xb #yb, rect)]) st in
  currentZoom st' = #(pinchTargetZoom z0 d0 d) /\
  (1 <= pinchTargetZoom z0 d0 d <= 8)%R /\
  (d = d0 -> (1 <= z0 <= 8)%R -> currentZoom st' = #z0) /\
  (forall d', (0 < z0)%R -> (d <= d')%R ->
     (pinchTargetZoom z0 d0 d <= pinchTargetZoom z0 d0 d')%R) /\
  pinchActive st' = true /\
  pinchStartZoom st' = #z0 /\ pinchStartDistance st' = #d0 /\
  isPanning st' = isPanning st.
Proof.
  intros Ha Hz0 Hd0 Hpos Hd d st'.
  destruct (pinchMoves_start moves st) as (M1 & M2 & M3 & M4).
  assert (Hst' : st' = handlePinchMove [mkTouch #xa #ya; mkTouch #xb #yb]
                         rect (pinchMoves moves st)).
  { subst st'. unfold pinchMoves. now rewrite fold_left_app. }
  set (s1 := pinchMoves moves st) in *. clearbody s1.
  rewrite Ha in M1. rewrite Hz0 in M2. rewrite Hd0 in M3.
  destruct (handlePinchMove_start [mkTouch #xa #ya; mkTouch #xb #yb] rect s1)
    as (G1 & G2 & G3 & G4).
  cbv zeta in G1, G2, G3, G4. rewrite <- Hst' in G1, G2, G3, G4.
  assert (Hzoom : currentZoom st' = #(pinchTargetZoom z0 d0 d)).
  { rewrite Hst'.
    rewrite (handlePinchMove_fin s1 rect _ _ [] z0 d0 d
               #((xa + xb) / 2) #((ya + yb) / 2) M1 M2 M3 ltac:(lra)
               (getTouchDistance_fin xa ya xb yb) Hd
               (getTouchMidpoint_fin xa ya xb yb)).
    apply (updatePanForPinch_session _ _ _ rect s1). }
  split; [exact Hzoom |].
  split; [apply pinchTargetZoom_range |].
  conj_split; try congruence.
  - intros E Hr. rewrite Hzoom, E. f_equal.
    apply pinchTargetZoom_same_distance; lra.
  - intros d' Hz Hle. now apply pinchTargetZoom_monotone.
Qed.

Lemma touchDistance_3_4 : touchDistance 0 0 3 4 = 5%R.
Proof.
  unfold touchDistance.
  replace ((0 - 3) * (0 - 3) + (0 - 4) * (0 - 4))%R with (5 * 5)%R by lra.
  apply sqrt_square. lra.
Qed.

Lemma pinch_zoom_follows_finger_distance_witness :
  let st := set_pinchStartDistance #5
              (set_pinchActive true initialState) in
  currentZoom (pinchMoves ([] ++ [(mkTouch #0 #0, mkTouch #3 #4,
                                   mkRect #0 #0 #0 #0)]) st)
  = #(pinchTargetZoom 1 5 (touchDistance 0 0 3 4)).
Proof.
  intros st.
  assert (Hd : touchDistance 0 0 3 4 <> 0%R)
    by (rewrite touchDistance_3_4; lra).
  destruct (pinch_zoom_follows_finger_distance st 1 5 [] 0 0 3 4
              (mkRect #0 #0 #0 #0) eq_refl eq_refl eq_refl ltac:(lra) Hd)
    as (H & _).
  exact H.
Defined.

(** X10.  [startPinch] on two touch points at finite positions opens a
    pinch session at the current zoom: the pinch is active, no drag is in
    progress, the start zoom is the current zoom, and the start distance is
    the distance between the two points, or 0.0001 when they coincide, so
    never zero.  Pan and zoom are as before, the velocity is zero and both
    loops are cancelled. *)
Theorem startPinch_opens_session (st : State) (z xa ya xb yb : R)
    (rest : list Touch) :
  currentZoom st = #z ->
  let d := touchDistance xa ya xb yb in
  let st' := startPinch (mkTouch #xa #ya :: mkTouch #xb #yb :: rest) st in
  pinchInProgress st' /\
  pinchStartZoom st' = #z /\
  (d <> 0%R -> pinchStartDistance st' = #d) /\
  (d = 0%R -> pinchStartDistance st' = #0.0001) /\
  isPanning st' = false /\
  currentZoom st' = #z /\ panX st' = panX st /\ panY st' = panY st /\
  panVelocityX st' = #0 /\ panVelocityY st' = #0 /\
  panInertiaFrame st' = None /\ panAnimationFrame st' = None.
Proof.
  intros Hz d st'.
  destruct (startPinch_fields (mkTouch #xa #ya) (mkTouch #xb #yb) rest st)
    as (Hp & Ha & Hsz & Hsd & Hcz & Hx & Hy & Hi & Han & Hvx & Hvy).
  fold st' in Hp, Ha, Hsz, Hsd, Hcz, Hx, Hy, Hi, Han, Hvx, Hvy.
  rewrite getTouchDistance_fin in Hsd. fold (touchDistance xa ya xb yb) in Hsd.
  fold d in Hsd. unfold or_else in Hsd. rewrite truthy_fin in Hsd.
  assert (Hdpos : (0 <= d)%R) by apply sqrt_pos.
  conj_split; try congruence.
  - unfold pinchInProgress. conj_split.
    + assumption.
    + exists z. congruence.
    + destruct (Req_dec_T d 0).
      * exists 0.0001%R. split; [assumption | lra].
      * exists d. split; [assumption | lra].
  - intros H. destruct (Req_dec_T d 0); [contradiction | assumption].
  - intros H. destruct (Req_dec_T d 0); [assumption | contradiction].
Qed.

Lemma startPinch_opens_session_witness :
  pinchInProgress
    (startPinch [mkTouch #0 #0; mkTouch #3 #4] initialState).
Proof.
  destruct (startPinch_opens_session initialState 1 0 0 3 4 [] eq_refl)
    as (H & _).
  exact H.
Defined.

(* ================================================================= *)
(** ** Lifting fingers *)

Lemma resetPinchState_fields (st : State) :
  let st' := resetPinchState st in
  pinchActive st' = false /\ pinchStartDistance st' = #0 /\
  pinchStartZoom st' = currentZoom st /\ isMultiTouchGesture st' = false /\
  currentZoom st' = currentZoom st /\
  panX st' = panX st /\ panY st' = panY st /\
  isPanning st' = isPanning st /\
  panVelocityX st' = panVelocityX st /\ panVelocityY st' = panVelocityY st /\
  motionOf st' = motionOf st.
Proof. unfold resetPinchState. cbn. repeat split. Qed.

Lemma beginPan_pinch_fields (cx cy now : num) (inputType : InputType)
    (st : State) :
  let st' := beginPan cx cy inputType now st in
  pinchActive st' = pinchActive st /\
  pinchStartDistance st' = pinchStartDistance st /\
  pinchStartZoom st' = pinchStartZoom st /\
  isMultiTouchGesture st' = isMultiTouchGesture st /\
  completed st' = completed st.
Proof.
  unfold beginPan, recordVelocity, stopPanAnimation, stopPanInertia,
    getPanSpeedMultiplier.
  by_flow st; repeat split.
Qed.

Lemma handleTouchEnd_one_left_on_map (t : Touch) (now : num) (st : State) :
  pinchActive st = true ->
  handleTouchEnd [t] OverMap now st
  = beginPan (clientX t) (clientY t) touch now (resetPinchState st).
Proof. intros H. unfold handleTouchEnd. rewrite H. reflexivity. Qed.

Lemma handleTouchEnd_one_left_on_table (t : Touch) (now : num)
    (st : State) :
  pinchActive st = true ->
  handleTouchEnd [t] OverTablePanel now st
  = set_isPanning false (stopPanInertia true (resetPinchState st)).
Proof. intros H. unfold handleTouchEnd. rewrite H. reflexivity. Qed.

Lemma handleTouchEnd_all_lifted (target : Target) (now : num) (st : State) :
  pinchActive st = true ->
  handleTouchEnd [] target now st
  = endPan false now (set_isMultiTouchGesture false (resetPinchState st)).
Proof. intros H. unfold handleTouchEnd. rewrite H. reflexivity. Qed.

Lemma touchMoveHandler_one_finger_drag (t : Touch) (rect : Rect)
    (now : num) (st : State) :
  pinchActive st = false -> isPanning st = true ->
  touchMoveHandler [t] OverMap rect now st
  = updatePan (clientX t) (clientY t) now st.
Proof.
  intros Hq Hp. unfold touchMoveHandler. cbn [length Nat.leb].
  rewrite Hq, Hp. reflexivity.
Qed.

(** X11.  When one finger of a pinch is lifted and the other stays on the
    map, the gesture goes on as a one-finger drag from where that finger
    is: the pinch is closed (not active, start distance 0, start zoom the
    current zoom), a touch drag is in progress, and pan and zoom are as the
    pinch left them.  A following move of that finger to [(x', y')] pans by
    [(x' - x) / z * m * 1.4], so a move that stays in place moves nothing:
    the view does not jump.  When the remaining finger is over the table
    panel no drag starts. *)
Theorem lifting_one_finger_continues_as_drag (st : State) (z px py x y : R)
    (now : num) :
  pinchActive st = true ->
  currentZoom st = #z -> (1 <= z <= 8)%R -> panX st = #px -> panY st = #py ->
  let st' := handleTouchEnd [mkTouch #x #y] OverMap now st in
  let m := (1 + (z - 1) / 7 * 2)%R in
  pinchActive st' = false /\ isPanning st' = true /\
  pinchStartDistance st' = #0 /\ pinchStartZoom st' = #z /\
  panX st' = #px /\ panY st' = #py /\ currentZoom st' = #z /\
  (forall x' y' rect now',
      let st'' :=
        touchMoveHandler [mkTouch #x' #y'] OverMap rect now' st' in
      panX st'' = #(px + (x' - x) / z * (m * 1.4)) /\
      panY st'' = #(py + (y' - y) / z * (m * 1.4))) /\
  (forall rect now',
      let st'' := touchMoveHandler [mkTouch #x #y] OverMap rect now' st' in
      panX st'' = #px /\ panY st'' = #py) /\
  (let st'' := handleTouchEnd [mkTouch #x #y] OverTablePanel now st in
   pinchActive st'' = false /\ isPanning st'' = false /\
   panX st'' = #px /\ panY st'' = #py /\ currentZoom st'' = #z).
Proof.
  intros Ha Hz Hr Hx Hy st' m.
  destruct (resetPinchState_fields st)
    as (R1 & R2 & R3 & R4 & R5 & R6 & R7 & R8 & _).
  cbv zeta in *.
  assert (Hst' : st' = beginPan #x #y touch now (resetPinchState st))
    by (subst st'; now rewrite handleTouchEnd_one_left_on_map).
  assert (Htable :
            let st'' := handleTouchEnd [mkTouch #x #y] OverTablePanel now st in
            pinchActive st'' = false /\ isPanning st'' = false /\
            panX st'' = #px /\ panY st'' = #py /\ currentZoom st'' = #z).
  { rewrite handleTouchEnd_one_left_on_table by assumption.
    destruct (stopPanInertia_fields (resetPinchState st))
      as (_ & _ & _ & _ & _ & Sx & Sy & Sz & _ & Sq & _).
    cbv zeta in *. peel_setters. conj_split; congruence. }
  set (s1 := resetPinchState st) in *. clearbody s1.
  destruct (beginPan_fields #x #y now touch s1)
    as (Bp & _ & _ & _ & _ & Bx & By & Bz & _).
  destruct (beginPan_pinch_fields #x #y now touch s1)
    as (Ba & Bd & Bsz & _).
  pose proof (beginPan_dragOrigin s1 z px py x y touch now
                ltac:(congruence) ltac:(congruence) ltac:(congruence))
    as Ho.
  cbv zeta in *. rewrite <- Hst' in Bp, Bx, By, Bz, Ba, Bd, Bsz, Ho.
  assert (Hmove : forall x' y' rect now',
             let st'' :=
               touchMoveHandler [mkTouch #x' #y'] OverMap rect now' st' in
             panX st'' = #(px + (x' - x) / z * (m * 1.4)) /\
             panY st'' = #(py + (y' - y) / z * (m * 1.4))).
  { intros x' y' rect now' st''. subst st''.
    rewrite touchMoveHandler_one_finger_drag by congruence.
    apply (updatePan_from_origin x y px py z 1.4 x' y' now' st' Ho Hr). }
  split; [congruence |]. split; [congruence |]. split; [congruence |].
  split; [congruence |]. split; [congruence |]. split; [congruence |].
  split; [congruence |]. split; [exact Hmove |]. split.
  - intros rect now'. destruct (Hmove x y rect now') as (Mx & My).
    cbv zeta in *. rewrite Mx, My. split; f_equal; unfold Rdiv; lra.
  - exact Htable.
Qed.

Lemma lifting_one_finger_continues_as_drag_witness :
  let st := set_pinchActive true initialState in
  let st' := handleTouchEnd [mkTouch #10 #20] OverMap #0 st in
  pinchActive st' = false /\ isPanning st' = true.
Proof.
  destruct (lifting_one_finger_continues_as_drag
              (set_pinchActive true initialState) 1 (-60) 0 10 20 #0
              eq_refl eq_refl ltac:(lra) eq_refl eq_refl)
    as (H1 & H2 & _).
  auto.
Defined.

(* ================================================================= *)
(** ** Centering on a target *)

(** With no handle left, a queue that holds only what the handles point at
    is empty. *)
Lemma tracked_no_handles_empty (st : State) :
  framesTracked st ->
  panInertiaFrame st = None -> panAnimationFrame st = None ->
  frames st = [].
Proof.
  intros [Hk _] Hi Ha.
  destruct (frames st) as [| [h cb] rest] eqn:E; [reflexivity |].
  exfalso. unfold motionOf in Hk.
  cbn [m_frames m_inertia m_anim m_next] in Hk. rewrite E in Hk.
  destruct (Hk h cb (or_introl eq_refl)) as [_ [[Hi' _] | [Ha' _]]];
    congruence.
Qed.

Lemma animatePan_fields (tx ty d : num) (onComplete : option nat)
    (now : num) (st : State) :
  let st' := animatePan tx ty d onComplete now st in
  panX st' = panX st /\ panY st' = panY st /\
  currentZoom st' = currentZoom st /\
  panAnimationComplete st' = onComplete /\
  panAnimationFrame st' = Some (nextFrame st) /\
  frames st'
  = frames st ++ [(nextFrame st, PanAnimStep (panX st) (panY st) tx ty now d)] /\
  completed st' = completed st /\
  panInertiaFrame st' = panInertiaFrame st /\
  panVelocityX st' = panVelocityX st /\ panVelocityY st' = panVelocityY st /\
  isPanning st' = isPanning st /\ pinchActive st' = pinchActive st.
Proof. unfold animatePan, requestAnimationFrame. cbn. repeat split. Qed.

Lemma stopInertiaAndAnimation_completed (st : State) :
  completed (stopInertiaAndAnimation st) = completed st.
Proof.
  unfold stopInertiaAndAnimation, stopPanAnimation, stopPanInertia.
  by_flow st.
Qed.

(** The zoom step of [centerOnCoordinates] and what the two stop calls
    leave of it. *)
Lemma centerOnCoordinates_prepare (options : CenterOptions) (mobile : bool)
    (st st0 : State) :
  st0 = (if match opt_minZoom options with Some _ => true | None => false end
            && Number_isFinite
                 match opt_minZoom options with Some mz => mz | None => NaN end
         then set_currentZoom
                (Math_min maxZoom
                   (Math_max (currentZoom st)
                      match opt_minZoom options with
                      | Some mz => mz
                      | None => NaN
                      end)) st
         else if mobile
              then if lt (currentZoom st) #2.1
                   then set_currentZoom (Math_min maxZoom #2.1) st
                   else st
              else st) ->
  let st2 := stopPanAnimation (stopPanInertia true st0) in
  currentZoom st2 = centerZoom options mobile (currentZoom st) /\
  panX st2 = panX st /\ panY st2 = panY st /\
  panVelocityX st2 = #0 /\ panVelocityY st2 = #0 /\
  panInertiaFrame st2 = None /\ panAnimationFrame st2 = None /\
  panAnimationComplete st2 = None /\
  isPanning st2 = isPanning st /\ pinchActive st2 = pinchActive st /\
  completed st2 = completed st /\
  (framesTracked st -> framesTracked st2).
Proof.
  intros E st2.
  assert (H0 : currentZoom st0 = centerZoom options mobile (currentZoom st) /\
               panX st0 = panX st /\ panY st0 = panY st /\
               isPanning st0 = isPanning st /\
               pinchActive st0 = pinchActive st /\
               completed st0 = completed st /\
               motionOf st0 = motionOf st).
  { subst st0. unfold centerZoom.
    destruct (opt_minZoom options) as [[| | | m] |]; cbn [andb Number_isFinite];
      try (destruct mobile; cbn [andb];
           [destruct (lt (currentZoom st) #2.1) |]);
      repeat split. }
  destruct H0 as (Z0 & X0 & Y0 & P0 & Q0 & C0 & M0).
  destruct (stopInertiaAndAnimation_fields st0)
    as (Hi & Ha & Hc & Hvx & Hvy & Hx & Hy & Hz & Hp & Hq).
  pose proof (stopInertiaAndAnimation_completed st0) as Hd.
  unfold stopInertiaAndAnimation in *. cbv zeta in *. fold st2 in Hi, Ha, Hc,
    Hvx, Hvy, Hx, Hy, Hz, Hp, Hq, Hd.
  conj_split; try congruence.
  intros Ht. subst st2.
  apply stopPanAnimation_tracked, stopPanInertia_tracked.
  now apply (framesTracked_same st).
Qed.

(** What [centerOnCoordinates] leaves for a target at a finite position. *)
Lemma centerOnCoordinates_result (x y : R) (options : CenterOptions)
    (mobile : bool) (now : num) (st : State) :
  framesTracked st ->
  let st' := centerOnCoordinates #x #y options mobile now st in
  let target :=
    calculatePanForCoordinates #x #y (opt_focus options) st' in
  currentZoom st' = centerZoom options mobile (currentZoom st) /\
  panVelocityX st' = #0 /\ panVelocityY st' = #0 /\
  panInertiaFrame st' = None /\
  isPanning st' = isPanning st /\ pinchActive st' = pinchActive st /\
  if opt_animate options && gt (opt_duration options) #0
  then
    panX st' = panX st /\ panY st' = panY st /\
    panAnimationComplete st' = opt_onComplete options /\
    (exists h,
        panAnimationFrame st' = Some h /\
        frames st'
        = [(h, PanAnimStep (panX st) (panY st) (fst target) (snd target)
                 now (opt_duration options))]) /\
    completed st' = completed st
  else
    panX st' = fst target /\ panY st' = snd target /\
    panAnimationComplete st' = None /\ panAnimationFrame st' = None /\
    frames st' = [] /\
    completed st'
    = completed st ++ match opt_onComplete options with
                      | Some callback => [callback]
                      | None => []
                      end.
Proof.
  intros Ht st' target. subst target st'.
  unfold centerOnCoordinates. cbn [Number_isFinite negb orb]. cbv zeta.
  match goal with
  | |- context [stopPanAnimation (stopPanInertia true ?s)] =>
      remember s as st0 eqn:E0
  end.
  destruct (centerOnCoordinates_prepare options mobile st st0 E0)
    as (Hz & Hx & Hy & Hvx & Hvy & Hi & Ha & Hc & Hp & Hq & Hd & Htr).
  cbv zeta in *. specialize (Htr Ht).
  set (st2 := stopPanAnimation (stopPanInertia true st0)) in *.
  clearbody st2. clear E0 st0.
  pose proof (tracked_no_handles_empty st2 Htr Hi Ha) as Hf.
  destruct (calculatePanForCoordinates #x #y (opt_focus options) st2)
    as [tx ty] eqn:Etarget.
  destruct (opt_animate options && gt (opt_duration options) #0).
  - destruct (animatePan_fields tx ty (opt_duration options)
                (opt_onComplete options) now st2)
      as (Ax & Ay & Az & Ac & Ah & Af & Ad & Ai & Avx & Avy & Ap & Aq).
    cbv zeta in *.
    set (st3 := animatePan tx ty (opt_duration options)
                  (opt_onComplete options) now st2) in *.
    rewrite (calculatePanForCoordinates_zoom_only _ _ _ st2 st3 Az), Etarget.
    cbn [fst snd].
    conj_split; try congruence.
    exists (nextFrame st2). split; [assumption |].
    rewrite Af, Hf, Hx, Hy. reflexivity.
  - match goal with
    | |- context [calculatePanForCoordinates _ _ _ ?s] =>
        set (st3 := s);
        assert (Hsame : currentZoom st3 = currentZoom st2)
          by (subst st3; destruct (opt_onComplete options); reflexivity)
    end.
    rewrite (calculatePanForCoordinates_zoom_only _ _ _ st2 st3 Hsame),
      Etarget.
    cbn [fst snd]. subst st3.
    destruct (opt_onComplete options); peel_setters;
      rewrite ?app_nil_r; conj_split; congruence.
Qed.

Lemma getViewBox_fin (st : State) (z px py : R) :
  currentZoom st = #z -> panX st = #px -> panY st = #py -> z <> 0%R ->
  getViewBox st
  = mkViewBox #(- px + (1150 - 1150 / z) / 2) #(- py + (1360 - 1360 / z) / 2)
              #(1150 / z) #(1360 / z).
Proof.
  intros Hz Hx Hy Hnz. unfold getViewBox. rewrite Hz, Hx, Hy.
  unfold baseWidth, baseHeight. now js_norm.
Qed.

(** Centering never zooms out, and never beyond [maxZoom]. *)
Lemma centerZoom_fin (options : CenterOptions) (mobile : bool) (z : R) :
  (1 <= z <= 8)%R ->
  exists z', centerZoom options mobile #z = #z' /\ (z <= z' <= 8)%R.
Proof.
  intros Hz. unfold centerZoom, maxZoom.
  assert (Hmobile : exists z',
             (if mobile && lt #z #2.1 then Math_min #8 #2.1 else #z) = #z' /\
             (z <= z' <= 8)%R).
  { destruct mobile; cbn [andb]; [| exists z; split; [reflexivity | lra]].
    rewrite lt_fin. destruct (Rlt_dec z 2.1).
    - js_norm. eexists. split; [reflexivity |]. R_cases; lra.
    - exists z. split; [reflexivity | lra]. }
  destruct (opt_minZoom options) as [[| | | m] |]; try exact Hmobile.
  js_norm. eexists. split; [reflexivity |]. R_cases; lra.
Qed.

(** The view [centerOnCoordinates] aims at, whether it jumps or animates:
    with the pan [calculatePanForCoordinates] returns, the viewBox lies
    inside the canvas, and the target sits at the focus fraction of the
    viewBox wherever that needs no clamping. *)
Lemma centering_target_view (st : State) (z x y : R) (focus : Focus) :
  currentZoom st = #z -> (1 <= z <= 8)%R ->
  panX st = fst (calculatePanForCoordinates #x #y focus st) ->
  panY st = snd (calculatePanForCoordinates #x #y focus st) ->
  let vb := getViewBox st in
  let fx := focusFraction (focus_x focus) in
  let fy := focusFraction (focus_y focus) in
  viewBoxInsideCanvas vb /\
  ((0 <= x - 1150 / z * fx <= 1150 - 1150 / z)%R ->
   vb_x vb + vb_width vb * #fx = #x) /\
  ((0 <= y - 1360 / z * fy <= 1360 - 1360 / z)%R ->
   vb_y vb + vb_height vb * #fy = #y).
Proof.
  intros Hz Hr Hx Hy vb fx fy.
  rewrite (calculatePanForCoordinates_fin st z x y focus Hz ltac:(lra))
    in Hx, Hy.
  cbn [fst snd] in Hx, Hy. fold fx in Hx. fold fy in Hy.
  subst vb. rewrite (getViewBox_fin st z _ _ Hz Hx Hy ltac:(lra)).
  cbn [vb_x vb_y vb_width vb_height]. js_norm.
  unfold centerPan.
  pose proof (centerViewOrigin_range 1150 z x fx) as Rx.
  pose proof (centerViewOrigin_range 1360 z y fy) as Ry.
  conj_split.
  - unfold viewBoxInsideCanvas. do 4 eexists. split; [reflexivity |].
    split.
    + replace (- ((1150 - 1150 / z) / 2 - centerViewOrigin 1150 z x fx)
               + (1150 - 1150 / z) / 2)%R
        with (centerViewOrigin 1150 z x fx) by lra.
      exact Rx.
    + replace (- ((1360 - 1360 / z) / 2 - centerViewOrigin 1360 z y fy)
               + (1360 - 1360 / z) / 2)%R
        with (centerViewOrigin 1360 z y fy) by lra.
      exact Ry.
  - intros H. f_equal. unfold centerViewOrigin. R_cases; lra.
  - intros H. f_equal. unfold centerViewOrigin. R_cases; lra.
Qed.

(** X12.  Centering without animation ([animate] false, or a duration that
    is not positive) on a target at a finite position, from a state the
    program can reach with a zoom [z] within the bounds: the zoom is not
    smaller than before and within the bounds, the viewBox lies inside the
    canvas, the completion callback, if any, is called exactly once and at
    once, nothing is scheduled (no handle, empty frame queue, no velocity),
    and a later display frame changes nothing. *)
Theorem centering_without_animation (x y : R) (options : CenterOptions)
    (mobile : bool) (now : num) (st : State) (z : R) :
  framesTracked st -> currentZoom st = #z -> (1 <= z <= 8)%R ->
  opt_animate options && gt (opt_duration options) #0 = false ->
  let st' := centerOnCoordinates #x #y options mobile now st in
  (exists z', currentZoom st' = #z' /\ (z <= z' <= 8)%R) /\
  viewBoxInsideCanvas (getViewBox st') /\
  completed st'
  = completed st ++ match opt_onComplete options with
                    | Some callback => [callback]
                    | None => []
                    end /\
  frames st' = [] /\
  panInertiaFrame st' = None /\ panAnimationFrame st' = None /\
  panAnimationComplete st' = None /\
  panVelocityX st' = #0 /\ panVelocityY st' = #0 /\
  (forall time, runFrame time st' = st').
Proof.
  intros Ht Hz Hr Hinstant st'.
  pose proof (centerOnCoordinates_result x y options mobile now st Ht) as Hres.
  cbv zeta in Hres. fold st' in Hres. rewrite Hinstant, Hz in Hres.
  destruct Hres as (Rz & Rvx & Rvy & Ri & _ & _ & Rx & Ry & Rc & Ra & Rf & Rd).
  destruct (centerZoom_fin options mobile z Hr) as (z' & Hz' & Hr').
  rewrite Hz' in Rz.
  destruct (centering_target_view st' z' x y (opt_focus options) Rz
              ltac:(lra) Rx Ry) as (Hin & _).
  conj_split; try assumption.
  - now exists z'.
  - intros time. now apply runFrame_empty_queue.
Qed.

Lemma centering_without_animation_witness :
  let options := mkCenterOptions false #300 (Some 7%nat) (Some #3)
                   (mkFocus None None) in
  let st' := centerOnCoordinates #100 #200 options true #0 initialState in
  viewBoxInsideCanvas (getViewBox st') /\ completed st' = [] ++ [7%nat].
Proof.
  destruct (centering_without_animation 100 200
              (mkCenterOptions false #300 (Some 7%nat) (Some #3)
                 (mkFocus None None))
              true #0 initialState 1
              initialState_tracked eq_refl ltac:(lra) eq_refl)
    as (_ & H2 & H3 & _).
  auto.
Defined.

(* ================================================================= *)
(** ** The centering animation *)

(** What one animation frame leaves, on either side of its progress test. *)
Lemma panAnimStep_result (sx sy tx ty t0 d now : num) (st : State) :
  let progress := Math_min ((now - t0) / d) #1 in
  let eased :=
    if lt progress #0.5
    then #2 * progress * progress
    else - #1 + (#4 - #2 * progress) * progress in
  let st' := panAnimStep sx sy tx ty t0 d now st in
  panX st' = sx + (tx - sx) * eased /\
  panY st' = sy + (ty - sy) * eased /\
  currentZoom st' = currentZoom st /\
  if lt progress #1
  then panAnimationFrame st' = Some (nextFrame st) /\
       frames st' = frames st ++ [(nextFrame st, PanAnimStep sx sy tx ty t0 d)] /\
       panAnimationComplete st' = panAnimationComplete st /\
       completed st' = completed st
  else panAnimationFrame st' = None /\
       panAnimationComplete st' = None /\
       frames st' = frames st /\
       completed st'
       = completed st ++ match panAnimationComplete st with
                         | Some callback => [callback]
                         | None => []
                         end.
Proof.
  unfold panAnimStep, requestAnimationFrame.
  destruct st; flow_cases; rewrite ?app_nil_r; conj_split; reflexivity.
Qed.

(** The eased progress on real numbers. *)
Lemma eased_fin (p : R) :
  (if lt #p #0.5
   then #2 * #p * #p
   else - #1 + (#4 - #2 * #p) * #p) = #(easing p).
Proof.
  rewrite lt_fin. unfold easing. destruct (Rlt_dec p 0.5); now js_norm.
Qed.

Lemma easing_range (p : R) : (0 <= p <= 1)%R -> (0 <= easing p <= 1)%R.
Proof. intros H. unfold easing. destruct (Rlt_dec p 0.5); nra. Qed.

Lemma easing_monotone (p q : R) :
  (0 <= p)%R -> (p <= q)%R -> (q <= 1)%R -> (easing p <= easing q)%R.
Proof.
  intros H0 H1 H2. unfold easing.
  destruct (Rlt_dec p 0.5), (Rlt_dec q 0.5); nra.
Qed.

Lemma easing_ends : easing 0 = 0%R /\ easing 1 = 1%R.
Proof. unfold easing. split; R_cases; lra. Qed.

Lemma animProgress_before (t0 d t : R) :
  (0 < d)%R -> (t < t0 + d)%R -> (animProgress t0 d t < 1)%R.
Proof.
  intros Hd Ht. unfold animProgress.
  assert ((t - t0) / d < 1)%R.
  { apply (Rmult_lt_reg_r d); [assumption |].
    unfold Rdiv. rewrite Rmult_assoc, Rinv_l by lra. lra. }
  R_cases; lra.
Qed.

Lemma animProgress_after (t0 d t : R) :
  (0 < d)%R -> (t0 + d <= t)%R -> animProgress t0 d t = 1%R.
Proof.
  intros Hd Ht. unfold animProgress.
  assert (1 <= (t - t0) / d)%R.
  { apply (Rmult_le_reg_r d); [assumption |].
    unfold Rdiv. rewrite Rmult_assoc, Rinv_l by lra. lra. }
  R_cases; lra.
Qed.

(** One frame of a running centering animation: the pan is the eased
    interpolation between start and target, and the animation goes on or
    ends according to the progress. *)
Lemma anim_frame_step (sx sy tx ty t0 d : R) (cb : option nat) (t : R)
    (st : State) :
  animRunning sx sy tx ty t0 d cb st -> (0 < d)%R ->
  let e := easing (animProgress t0 d t) in
  let st' := runFrame #t st in
  panX st' = #(sx + (tx - sx) * e) /\
  panY st' = #(sy + (ty - sy) * e) /\
  currentZoom st' = currentZoom st /\
  ((t < t0 + d)%R ->
   animRunning sx sy tx ty t0 d cb st' /\ completed st' = completed st) /\
  ((t0 + d <= t)%R ->
   panX st' = #tx /\ panY st' = #ty /\
   frames st' = [] /\ panAnimationFrame st' = None /\
   panAnimationComplete st' = None /\
   completed st'
   = completed st ++ match cb with Some callback => [callback] | None => [] end).
Proof.
  intros ((h & Hf & Hh) & Hc) Hd e st'.
  assert (Hpend : pendingFrame h st = true).
  { unfold pendingFrame. rewrite Hf. cbn. now rewrite Nat.eqb_refl. }
  subst st'. unfold runFrame. rewrite Hf. cbn [runCallbacks]. rewrite Hpend.
  cbn [runCallback].
  set (s1 := cancelAnimationFrame h st).
  assert (Hs1 : frames s1 = [] /\ panAnimationComplete s1 = cb /\
                completed s1 = completed st /\
                currentZoom s1 = currentZoom st).
  { subst s1. unfold cancelAnimationFrame. peel_setters. rewrite Hf.
    cbn. rewrite Nat.eqb_refl. cbn. auto. }
  destruct Hs1 as (Hf1 & Hc1 & Hd1 & Hz1). clearbody s1.
  pose proof (panAnimStep_result #sx #sy #tx #ty #t0 #d #t s1) as Hres.
  cbv zeta in Hres. rewrite Hf1, Hc1, Hd1, Hz1 in Hres.
  assert (Hp : Math_min ((#t - #t0) / #d) #1 = #(animProgress t0 d t)).
  { unfold animProgress. now js_norm. }
  rewrite Hp, eased_fin, lt_fin in Hres. fold e in Hres.
  autorewrite with js in Hres.
  destruct Hres as (Rx & Ry & Rz & Hres).
  split; [exact Rx |]. split; [exact Ry |]. split; [exact Rz |].
  split.
  - intros Ht. pose proof (animProgress_before t0 d t Hd Ht) as Hlt.
    destruct (Rlt_dec (animProgress t0 d t) 1); [| lra].
    destruct Hres as (R1 & R2 & R3 & R4).
    split; [| exact R4].
    split; [| exact R3]. eexists. split; [exact R2 | exact R1].
  - intros Ht. pose proof (animProgress_after t0 d t Hd Ht) as Heq.
    destruct (Rlt_dec (animProgress t0 d t) 1); [lra |].
    destruct Hres as (R1 & R2 & R3 & R4).
    assert (He : e = 1%R) by (subst e; rewrite Heq; apply easing_ends).
    rewrite He in Rx, Ry.
    conj_split; try assumption.
    + rewrite Rx. f_equal. lra.
    + rewrite Ry. f_equal. lra.
Qed.

(** While the frames come before the end time the animation runs on. *)
Lemma anim_frames_running (sx sy tx ty t0 d : R) (cb : option nat)
    (ts : list R) :
  forall st,
    animRunning sx sy tx ty t0 d cb st -> (0 < d)%R ->
    (forall t, In t ts -> (t < t0 + d)%R) ->
    animRunning sx sy tx ty t0 d cb (framesAt ts st) /\
    completed (framesAt ts st) = completed st /\
    currentZoom (framesAt ts st) = currentZoom st.
Proof.
  induction ts as [| t1 rest IH]; intros st Hrun Hd Hall.
  - cbn. auto.
  - change (framesAt (t1 :: rest) st) with (framesAt rest (runFrame #t1 st)).
    destruct (anim_frame_step sx sy tx ty t0 d cb t1 st Hrun Hd)
      as (_ & _ & Hz & Hgo & _).
    destruct (Hgo (Hall t1 (or_introl eq_refl))) as (Hrun1 & Hc1).
    destruct (IH (runFrame #t1 st) Hrun1 Hd
                (fun t Hin => Hall t (or_intror Hin))) as (I1 & I2 & I3).
    cbv zeta in *. conj_split; congruence.
Qed.

Lemma framesAt_app (l1 l2 : list R) (st : State) :
  framesAt (l1 ++ l2) st = framesAt l2 (framesAt l1 st).
Proof. unfold framesAt. now rewrite map_app, run_app. Qed.

Lemma framesAt_empty_queue (ts : list R) (st : State) :
  frames st = [] -> framesAt ts st = st.
Proof.
  intros Hf. induction ts as [| t rest IH]; [reflexivity |].
  change (framesAt (t :: rest) st) with (framesAt rest (runFrame #t st)).
  now rewrite (runFrame_empty_queue _ _ Hf).
Qed.

(** A running animation, whatever happened to it before: the closed form
    of the pan after a further frame, and its end. *)
Lemma anim_session (sx sy tx ty t0 d : R) (cb : option nat) (st : State) :
  animRunning sx sy tx ty t0 d cb st -> (0 < d)%R ->
  (forall pre t,
      (forall t', In t' (pre ++ [t]) -> (t' < t0 + d)%R) ->
      let s := framesAt (pre ++ [t]) st in
      let e := easing (animProgress t0 d t) in
      animRunning sx sy tx ty t0 d cb s /\
      panX s = #(sx + (tx - sx) * e) /\ panY s = #(sy + (ty - sy) * e) /\
      completed s = completed st) /\
  (forall pre t post,
      (forall t', In t' pre -> (t' < t0 + d)%R) -> (t0 + d <= t)%R ->
      let s := framesAt (pre ++ t :: post) st in
      panX s = #tx /\ panY s = #ty /\
      frames s = [] /\ panAnimationFrame s = None /\
      panAnimationComplete s = None /\
      completed s
      = completed st
        ++ match cb with Some callback => [callback] | None => [] end /\
      currentZoom s = currentZoom st).
Proof.
  intros Hrun Hd. split.
  - intros pre t Hall s e. subst s. rewrite framesAt_app.
    destruct (anim_frames_running sx sy tx ty t0 d cb pre st Hrun Hd)
      as (Hrun1 & Hc1 & _).
    { intros t' Hin. apply Hall, in_or_app. now left. }
    change (framesAt [t] (framesAt pre st))
      with (runFrame #t (framesAt pre st)).
    destruct (anim_frame_step sx sy tx ty t0 d cb t _ Hrun1 Hd)
      as (Hx & Hy & _ & Hgo & _).
    destruct Hgo as (Hrun2 & Hc2).
    { apply Hall, in_or_app. right. now left. }
    subst e. cbv zeta in *.
    split; [exact Hrun2 |]. split; [exact Hx |]. split; [exact Hy |].
    congruence.
  - intros pre t post Hall Hend s. subst s.
    change (pre ++ t :: post) with (pre ++ [t] ++ post).
    rewrite app_assoc, framesAt_app, framesAt_app.
    destruct (anim_frames_running sx sy tx ty t0 d cb pre st Hrun Hd Hall)
      as (Hrun1 & Hc1 & Hz1).
    change (framesAt [t] (framesAt pre st))
      with (runFrame #t (framesAt pre st)).
    destruct (anim_frame_step sx sy tx ty t0 d cb t _ Hrun1 Hd)
      as (_ & _ & Hz & _ & Hstop).
    destruct (Hstop Hend) as (Sx & Sy & Sf & Sa & Sc & Sd).
    cbv zeta in *. rewrite (framesAt_empty_queue post _ Sf).
    conj_split; congruence.
Qed.

Lemma gt_fin_zero (d : R) : (0 < d)%R -> gt #d #0 = true.
Proof.
  intros H. change (gt #d #0) with (lt #0 #d). rewrite lt_fin.
  destruct (Rlt_dec 0 d); [reflexivity | contradiction].
Qed.

(** X14.  An animated centering runs from the pan it finds to the target
    pan, and ends there.  From a state the program can reach with zoom [z]
    within the bounds and pan [(sx, sy)], [centerOnCoordinates] on a target
    at a finite position with [animate] and a duration [d > 0], called at
    time [t0], moves nothing itself; every display frame at a time
    [t < t0 + d] sets the pan to [s + (target - s) * easing ((t - t0) / d)]
    and keeps the animation running without calling the completion
    callback; the first frame at [t >= t0 + d] sets the pan to the target
    exactly, calls the completion callback once, and leaves nothing
    scheduled, so later frames change nothing; the viewBox then lies inside
    the canvas.
    In exact real arithmetic. *)
Theorem animated_centering_session (x y : R) (options : CenterOptions)
    (mobile : bool) (t0 d sx sy z : R) (st : State) :
  framesTracked st -> currentZoom st = #z -> (1 <= z <= 8)%R ->
  panX st = #sx -> panY st = #sy ->
  opt_animate options = true -> opt_duration options = #d -> (0 < d)%R ->
  let st' := centerOnCoordinates #x #y options mobile #t0 st in
  exists z' tx ty,
    currentZoom st' = #z' /\ (z <= z')%R /\ (z' <= 8)%R /\
    calculatePanForCoordinates #x #y (opt_focus options) st' = (#tx, #ty) /\
    panX st' = #sx /\ panY st' = #sy /\ completed st' = completed st /\
    mode st' = (if pinchActive st then Pinching
                else if isPanning st then Panning else Animating) /\
    (forall pre t,
        (forall t', In t' (pre ++ [t]) -> (t' < t0 + d)%R) ->
        let s := framesAt (pre ++ [t]) st' in
        let e := easing (animProgress t0 d t) in
        panX s = #(sx + (tx - sx) * e) /\ panY s = #(sy + (ty - sy) * e) /\
        completed s = completed st /\
        exists h, panAnimationFrame s = Some h /\ pendingFrame h s = true) /\
    (forall pre t post,
        (forall t', In t' pre -> (t' < t0 + d)%R) -> (t0 + d <= t)%R ->
        let s := framesAt (pre ++ t :: post) st' in
        panX s = #tx /\ panY s = #ty /\
        viewBoxInsideCanvas (getViewBox s) /\
        frames s = [] /\ panAnimationFrame s = None /\
        panAnimationComplete s = None /\
        completed s
        = completed st ++ match opt_onComplete options with
                          | Some callback => [callback]
                          | None => []
                          end).
Proof.
  intros Ht Hz Hr Hx Hy Hanim Hdur Hd st'.
  pose proof (centerOnCoordinates_result x y options mobile #t0 st Ht) as Hres.
  cbv zeta in Hres. fold st' in Hres.
  rewrite Hanim, Hdur, (gt_fin_zero d Hd), Hz in Hres. cbn [andb] in Hres.
  destruct Hres as (Rz & _ & _ & Ri & Rp & Rq & Rx & Ry & Rc & (h & Rh & Rf)
                    & Rd).
  destruct (centerZoom_fin options mobile z Hr) as (z' & Hz' & Hr').
  rewrite Hz' in Rz.
  pose proof (calculatePanForCoordinates_fin st' z' x y (opt_focus options)
                Rz ltac:(lra)) as Htarget.
  set (tx := centerPan 1150 z' x (focusFraction (focus_x (opt_focus options))))
    in *.
  set (ty := centerPan 1360 z' y (focusFraction (focus_y (opt_focus options))))
    in *.
  rewrite Htarget, Hx, Hy in Rf. cbn [fst snd] in Rf.
  assert (Hrun : animRunning sx sy tx ty t0 d (opt_onComplete options) st').
  { split; [| exact Rc]. exists h. split; [exact Rf | exact Rh]. }
  destruct (anim_session sx sy tx ty t0 d (opt_onComplete options) st' Hrun Hd)
    as (Hbefore & Hafter).
  exists z', tx, ty.
  split; [exact Rz |]. split; [lra |]. split; [lra |].
  split; [exact Htarget |].
  split; [congruence |]. split; [congruence |]. split; [exact Rd |].
  split.
  { unfold mode. rewrite Rq, Rp, Ri, Rh. reflexivity. }
  clearbody st'. split.
  - intros pre t Hall s e.
    destruct (Hbefore pre t Hall) as (((h' & Hf' & Hh') & _) & Px & Py & Pc).
    fold s in Hf', Hh', Px, Py, Pc. fold e in Px, Py.
    split; [exact Px |]. split; [exact Py |]. split; [congruence |].
    exists h'. split; [exact Hh' |].
    unfold pendingFrame. rewrite Hf'. cbn. now rewrite Nat.eqb_refl.
  - intros pre t post Hall Hend s.
    destruct (Hafter pre t post Hall Hend) as (Sx & Sy & Sf & Sa & Sc & Sd & Sz).
    fold s in Sx, Sy, Sf, Sa, Sc, Sd, Sz. rewrite Rz in Sz.
    assert (Hts : calculatePanForCoordinates #x #y (opt_focus options) s
                  = (#tx, #ty)).
    { rewrite <- Htarget. apply calculatePanForCoordinates_zoom_only.
      congruence. }
    destruct (centering_target_view s z' x y (opt_focus options) Sz
                ltac:(lra)) as (Hin & _).
    { now rewrite Hts. }
    { now rewrite Hts. }
    conj_split; try assumption. congruence.
Qed.

Lemma animated_centering_session_witness :
  let st' := centerOnCoordinates #575 #680 defaultOptions false #0
               initialState in
  exists z' tx ty,
    currentZoom st' = #z' /\
    calculatePanForCoordinates #575 #680 (opt_focus defaultOptions) st'
    = (#tx, #ty) /\
    panX (framesAt ([100%R] ++ 300%R :: [316%R]) st') = #tx.
Proof.
  intros st'.
  destruct (animated_centering_session 575 680 defaultOptions false
              0 300 (-60) 0 1 initialState
              initialState_tracked eq_refl ltac:(lra) eq_refl eq_refl
              eq_refl eq_refl ltac:(lra))
    as (z' & tx & ty & H1 & _ & _ & H4 & _ & _ & _ & _ & _ & Hafter).
  exists z', tx, ty. split; [exact H1 |]. split; [exact H4 |].
  apply (Hafter [100%R] 300%R [316%R]).
  - intros t' [<- | []]. lra.
  - lra.
Defined.

(** X15.  An animation frame never overshoots: for a frame at a time not
    before the start of an animation of positive duration, the pan it sets
    is [s + (target - s) * e] with an eased progress [e] between 0 and 1,
    so it lies between the start pan and the target pan on each axis, and a
    later frame gives a progress at least as large.  The eased progress is
    0 at the start time and 1 from the end time on.
    In exact real arithmetic. *)
Theorem animation_frame_between_start_and_target (sx sy tx ty t0 d t : R)
    (st : State) :
  (0 < d)%R -> (t0 <= t)%R ->
  let e := easing (animProgress t0 d t) in
  let st' := panAnimStep #sx #sy #tx #ty #t0 #d #t st in
  panX st' = #(sx + (tx - sx) * e) /\ panY st' = #(sy + (ty - sy) * e) /\
  (0 <= e)%R /\ (e <= 1)%R /\
  (Rmin sx tx <= sx + (tx - sx) * e)%R /\
  (sx + (tx - sx) * e <= Rmax sx tx)%R /\
  (Rmin sy ty <= sy + (ty - sy) * e)%R /\
  (sy + (ty - sy) * e <= Rmax sy ty)%R /\
  (forall t', (t <= t')%R -> (e <= easing (animProgress t0 d t'))%R) /\
  (t = t0 -> e = 0%R) /\ ((t0 + d <= t)%R -> e = 1%R).
Proof.
  intros Hd Ht e st'.
  pose proof (panAnimStep_result #sx #sy #tx #ty #t0 #d #t st) as Hres.
  cbv zeta in Hres. fold st' in Hres.
  assert (Hp : Math_min ((#t - #t0) / #d) #1 = #(animProgress t0 d t)).
  { unfold animProgress. now js_norm. }
  rewrite Hp, eased_fin in Hres. fold e in Hres.
  autorewrite with js in Hres. destruct Hres as (Rx & Ry & _).
  assert (Hprog : forall u, (t0 <= u)%R -> (0 <= animProgress t0 d u <= 1)%R).
  { intros u Hu. unfold animProgress.
    assert (0 <= (u - t0) / d)%R.
    { unfold Rdiv. apply Rmult_le_pos; [lra |].
      left. now apply Rinv_0_lt_compat. }
    R_cases; lra. }
  pose proof (easing_range _ (Hprog t Ht)) as He. fold e in He.
  split; [exact Rx |]. split; [exact Ry |].
  split; [lra |]. split; [lra |].
  split; [R_cases; nra |]. split; [R_cases; nra |].
  split; [R_cases; nra |]. split; [R_cases; nra |].
  split; [| split].
  - intros t' Hle. subst e. apply easing_monotone.
    + apply Hprog. exact Ht.
    + unfold animProgress.
      assert ((t - t0) / d <= (t' - t0) / d)%R.
      { unfold Rdiv. apply Rmult_le_compat_r; [| lra].
        left. now apply Rinv_0_lt_compat. }
      R_cases; lra.
    + apply Hprog. lra.
  - intros ->. subst e. unfold animProgress.
    replace ((t0 - t0) / d)%R with 0%R by (unfold Rdiv; lra).
    rewrite Rmin_left by lra. apply easing_ends.
  - intros Hend. subst e. rewrite (animProgress_after t0 d t Hd Hend).
    apply easing_ends.
Qed.

Lemma animation_frame_between_start_and_target_witness :
  let e := easing (animProgress 0 300 150) in
  panX (panAnimStep #(-60) #0 #0 #0 #0 #300 #150 initialState)
  = #(-60 + (0 - -60) * e) /\ (0 <= e)%R /\ (e <= 1)%R.
Proof.
  destruct (animation_frame_between_start_and_target (-60) 0 0 0 0 300 150
              initialState ltac:(lra) ltac:(lra))
    as (H1 & _ & H3 & H4 & _).
  auto.
Defined.

(** A state at the zoom [z] whose pan is the one
    [calculatePanForCoordinates] returns for the target shows the target at
    the focus. *)
Lemma targetAtFocus_of_target_pan (st : State) (z x y : R) (focus : Focus) :
  currentZoom st = #z -> (1 <= z <= 8)%R ->
  panX st = fst (calculatePanForCoordinates #x #y focus st) ->
  panY st = snd (calculatePanForCoordinates #x #y focus st) ->
  targetAtFocus x y (focusFraction (focus_x focus))
    (focusFraction (focus_y focus)) z st.
Proof.
  intros Hz Hr Hx Hy.
  destruct (centering_target_view st z x y focus Hz Hr Hx Hy)
    as (_ & Hfx & Hfy).
  unfold targetAtFocus. cbv zeta.
  conj_split; try assumption.
  - unfold getViewBox. cbn [vb_width]. rewrite Hz. unfold baseWidth.
    js_norm. reflexivity.
  - unfold getViewBox. cbn [vb_height]. rewrite Hz. unfold baseHeight.
    js_norm. reflexivity.
Qed.

(** Centering from the initial view with the [minZoom] option 2 goes on
    with the zoom 2. *)
Lemma centerZoom_minZoom_2 (animate : bool) :
  centerZoom (mkCenterOptions animate #300 None (Some #2)
                (mkFocus None None)) false #1 = #2.
Proof.
  unfold centerZoom, maxZoom. cbn [opt_minZoom]. js_norm. f_equal.
  R_cases; lra.
Qed.

(** X13.  Centering puts the target at the focus.  Let [(fx, fy)] be the
    focus fraction: the [focus] option clamped to [[0, 1]], and one half,
    the centre of the viewBox, where the option is absent or not finite;
    let [z'] be the zoom the centering goes on with.  When the centering
    does not animate ([animate] false, or a duration that is not positive),
    the state it returns shows the target at the focus: the viewBox has the
    size of the zoom [z'], and on each axis where the viewBox placed with
    the target at the focus fraction fits the canvas, the target is the
    point of the viewBox at that fraction.  When it animates (a finite
    duration [d > 0], from a finite pan, called at time [t0]), the same
    holds from the first display frame at a time [t >= t0 + d] on.  In exact
    real arithmetic. *)
Theorem centering_puts_target_at_focus (x y : R) (options : CenterOptions)
    (mobile : bool) (st : State) (z z' : R) :
  framesTracked st -> currentZoom st = #z -> (1 <= z <= 8)%R ->
  centerZoom options mobile #z = #z' ->
  let fx := focusFraction (focus_x (opt_focus options)) in
  let fy := focusFraction (focus_y (opt_focus options)) in
  (z <= z' <= 8)%R /\
  (0 <= fx <= 1)%R /\ (0 <= fy <= 1)%R /\
  (focus_x (opt_focus options) = None -> fx = 0.5%R) /\
  (focus_y (opt_focus options) = None -> fy = 0.5%R) /\
  (forall now : num,
      opt_animate options && gt (opt_duration options) #0 = false ->
      targetAtFocus x y fx fy z'
        (centerOnCoordinates #x #y options mobile now st)) /\
  (forall (t0 d sx sy : R) (pre : list R) (t : R) (post : list R),
      opt_animate options = true -> opt_duration options = #d ->
      (0 < d)%R -> panX st = #sx -> panY st = #sy ->
      (forall t', In t' pre -> (t' < t0 + d)%R) -> (t0 + d <= t)%R ->
      targetAtFocus x y fx fy z'
        (framesAt (pre ++ t :: post)
           (centerOnCoordinates #x #y options mobile #t0 st))).
Proof.
  intros Ht Hz Hr Hz' fx fy.
  assert (Hr' : (z <= z' <= 8)%R).
  { destruct (centerZoom_fin options mobile z Hr) as (z'' & E & Hb).
    rewrite Hz' in E. injection E as ->. exact Hb. }
  split; [exact Hr' |].
  split; [apply focusFraction_range |].
  split; [apply focusFraction_range |].
  split; [subst fx; now intros -> |].
  split; [subst fy; now intros -> |].
  split.
  - intros now Hinstant.
    pose proof (centerOnCoordinates_result x y options mobile now st Ht)
      as Hres.
    cbv zeta in Hres. rewrite Hinstant, Hz, Hz' in Hres.
    destruct Hres as (Rz & _ & _ & _ & _ & _ & Rx & Ry & _).
    apply targetAtFocus_of_target_pan; [exact Rz | lra | exact Rx | exact Ry].
  - intros t0 d sx sy pre t post Hanim Hdur Hd Hx Hy Hall Hend.
    pose proof (centerOnCoordinates_result x y options mobile #t0 st Ht)
      as Hres.
    cbv zeta in Hres.
    set (st' := centerOnCoordinates #x #y options mobile #t0 st) in *.
    rewrite Hanim, Hdur, (gt_fin_zero d Hd), Hz, Hz' in Hres.
    cbn [andb] in Hres.
    destruct Hres as (Rz & _ & _ & _ & _ & _ & _ & _ & Rc & (h & Rh & Rf)
                      & _).
    pose proof (calculatePanForCoordinates_fin st' z' x y (opt_focus options)
                  Rz ltac:(lra)) as Htarget.
    fold fx fy in Htarget.
    rewrite Htarget, Hx, Hy in Rf. cbn [fst snd] in Rf.
    assert (Hrun : animRunning sx sy (centerPan 1150 z' x fx)
                     (centerPan 1360 z' y fy) t0 d
                     (opt_onComplete options) st').
    { split; [| exact Rc]. exists h. split; [exact Rf | exact Rh]. }
    destruct (anim_session _ _ _ _ _ _ _ st' Hrun Hd) as (_ & Hafter).
    destruct (Hafter pre t post Hall Hend)
      as (Sx & Sy & _ & _ & _ & _ & Sz).
    cbv zeta in Sx, Sy, Sz. rewrite Rz in Sz.
    clearbody st'.
    set (s := framesAt (pre ++ t :: post) st') in *.
    assert (Hts : calculatePanForCoordinates #x #y (opt_focus options) s
                  = (#(centerPan 1150 z' x fx), #(centerPan 1360 z' y fy))).
    { rewrite <- Htarget. apply calculatePanForCoordinates_zoom_only.
      congruence. }
    apply targetAtFocus_of_target_pan; [exact Sz | lra | |];
      now rewrite Hts.
Qed.

(** X13 from the initial view with the [minZoom] option 2 and the default
    focus, on the target [(400, 500)]: at once without animation, and after
    the frames at 100, 300 and 316 ms of an animation of 300 ms begun at
    time 0, the zoom is 2 and the target is the centre of the viewBox. *)
Lemma centering_puts_target_at_focus_witness :
  let jump := mkCenterOptions false #300 None (Some #2) (mkFocus None None) in
  let glide := mkCenterOptions true #300 None (Some #2) (mkFocus None None) in
  let s1 := centerOnCoordinates #400 #500 jump false #0 initialState in
  let s2 := framesAt ([100; 200] ++ 300 :: [316])
              (centerOnCoordinates #400 #500 glide false #0 initialState) in
  (currentZoom s1 = #2 /\
   vb_x (getViewBox s1) + vb_width (getViewBox s1) * #0.5 = #400 /\
   vb_y (getViewBox s1) + vb_height (getViewBox s1) * #0.5 = #500) /\
  (currentZoom s2 = #2 /\
   vb_x (getViewBox s2) + vb_width (getViewBox s2) * #0.5 = #400 /\
   vb_y (getViewBox s2) + vb_height (getViewBox s2) * #0.5 = #500).
Proof.
  intros jump glide s1 s2. split.
  - destruct (centering_puts_target_at_focus 400 500 jump false
                initialState 1 2 initialState_tracked eq_refl ltac:(lra)
                (centerZoom_minZoom_2 false))
      as (_ & _ & _ & _ & _ & Hjump & _).
    destruct (Hjump #0 eq_refl) as (Hz & _ & _ & Hx & Hy).
    change (focusFraction (focus_x (opt_focus jump))) with 0.5%R in Hx.
    change (focusFraction (focus_y (opt_focus jump))) with 0.5%R in Hy.
    split; [exact Hz |].
    split; [apply Hx | apply Hy]; lra.
  - destruct (centering_puts_target_at_focus 400 500 glide false
                initialState 1 2 initialState_tracked eq_refl ltac:(lra)
                (centerZoom_minZoom_2 true))
      as (_ & _ & _ & _ & _ & _ & Hglide).
    destruct (Hglide 0%R 300%R (-60)%R 0%R [100%R; 200%R] 300%R [316%R]
                eq_refl eq_refl ltac:(lra) eq_refl eq_refl)
      as (Hz & _ & _ & Hx & Hy).
    + intros t' [<- | [<- | []]]; lra.
    + lra.
    + change (focusFraction (focus_x (opt_focus glide))) with 0.5%R in Hx.
      change (focusFraction (focus_y (opt_focus glide))) with 0.5%R in Hy.
      split; [exact Hz |].
      split; [apply Hx | apply Hy]; lra.
Defined.

(* ================================================================= *)
(** ** Interrupting the centering animation *)

Lemma beginPan_completion (cx cy now : num) (inputType : InputType)
    (st : State) :
  panAnimationComplete (beginPan cx cy inputType now st) = None.
Proof.
  unfold beginPan, recordVelocity, stopPanAnimation, stopPanInertia,
    getPanSpeedMultiplier.
  by_flow st.
Qed.

Lemma startPinch_completion (t0 t1 : Touch) (rest : list Touch)
    (st : State) :
  let st' := startPinch (t0 :: t1 :: rest) st in
  panAnimationComplete st' = None /\ completed st' = completed st.
Proof.
  unfold startPinch, stopPanAnimation, stopPanInertia.
  generalize (or_else (getTouchDistance t0 t1) #0.0001). intros d.
  by_flow st; repeat split.
Qed.

(** What every interrupting event leaves of the two loops. *)
Lemma interrupt_fields (e : Event) (st : State) :
  interrupts e ->
  let s := dispatch e st in
  panInertiaFrame s = None /\ panAnimationFrame s = None /\
  panAnimationComplete s = None /\ completed s = completed st.
Proof.
  destruct e; cbn [interrupts]; try contradiction; intros H; cbn [dispatch].
  - subst interactive. unfold mouseDownHandler. cbn [negb].
    destruct (beginPan_fields cx cy now mouse st)
      as (_ & _ & _ & _ & _ & _ & _ & _ & _ & _ & _ & _ & _ & Hi & Ha).
    destruct (beginPan_pinch_fields cx cy now mouse st) as (_ & _ & _ & _ & Hd).
    pose proof (beginPan_completion cx cy now mouse st) as Hc.
    cbv zeta in *. auto.
  - destruct touches as [| t0 [| t1 rest]]; cbn [length] in H; try lia.
    unfold touchStartHandler. cbn [length Nat.leb].
    destruct (startPinch_fields t0 t1 rest (set_isMultiTouchGesture true st))
      as (_ & _ & _ & _ & _ & _ & _ & Hi & Ha & _).
    destruct (startPinch_completion t0 t1 rest
                (set_isMultiTouchGesture true st)) as (Hc & Hd).
    cbv zeta in *. auto.
  - destruct (zoomIn_fields st)
      as (_ & _ & _ & _ & _ & Hi & Ha & Hc & _ & _ & Hd).
    cbv zeta in *. auto.
  - destruct (zoomOut_fields st)
      as (_ & _ & _ & _ & _ & Hi & Ha & Hc & _ & _ & Hd).
    cbv zeta in *. auto.
  - destruct (resetView_fields st)
      as (_ & _ & _ & _ & _ & Hi & Ha & Hc & _ & _ & Hd & _).
    cbv zeta in *. auto.
  - destruct (stopInertiaAndAnimation_fields st) as (Hi & Ha & Hc & _).
    pose proof (stopInertiaAndAnimation_completed st) as Hd.
    cbv zeta in *. auto.
Qed.

(** X16.  A centering animation that is interrupted never calls its
    completion callback.  In any state the program can reach, a mouse press
    on the bare map, a click on the zoom-in, zoom-out or reset button, the
    table-only toggle, or a touch start with two fingers or more leaves no
    loop handle, no pending completion callback and an empty frame queue,
    and calls no completion callback; the display frames that follow change
    nothing, so the callback of the animation that was running is dropped
    uncalled. *)
Theorem interrupted_animation_drops_callback (e : Event) (st : State) :
  framesTracked st -> interrupts e ->
  let s := dispatch e st in
  frames s = [] /\
  panInertiaFrame s = None /\ panAnimationFrame s = None /\
  panAnimationComplete s = None /\
  completed s = completed st /\
  (forall ts, framesAt ts s = s) /\
  (forall ts, completed (framesAt ts s) = completed st).
Proof.
  intros Ht He s.
  destruct (interrupt_fields e st He) as (Hi & Ha & Hc & Hd).
  fold s in Hi, Ha, Hc, Hd.
  pose proof (dispatch_tracked e st Ht) as Ht'. fold s in Ht'.
  pose proof (tracked_no_handles_empty s Ht' Hi Ha) as Hf.
  conj_split; try assumption.
  - intros ts. now apply framesAt_empty_queue.
  - intros ts. now rewrite framesAt_empty_queue.
Qed.

Lemma interrupted_animation_drops_callback_witness :
  let options := mkCenterOptions true #300 (Some 7%nat) None
                   (mkFocus None None) in
  let st := centerOnCoordinates #100 #200 options false #0 initialState in
  completed (framesAt [16%R; 400%R] (dispatch ZoomInClick st)) = completed st.
Proof.
  intros options st.
  assert (Ht : framesTracked st)
    by apply centerOnCoordinates_tracked, initialState_tracked.
  destruct (interrupted_animation_drops_callback ZoomInClick st Ht I)
    as (_ & _ & _ & _ & _ & _ & H).
  apply H.
Defined.

(* ================================================================= *)
(** ** What is scheduled *)

(** X17.  No callback is ever left behind in the frame queue: in every
    state the program can reach, each queued callback is the one a handle
    field points at, an inertia step under [panInertiaFrame] or a centering
    step under [panAnimationFrame], so it can still be cancelled.  Hence
    with both handles empty the queue is empty, and the idle state is
    stable: display frames change nothing in it. *)
Theorem scheduled_callbacks_have_handles (events : list Event) :
  let st := run events initialState in
  (forall h cb, In (h, cb) (frames st) ->
     (panInertiaFrame st = Some h /\ isInertiaStep cb) \/
     (panAnimationFrame st = Some h /\ isPanAnimStep cb)) /\
  (panInertiaFrame st = None -> panAnimationFrame st = None ->
   frames st = []) /\
  (mode st = Idle -> forall ts, framesAt ts st = st).
Proof.
  intros st.
  assert (Ht : framesTracked st) by apply run_tracked, initialState_tracked.
  clearbody st. conj_split.
  - intros h cb Hin. destruct Ht as [Hk _].
    now destruct (Hk h cb Hin) as [_ H].
  - now apply tracked_no_handles_empty.
  - intros Hm ts. apply framesAt_empty_queue.
    unfold mode in Hm.
    destruct (pinchActive st); [discriminate |].
    destruct (isPanning st); [discriminate |].
    destruct (panInertiaFrame st) eqn:Hi; [discriminate |].
    destruct (panAnimationFrame st) eqn:Ha; [discriminate |].
    now apply tracked_no_handles_empty.
Qed.

Lemma endPan_skip_fields (now : num) (st : State) :
  isPanning st = true ->
  let st' := endPan true now st in
  isPanning st' = false /\ currentPanMultiplier st' = #1 /\
  panInputType st' = mouse /\
  panX st' = panX st /\ panY st' = panY st /\
  currentZoom st' = currentZoom st /\
  panVelocityX st' = panVelocityX st /\ panVelocityY st' = panVelocityY st /\
  motionOf st' = motionOf st /\ panAnimationComplete st' = panAnimationComplete st /\
  pinchActive st' = pinchActive st.
Proof.
  intros H. unfold endPan. rewrite H. cbn. repeat split.
Qed.

Lemma touchMoveHandler_over_table (t : Touch) (rect : Rect) (now : num)
    (st : State) :
  isPanning st = true ->
  touchMoveHandler [t] OverTablePanel rect now st
  = endPan true now
      (stopPanAnimation
         (stopPanInertia true
            (if pinchActive st then resetPinchState st else st))).
Proof.
  intros H. unfold touchMoveHandler. cbn [length Nat.leb]. cbv zeta.
  assert (Hp : isPanning (if pinchActive st then resetPinchState st else st)
               = true) by (destruct (pinchActive st); exact H).
  now rewrite Hp.
Qed.

(** X18.  A drag that moves onto the table panel ends on the spot: in a
    state the program can reach with a drag in progress, a one-finger touch
    move whose finger is over the table panel ends the drag without
    inertia.  Pan and zoom stay as the drag left them, the velocity is
    zero, neither loop has a handle, the frame queue is empty, and the pan
    multiplier is back to 1. *)
Theorem drag_onto_table_panel_ends_drag (t : Touch) (rect : Rect)
    (now : num) (st : State) :
  framesTracked st -> isPanning st = true ->
  let st' := touchMoveHandler [t] OverTablePanel rect now st in
  isPanning st' = false /\ pinchActive st' = false /\
  panX st' = panX st /\ panY st' = panY st /\
  currentZoom st' = currentZoom st /\
  panVelocityX st' = #0 /\ panVelocityY st' = #0 /\
  panInertiaFrame st' = None /\ panAnimationFrame st' = None /\
  frames st' = [] /\
  currentPanMultiplier st' = #1 /\
  mode st' = Idle.
Proof.
  intros Ht Hp st'. subst st'.
  rewrite (touchMoveHandler_over_table t rect now st Hp).
  set (s0 := if pinchActive st then resetPinchState st else st).
  assert (H0 : isPanning s0 = true /\ pinchActive s0 = false /\
               panX s0 = panX st /\ panY s0 = panY st /\
               currentZoom s0 = currentZoom st /\ framesTracked s0).
  { subst s0. destruct (pinchActive st) eqn:Hq.
    - destruct (resetPinchState_fields st)
        as (R1 & _ & _ & _ & R5 & R6 & R7 & R8 & _ & _ & R11).
      cbv zeta in *. conj_split; try congruence.
      now apply (framesTracked_same st).
    - conj_split; auto. }
  destruct H0 as (P0 & Q0 & X0 & Y0 & Z0 & T0). clearbody s0.
  destruct (stopInertiaAndAnimation_fields s0)
    as (Hi & Ha & _ & Hvx & Hvy & Hx & Hy & Hz & Hp1 & Hq1).
  pose proof (stopInertiaAndAnimation_empties_queue s0 T0) as Hf.
  unfold stopInertiaAndAnimation in *. cbv zeta in *.
  set (s1 := stopPanAnimation (stopPanInertia true s0)) in *. clearbody s1.
  destruct (endPan_skip_fields now s1 ltac:(congruence))
    as (E1 & E2 & _ & E4 & E5 & E6 & E7 & E8 & E9 & _ & E11).
  cbv zeta in *.
  destruct (motionOf_fields _ _ E9) as (F1 & F2 & F3).
  assert (Hmode : mode (endPan true now s1) = Idle).
  { unfold mode. rewrite E11, Hq1, Q0, E1, F2, Hi, F3, Ha. reflexivity. }
  conj_split; congruence.
Qed.

Lemma drag_onto_table_panel_ends_drag_witness :
  let st := beginPan #100 #100 touch #0 initialState in
  isPanning (touchMoveHandler [mkTouch #100 #900] OverTablePanel
               (mkRect #0 #0 #1150 #1360) #16 st) = false.
Proof.
  intros st.
  assert (Ht : framesTracked st)
    by apply beginPan_tracked, initialState_tracked.
  assert (Hp : isPanning st = true)
    by apply (beginPan_fields #100 #100 #0 touch initialState).
  destruct (drag_onto_table_panel_ends_drag (mkTouch #100 #900)
              (mkRect #0 #0 #1150 #1360) #16 st Ht Hp)
    as (H & _).
  exact H.
Defined.

(* ================================================================= *)
(** ** Releasing a drag *)

Lemma le_fin (a b : R) : le #a #b = if Rle_dec a b then true else false.
Proof.
  change (le #a #b) with (lt #a #b || strict_eq #a #b).
  rewrite lt_fin, strict_eq_fin.
  destruct (Rlt_dec a b), (Req_dec_T a b), (Rle_dec a b);
    try reflexivity; lra.
Qed.

(** What [endPan()] leaves of a drag: the velocity it goes on with, and the
    inertia it starts or not. *)
Lemma endPan_result (now : num) (st : State) :
  isPanning st = true ->
  let st' := endPan false now st in
  let sinceLastSample :=
    if truthy (lastPointerTime st) then now - lastPointerTime st else PInf in
  let boosted v :=
    if le sinceLastSample flickWindowMs
    then Math_max (- flickMax) (Math_min flickMax (v * flickMultiplier))
    else v in
  let vx := boosted (panVelocityX st) in
  let vy := boosted (panVelocityY st) in
  isPanning st' = false /\ panX st' = panX st /\ panY st' = panY st /\
  currentZoom st' = currentZoom st /\
  if lt (Math_hypot vx vy) minVelocity
  then panVelocityX st' = #0 /\ panVelocityY st' = #0 /\
       panInertiaFrame st' = None
  else panVelocityX st' = vx /\ panVelocityY st' = vy /\
       panInertiaFrame st' = Some (nextFrame st) /\
       In (nextFrame st, InertiaStep now) (frames st').
Proof.
  intros Hp. destruct st. cbn in Hp. subst.
  unfold endPan, startPanInertia, stopPanInertia, requestAnimationFrame,
    cancelAnimationFrame.
  cbn.
  match goal with
  | |- context [le ?a flickWindowMs] => destruct (le a flickWindowMs)
  end; cbn;
    match goal with
    | |- context [lt ?a minVelocity] => destruct (lt a minVelocity)
    end; cbn;
    repeat match goal with
           | |- context [match ?o with Some _ => _ | None => _ end] =>
               is_var o; destruct o; cbn
           end;
    conj_split; try reflexivity; apply in_or_app; right; now left.
Qed.

(** The flick boost on a velocity within the sampling bound: the cap of
    0.9 is never reached. *)
Lemma boost_within_cap (v : R) :
  (- (0.75) <= v <= 0.75)%R ->
  Math_max (- flickMax) (Math_min flickMax (#v * flickMultiplier))
  = #(1.1 * v).
Proof.
  intros Hv. unfold flickMax, flickMultiplier. js_norm. f_equal.
  R_cases; lra.
Qed.

(** X28.  Releasing a drag: the flick boost and the start of inertia.  For
    a drag in progress whose velocity [(vx, vy)] is within the sampling
    bound 0.75 on each axis, with the last pointer sample taken at time
    [tl], [endPan()] at time [t] ends the drag without moving the pan and
    goes on with the velocity [(g * vx, g * vy)], where the gain [g] is 1.1
    when the release comes within 35 ms of the last sample (and [tl] is not
    0), and 1 otherwise; the cap of 0.9 on the boosted velocity is never
    reached.  When the speed of that velocity is at least [minVelocity] an
    inertia step is scheduled with it; below, the velocity is reset to zero
    and nothing is scheduled. *)
Theorem release_boosts_and_starts_inertia (st : State) (vx vy tl t : R) :
  isPanning st = true ->
  panVelocityX st = #vx -> panVelocityY st = #vy ->
  (- (0.75) <= vx <= 0.75)%R -> (- (0.75) <= vy <= 0.75)%R ->
  lastPointerTime st = #tl ->
  let st' := endPan false #t st in
  let outcome (g : R) :=
    let speed := sqrt (g * vx * (g * vx) + g * vy * (g * vy)) in
    ((0.0012 <= speed)%R ->
     panVelocityX st' = #(g * vx) /\ panVelocityY st' = #(g * vy) /\
     panInertiaFrame st' = Some (nextFrame st) /\
     In (nextFrame st, InertiaStep #t) (frames st')) /\
    ((speed < 0.0012)%R ->
     panVelocityX st' = #0 /\ panVelocityY st' = #0 /\
     panInertiaFrame st' = None) in
  isPanning st' = false /\ panX st' = panX st /\ panY st' = panY st /\
  currentZoom st' = currentZoom st /\
  (tl <> 0%R -> (t - tl <= 35)%R -> outcome 1.1%R) /\
  (tl = 0%R \/ (35 < t - tl)%R -> outcome 1%R).
Proof.
  intros Hp Hvx Hvy Hrx Hry Htl st' outcome.
  pose proof (endPan_result #t st Hp) as Hres.
  cbv zeta in Hres. fold st' in Hres.
  rewrite Hvx, Hvy, Htl, truthy_fin in Hres.
  destruct Hres as (R1 & R2 & R3 & R4 & Hres).
  split; [exact R1 |]. split; [exact R2 |]. split; [exact R3 |].
  split; [exact R4 |].
  clearbody st'. unfold outcome, flickWindowMs, minVelocity in *. split.
  - intros Hne Hwin.
    destruct (Req_dec_T tl 0); [contradiction |].
    rewrite sub_fin, le_fin in Hres.
    destruct (Rle_dec (t - tl) 35); [| contradiction].
    rewrite (boost_within_cap vx Hrx), (boost_within_cap vy Hry) in Hres.
    rewrite Math_hypot_fin, lt_fin in Hres.
    split; intros Hs;
      (destruct (Rlt_dec (sqrt (1.1 * vx * (1.1 * vx) + 1.1 * vy * (1.1 * vy)))
                  0.0012); [try lra | try lra]); exact Hres.
  - intros Hcase.
    assert (Hno : (if Req_dec_T tl 0 then false else true) = false \/
                  (if Req_dec_T tl 0 then false else true) = true /\
                  (35 < t - tl)%R).
    { destruct (Req_dec_T tl 0); [now left |]. right.
      split; [reflexivity |]. destruct Hcase; [contradiction | assumption]. }
    assert (Hplain :
              if lt (Math_hypot #vx #vy) #0.0012
              then panVelocityX st' = #0 /\ panVelocityY st' = #0 /\
                   panInertiaFrame st' = None
              else panVelocityX st' = #vx /\ panVelocityY st' = #vy /\
                   panInertiaFrame st' = Some (nextFrame st) /\
                   In (nextFrame st, InertiaStep #t) (frames st')).
    { destruct Hno as [E | [E Hlate]]; rewrite E in Hres.
      - change (le PInf #35) with false in Hres. exact Hres.
      - rewrite sub_fin, le_fin in Hres.
        destruct (Rle_dec (t - tl) 35); [lra | exact Hres]. }
    rewrite Math_hypot_fin, lt_fin in Hplain.
    replace (1 * vx)%R with vx by lra. replace (1 * vy)%R with vy by lra.
    split; intros Hs;
      (destruct (Rlt_dec (sqrt (vx * vx + vy * vy)) 0.0012);
       [try lra | try lra]); exact Hplain.
Qed.

Lemma release_boosts_and_starts_inertia_witness :
  let st := set_lastPointerTime #100
              (set_panVelocityX #0.5
                 (set_isPanning true initialState)) in
  isPanning (endPan false #110 st) = false /\
  panX (endPan false #110 st) = panX st.
Proof.
  intros st.
  destruct (release_boosts_and_starts_inertia st 0.5 0 100 110
              eq_refl eq_refl eq_refl ltac:(lra) ltac:(lra) eq_refl)
    as (H1 & H2 & _).
  auto.
Defined.

(* ================================================================= *)
(** * The info panel *)

Lemma hideInfo_fields (p : Panel) :
  let p' := hideInfo p in
  panelActive p' = false /\ selectedArea p' = None /\
  infoAutoHideTimer p' = None /\ posterInfoTimer p' = None /\
  timeouts p'
  = cleared (posterInfoTimer p) (cleared (infoAutoHideTimer p) (timeouts p)) /\
  nextTimeout p' = nextTimeout p /\
  selectedElements p'
  = match selectedArea p with Some _ => [] | None => selectedElements p end /\
  posterAreas p' = posterAreas p /\
  lastClosedAreaId p' = lastClosedAreaId p /\
  lastClosedTime p' = lastClosedTime p /\
  lastClosedInteractionType p' = lastClosedInteractionType p /\
  panelShows p' = panelShows p /\ focusedElement p' = focusedElement p.
Proof.
  destruct p as [areas sel act shows els foc auto poster tos next lid lt lty].
  unfold hideInfo, clearTimeout, cleared. cbn.
  destruct auto, poster, sel; cbn; repeat split.
Qed.

Lemma showAreaInfo_fields (area : string) (interactionType : Interaction)
    (p : Panel) :
  let p' := showAreaInfo area interactionType p in
  let rest := cleared (infoAutoHideTimer p) (timeouts p) in
  panelActive p' = true /\ panelShows p' = Some area /\
  selectedArea p' = selectedArea p /\
  selectedElements p' = selectedElements p /\
  focusedElement p' = focusedElement p /\
  posterAreas p' = posterAreas p /\
  lastClosedAreaId p' = lastClosedAreaId p /\
  lastClosedTime p' = lastClosedTime p /\
  lastClosedInteractionType p' = lastClosedInteractionType p /\
  match interactionType with
  | ByTouch =>
      infoAutoHideTimer p' = None /\ timeouts p' = rest /\
      nextTimeout p' = nextTimeout p
  | _ =>
      infoAutoHideTimer p' = Some (nextTimeout p) /\
      timeouts p' = rest ++ [(nextTimeout p, AutoHide)] /\
      nextTimeout p' = S (nextTimeout p)
  end.
Proof.
  destruct p as [areas sel act shows els foc auto poster tos next lid lt lty].
  unfold showAreaInfo, setTimeout, clearTimeout, cleared. cbn.
  destruct auto, interactionType; cbn; repeat split.
Qed.

(** No auto-hide timeout is pending in a table. *)
Lemma no_autoHide_count (l : list (nat * TimeoutCallback)) :
  (forall h, ~ In (h, AutoHide) l) -> filter isAutoHide l = [].
Proof.
  induction l as [| [h cb] rest IH]; intros H; [reflexivity |].
  cbn. destruct cb; unfold isAutoHide at 1; cbn.
  - exfalso. apply (H h). now left.
  - apply IH. intros h' Hin. apply (H h'). now right.
Qed.

Lemma in_cleared (o : option nat) (l : list (nat * TimeoutCallback))
    (e : nat * TimeoutCallback) :
  In e (cleared o l) -> In e l /\ o <> Some (fst e).
Proof.
  destruct o as [h |]; cbn.
  - rewrite filter_In, negb_true_iff, Nat.eqb_neq. intros [H1 H2].
    split; [assumption | congruence].
  - intros H. split; [assumption | discriminate].
Qed.

Lemma tracked_cleared (p : Panel) :
  timeoutsTracked p ->
  forall h, ~ In (h, AutoHide) (cleared (infoAutoHideTimer p) (timeouts p)).
Proof.
  intros [Ha _] h Hin. apply in_cleared in Hin as [Hin Hne].
  destruct (Ha h Hin) as (Hh & _). contradiction.
Qed.

Lemma hideInfo_no_autoHide (p : Panel) :
  timeoutsTracked p -> forall h, ~ autoHidePending h (hideInfo p).
Proof.
  intros Ht h Hin. unfold autoHidePending in Hin.
  destruct (hideInfo_fields p) as (_ & _ & _ & _ & Hts & _).
  cbv zeta in Hts. rewrite Hts in Hin.
  apply in_cleared in Hin as [Hin _]. now apply (tracked_cleared p Ht h).
Qed.

(** A table with no auto-hide timeout is tracked whatever the fields. *)
Lemma no_autoHide_tracked (p : Panel) :
  (forall h, ~ autoHidePending h p) -> timeoutsTracked p.
Proof.
  intros H. split.
  - intros h Hin. destruct (H h Hin).
  - rewrite (no_autoHide_count _ H). cbn. lia.
Qed.

Lemma hideInfo_tracked (p : Panel) :
  timeoutsTracked p -> timeoutsTracked (hideInfo p).
Proof. intros H. now apply no_autoHide_tracked, hideInfo_no_autoHide. Qed.

Lemma showAreaInfo_tracked (area : string) (interactionType : Interaction)
    (p : Panel) :
  timeoutsTracked p -> timeoutsTracked (showAreaInfo area interactionType p).
Proof.
  intros Ht. pose proof (tracked_cleared p Ht) as Hno.
  destruct (showAreaInfo_fields area interactionType p)
    as (Hact & _ & _ & _ & _ & _ & _ & _ & _ & Hty).
  cbv zeta in *.
  set (p' := showAreaInfo area interactionType p) in *. clearbody p'.
  assert (Htouch : infoAutoHideTimer p' = None /\
                   timeouts p'
                   = cleared (infoAutoHideTimer p) (timeouts p) /\
                   nextTimeout p' = nextTimeout p -> timeoutsTracked p').
  { intros (_ & Hts & _). apply no_autoHide_tracked.
    intros h Hin. unfold autoHidePending in Hin. rewrite Hts in Hin.
    now apply (Hno h). }
  assert (Htimer : infoAutoHideTimer p' = Some (nextTimeout p) /\
                   timeouts p'
                   = cleared (infoAutoHideTimer p) (timeouts p)
                     ++ [(nextTimeout p, AutoHide)] /\
                   nextTimeout p' = S (nextTimeout p) -> timeoutsTracked p').
  { intros (Hh & Hts & Hn). split.
    - intros h Hin. unfold autoHidePending in Hin. rewrite Hts in Hin.
      apply in_app_or in Hin as [Hin | [Hin | []]].
      + destruct (Hno h Hin).
      + injection Hin as <-. rewrite Hn. auto.
    - rewrite Hts, filter_app, (no_autoHide_count _ Hno). cbn. lia. }
  destruct interactionType; auto.
Qed.

Lemma hideInfo_coherent (p : Panel) :
  selectionCoherent p -> selectionCoherent (hideInfo p).
Proof.
  intros [H1 H2].
  destruct (hideInfo_fields p) as (_ & Hsel & _ & _ & _ & _ & Hels & _).
  cbv zeta in *. unfold selectionCoherent. rewrite Hels, Hsel.
  destruct (selectedArea p) eqn:E; cbn.
  - split; [intros a [] | lia].
  - split; [| assumption]. intros a Hin. specialize (H1 a Hin). discriminate.
Qed.

(** What [selectArea] does on each of its paths. *)
Lemma selectArea_cases (areaId : string) (interactionType : Interaction)
    (now : num) (p : Panel) :
  let p' := selectArea areaId interactionType now p in
  let recent :=
    same_id (lastClosedAreaId p) areaId
    && (match lastClosedInteractionType p with
        | Some ByTouch => true
        | _ => false
        end && lt (now - lastClosedTime p) #350) in
  let forget (q : Panel) :=
    if same_id (lastClosedAreaId p) areaId
    then set_lastClosedInteractionType None (set_lastClosedAreaId None q)
    else q in
  if recent then p' = p
  else if same_id (selectedArea p) areaId && panelActive p
  then p' = set_lastClosedInteractionType (Some interactionType)
              (set_lastClosedTime now
                 (set_lastClosedAreaId (Some areaId) (hideInfo (forget p))))
  else if existsb (String.eqb areaId) (posterAreas p)
  then p' = showAreaInfo areaId interactionType
              (set_selectedArea (Some areaId)
                 (set_focusedElement (Some areaId)
                    (set_selectedElements [areaId] (forget p))))
  else p' = set_selectedElements [] (forget p).
Proof.
  unfold selectArea. cbv zeta.
  destruct (same_id (lastClosedAreaId p) areaId
            && (match lastClosedInteractionType p with
                | Some ByTouch => true
                | _ => false
                end && lt (now - lastClosedTime p) #350)); [reflexivity |].
  destruct (same_id (lastClosedAreaId p) areaId);
    destruct p as [areas sel act shows els foc auto poster tos next lid lt'
                   lty]; cbn;
    destruct (same_id sel areaId && act); try reflexivity;
    destruct (existsb (String.eqb areaId) areas); reflexivity.
Qed.

Lemma timeoutsTracked_same (p p' : Panel) :
  infoAutoHideTimer p' = infoAutoHideTimer p -> timeouts p' = timeouts p ->
  nextTimeout p' = nextTimeout p -> panelActive p' = panelActive p ->
  timeoutsTracked p -> timeoutsTracked p'.
Proof.
  intros H1 H2 H3 H4. unfold timeoutsTracked, autoHidePending.
  now rewrite H1, H2, H3, H4.
Qed.

Lemma selectionCoherent_same (p p' : Panel) :
  selectedElements p' = selectedElements p ->
  selectedArea p' = selectedArea p ->
  selectionCoherent p -> selectionCoherent p'.
Proof. intros H1 H2. unfold selectionCoherent. now rewrite H1, H2. Qed.

(** Forgetting the last close touches neither the timeouts nor the
    selection. *)
Lemma forget_fields (b : bool) (p : Panel) :
  let q := if b
           then set_lastClosedInteractionType None (set_lastClosedAreaId None p)
           else p in
  infoAutoHideTimer q = infoAutoHideTimer p /\ timeouts q = timeouts p /\
  nextTimeout q = nextTimeout p /\ panelActive q = panelActive p /\
  selectedElements q = selectedElements p /\
  selectedArea q = selectedArea p /\ posterAreas q = posterAreas p /\
  posterInfoTimer q = posterInfoTimer p /\
  lastClosedAreaId q = (if b then None else lastClosedAreaId p).
Proof. destruct b; cbn; repeat split. Qed.

Lemma selectArea_tracked (areaId : string) (interactionType : Interaction)
    (now : num) (p : Panel) :
  timeoutsTracked p ->
  timeoutsTracked (selectArea areaId interactionType now p).
Proof.
  intros Ht.
  pose proof (selectArea_cases areaId interactionType now p) as Hc.
  cbv zeta in Hc.
  destruct (forget_fields (same_id (lastClosedAreaId p) areaId) p)
    as (F1 & F2 & F3 & F4 & _).
  cbv zeta in *.
  set (q := if same_id (lastClosedAreaId p) areaId
            then set_lastClosedInteractionType None
                   (set_lastClosedAreaId None p)
            else p) in *.
  assert (Hq : timeoutsTracked q)
    by now apply (timeoutsTracked_same p).
  clearbody q.
  destruct (_ && (_ && _)); [now rewrite Hc |].
  destruct (_ && _).
  - rewrite Hc.
    apply (timeoutsTracked_same (hideInfo q)); try reflexivity.
    now apply hideInfo_tracked.
  - destruct (existsb _ _); rewrite Hc.
    + apply showAreaInfo_tracked.
      now apply (timeoutsTracked_same q).
    + now apply (timeoutsTracked_same q).
Qed.

Lemma selectArea_coherent (areaId : string) (interactionType : Interaction)
    (now : num) (p : Panel) :
  selectionCoherent p ->
  selectionCoherent (selectArea areaId interactionType now p).
Proof.
  intros Hs.
  pose proof (selectArea_cases areaId interactionType now p) as Hc.
  cbv zeta in Hc.
  destruct (forget_fields (same_id (lastClosedAreaId p) areaId) p)
    as (_ & _ & _ & _ & F5 & F6 & _).
  cbv zeta in *.
  set (q := if same_id (lastClosedAreaId p) areaId
            then set_lastClosedInteractionType None
                   (set_lastClosedAreaId None p)
            else p) in *.
  assert (Hq : selectionCoherent q)
    by now apply (selectionCoherent_same p).
  clearbody q.
  destruct (_ && (_ && _)); [now rewrite Hc |].
  destruct (_ && _).
  - rewrite Hc.
    apply (selectionCoherent_same (hideInfo q)); try reflexivity.
    now apply hideInfo_coherent.
  - destruct (existsb _ _); rewrite Hc.
    + match goal with
      | |- selectionCoherent (showAreaInfo ?a ?t ?s) =>
          destruct (showAreaInfo_fields a t s) as (_ & _ & S1 & S2 & _);
          cbv zeta in S1, S2;
          apply (selectionCoherent_same s); [exact S2 | exact S1 |]
      end.
      split; cbn; [| lia]. intros a [<- | []]. reflexivity.
    + split; cbn; [intros a [] | lia].
Qed.

Lemma autoHideFires_cases (h : nat) (p : Panel) :
  autoHideFires h p = p \/
  autoHideFires h p = clearTimeout h p /\ panelActive p = false \/
  autoHideFires h p = hideInfo (clearTimeout h p).
Proof.
  unfold autoHideFires. destruct (existsb _ _); [| now left].
  right. cbv zeta.
  assert (Ha : panelActive (clearTimeout h p) = panelActive p) by reflexivity.
  rewrite Ha. destruct (panelActive p); [now right | now left].
Qed.

Lemma clearTimeout_tracked (h : nat) (p : Panel) :
  timeoutsTracked p -> timeoutsTracked (clearTimeout h p).
Proof.
  intros [Ha Hb].
  assert (Hin : forall e, In e (timeouts (clearTimeout h p)) ->
                          In e (timeouts p)).
  { intros e. unfold clearTimeout. cbn. rewrite filter_In. tauto. }
  split.
  - intros h' H. apply Hin in H. exact (Ha h' H).
  - unfold clearTimeout. cbn.
    assert (Hlen : forall l : list (nat * TimeoutCallback),
               (length (filter isAutoHide
                          (filter (fun e => negb (Nat.eqb (fst e) h)) l))
                <= length (filter isAutoHide l))%nat).
    { induction l as [| e l IH]; [cbn; lia |].
      cbn. destruct (negb (Nat.eqb (fst e) h)); cbn;
        destruct (isAutoHide e); cbn; lia. }
    specialize (Hlen (timeouts p)). lia.
Qed.

Lemma autoHideFires_tracked (h : nat) (p : Panel) :
  timeoutsTracked p -> timeoutsTracked (autoHideFires h p).
Proof.
  intros Ht.
  destruct (autoHideFires_cases h p) as [-> | [[-> _] | ->]];
    [assumption | now apply clearTimeout_tracked |].
  now apply hideInfo_tracked, clearTimeout_tracked.
Qed.

Lemma autoHideFires_coherent (h : nat) (p : Panel) :
  selectionCoherent p -> selectionCoherent (autoHideFires h p).
Proof.
  intros Hs.
  destruct (autoHideFires_cases h p) as [-> | [[-> _] | ->]];
    [assumption | exact Hs |].
  apply hideInfo_coherent. exact Hs.
Qed.

(** X19.  The panel keeps its timeouts and its selection under control.
    From the state the constructor leaves, whatever the poster areas, after
    any sequence of area selections (by mouse, touch or keyboard, at any
    times, of known or unknown ids), calls of [hideInfo] and auto-hide
    timeouts firing: at most one auto-hide timeout is pending, it is the one
    [infoAutoHideTimer] holds, and the panel is open while it is pending;
    at most one area element has the class [selected], and it is the
    element of the selected area. *)
Theorem panel_timeouts_and_selection_tracked (areas : list string)
    (events : list PanelEvent) :
  let p := panelRun events (initialPanel areas) in
  (forall h, autoHidePending h p ->
     infoAutoHideTimer p = Some h /\ panelActive p = true) /\
  (forall h h', autoHidePending h p -> autoHidePending h' p -> h = h') /\
  (length (filter isAutoHide (timeouts p)) <= 1)%nat /\
  (forall a, In a (selectedElements p) -> selectedArea p = Some a) /\
  (length (selectedElements p) <= 1)%nat.
Proof.
  intros p.
  assert (H : timeoutsTracked p /\ selectionCoherent p).
  { subst p. unfold panelRun.
    assert (H0 : timeoutsTracked (initialPanel areas) /\
                 selectionCoherent (initialPanel areas)).
    { split.
      - apply no_autoHide_tracked. intros h [].
      - split; cbn; [intros a [] | lia]. }
    revert H0. generalize (initialPanel areas).
    induction events as [| e rest IH]; intros q Hq; [exact Hq |].
    cbn [fold_left]. apply IH. destruct Hq as [Hq1 Hq2].
    destruct e; cbn [panelDispatch].
    - split; [now apply selectArea_tracked | now apply selectArea_coherent].
    - split; [now apply hideInfo_tracked | now apply hideInfo_coherent].
    - split; [now apply autoHideFires_tracked
             | now apply autoHideFires_coherent]. }
  destruct H as [[Ha Hb] [Hc Hd]].
  split; [| split; [| split; [| split]]]; try assumption.
  - intros h Hin. destruct (Ha h Hin) as (H1 & _ & H3). auto.
  - intros h h' Hin Hin'.
    destruct (Ha h Hin) as (H1 & _). destruct (Ha h' Hin') as (H1' & _).
    congruence.
Qed.

Lemma same_id_refl (a : string) : same_id (Some a) a = true.
Proof. cbn. apply String.eqb_refl. Qed.

Lemma known_area (a : string) (areas : list string) :
  In a areas -> existsb (String.eqb a) areas = true.
Proof.
  intros H. apply existsb_exists. exists a. split; [assumption |].
  apply String.eqb_refl.
Qed.

(** Selecting a known area that is not open, and not held back by a recent
    close, opens the panel on it. *)
Lemma selectArea_opens (a : string) (interactionType : Interaction)
    (now : num) (p : Panel) :
  In a (posterAreas p) ->
  same_id (selectedArea p) a && panelActive p = false ->
  same_id (lastClosedAreaId p) a
  && (match lastClosedInteractionType p with
      | Some ByTouch => true
      | _ => false
      end && lt (now - lastClosedTime p) #350) = false ->
  let p' := selectArea a interactionType now p in
  panelActive p' = true /\ selectedArea p' = Some a /\
  panelShows p' = Some a /\ selectedElements p' = [a] /\
  focusedElement p' = Some a /\ posterAreas p' = posterAreas p /\
  same_id (lastClosedAreaId p') a = false /\
  match interactionType with
  | ByTouch =>
      infoAutoHideTimer p' = None /\
      timeouts p' = cleared (infoAutoHideTimer p) (timeouts p)
  | _ =>
      infoAutoHideTimer p' = Some (nextTimeout p) /\
      timeouts p'
      = cleared (infoAutoHideTimer p) (timeouts p)
        ++ [(nextTimeout p, AutoHide)]
  end.
Proof.
  intros Hin Hclosed Hrecent p'.
  pose proof (selectArea_cases a interactionType now p) as Hc.
  cbv zeta in Hc. fold p' in Hc.
  rewrite Hrecent, Hclosed, (known_area a _ Hin) in Hc.
  destruct (forget_fields (same_id (lastClosedAreaId p) a) p)
    as (F1 & F2 & F3 & _ & _ & _ & F7 & _ & F9).
  cbv zeta in *.
  set (q := if same_id (lastClosedAreaId p) a
            then set_lastClosedInteractionType None
                   (set_lastClosedAreaId None p)
            else p) in *.
  clearbody q.
  match type of Hc with
  | _ = showAreaInfo ?x ?t ?s =>
      destruct (showAreaInfo_fields x t s)
        as (S1 & S2 & S3 & S4 & S5 & S6 & S7 & _ & _ & S10)
  end.
  cbv zeta in *. rewrite <- Hc in S1, S2, S3, S4, S5, S6, S7, S10.
  cbn in S3, S4, S5, S6, S7, S10.
  rewrite F1, F2, F3 in S10.
  split; [exact S1 |]. split; [exact S3 |]. split; [exact S2 |].
  split; [exact S4 |]. split; [exact S5 |]. split; [congruence |].
  split.
  - rewrite S7, F9. destruct (same_id (lastClosedAreaId p) a) eqn:E;
      [reflexivity | exact E].
  - destruct interactionType; tauto.
Qed.

(** X20.  Selecting the open area again closes the panel.  For a known
    area that is not open and not held back by a recent close, a first
    selection opens the panel on it (panel active, area selected, its
    element the only one with the class [selected], and focused); a second
    selection of the same area, by whatever interaction and at whatever
    time, closes it: panel not active, nothing selected, no element with
    the class [selected], no auto-hide timeout pending, and the close is
    recorded with its area, time and interaction type. *)
Theorem selecting_open_area_closes_panel (a : string)
    (ty1 ty2 : Interaction) (t1 t2 : num) (p : Panel) :
  timeoutsTracked p -> In a (posterAreas p) ->
  same_id (selectedArea p) a && panelActive p = false ->
  same_id (lastClosedAreaId p) a = false ->
  let p1 := selectArea a ty1 t1 p in
  let p2 := selectArea a ty2 t2 p1 in
  (panelActive p1 = true /\ selectedArea p1 = Some a /\
   panelShows p1 = Some a /\ selectedElements p1 = [a] /\
   focusedElement p1 = Some a) /\
  (panelActive p2 = false /\ selectedArea p2 = None /\
   selectedElements p2 = [] /\ infoAutoHideTimer p2 = None /\
   (forall h, ~ autoHidePending h p2) /\
   lastClosedAreaId p2 = Some a /\ lastClosedTime p2 = t2 /\
   lastClosedInteractionType p2 = Some ty2).
Proof.
  intros Ht Hin Hclosed Hlast p1 p2.
  destruct (selectArea_opens a ty1 t1 p Hin Hclosed)
    as (O1 & O2 & O3 & O4 & O5 & O6 & O7 & _).
  { now rewrite Hlast. }
  fold p1 in O1, O2, O3, O4, O5, O6, O7.
  pose proof (selectArea_tracked a ty1 t1 p Ht) as Ht1. fold p1 in Ht1.
  clearbody p1.
  split; [auto |].
  pose proof (selectArea_cases a ty2 t2 p1) as Hc.
  cbv zeta in Hc. fold p2 in Hc.
  rewrite O7, O2, O1, same_id_refl in Hc. cbn [andb] in Hc.
  destruct (hideInfo_fields p1) as (H1 & H2 & H3 & _ & _ & _ & H7 & _).
  pose proof (hideInfo_no_autoHide p1 Ht1) as Hno.
  cbv zeta in *. rewrite O2 in H7.
  set (q := hideInfo p1) in *. clearbody q. clearbody p2. subst p2.
  cbn. conj_split; auto.
Qed.

Lemma selecting_open_area_closes_panel_witness :
  let p := initialPanel ["A1"%string; "B2"%string] in
  let p2 := selectArea "B2"%string ByTouch #900
              (selectArea "B2"%string ByMouse #100 p) in
  panelActive p2 = false /\ lastClosedInteractionType p2 = Some ByTouch.
Proof.
  intros p.
  assert (Ht : timeoutsTracked p)
    by (apply no_autoHide_tracked; intros h []).
  destruct (selecting_open_area_closes_panel "B2"%string ByMouse ByTouch
              #100 #900 p Ht ltac:(cbn; auto) eq_refl eq_refl)
    as (_ & H1 & _ & _ & _ & _ & _ & _ & H8).
  auto.
Defined.

(** X21.  A touch close holds the area closed for 350 ms.  In a state
    where the known area [a] was the last one closed, at time [t], and the
    panel is closed: when it was closed by touch, selecting [a] again at a
    time [t' < t + 350] changes nothing at all, and at [t' >= t + 350] it
    opens the panel on [a]; when it was closed by mouse or keyboard,
    selecting [a] again opens the panel at once.  Opening forgets the last
    close. *)
Theorem touch_close_holds_area_closed (a : string) (ty : Interaction)
    (t t' : R) (p : Panel) :
  In a (posterAreas p) -> panelActive p = false ->
  lastClosedAreaId p = Some a -> lastClosedTime p = #t ->
  let p' := selectArea a ty #t' p in
  let opened :=
    panelActive p' = true /\ selectedArea p' = Some a /\
    selectedElements p' = [a] /\ lastClosedAreaId p' = None /\
    lastClosedInteractionType p' = None in
  (lastClosedInteractionType p = Some ByTouch ->
   (t' - t < 350)%R -> p' = p) /\
  (lastClosedInteractionType p = Some ByTouch ->
   (350 <= t' - t)%R -> opened) /\
  (lastClosedInteractionType p <> Some ByTouch -> opened).
Proof.
  intros Hin Hact Hid Htime p' opened.
  assert (Hopen :
            match lastClosedInteractionType p with
            | Some ByTouch => true
            | _ => false
            end && lt (#t' - #t) #350 = false -> opened).
  { intros Hrecent.
    destruct (selectArea_opens a ty #t' p Hin)
      as (O1 & O2 & _ & O4 & _).
    { rewrite Hact. apply andb_false_r. }
    { rewrite Htime, Hrecent. apply andb_false_r. }
    fold p' in O1, O2, O4.
    pose proof (selectArea_cases a ty #t' p) as Hc.
    cbv zeta in Hc. fold p' in Hc.
    rewrite Hid, same_id_refl, Htime, Hrecent, Hact, (known_area a _ Hin)
      in Hc.
    cbn [andb] in Hc. rewrite andb_false_r in Hc.
    match type of Hc with
    | _ = showAreaInfo ?x ?u ?s =>
        destruct (showAreaInfo_fields x u s)
          as (_ & _ & _ & _ & _ & _ & S7 & _ & S9 & _)
    end.
    cbv zeta in S7, S9. rewrite <- Hc in S7, S9.
    subst opened. auto. }
  conj_split.
  - intros Hty Hlt.
    pose proof (selectArea_cases a ty #t' p) as Hc.
    cbv zeta in Hc. fold p' in Hc.
    rewrite Hid, same_id_refl, Htime, Hty in Hc.
    autorewrite with js in Hc. rewrite lt_fin in Hc.
    destruct (Rlt_dec (t' - t) 350); [exact Hc | contradiction].
  - intros Hty Hge. apply Hopen. rewrite sub_fin, lt_fin.
    destruct (Rlt_dec (t' - t) 350); [lra | apply andb_false_r].
  - intros Hty. apply Hopen.
    destruct (lastClosedInteractionType p) as [[| |] |];
      try reflexivity. contradiction.
Qed.

Lemma touch_close_holds_area_closed_witness :
  let p := set_lastClosedInteractionType (Some ByTouch)
             (set_lastClosedTime #1000
                (set_lastClosedAreaId (Some "A1"%string)
                   (initialPanel ["A1"%string]))) in
  selectArea "A1"%string ByTouch #1200 p = p.
Proof.
  intros p.
  destruct (touch_close_holds_area_closed "A1"%string ByTouch 1000 1200 p
              ltac:(cbn; auto) eq_refl eq_refl eq_refl)
    as (H & _).
  apply H; [reflexivity | lra].
Defined.

(** X22.  The panel hides itself only after a mouse or keyboard
    selection, and only through its own timeout.  Opening the panel on a
    known area by touch leaves no auto-hide timeout pending.  Opening it by
    mouse or keyboard leaves exactly one, under a fresh handle; any timeout
    that was pending before is cancelled, and its handle firing later
    changes nothing; when the new timeout fires, the panel closes and the
    selection is cleared, with no auto-hide timeout left. *)
Theorem auto_hide_only_by_own_timeout (a : string) (ty : Interaction)
    (now : num) (p : Panel) :
  timeoutsTracked p -> In a (posterAreas p) ->
  same_id (selectedArea p) a && panelActive p = false ->
  same_id (lastClosedAreaId p) a = false ->
  let p1 := selectArea a ty now p in
  (ty = ByTouch ->
   infoAutoHideTimer p1 = None /\ forall h, ~ autoHidePending h p1) /\
  (ty <> ByTouch ->
   exists h,
     infoAutoHideTimer p1 = Some h /\ autoHidePending h p1 /\
     (forall h', autoHidePending h' p1 -> h' = h) /\
     (forall h', autoHidePending h' p -> h' <> h) /\
     let p2 := autoHideFires h p1 in
     panelActive p2 = false /\ selectedArea p2 = None /\
     selectedElements p2 = [] /\ infoAutoHideTimer p2 = None /\
     forall h', ~ autoHidePending h' p2) /\
  (forall h, autoHidePending h p ->
     ~ autoHidePending h p1 /\ autoHideFires h p1 = p1).
Proof.
  intros Ht Hin Hclosed Hlast p1.
  destruct (selectArea_opens a ty now p Hin Hclosed)
    as (O1 & O2 & _ & O4 & _ & _ & _ & Oty).
  { now rewrite Hlast. }
  fold p1 in O1, O2, O4, Oty.
  pose proof (selectArea_tracked a ty now p Ht) as Ht1. fold p1 in Ht1.
  pose proof (tracked_cleared p Ht) as Hno.
  clearbody p1.
  assert (Hstale : forall h, ~ autoHidePending h p1 ->
                             autoHideFires h p1 = p1).
  { intros h Hnp. unfold autoHideFires.
    destruct (existsb _ (timeouts p1)) eqn:E; [| reflexivity].
    exfalso. apply existsb_exists in E as ([h' cb] & Hin' & Hcond).
    cbn in Hcond. apply andb_true_iff in Hcond as [Hh Hcb].
    apply Nat.eqb_eq in Hh. subst h'. destruct cb; [| discriminate].
    exact (Hnp Hin'). }
  conj_split.
  - intros ->. destruct Oty as (T1 & T2). split; [exact T1 |].
    intros h Hp. unfold autoHidePending in Hp. rewrite T2 in Hp.
    exact (Hno h Hp).
  - intros Hty.
    assert (Htimer : infoAutoHideTimer p1 = Some (nextTimeout p) /\
                     timeouts p1
                     = cleared (infoAutoHideTimer p) (timeouts p)
                       ++ [(nextTimeout p, AutoHide)])
      by (destruct ty; [exact Oty | contradiction | exact Oty]).
    destruct Htimer as (T1 & T2).
    assert (Hpend : autoHidePending (nextTimeout p) p1).
    { unfold autoHidePending. rewrite T2. apply in_or_app. right. now left. }
    exists (nextTimeout p).
    split; [exact T1 |]. split; [exact Hpend |].
    split.
    { intros h' Hp. destruct Ht1 as [Ha _].
      destruct (Ha h' Hp) as (Hh & _). congruence. }
    split.
    { intros h' Hp. destruct Ht as [Ha _].
      destruct (Ha h' Hp) as (_ & Hlt & _). lia. }
    cbv zeta.
    assert (Hfire : autoHideFires (nextTimeout p) p1
                    = hideInfo (clearTimeout (nextTimeout p) p1)).
    { unfold autoHideFires.
      assert (E : existsb
                    (fun e => Nat.eqb (fst e) (nextTimeout p)
                              && match snd e with
                                 | AutoHide => true
                                 | PosterInfo => false
                                 end) (timeouts p1) = true).
      { apply existsb_exists. exists (nextTimeout p, AutoHide).
        split; [exact Hpend |]. cbn. now rewrite Nat.eqb_refl. }
      rewrite E. cbv zeta.
      assert (Ha : panelActive (clearTimeout (nextTimeout p) p1)
                   = panelActive p1) by reflexivity.
      now rewrite Ha, O1. }
    rewrite Hfire.
    pose proof (clearTimeout_tracked (nextTimeout p) p1 Ht1) as Ht2.
    destruct (hideInfo_fields (clearTimeout (nextTimeout p) p1))
      as (H1 & H2 & H3 & _ & _ & _ & H7 & _).
    pose proof (hideInfo_no_autoHide _ Ht2) as Hno2.
    cbv zeta in *.
    assert (Hsel : selectedArea (clearTimeout (nextTimeout p) p1) = Some a)
      by exact O2.
    rewrite Hsel in H7. auto.
  - intros h Hp.
    assert (Hnp : ~ autoHidePending h p1).
    { intros Hp1. destruct Ht as [Ha _].
      destruct (Ha h Hp) as (Hh & Hlt & _).
      unfold autoHidePending in Hp1.
      destruct ty; destruct Oty as (_ & T2); rewrite T2 in Hp1;
        try (apply in_app_or in Hp1 as [Hp1 | [Hp1 | []]];
             [| injection Hp1 as <-; lia]);
        exact (Hno h Hp1). }
    split; [exact Hnp | now apply Hstale].
Qed.

Lemma auto_hide_only_by_own_timeout_witness :
  let p := initialPanel ["A1"%string; "B2"%string] in
  let p1 := selectArea "A1"%string ByMouse #100 p in
  exists h, infoAutoHideTimer p1 = Some h /\
            panelActive (autoHideFires h p1) = false.
Proof.
  intros p p1.
  assert (Ht : timeoutsTracked p)
    by (apply no_autoHide_tracked; intros h []).
  destruct (auto_hide_only_by_own_timeout "A1"%string ByMouse #100 p Ht
              ltac:(cbn; auto) eq_refl eq_refl)
    as (_ & H & _).
  destruct (H ltac:(discriminate)) as (h & H1 & _ & _ & _ & H5 & _).
  exists h. split; [exact H1 | exact H5].
Defined.

(* ================================================================= *)
(** * Full screen and the table-only toggle *)

Lemma updateFullScreenUI_shown (s : Screen) :
  bodyMapFullscreen s = isFullScreen s ->
  fullscreenShown (updateFullScreenUI s).
Proof.
  intros Hb. unfold updateFullScreenUI, fullscreenShown.
  destruct s as [fs body tonly btn tbtn last active]. cbn in *.
  destruct btn as [b |]; cbn.
  - split; [exact Hb |]. intros btn' [= <-]. cbn.
    conj_split; try reflexivity.
    + intros a. destruct (fb_enterIcon b); [intros [= <-] | discriminate].
      reflexivity.
    + intros a. destruct (fb_exitIcon b); [intros [= <-] | discriminate].
      reflexivity.
  - split; [exact Hb |]. discriminate.
Qed.

Lemma toggleFullScreen_fields (forceState : option bool) (s : Screen) :
  let s' := toggleFullScreen forceState s in
  isFullScreen s'
  = match forceState with Some b => b | None => negb (isFullScreen s) end /\
  bodyTableOnly s' = bodyTableOnly s /\ toggleBtn s' = toggleBtn s /\
  lastTouchToggle s' = lastTouchToggle s /\
  activeTouchPointerId s' = activeTouchPointerId s.
Proof.
  unfold toggleFullScreen, updateFullScreenUI.
  destruct s as [fs body tonly btn tbtn last active]. cbn.
  destruct forceState as [[|] |], fs, btn; cbn; repeat split.
Qed.

Lemma toggleFullScreen_shown (forceState : option bool) (s : Screen) :
  fullscreenShown s -> fullscreenShown (toggleFullScreen forceState s).
Proof.
  intros Hs. unfold toggleFullScreen. cbv zeta.
  destruct (Bool.eqb _ _); [exact Hs |].
  now apply updateFullScreenUI_shown.
Qed.

Lemma handleGlobalKeydown_shown (escape : bool) (s : Screen) :
  fullscreenShown s -> fullscreenShown (handleGlobalKeydown escape s).
Proof.
  intros Hs. unfold handleGlobalKeydown.
  destruct (negb escape); [exact Hs |].
  destruct (isFullScreen s); [| exact Hs].
  now apply toggleFullScreen_shown.
Qed.

(** What [applyTableOnlyState] does to the screen and to the map. *)
Lemma applyTableOnlyState_fields (nextState : bool) (s : Screen)
    (st : State) :
  let page := applyTableOnlyState nextState (s, st) in
  bodyTableOnly (fst page) = nextState /\
  isFullScreen (fst page) = (if nextState then false else isFullScreen s) /\
  lastTouchToggle (fst page) = lastTouchToggle s /\
  activeTouchPointerId (fst page) = activeTouchPointerId s /\
  snd page = stopInertiaAndAnimation st /\
  tableOnlyShown (fst page) /\
  (fullscreenShown s -> fullscreenShown (fst page)).
Proof.
  unfold applyTableOnlyState. cbv zeta. cbn [fst snd].
  set (s1 := if nextState && isFullScreen s
             then toggleFullScreen (Some false) s else s).
  assert (H1 : isFullScreen s1 = (if nextState then false else isFullScreen s)
               /\ lastTouchToggle s1 = lastTouchToggle s /\
               activeTouchPointerId s1 = activeTouchPointerId s /\
               (fullscreenShown s -> fullscreenShown s1)).
  { subst s1. destruct nextState; cbn [andb]; [| auto].
    destruct (isFullScreen s) eqn:E; [| auto].
    destruct (toggleFullScreen_fields (Some false) s) as (F1 & _ & _ & F4 & F5).
    cbv zeta in *. conj_split; auto. apply toggleFullScreen_shown. }
  destruct H1 as (A1 & A2 & A3 & A4). clearbody s1.
  destruct s1 as [fs body tonly btn tbtn last active]. cbn in *.
  unfold tableOnlyShown, fullscreenShown. cbn.
  conj_split; try assumption; reflexivity.
Qed.

Lemma handleToggle_fields (s : Screen) (st : State) :
  let page := handleToggle (s, st) in
  bodyTableOnly (fst page) = negb (bodyTableOnly s) /\
  isFullScreen (fst page)
  = (if bodyTableOnly s then isFullScreen s else false) /\
  lastTouchToggle (fst page) = lastTouchToggle s /\
  activeTouchPointerId (fst page) = activeTouchPointerId s /\
  snd page = stopInertiaAndAnimation st /\
  tableOnlyShown (fst page) /\
  (fullscreenShown s -> fullscreenShown (fst page)).
Proof.
  unfold handleToggle. cbn [fst].
  destruct (applyTableOnlyState_fields (negb (bodyTableOnly s)) s st)
    as (H1 & H2 & H3 & H4 & H5 & H6 & H7).
  cbv zeta in *. conj_split; try assumption.
  rewrite H2. now destruct (bodyTableOnly s).
Qed.

(** The two invariants of the screen, and every event keeps them. *)
Lemma screenDispatch_shown (e : ScreenEvent) (page : Screen * State) :
  fullscreenShown (fst page) /\ tableOnlyShown (fst page) ->
  fullscreenShown (fst (screenDispatch e page)) /\
  tableOnlyShown (fst (screenDispatch e page)).
Proof.
  destruct page as [s st]. cbn [fst]. intros [Hf Ht].
  destruct e; cbn [screenDispatch fst snd].
  - split; [now apply toggleFullScreen_shown |].
    destruct (toggleFullScreen_fields None s) as (_ & F2 & F3 & _).
    cbv zeta in *. unfold tableOnlyShown. now rewrite F2, F3.
  - split; [now apply handleGlobalKeydown_shown |].
    unfold handleGlobalKeydown. destruct (negb escape); [exact Ht |].
    destruct (isFullScreen s); [| exact Ht].
    destruct (toggleFullScreen_fields (Some false) s) as (_ & F2 & F3 & _).
    cbv zeta in *. unfold tableOnlyShown. now rewrite F2, F3.
  - unfold toggleClick. cbn [fst].
    destruct (lt _ _); [split; assumption |].
    destruct (handleToggle_fields s st) as (_ & _ & _ & _ & _ & H6 & H7).
    cbv zeta in *. auto.
  - unfold togglePointerDown.
    destruct (negb _); [split; assumption |]. split; assumption.
  - unfold togglePointerUp.
    destruct (_ || _); [split; assumption |].
    unfold handleDirectToggle.
    match goal with
    | |- context [handleToggle (?s1, st)] =>
        destruct (handleToggle_fields s1 st) as (_ & _ & _ & _ & _ & H6 & H7)
    end.
    cbv zeta in *. split; [apply H7; exact Hf | exact H6].
  - unfold togglePointerCancel.
    destruct (activeTouchPointerId s); [| split; assumption].
    destruct (Nat.eqb _ _); split; assumption.
Qed.

(** X23.  The buttons always say what the state is.  Whatever the page
    looks like when the script starts (body classes, button attributes,
    with or without the full-screen button and its icons), after the
    constructor and the table-only initialisation and then any sequence of
    full-screen clicks, key presses, and clicks and pointer events on the
    table-only button: the body class [map-fullscreen] is [isFullScreen],
    every attribute of the full-screen button and of its icons is the one
    [updateFullScreenUI] writes for that value, and the pressed state and
    text of the table-only button are the ones for the body class
    [table-only]. *)
Theorem buttons_mirror_screen_state (events : list ScreenEvent)
    (s0 : Screen) (st0 : State) :
  let page :=
    screenRun events (updateToggleState (constructScreen s0), st0) in
  fullscreenShown (fst page) /\ tableOnlyShown (fst page).
Proof.
  intros page. subst page. unfold screenRun.
  assert (H0 : fullscreenShown
                 (fst (updateToggleState (constructScreen s0), st0)) /\
               tableOnlyShown
                 (fst (updateToggleState (constructScreen s0), st0))).
  { cbn [fst]. split.
    - assert (H : fullscreenShown (constructScreen s0)).
      { unfold constructScreen. cbv zeta.
        apply updateFullScreenUI_shown. now destruct s0. }
      revert H. generalize (constructScreen s0). intros s H.
      destruct s as [fs body tonly btn tbtn last active]. exact H.
    - generalize (constructScreen s0). intros s.
      destruct s as [fs body tonly btn tbtn last active].
      unfold tableOnlyShown. cbn. auto. }
  revert H0. generalize (updateToggleState (constructScreen s0), st0).
  induction events as [| e rest IH]; intros page H; [exact H |].
  cbn [fold_left]. apply IH. now apply screenDispatch_shown.
Qed.

(** X24.  Entering table-only mode leaves full screen and stops the map.
    A toggle from the map view sets the body class [table-only], leaves
    full-screen mode, and stops inertia and the centering animation of the
    map: no loop handle, no velocity, pan and zoom as they were.  A toggle
    back removes the class and leaves the full-screen state as it is.  The
    full-screen toggle itself never touches the table-only class, so full
    screen can be entered in table-only mode. *)
Theorem entering_table_only_leaves_fullscreen (s : Screen) (st : State) :
  let page := handleToggle (s, st) in
  bodyTableOnly (fst page) = negb (bodyTableOnly s) /\
  (bodyTableOnly s = false -> isFullScreen (fst page) = false) /\
  (bodyTableOnly s = true -> isFullScreen (fst page) = isFullScreen s) /\
  panInertiaFrame (snd page) = None /\ panAnimationFrame (snd page) = None /\
  panVelocityX (snd page) = #0 /\ panVelocityY (snd page) = #0 /\
  panX (snd page) = panX st /\ panY (snd page) = panY st /\
  currentZoom (snd page) = currentZoom st /\
  (forall forceState,
      bodyTableOnly (toggleFullScreen forceState s) = bodyTableOnly s) /\
  isFullScreen (toggleFullScreen (Some true) s) = true.
Proof.
  intros page.
  destruct (handleToggle_fields s st) as (H1 & H2 & _ & _ & H5 & _).
  fold page in H1, H2, H5.
  destruct (stopInertiaAndAnimation_fields st)
    as (Hi & Ha & _ & Hvx & Hvy & Hx & Hy & Hz & _).
  cbv zeta in *. rewrite <- H5 in Hi, Ha, Hvx, Hvy, Hx, Hy, Hz.
  conj_split; try assumption.
  - intros E. now rewrite H2, E.
  - intros E. now rewrite H2, E.
  - intros forceState. apply (toggleFullScreen_fields forceState s).
  - apply (toggleFullScreen_fields (Some true) s).
Qed.

(** X25.  A tap on the table-only button toggles once.  A pointer-up of a
    touch or pen pointer (the one that went down on the button, if one is
    recorded) at time [t1] toggles the table-only class; the click the
    browser sends after it, at a time [t2 < t1 + 350], changes nothing; a
    click at [t3 >= t1 + 350] toggles back.  A pointer-up of a mouse
    pointer, or of another pointer than the recorded one, changes
    nothing. *)
Theorem tap_toggles_table_only_once (pointerType : PointerType)
    (pointerId : nat) (t1 : R) (s : Screen) (st : State) :
  isTouchLike pointerType = true ->
  activeTouchPointerId s = None \/ activeTouchPointerId s = Some pointerId ->
  let page1 := togglePointerUp pointerType pointerId #t1 (s, st) in
  bodyTableOnly (fst page1) = negb (bodyTableOnly s) /\
  lastTouchToggle (fst page1) = #t1 /\
  activeTouchPointerId (fst page1) = None /\
  (forall t2, (t2 - t1 < 350)%R -> toggleClick #t2 page1 = page1) /\
  (forall t3, (350 <= t3 - t1)%R ->
     bodyTableOnly (fst (toggleClick #t3 page1)) = bodyTableOnly s) /\
  (forall now page, togglePointerUp PointerMouse pointerId now page = page) /\
  (forall other now st',
     other <> pointerId ->
     togglePointerUp pointerType other now
       (set_activeTouchPointerId (Some pointerId) s, st')
     = (set_activeTouchPointerId (Some pointerId) s, st')).
Proof.
  intros Htouch Hactive page1.
  assert (Hup : page1
                = handleToggle
                    (set_lastTouchToggle #t1
                       (set_activeTouchPointerId None s), st)).
  { subst page1. unfold togglePointerUp, handleDirectToggle.
    rewrite Htouch. cbn [negb orb].
    destruct Hactive as [-> | ->]; [reflexivity |].
    now rewrite Nat.eqb_refl. }
  destruct (handleToggle_fields
              (set_lastTouchToggle #t1 (set_activeTouchPointerId None s)) st)
    as (H1 & _ & H3 & H4 & _).
  cbv zeta in H1, H3, H4. rewrite <- Hup in H1, H3, H4.
  change (lastTouchToggle (set_lastTouchToggle #t1 _)) with #t1 in H3.
  change (activeTouchPointerId (set_lastTouchToggle #t1 _))
    with (@None nat) in H4.
  change (bodyTableOnly (set_lastTouchToggle #t1 _))
    with (bodyTableOnly s) in H1.
  clearbody page1.
  split; [exact H1 |]. split; [exact H3 |]. split; [exact H4 |].
  conj_split.
  - intros t2 Hlt. unfold toggleClick. rewrite H3, sub_fin, lt_fin.
    destruct (Rlt_dec (t2 - t1) 350); [reflexivity | contradiction].
  - intros t3 Hge. unfold toggleClick. rewrite H3, sub_fin, lt_fin.
    destruct (Rlt_dec (t3 - t1) 350); [lra |].
    destruct page1 as [s1 st1].
    destruct (handleToggle_fields s1 st1) as (G1 & _).
    cbv zeta in G1. cbn [fst] in *. rewrite G1, H1.
    apply negb_involutive.
  - intros now [s' st']. reflexivity.
  - intros other now st' Hne. unfold togglePointerUp.
    assert (E : Nat.eqb other pointerId = false)
      by now apply Nat.eqb_neq.
    assert (Ha : activeTouchPointerId
                   (set_activeTouchPointerId (Some pointerId) s)
                 = Some pointerId) by reflexivity.
    rewrite Ha, E. cbn [negb]. now rewrite orb_true_r.
Qed.

Lemma tap_toggles_table_only_once_witness :
  let s := updateToggleState
             (constructScreen
                (mkScreen false false false None
                   (mkToggleButton None None ""%string ""%string) #0 None)) in
  let page1 := togglePointerUp PointerTouch 5 #1000 (s, initialState) in
  bodyTableOnly (fst page1) = negb (bodyTableOnly s) /\
  toggleClick #1100 page1 = page1.
Proof.
  intros s.
  destruct (tap_toggles_table_only_once PointerTouch 5 1000 s initialState
              eq_refl (or_introl eq_refl))
    as (H1 & _ & _ & H4 & _).
  split; [exact H1 |]. apply H4. lra.
Defined.

(* ================================================================= *)
(** * The table scroll fix *)

(** The height [computeHeight] asks for when [available] pixels are free:
    a whole number, at least 180, at most [available] when that is at least
    180, and less than one pixel below it. *)
Lemma nextHeight_whole (a : R) :
  exists n : Z,
    Math_max #180 (Math_floor #a) = #(IZR n) /\ (180 <= n)%Z /\
    (IZR n <= Rmax 180 a)%R /\ (a - 1 < IZR n)%R.
Proof.
  cbn [Math_floor]. rewrite Math_max_fin.
  destruct (base_Int_part a) as [Hle Hgt].
  destruct (Rle_dec 180 (IZR (Int_part a))) as [H | H].
  - exists (Int_part a). rewrite Rmax_right by exact H.
    split; [reflexivity |]. split; [now apply le_IZR |].
    split; [| lra]. unfold Rmax. destruct (Rle_dec 180 a); lra.
  - exists 180%Z. rewrite Rmax_left by lra.
    split; [reflexivity |]. split; [lia |].
    split; [unfold Rmax; destruct (Rle_dec 180 a); lra | lra].
Qed.

Lemma strict_eq_same (x : R) : strict_eq #x #x = true.
Proof. rewrite strict_eq_fin. destruct (Req_dec_T x x); congruence. Qed.

(** What [computeHeight] leaves of the height, on each of its paths. *)
Lemma computeHeight_fields (env : FixEnv) (f : ScrollFix) :
  let f' := computeHeight env f in
  let available := viewportHeight env - tableTop env - #12 in
  let nextHeight := Math_max #180 (Math_floor available) in
  computed f' = S (computed f) /\
  scheduled f' = scheduled f /\ fixFrames f' = fixFrames f /\
  momentumScrollEnabled f' = momentumScrollEnabled f /\
  if negb (mobileMatches env)
  then lastHeight f' = None /\ tableScrollMaxHeight f' = None /\
       styleHeight f' = None /\ styleMaxHeight f' = None
  else if envFullscreen env
  then lastHeight f' = lastHeight f /\
       tableScrollMaxHeight f'
       = match lastHeight f with
         | Some h => Some h
         | None => tableScrollMaxHeight f
         end
  else if negb (Number_isFinite available)
  then lastHeight f' = lastHeight f /\
       tableScrollMaxHeight f' = tableScrollMaxHeight f
  else if match lastHeight f with
          | Some h => strict_eq nextHeight h
          | None => false
          end
  then lastHeight f' = lastHeight f /\
       tableScrollMaxHeight f' = tableScrollMaxHeight f
  else lastHeight f' = Some nextHeight /\
       tableScrollMaxHeight f' = Some nextHeight.
Proof.
  unfold computeHeight. cbv zeta.
  destruct f as [sch last var sh smh mom ofs osb fr cnt].
  destruct env as [mobile fs vh top]. cbn.
  destruct mobile; cbn; [| repeat split].
  destruct fs; cbn; [destruct last; cbn; repeat split |].
  destruct (negb (Number_isFinite (vh - top - #12))); cbn; [repeat split |].
  destruct last as [h |]; cbn; [| repeat split].
  destruct (strict_eq _ h); cbn; repeat split.
Qed.

Lemma computeHeight_shown (env : FixEnv) (f : ScrollFix) :
  heightShown f -> heightShown (computeHeight env f).
Proof.
  intros Hs.
  destruct (computeHeight_fields env f) as (_ & _ & _ & _ & Hc).
  cbv zeta in Hc. unfold heightShown.
  set (f' := computeHeight env f) in *. clearbody f'.
  destruct (negb (mobileMatches env)).
  { destruct Hc as (H1 & _). rewrite H1. discriminate. }
  destruct (envFullscreen env).
  { destruct Hc as (H1 & H2). rewrite H1, H2. intros h Hh.
    destruct (Hs h Hh) as (_ & Hn). rewrite Hh. auto. }
  destruct (viewportHeight env - tableTop env - #12) as [| | | a] eqn:Ea;
    cbn [Number_isFinite negb] in Hc;
    try (destruct Hc as (H1 & H2); rewrite H1, H2; exact Hs).
  destruct (nextHeight_whole a) as (n & Hn & Hge & _).
  destruct (match lastHeight f with
            | Some h => strict_eq (Math_max #180 (Math_floor #a)) h
            | None => false
            end).
  - destruct Hc as (H1 & H2). rewrite H1, H2. exact Hs.
  - destruct Hc as (H1 & H2). rewrite H1, H2. intros h [= <-].
    split; [reflexivity |]. exists n. auto.
Qed.

Lemma ensureMomentumScroll_height (env : FixEnv) (f : ScrollFix) :
  let f' := ensureMomentumScroll env f in
  lastHeight f' = lastHeight f /\
  tableScrollMaxHeight f' = tableScrollMaxHeight f /\
  scheduled f' = scheduled f /\ fixFrames f' = fixFrames f /\
  computed f' = computed f /\
  (mobileMatches env = true -> momentumScrollEnabled f' = true).
Proof.
  unfold ensureMomentumScroll.
  destruct (mobileMatches env); cbn [negb];
    [| repeat split; discriminate].
  destruct (momentumScrollEnabled f) eqn:E; cbn; conj_split;
    try reflexivity; intros _; first [assumption | reflexivity].
Qed.

(** What a display frame does with a queue of at most one callback. *)
Lemma fixFrame_cases (env : FixEnv) (f : ScrollFix) :
  (fixFrames f = [] -> fixFrame env f = set_fixFrames [] f) /\
  (fixFrames f = [OuterFrame] ->
   fixFrame env f = set_fixFrames [InnerFrame] f) /\
  (fixFrames f = [InnerFrame] ->
   fixFrame env f
   = ensureMomentumScroll env
       (computeHeight env (set_scheduled false (set_fixFrames [] f)))).
Proof.
  unfold fixFrame. conj_split; intros ->; reflexivity.
Qed.

Lemma set_fixFrames_same (f : ScrollFix) :
  set_fixFrames (fixFrames f) f = f.
Proof. now destruct f. Qed.

Lemma fixDispatch_invariants (e : FixEvent) (f : ScrollFix) :
  heightShown f /\ fixQueueTracked f ->
  heightShown (fixDispatch e f) /\ fixQueueTracked (fixDispatch e f).
Proof.
  intros [Hs Hq]. destruct e as [| env]; cbn [fixDispatch].
  - unfold scheduleUpdate.
    destruct Hq as [(Hsch & Hfr) | (Hsch & cb & Hfr)]; rewrite Hsch.
    + split; [exact Hs |]. right. cbn. rewrite Hfr.
      split; [reflexivity |]. now exists OuterFrame.
    + split; [exact Hs |]. right. eauto.
  - destruct (fixFrame_cases env f) as (C0 & C1 & C2).
    destruct Hq as [(Hsch & Hfr) | (Hsch & cb & Hfr)].
    + rewrite (C0 Hfr), <- Hfr, set_fixFrames_same.
      split; [exact Hs |]. left. auto.
    + destruct cb.
      * rewrite (C1 Hfr). split; [exact Hs |]. right. cbn.
        split; [exact Hsch |]. now exists InnerFrame.
      * rewrite (C2 Hfr).
        set (f0 := set_scheduled false (set_fixFrames [] f)).
        assert (H0 : heightShown f0) by exact Hs.
        destruct (computeHeight_fields env f0) as (_ & K2 & K3 & _).
        pose proof (computeHeight_shown env f0 H0) as H1.
        cbv zeta in K2, K3.
        destruct (ensureMomentumScroll_height env (computeHeight env f0))
          as (E1 & E2 & E3 & E4 & _).
        cbv zeta in *. split.
        -- unfold heightShown. rewrite E1, E2. exact H1.
        -- left. rewrite E3, E4, K2, K3. auto.
Qed.

Lemma fixRun_invariants (events : list FixEvent) :
  forall f,
    heightShown f /\ fixQueueTracked f ->
    heightShown (fixRun events f) /\ fixQueueTracked (fixRun events f).
Proof.
  induction events as [| e rest IH]; intros f H; [exact H |].
  cbn [fixRun fold_left]. apply IH. now apply fixDispatch_invariants.
Qed.

Lemma initialScrollFix_invariants :
  heightShown initialScrollFix /\ fixQueueTracked initialScrollFix.
Proof. split; [intros h; discriminate | left; auto]. Qed.

(** X26.  The table height is a whole number of pixels, at least 180, and
    the custom property shows it.  After any sequence of update triggers
    and display frames, in whatever environments, a remembered height is a
    whole number at least 180 and [--table-scroll-max-height] holds it.  On
    a mobile viewport outside full screen, with [available] free pixels (a
    finite number), [computeHeight] leaves the height
    [max 180 (floor available)]: at least 180, at most [max 180 available],
    and less than one pixel below [available]; calling it again in the same
    environment changes neither the height nor the property.  In full
    screen it never recomputes the height, and on a viewport that is not
    mobile it forgets the height and removes the property. *)
Theorem table_height_whole_pixels (events : list FixEvent) (env : FixEnv) :
  let f := fixRun events initialScrollFix in
  let f' := computeHeight env f in
  heightShown f /\ heightShown f' /\
  lastHeight (computeHeight env f') = lastHeight f' /\
  tableScrollMaxHeight (computeHeight env f') = tableScrollMaxHeight f' /\
  (mobileMatches env = false ->
   lastHeight f' = None /\ tableScrollMaxHeight f' = None) /\
  (mobileMatches env = true -> envFullscreen env = true ->
   lastHeight f' = lastHeight f) /\
  (forall a,
      mobileMatches env = true -> envFullscreen env = false ->
      viewportHeight env - tableTop env - #12 = #a ->
      exists n : Z,
        lastHeight f' = Some #(IZR n) /\
        tableScrollMaxHeight f' = Some #(IZR n) /\
        (180 <= n)%Z /\ (IZR n <= Rmax 180 a)%R /\ (a - 1 < IZR n)%R).
Proof.
  intros f f'.
  destruct (fixRun_invariants events _ initialScrollFix_invariants)
    as (Hs & _).
  fold f in Hs. clearbody f.
  pose proof (computeHeight_shown env f Hs) as Hs'. fold f' in Hs'.
  split; [exact Hs |]. split; [exact Hs' |].
  destruct (computeHeight_fields env f) as (_ & _ & _ & _ & Hc).
  destruct (computeHeight_fields env f') as (_ & _ & _ & _ & Hc').
  cbv zeta in Hc, Hc'. fold f' in Hc.
  set (f'' := computeHeight env f') in *. clearbody f'' f'.
  destruct (mobileMatches env); cbn [negb] in *.
  2:{ destruct Hc as (H1 & H2 & _). destruct Hc' as (H1' & H2' & _).
      conj_split; try congruence; try discriminate. auto. }
  destruct (envFullscreen env).
  { destruct Hc as (H1 & H2). destruct Hc' as (H1' & H2').
    conj_split; try congruence; try discriminate.
    rewrite H2'. destruct (lastHeight f') as [h |] eqn:E; [| reflexivity].
    destruct (Hs' h E) as (Hv & _). congruence. }
  destruct (viewportHeight env - tableTop env - #12) as [| | | a] eqn:Ea;
    cbn [Number_isFinite negb] in Hc, Hc';
    try (destruct Hc as (H1 & H2); destruct Hc' as (H1' & H2');
         conj_split; try congruence; discriminate).
  destruct (nextHeight_whole a) as (n & Hn & Hge & Hle & Hgt).
  rewrite Hn in Hc, Hc'.
  assert (Hlast : lastHeight f' = Some #(IZR n) /\
                  tableScrollMaxHeight f' = Some #(IZR n)).
  { destruct (lastHeight f) as [h |] eqn:E.
    - destruct h as [| | | x]; try (exact Hc).
      rewrite strict_eq_fin in Hc.
      destruct (Req_dec_T (IZR n) x) as [<- | Hne]; [| exact Hc].
      destruct Hc as (H1 & H2). destruct (Hs _ E) as (Hv & _).
      split; congruence.
    - exact Hc. }
  destruct Hlast as (L1 & L2).
  rewrite L1, strict_eq_same in Hc'. destruct Hc' as (H1' & H2').
  conj_split; try congruence; try discriminate.
  intros a' _ _ [= <-]. exists n. auto.
Qed.

Lemma scheduleUpdate_repeat (k : nat) (f : ScrollFix) :
  scheduled f = true -> fixRun (repeat FixTrigger k) f = f.
Proof.
  intros H. induction k as [| k IH]; [reflexivity |].
  cbn [repeat fixRun fold_left fixDispatch]. unfold scheduleUpdate.
  rewrite H. exact IH.
Qed.

Lemma fixRun_app (l1 l2 : list FixEvent) (f : ScrollFix) :
  fixRun (l1 ++ l2) f = fixRun l2 (fixRun l1 f).
Proof. unfold fixRun. apply fold_left_app. Qed.

(** X27.  Update triggers are coalesced.  After any sequence of triggers
    and display frames at most one callback of the fix is queued, and one
    is queued exactly when an update is scheduled.  When none is scheduled,
    any number of triggers (at least one) followed by two display frames
    runs [computeHeight] exactly once, in the environment of the second
    frame, and leaves nothing scheduled; on a mobile viewport momentum
    scrolling is then enabled. *)
Theorem table_update_coalesced (events : list FixEvent) (k : nat)
    (env1 env2 : FixEnv) :
  let f := fixRun events initialScrollFix in
  let f' := fixRun (repeat FixTrigger (S k) ++ [FixFrame env1; FixFrame env2])
              f in
  fixQueueTracked f /\
  (length (fixFrames f) <= 1)%nat /\
  (scheduled f = false ->
   computed f' = S (computed f) /\
   scheduled f' = false /\ fixFrames f' = [] /\
   lastHeight f' = lastHeight (computeHeight env2 f) /\
   tableScrollMaxHeight f' = tableScrollMaxHeight (computeHeight env2 f) /\
   (mobileMatches env2 = true -> momentumScrollEnabled f' = true)).
Proof.
  intros f f'.
  destruct (fixRun_invariants events _ initialScrollFix_invariants)
    as (_ & Hq).
  fold f in Hq. clearbody f.
  split; [exact Hq |]. split.
  { destruct Hq as [(_ & ->) | (_ & cb & ->)]; cbn; lia. }
  intros Hsch.
  destruct Hq as [(_ & Hfr) | (Hsch' & _)]; [| congruence].
  assert (Hfirst : fixRun (repeat FixTrigger (S k)) f
                   = set_fixFrames [OuterFrame] (set_scheduled true f)).
  { cbn [repeat fixRun fold_left fixDispatch]. unfold scheduleUpdate.
    rewrite Hsch. cbv zeta.
    change (fold_left (fun s e => fixDispatch e s) (repeat FixTrigger k) ?x)
      with (fixRun (repeat FixTrigger k) x).
    rewrite scheduleUpdate_repeat by reflexivity.
    cbn. now rewrite Hfr. }
  subst f'. rewrite fixRun_app, Hfirst.
  cbn [fixRun fold_left fixDispatch].
  destruct f as [sch last var sh smh mom ofs osb fr cnt].
  cbn in Hsch, Hfr. subst sch fr.
  unfold fixFrame at 2. cbn [fixFrames set_fixFrames fold_left runFixCallback
                              set_scheduled app].
  unfold fixFrame. cbn [fixFrames set_fixFrames fold_left runFixCallback
                        set_scheduled app].
  match goal with
  | |- context [ensureMomentumScroll env2 (computeHeight env2 ?g)] =>
      set (g0 := g)
  end.
  destruct (computeHeight_fields env2 g0) as (K1 & K2 & K3 & _).
  destruct (ensureMomentumScroll_height env2 (computeHeight env2 g0))
    as (E1 & E2 & E3 & E4 & E5 & E6).
  cbv zeta in *.
  rewrite E1, E2, E3, E4, E5, K1, K2, K3.
  split; [reflexivity |]. split; [reflexivity |]. split; [reflexivity |].
  split; [reflexivity |]. split; [reflexivity | exact E6].
Qed.
